(** * Coordinates: the Coordinate base class and the CoordinateSystem composite

    A shallow embedding of
      code/coordinates/implement/Coordinates/Coordinate.cc
      code/coordinates/implement/Coordinates/CoordinateSystem.cc

    - [Double] is the IEEE binary64 type of the kernel, so that arithmetic on
      reference pixels and increments is the arithmetic of the C++ code.
    - [Int] and [uInt] values are axis numbers and counts; they are modelled
      as [Z] and [nat], far from the 32-bit wrap-around.
    - [Vector<T>] and [Block<T>] are lists.  An access outside a vector or a
      block is undefined behaviour in the C++; where the code can reach one
      it is the outcome [Throw OutOfBounds].
    - [AlwaysAssert] throws [AipsError]: the outcome [Throw AipsError].
    - Storage that the code allocates and does not write holds values the
      program does not determine: a function that allocates such storage
      is given what it holds as an argument ([Uninitialised] for the
      vectors of [addCoordinate]).
    - The concrete coordinates (Linear, Direction, Spectral, Stokes,
      Tabular) are not part of these two files: the code sees them through
      the virtual functions of [Coordinate], the class [Coordinate.Virtuals]
      below. *)

From Stdlib Require Import ZArith List Bool String Lia Permutation.
From Stdlib Require Import Floats.PrimFloat Uint63.
From stdpp Require Import base option list gmap strings pretty.

(** ** Numbers *)

(** [Double]: the C++ [double]. *)
Abbreviation Double := float.

(** [Double(i)] for an [Int] i: exact for every 32-bit value. *)
Definition Double_of_Int (i : Z) : Double :=
  match i with
  | Z0 => 0%float
  | Zpos _ => PrimFloat.of_uint63 (Uint63.of_Z i)
  | Zneg p => PrimFloat.opp (PrimFloat.of_uint63 (Uint63.of_Z (Zpos p)))
  end.

(** aips/Mathematics/Math.h *)
Module Math.

Definition fmax (a b : Double) : Double :=
  if PrimFloat.ltb a b then b else a.

(** Modelled from the spec: [::near] belongs to aips/Mathematics/Math.h,
    outside the two files.  It is the relative-equality predicate
    [|a - b| <= tol * max(|a|, |b|)]. *)
Definition near_tol (a b tol : Double) : bool :=
  PrimFloat.leb (PrimFloat.abs (PrimFloat.sub a b))
                (PrimFloat.mul tol (fmax (PrimFloat.abs a) (PrimFloat.abs b))).

(** The default tolerance of [::near] on doubles, 1.0e-13 (the closest
    binary64 value). *)
Definition default_tol : Double := 0x1.c25c268497682p-44%float.

Definition near (a b : Double) : bool := near_tol a b default_tol.

End Math.

(** ** Outcomes of code that can throw *)

Inductive Exn : Type :=
| AipsError      (* thrown by AlwaysAssert *)
| OutOfBounds.   (* an access outside a Vector or a Block *)

Inductive Outcome (A : Type) : Type :=
| Done (a : A)
| Throw (e : Exn).
Arguments Done {A} a.
Arguments Throw {A} e.

#[global] Instance Outcome_ret : MRet Outcome := @Done.
#[global] Instance Outcome_bind : MBind Outcome :=
  fun A B f m => match m with Done a => f a | Throw e => Throw e end.
#[global] Instance Outcome_fmap : FMap Outcome :=
  fun A B f m => match m with Done a => Done (f a) | Throw e => Throw e end.

Definition AlwaysAssert (b : bool) : Outcome unit :=
  if b then Done tt else Throw AipsError.

(** [v(i)] read and [v(i) = x] write, with [i] a [uInt]. *)
Definition at_nat {A : Type} (v : list A) (i : nat) : Outcome A :=
  match v !! i with
  | Some x => Done x
  | None => Throw OutOfBounds
  end.

Definition set_nat {A : Type} (v : list A) (i : nat) (x : A)
  : Outcome (list A) :=
  if decide (i < length v) then Done (<[i := x]> v) else Throw OutOfBounds.

(** The same with [i] an [Int]. *)
Definition at_Z {A : Type} (v : list A) (i : Z) : Outcome A :=
  if (i <? 0)%Z then Throw OutOfBounds else at_nat v (Z.to_nat i).

Definition set_Z {A : Type} (v : list A) (i : Z) (x : A) : Outcome (list A) :=
  if (i <? 0)%Z then Throw OutOfBounds else set_nat v (Z.to_nat i) x.

(** The object after a call of a member function that writes its members
    only once nothing can throw any more: what the call returns or, when
    it throws, the object as it was. *)
Definition after {S : Type} (before : S) (call : Outcome S) : S :=
  match call with
  | Done s => s
  | Throw _ => before
  end.

(** A loop whose body can throw. *)
Fixpoint foldM {A S : Type} (f : S -> A -> Outcome S) (l : list A) (s : S)
  : Outcome S :=
  match l with
  | [] => Done s
  | a :: l' => s' ← f s a; foldM f l' s'
  end.

Fixpoint mapM_Outcome {A B : Type} (f : A -> Outcome B) (l : list A)
  : Outcome (list B) :=
  match l with
  | [] => Done []
  | a :: l' => b ← f a; bs ← mapM_Outcome f l'; Done (b :: bs)
  end.

(** ** Matrices and records *)

(** [Matrix<Double>]: its shape and its columns (the storage is
    column-major; each column is one point of a bulk conversion). *)
Record Matrix : Type := mkMatrix {
  nrow : nat;
  ncolumn : nat;
  mcols : list (list Double)
}.

(** [m(i,j)] read. *)
Definition matrix_at (m : Matrix) (i j : Z) : Outcome Double :=
  c ← at_Z (mcols m) j; at_Z c i.

(** [m(i,j) = x] write. *)
Definition matrix_set (m : Matrix) (i j : Z) (x : Double) : Outcome Matrix :=
  c ← at_Z (mcols m) j;
  c' ← set_Z c i x;
  cs ← set_Z (mcols m) j c';
  Done (mkMatrix (nrow m) (ncolumn m) cs).

(** [Matrix<Double> m(nr,nc); m = 0.0]. *)
Definition zero_matrix (nr nc : nat) : Matrix :=
  mkMatrix nr nc (replicate nc (replicate nr 0%float)).

(** A [Record] (the [RecordInterface] container): named fields holding
    integer vectors, double vectors or sub-records. *)
#[warnings="-register-all"]
Inductive RecordField : Type :=
| FieldInt (v : list Z)
| FieldDouble (v : list Double)
| FieldRecord (r : gmap string RecordField).

(** ** The Coordinate base class *)

Module Coordinate.

Inductive Type_ : Type :=
| LINEAR | DIRECTION | SPECTRAL | STOKES | TABULAR | COORDSYS.

#[global] Instance Type_eq_dec : EqDecision Type_.
Proof. solve_decision. Defined.

(** What a conversion leaves behind: its flag, the output vector, and the
    error message it set (read back with [errorMessage()]). *)
Record Conversion : Type := mkConversion {
  conv_ok : bool;
  conv_out : list Double;
  conv_err : string
}.

(** The virtual functions of [Coordinate] that the two files call.
    [toWorld c world pixel] gets the caller's [world] vector, which the C++
    function overwrites; the setters return their flag and the coordinate
    they leave. *)
Class Virtuals (C : Type) : Type := {
  type : C -> Type_;
  nPixelAxes : C -> nat;
  nWorldAxes : C -> nat;
  toWorld : C -> list Double -> list Double -> Conversion;
  toPixel : C -> list Double -> list Double -> Conversion;
  worldAxisNames : C -> list string;
  worldAxisUnits : C -> list string;
  referencePixel : C -> list Double;
  referenceValue : C -> list Double;
  increment : C -> list Double;
  linearTransform : C -> Matrix;
  setWorldAxisNames : C -> list string -> bool * C;
  setReferencePixel : C -> list Double -> bool * C;
  setReferenceValue : C -> list Double -> bool * C;
  setIncrement : C -> list Double -> bool * C;
  setLinearTransform : C -> Matrix -> bool * C;
  near : C -> C -> list Z -> Double -> bool;
  save : C -> gmap string RecordField -> string -> bool * gmap string RecordField
}.

(** *** The bulk conversions, Coordinate.cc 73-186

    [toWorldMany] and [toPixelMany] are the same loop over the columns of
    the input, around [toWorld] and around [toPixel].  [many_step] is the
    body of that loop for column [l]: [inTmp] is [pixTmp] (resp.
    [worldTmp]), [lastIn] is [lastPix] (resp. [lastWorld]), [outTmp] is the
    vector the scalar conversion writes.  A column of the output matrix is
    [Some v] once the loop has written it and [None] while it holds what
    [resize] left there. *)

Record ManyState : Type := mkManyState {
  lastIn : list Double;
  outTmp : list Double;
  out : list (option (list Double));
  failures : list Z;
  nError : nat;
  errorMsg : string
}.

(** The inner loop that fills [inTmp] and computes [same]. *)
Definition same_column (l : nat) (inTmp last : list Double) : bool :=
  fold_left
    (fun same ab =>
       if (l =? 0) || (negb (l =? 0) && negb (Math.near ab.1 ab.2))
       then false else same)
    (zip inTmp last) true.

Definition record_failure (st : ManyState) (l : nat) (msg : string)
  : list Z * nat * string :=
  let nError' := S (nError st) in
  let failures1 :=
    if decide (length (failures st) < nError')
    then resize (2 * nError') 0%Z (failures st) else failures st in
  (<[nError' - 1 := Z.of_nat l]> failures1,
   nError',
   if nError' =? 1 then msg else errorMsg st).

Definition many_step (conv : list Double -> list Double -> Conversion)
    (st : ManyState) (column : list Double) : ManyState :=
  let l := length (out st) in
  let inTmp := column in
  if same_column l inTmp (lastIn st) then
    mkManyState inTmp (outTmp st) (out st ++ [Some (outTmp st)])
                (failures st) (nError st) (errorMsg st)
  else
    let r := conv (outTmp st) inTmp in
    if negb (conv_ok r) then
      let '(fs, n, msg) := record_failure st l (conv_err r) in
      mkManyState inTmp (conv_out r) (out st ++ [None]) fs n msg
    else
      mkManyState inTmp (conv_out r) (out st ++ [Some (conv_out r)])
                  (failures st) (nError st) (errorMsg st).

Definition many_init (nIn nOut : nat) (failures0 : list Z) : ManyState :=
  mkManyState (replicate nIn 0%float) (replicate nOut 0%float) []
              failures0 0 "".

Definition many_loop (conv : list Double -> list Double -> Conversion)
    (nIn nOut : nat) (columns : list (list Double)) (failures0 : list Z)
  : ManyState :=
  fold_left (many_step conv) columns (many_init nIn nOut failures0).

(** What a bulk conversion hands back: the count it returns, the output
    matrix, the [failures] vector, and the message it puts back with
    [set_error] when there was a failure. *)
Record ManyResult : Type := mkManyResult {
  many_nError : nat;
  many_out : list (option (list Double));
  many_failures : list Z;
  many_error : option string
}.

Definition many_result (st : ManyState) : ManyResult :=
  mkManyResult (nError st) (out st) (failures st)
               (if nError st =? 0 then None else Some (errorMsg st)).

(** The failure columns a bulk conversion reports: the first [nError]
    entries of [failures]. *)
Definition reported (r : ManyResult) : list Z :=
  take (many_nError r) (many_failures r).

(** Reading the loop: the column that [lastIn] holds when column [t] is
    looked at; whether column [t] is converted (not copied from the last
    conversion); whether it is converted and the conversion fails. *)
Definition previous_column (nIn : nat) (columns : list (list Double)) (t : nat)
  : list Double :=
  match t with
  | 0 => replicate nIn 0%float
  | S t' => default [] (columns !! t')
  end.

Definition converted (nIn : nat) (columns : list (list Double)) (t : nat) : bool :=
  match columns !! t with
  | Some column => negb (same_column t column (previous_column nIn columns t))
  | None => false
  end.

Definition conversion_fails (conv : list Double -> list Double -> Conversion)
    (nIn : nat) (columns : list (list Double)) (t : nat) : bool :=
  match columns !! t with
  | Some column => converted nIn columns t && negb (conv_ok (conv [] column))
  | None => false
  end.

(** The columns that are converted and fail, in increasing order. *)
Definition failing_columns (conv : list Double -> list Double -> Conversion)
    (nIn : nat) (columns : list (list Double)) : list Z :=
  map Z.of_nat
      (List.filter (conversion_fails conv nIn columns) (seq 0 (length columns))).

(** A scalar conversion that treats its output vector as an output: neither
    its flag nor, when it succeeds, its result depends on what the vector
    held before. *)
Definition out_parameter (conv : list Double -> list Double -> Conversion) : Prop :=
  forall w w' p,
    conv_ok (conv w p) = conv_ok (conv w' p) /\
    (conv_ok (conv w p) = true -> conv_out (conv w p) = conv_out (conv w' p)).

(** What a bulk conversion around [conv] returns in [r] for the columns
    [columns]:
    - a column that is converted holds the scalar result when the scalar
      conversion succeeds and is left unwritten when it fails, and it is
      reported as a failure exactly when the scalar conversion fails;
    - a column that is not converted (every element near-equal to the
      previous column's) and whose previous column was written holds a
      copy of that column's output, and is not reported. *)
Definition bulk_spec (conv : list Double -> list Double -> Conversion)
    (nIn : nat) (columns : list (list Double)) (r : ManyResult) : Prop :=
  length (many_out r) = length columns /\
  (forall t column w,
      columns !! t = Some column -> converted nIn columns t = true ->
      many_out r !! t
      = Some (if conv_ok (conv w column)
              then Some (conv_out (conv w column)) else None) /\
      (In (Z.of_nat t) (reported r) <-> conv_ok (conv w column) = false)) /\
  (forall t column v,
      columns !! t = Some column -> converted nIn columns t = false ->
      0 < t -> many_out r !! (t - 1) = Some (Some v) ->
      many_out r !! t = Some (Some v) /\ ~ In (Z.of_nat t) (reported r)).

(** What the loop has established once it has gone through [columns]. *)
Record loop_invariant (conv : list Double -> list Double -> Conversion)
    (nIn : nat) (columns : list (list Double)) (st : ManyState) : Prop :=
  mkLoopInvariant {
  inv_length : length (out st) = length columns;
  inv_lastIn : lastIn st = previous_column nIn columns (length columns);
  inv_room : nError st <= length (failures st);
  inv_failures :
    take (nError st) (failures st) = failing_columns conv nIn columns;
  inv_converted : forall t column w,
      columns !! t = Some column -> converted nIn columns t = true ->
      out st !! t
      = Some (if conv_ok (conv w column)
              then Some (conv_out (conv w column)) else None);
  inv_copied : forall t column,
      columns !! t = Some column -> converted nIn columns t = false ->
      exists v, out st !! t = Some (Some v) /\
                forall u, 0 < t -> out st !! (t - 1) = Some (Some u) -> v = u;
  inv_outTmp : forall v, last (out st) = Some (Some v) -> outTmp st = v
}.

Section BaseClass.
Context {C : Type} {V : Virtuals C}.

Definition toWorldMany (c : C) (pixel : Matrix) (failures0 : list Z)
  : Outcome ManyResult :=
  _ ← AlwaysAssert (nPixelAxes c =? nrow pixel);
  Done (many_result
          (many_loop (toWorld c) (nPixelAxes c) (nWorldAxes c)
                     (mcols pixel) failures0)).

Definition toPixelMany (c : C) (world : Matrix) (failures0 : list Z)
  : Outcome ManyResult :=
  _ ← AlwaysAssert (nWorldAxes c =? nrow world);
  Done (many_result
          (many_loop (toPixel c) (nWorldAxes c) (nPixelAxes c)
                     (mcols world) failures0)).

(** *** Units, Coordinate.cc 267-295 and 454-483 *)

(** The unit algebra (aips/Quanta/Unit.h) is outside the two files:
    [unit_value s] is [None] when [UnitVal::check(s)] fails and otherwise
    the dimension and the factor of [Unit(s).getValue()]; [==] on two
    [UnitVal]s compares their dimensions. *)
Variable unit_value : string -> option (list Z * Double).

Fixpoint scale_loop (units oldUnits : list string) (i : nat)
    (factor : list Double) (error : string)
  : bool * string * list Double :=
  match units, oldUnits with
  | u :: units', o :: oldUnits' =>
      match unit_value o, unit_value u with
      | Some before, Some after =>
          if decide (before.1 = after.1)
          then scale_loop units' oldUnits' (S i)
                 (<[i := PrimFloat.div before.2 after.2]> factor) error
          else (false, "Units are not compatible dimensionally", factor)
      | _, _ => (false, "Unknown unit - cannot calculate scaling", factor)
      end
  | _, _ => (true, error, factor)
  end.

(** [find_scale_factor(error, factor, units, oldUnits)]: the flag, the
    error text and the factors. *)
Definition find_scale_factor (error : string) (units oldUnits : list string)
  : bool * string * list Double :=
  let factor := replicate (length units) 0%float in
  if negb (length units =? length oldUnits)
  then (false, "units and oldUnits are different sizes!", factor)
  else scale_loop units oldUnits 0 factor error.

(** [a * b] on two conformant vectors. *)
Definition vmul (a b : list Double) : list Double :=
  zip_with PrimFloat.mul a b.

(** [Coordinate::setWorldAxisUnits(units)]: the flag, the coordinate it
    leaves, and the message given to [set_error], if any. *)
Definition setWorldAxisUnits (c : C) (units : list string)
  : bool * C * option string :=
  if negb (length units =? nWorldAxes c) then
    (false, c, Some "Wrong number of elements in units vector")
  else if decide (worldAxisUnits c = units) then (true, c, None)
  else
    let '(ok, error, factor) :=
      find_scale_factor "" units (worldAxisUnits c) in
    if ok then
      let '(ok1, c1) := setIncrement c (vmul (increment c) factor) in
      if ok1 then
        let '(ok2, c2) :=
          setReferenceValue c1 (vmul (referenceValue c1) factor) in
        (ok2, c2, None)
      else (false, c1, None)
    else (false, c, Some error).

(** The factor the unit change of one axis calls for, and when a pair of
    units yields one. *)
Definition unit_ratio (old new : string) : Double :=
  match unit_value old, unit_value new with
  | Some before, Some after => PrimFloat.div before.2 after.2
  | _, _ => 0%float
  end.

Definition compatible (old new : string) : Prop :=
  exists before after,
    unit_value old = Some before /\ unit_value new = Some after /\
    before.1 = after.1.

(** The two messages [find_scale_factor] gives for units it cannot
    relate. *)
Definition unit_errors : list string :=
  ["Units are not compatible dimensionally";
   "Unknown unit - cannot calculate scaling"].

(** *** What the code needs of a concrete coordinate class

    The setters of the concrete classes are outside the two files.  A class
    is [lawful], on the coordinates that satisfy its invariant [valid],
    when its descriptor vectors have one entry per axis and when a setter
    given a vector of the right length succeeds, stores it, and leaves the
    other descriptors alone. *)

Definition same_shape (c c' : C) : Prop :=
  type c' = type c /\ nPixelAxes c' = nPixelAxes c /\ nWorldAxes c' = nWorldAxes c /\
  worldAxisNames c' = worldAxisNames c /\ worldAxisUnits c' = worldAxisUnits c /\
  linearTransform c' = linearTransform c.

Record lawful (valid : C -> Prop) : Prop := mkLawful {
  law_lengths : forall c, valid c ->
    length (referencePixel c) = nPixelAxes c /\
    length (referenceValue c) = nWorldAxes c /\
    length (increment c) = nWorldAxes c;
  law_setReferencePixel : forall c v, valid c -> length v = nPixelAxes c ->
    (setReferencePixel c v).1 = true /\
    valid (setReferencePixel c v).2 /\
    same_shape c (setReferencePixel c v).2 /\
    referencePixel (setReferencePixel c v).2 = v /\
    referenceValue (setReferencePixel c v).2 = referenceValue c /\
    increment (setReferencePixel c v).2 = increment c;
  law_setIncrement : forall c v, valid c -> length v = nWorldAxes c ->
    (setIncrement c v).1 = true /\
    valid (setIncrement c v).2 /\
    same_shape c (setIncrement c v).2 /\
    referencePixel (setIncrement c v).2 = referencePixel c /\
    referenceValue (setIncrement c v).2 = referenceValue c /\
    increment (setIncrement c v).2 = v;
  law_setReferenceValue : forall c v, valid c -> length v = nWorldAxes c ->
    (setReferenceValue c v).1 = true /\
    valid (setReferenceValue c v).2 /\
    same_shape c (setReferenceValue c v).2 /\
    referencePixel (setReferenceValue c v).2 = referencePixel c /\
    referenceValue (setReferenceValue c v).2 = v /\
    increment (setReferenceValue c v).2 = increment c
}.

End BaseClass.

End Coordinate.

(** ** The CoordinateSystem composite *)

Module CoordinateSystem.

(** The private data of a [CoordinateSystem]: seven parallel blocks, one
    entry per coordinate. *)
Record System (C : Type) : Type := mkSystem {
  coordinates_p : list C;
  world_maps_p : list (list Z);
  world_tmps_p : list (list Double);
  world_replacement_values_p : list (list Double);
  pixel_maps_p : list (list Z);
  pixel_tmps_p : list (list Double);
  pixel_replacement_values_p : list (list Double)
}.
Arguments mkSystem {C}.
Arguments coordinates_p {C}.
Arguments world_maps_p {C}.
Arguments world_tmps_p {C}.
Arguments world_replacement_values_p {C}.
Arguments pixel_maps_p {C}.
Arguments pixel_tmps_p {C}.
Arguments pixel_replacement_values_p {C}.

Definition nonneg (k : Z) : bool := (0 <=? k)%Z.

(** The entries of the maps that are not [-1], in the order of the
    loops over coordinates and axes. *)
Definition exposed (maps : list (list Z)) : list Z :=
  List.filter nonneg (concat maps).

(** The axis numbers [0, ..., n-1]. *)
Definition Zseq (n : nat) : list Z := map Z.of_nat (seq 0 n).

(** The axis-mapping invariant on one family of maps: the exposed entries
    are, in some order and without repetition, [0, ..., n-1], with n their
    number. *)
Definition axes_ok (maps : list (list Z)) : Prop :=
  Permutation (exposed maps) (Zseq (length (exposed maps))).

(** The scan of [findWorldAxis] and [findPixelAxis] over one block and
    over all blocks; [(-1,-1)] when nothing is found. *)
Fixpoint find_in_block (block : list Z) (orig : Z) (j : nat) : option nat :=
  match block with
  | [] => None
  | x :: block' =>
      if (x =? orig)%Z then Some j else find_in_block block' orig (S j)
  end.

Fixpoint find_axis (maps : list (list Z)) (orig : Z) (i : nat) : Z * Z :=
  match maps with
  | [] => ((-1)%Z, (-1)%Z)
  | block :: maps' =>
      match find_in_block block orig 0 with
      | Some j => (Z.of_nat i, Z.of_nat j)
      | None => find_axis maps' orig (S i)
      end
  end.

(** [findWorldAxis] and [findPixelAxis] on their maps: the assertion that
    the axis is one of the exposed axes, then the scan. *)
Definition find_exposed (maps : list (list Z)) (axisInCoordinateSystem : nat)
  : Outcome (Z * Z) :=
  _ ← AlwaysAssert (axisInCoordinateSystem <? length (exposed maps));
  Done (find_axis maps (Z.of_nat axisInCoordinateSystem) 0).

(** [maps[coord]->operator[](axis) = x]. *)
Definition set2 {A : Type} (maps : list (list A)) (coord axis : Z) (x : A)
  : Outcome (list (list A)) :=
  block ← at_Z maps coord;
  block' ← set_Z block axis x;
  set_Z maps coord block'.

(** The check "every axis is in the order once (only)" on an order that is
    read to its end, as a boolean. *)
Fixpoint verify_order (order : list Z) (n : nat) (found : list bool) : bool :=
  match order with
  | [] => true
  | which :: order' =>
      if (0 <=? which)%Z && (which <? Z.of_nat n)%Z
         && negb (found !!! Z.to_nat which)
      then verify_order order' n (<[Z.to_nat which := true]> found)
      else false
  end.

(** The loop of [transpose] that checks an order, CoordinateSystem.cc
    206-210 and 213-217: [for (i=0; i<found.nelements(); i++)] runs once
    for each entry of the block [found] ([k] entries are still to go) and
    reads [order(i)], of which [order] is what is left; [n] is the number
    of axes the assertion tests against. *)
Fixpoint verify_loop (k : nat) (order : list Z) (n : nat) (found : list bool)
  : Outcome unit :=
  match k with
  | 0 => Done tt
  | S k' =>
      match order with
      | [] => Throw OutOfBounds
      | which :: order' =>
          if (0 <=? which)%Z && (which <? Z.of_nat n)%Z
             && negb (found !!! Z.to_nat which)
          then verify_loop k' order' n (<[Z.to_nat which := true]> found)
          else Throw AipsError
      end
  end.

(** The decrement loop of [removeWorldAxis] and [removePixelAxis]. *)
Definition dec_above (axis x : Z) : Z :=
  if (x >? axis)%Z then (x - 1)%Z else x.

Definition shift_down (axis : Z) (maps : list (list Z)) : list (list Z) :=
  map (map (dec_above axis)) maps.

(** The position of [v] in [order] (its length when [v] is not there), and
    the renumbering a transposition by [order] performs once its loop has
    run [k] times: an axis that [order] lists at a position below [k] gets
    that position as its new number. *)
Definition index_of (v : Z) (order : list Z) : nat :=
  match find_in_block order v 0 with
  | Some j => j
  | None => length order
  end.

Definition relabel (order : list Z) (k : nat) (v : Z) : Z :=
  if index_of v order <? k then Z.of_nat (index_of v order) else v.

(** [inverse] is the inverse permutation of [order]. *)
Definition inverse_order (order inverse : list Z) : Prop :=
  length inverse = length order /\
  forall i o, order !! i = Some o -> inverse !! Z.to_nat o = Some (Z.of_nat i).

(** What freshly allocated storage holds.  [new Vector<Double>(n)] does not
    initialise its elements, and [addCoordinate] writes nothing into the
    four vectors it allocates: an [Uninitialised] gives, for each of them,
    the value found at each place. *)
Record Uninitialised : Type := mkUninitialised {
  world_tmp_junk : nat -> Double;
  world_replacement_junk : nat -> Double;
  pixel_tmp_junk : nat -> Double;
  pixel_replacement_junk : nat -> Double
}.

(** [Vector<Double>(n)] on storage that holds [junk]. *)
Definition fresh_vector (junk : nat -> Double) (n : nat) : list Double :=
  map junk (seq 0 n).

Section Composite.
Context {C : Type} {V : Coordinate.Virtuals C}.

Definition empty : System C := mkSystem [] [] [] [] [] [] [].

Definition nCoordinates (cs : System C) : nat := length (coordinates_p cs).

Definition nWorldAxes (cs : System C) : nat :=
  length (exposed (world_maps_p cs)).

Definition nPixelAxes (cs : System C) : nat :=
  length (exposed (pixel_maps_p cs)).

(** [findWorldAxis(coordinate, axisInCoordinate, axisInCoordinateSystem)]
    and [findPixelAxis], CoordinateSystem.cc 424-466: the same function on
    the world maps and on the pixel maps. *)
Definition findWorldAxis (cs : System C) (axisInCoordinateSystem : nat)
  : Outcome (Z * Z) :=
  find_exposed (world_maps_p cs) axisInCoordinateSystem.

Definition findPixelAxis (cs : System C) (axisInCoordinateSystem : nat)
  : Outcome (Z * Z) :=
  find_exposed (pixel_maps_p cs) axisInCoordinateSystem.

(** CoordinateSystem.cc 143-191.  The temporaries and the replacement
    values are allocated and not written: they hold what [junk] says the
    storage held. *)
Definition addCoordinate (cs : System C) (coord : C) (junk : Uninitialised)
  : System C :=
  let oldWorldAxes := nWorldAxes cs in
  let oldPixelAxes := nPixelAxes cs in
  let nw := Coordinate.nWorldAxes coord in
  let np := Coordinate.nPixelAxes coord in
  mkSystem
    (coordinates_p cs ++ [coord])
    (world_maps_p cs ++ [map (fun i => Z.of_nat (oldWorldAxes + i)) (seq 0 nw)])
    (world_tmps_p cs ++ [fresh_vector (world_tmp_junk junk) nw])
    (world_replacement_values_p cs
       ++ [fresh_vector (world_replacement_junk junk) nw])
    (pixel_maps_p cs ++ [map (fun i => Z.of_nat (oldPixelAxes + i)) (seq 0 np)])
    (pixel_tmps_p cs ++ [fresh_vector (pixel_tmp_junk junk) np])
    (pixel_replacement_values_p cs
       ++ [fresh_vector (pixel_replacement_junk junk) np]).

(** [addCoordinate] for the coordinates of a list in turn, as the loops of
    [restoreOriginal] and [restore] do: [i] is the loop counter and
    [junk i] what the storage allocated for coordinate [i] holds. *)
Fixpoint add_from (junk : nat -> Uninitialised) (i : nat) (coords : list C)
    (cs : System C) : System C :=
  match coords with
  | [] => cs
  | c :: coords' => add_from junk (S i) coords' (addCoordinate cs c (junk i))
  end.

(** The two "move the axes to their new home" loops of [transpose]:
    [old] is the map the axes are looked up in ([findWorldAxis], with its
    assertion), [new] the copy that is written, [n] the number of exposed
    axes, [i] the loop counter.  The entries of [order] were checked to be
    non-negative before the loop starts. *)
Fixpoint move_axes (old : list (list Z)) (n : nat) (order : list Z) (i : nat)
    (new : list (list Z)) : Outcome (list (list Z)) :=
  match order with
  | [] => Done new
  | o :: order' =>
      _ ← AlwaysAssert (o <? Z.of_nat n)%Z;
      let '(coord, axis) := find_axis old o 0 in
      new' ← set2 new coord axis (Z.of_nat i);
      move_axes old n order' (S i) new'
  end.

(** CoordinateSystem.cc 193-253.  [Block<Bool> found(nw)] is set to
    [False] and checked against the world order; [found.resize(np)] makes
    the block larger when [np > nw] and leaves it as it is otherwise (a
    [Block] is made smaller only on request), so that the second loop,
    after [found = False], runs over [max nw np] entries. *)
Definition transpose (cs : System C) (newWorldOrder newPixelOrder : list Z)
  : Outcome (System C) :=
  _ ← AlwaysAssert (length newWorldOrder =? nWorldAxes cs);
  _ ← AlwaysAssert (length newPixelOrder =? nPixelAxes cs);
  let nw := length newWorldOrder in
  let np := length newPixelOrder in
  let found := replicate nw false in
  _ ← verify_loop (length found) newWorldOrder nw found;
  let found := replicate (Nat.max nw np) false in
  _ ← verify_loop (length found) newPixelOrder np found;
  newWorldMaps ← move_axes (world_maps_p cs) (nWorldAxes cs) newWorldOrder 0
                   (world_maps_p cs);
  newPixelMaps ← move_axes (pixel_maps_p cs) (nPixelAxes cs) newPixelOrder 0
                   (pixel_maps_p cs);
  Done (mkSystem (coordinates_p cs)
          newWorldMaps (world_tmps_p cs) (world_replacement_values_p cs)
          newPixelMaps (pixel_tmps_p cs) (pixel_replacement_values_p cs)).

(** CoordinateSystem.cc 255-273. *)
Definition removeWorldAxis (cs : System C) (axis : nat) (replacement : Double)
  : Outcome (System C) :=
  _ ← AlwaysAssert (axis <=? nWorldAxes cs);
  '(coord, caxis) ← findWorldAxis cs axis;
  repl ← set2 (world_replacement_values_p cs) coord caxis replacement;
  maps ← set2 (world_maps_p cs) coord caxis (-1)%Z;
  Done (mkSystem (coordinates_p cs)
          (shift_down (Z.of_nat axis) maps) (world_tmps_p cs) repl
          (pixel_maps_p cs) (pixel_tmps_p cs) (pixel_replacement_values_p cs)).

(** CoordinateSystem.cc 275-293. *)
Definition removePixelAxis (cs : System C) (axis : nat) (replacement : Double)
  : Outcome (System C) :=
  _ ← AlwaysAssert (axis <=? nPixelAxes cs);
  '(coord, caxis) ← findPixelAxis cs axis;
  repl ← set2 (pixel_replacement_values_p cs) coord caxis replacement;
  maps ← set2 (pixel_maps_p cs) coord caxis (-1)%Z;
  Done (mkSystem (coordinates_p cs)
          (world_maps_p cs) (world_tmps_p cs) (world_replacement_values_p cs)
          (shift_down (Z.of_nat axis) maps) (pixel_tmps_p cs) repl).

(** CoordinateSystem.cc 324-335: a new system with the coordinates added
    again, which is then assigned to [*this].  [junk i] is what the
    storage allocated for coordinate [i] holds. *)
Definition restoreOriginal (cs : System C) (junk : nat -> Uninitialised)
  : System C :=
  add_from junk 0 (coordinates_p cs) empty.

(** CoordinateSystem.cc 390-400. *)
Definition replaceCoordinate (cs : System C) (newCoordinate : C) (which : nat)
  : Outcome (System C) :=
  _ ← AlwaysAssert
        (match coordinates_p cs !! which with
         | Some old =>
             (Coordinate.nPixelAxes newCoordinate =? Coordinate.nPixelAxes old)
             && (Coordinate.nWorldAxes newCoordinate =? Coordinate.nWorldAxes old)
         | None => false
         end);
  Done (mkSystem (<[which := newCoordinate]> (coordinates_p cs))
          (world_maps_p cs) (world_tmps_p cs) (world_replacement_values_p cs)
          (pixel_maps_p cs) (pixel_tmps_p cs) (pixel_replacement_values_p cs)).

(** *** Conversions, CoordinateSystem.cc 550-643 *)

(** The first inner loop of [toWorld]: fill the temporary of one
    coordinate from the caller's vector where the map is non-negative and
    from the replacement values elsewhere. *)
Definition fill_tmp (map_ : list Z) (replacement src tmp : list Double)
  : Outcome (list Double) :=
  foldM (fun tmp j =>
           where_ ← at_nat map_ j;
           if (0 <=? where_)%Z
           then x ← at_Z src where_; set_nat tmp j x
           else x ← at_nat replacement j; set_nat tmp j x)
        (seq 0 (length map_)) tmp.

(** The second inner loop: copy the exposed entries of the temporary to
    the caller's output vector. *)
Definition copy_out (map_ : list Z) (tmp dst : list Double)
  : Outcome (list Double) :=
  foldM (fun dst j =>
           where_ ← at_nat map_ j;
           if (0 <=? where_)%Z
           then x ← at_nat tmp j; set_Z dst where_ x
           else Done dst)
        (seq 0 (length map_)) dst.

Definition with_tmps (cs : System C) (i : nat) (world_tmp pixel_tmp : list Double)
  : System C :=
  mkSystem (coordinates_p cs)
    (world_maps_p cs) (<[i := world_tmp]> (world_tmps_p cs))
    (world_replacement_values_p cs)
    (pixel_maps_p cs) (<[i := pixel_tmp]> (pixel_tmps_p cs))
    (pixel_replacement_values_p cs).

(** The body of the loop of [toWorld] for coordinate [i].  The state is
    [ok], the caller's [world] and the system, whose temporaries the
    function writes through [This].  In
    [ok = ToBool(ok && coordinates_p[i]->toWorld(...))] the call is the
    right operand of [&&]: it is evaluated only when [ok] is still true. *)
Definition toWorld_body (pixel : list Double)
    (st : bool * list Double * System C) (i : nat)
  : Outcome (bool * list Double * System C) :=
  let '(ok, world, cs) := st in
  c ← at_nat (coordinates_p cs) i;
  pixel_map ← at_nat (pixel_maps_p cs) i;
  pixel_repl ← at_nat (pixel_replacement_values_p cs) i;
  pixel_tmp ← at_nat (pixel_tmps_p cs) i;
  world_map ← at_nat (world_maps_p cs) i;
  world_tmp ← at_nat (world_tmps_p cs) i;
  pixel_tmp' ← fill_tmp pixel_map pixel_repl pixel pixel_tmp;
  let '(ok', world_tmp') :=
    if ok
    then let r := Coordinate.toWorld c world_tmp pixel_tmp' in
         (Coordinate.conv_ok r, Coordinate.conv_out r)
    else (false, world_tmp) in
  world' ← copy_out world_map world_tmp' world;
  Done (ok', world', with_tmps cs i world_tmp' pixel_tmp').

Definition toWorld (cs : System C) (world pixel : list Double)
  : Outcome (bool * list Double * System C) :=
  foldM (toWorld_body pixel) (seq 0 (nCoordinates cs)) (true, world, cs).

Definition toPixel_body (world : list Double)
    (st : bool * list Double * System C) (i : nat)
  : Outcome (bool * list Double * System C) :=
  let '(ok, pixel, cs) := st in
  c ← at_nat (coordinates_p cs) i;
  world_map ← at_nat (world_maps_p cs) i;
  world_repl ← at_nat (world_replacement_values_p cs) i;
  world_tmp ← at_nat (world_tmps_p cs) i;
  pixel_map ← at_nat (pixel_maps_p cs) i;
  pixel_tmp ← at_nat (pixel_tmps_p cs) i;
  world_tmp' ← fill_tmp world_map world_repl world world_tmp;
  let '(ok', pixel_tmp') :=
    if ok
    then let r := Coordinate.toPixel c pixel_tmp world_tmp' in
         (Coordinate.conv_ok r, Coordinate.conv_out r)
    else (false, pixel_tmp) in
  pixel' ← copy_out pixel_map pixel_tmp' pixel;
  Done (ok', pixel', with_tmps cs i world_tmp' pixel_tmp').

Definition toPixel (cs : System C) (pixel world : list Double)
  : Outcome (bool * list Double * System C) :=
  foldM (toPixel_body world) (seq 0 (nCoordinates cs)) (true, pixel, cs).

(** *** Derived vectors, CoordinateSystem.cc 645-728 *)

(** The loop the derived vectors share: for every exposed axis, find the
    coordinate and the axis in it, and read the coordinate's vector there. *)
Definition derived {A : Type} (maps : list (list Z)) (coords : list C)
    (get : C -> list A) : Outcome (list A) :=
  mapM_Outcome
    (fun i => '(coord, coordAxis) ← find_exposed maps i;
              c ← at_Z coords coord;
              at_Z (get c) coordAxis)
    (seq 0 (length (exposed maps))).

Definition world_derived {A : Type} (get : C -> list A) (cs : System C)
  : Outcome (list A) :=
  derived (world_maps_p cs) (coordinates_p cs) get.

Definition pixel_derived {A : Type} (get : C -> list A) (cs : System C)
  : Outcome (list A) :=
  derived (pixel_maps_p cs) (coordinates_p cs) get.

Definition worldAxisNames := world_derived Coordinate.worldAxisNames.
Definition worldAxisUnits := world_derived Coordinate.worldAxisUnits.
Definition referencePixel := pixel_derived Coordinate.referencePixel.
Definition increment := world_derived Coordinate.increment.
Definition referenceValue := world_derived Coordinate.referenceValue.

Definition linearTransform (cs : System C) : Outcome Matrix :=
  let nr := nWorldAxes cs in
  let nc := nPixelAxes cs in
  foldM (fun retval i =>
    foldM (fun retval j =>
             '(worldCoord, worldAxis) ← findWorldAxis cs i;
             '(pixelCoord, pixelAxis) ← findPixelAxis cs j;
             if (worldCoord =? pixelCoord)%Z && (0 <=? worldCoord)%Z
                && (0 <=? worldAxis)%Z && (0 <=? pixelAxis)%Z
             then c ← at_Z (coordinates_p cs) worldCoord;
                  x ← matrix_at (Coordinate.linearTransform c) worldAxis pixelAxis;
                  matrix_set retval (Z.of_nat i) (Z.of_nat j) x
             else Done retval)
          (seq 0 nc) retval)
    (seq 0 nr) (zero_matrix nr nc).

(** *** Setters, CoordinateSystem.cc 730-851

    The five vector setters are one loop over the coordinates, around one
    getter, one setter and one family of maps. *)

Definition with_coordinate (cs : System C) (i : nat) (c : C) : System C :=
  mkSystem (<[i := c]> (coordinates_p cs))
    (world_maps_p cs) (world_tmps_p cs) (world_replacement_values_p cs)
    (pixel_maps_p cs) (pixel_tmps_p cs) (pixel_replacement_values_p cs).

(** [tmp(j) = src(which)] for every [j] whose map entry [which] is not
    negative. *)
Definition overwrite {A : Type} (map_ : list Z) (src tmp : list A)
  : Outcome (list A) :=
  foldM (fun tmp j =>
           which ← at_nat map_ j;
           if (0 <=? which)%Z then x ← at_Z src which; set_nat tmp j x
           else Done tmp)
        (seq 0 (length tmp)) tmp.

Definition set_each {A : Type} (maps : System C -> list (list Z))
    (get : C -> list A) (set : C -> list A -> bool * C)
    (cs : System C) (v : list A) : Outcome (bool * System C) :=
  foldM (fun st i =>
           let '(ok, cs) := st in
           c ← at_nat (coordinates_p cs) i;
           map_ ← at_nat (maps cs) i;
           tmp ← overwrite map_ v (get c);
           let '(b, c') := set c tmp in
           Done (b && ok, with_coordinate cs i c'))
        (seq 0 (nCoordinates cs)) (true, cs).

Definition setWorldAxisNames :=
  set_each world_maps_p Coordinate.worldAxisNames Coordinate.setWorldAxisNames.
Definition setReferencePixel :=
  set_each pixel_maps_p Coordinate.referencePixel Coordinate.setReferencePixel.
Definition setIncrement :=
  set_each world_maps_p Coordinate.increment Coordinate.setIncrement.
Definition setReferenceValue :=
  set_each world_maps_p Coordinate.referenceValue Coordinate.setReferenceValue.

(** [setLinearTransform], CoordinateSystem.cc 791-811.  The inner loop is
    [for (uInt k=0; j<ncol; k++)]: its condition tests [j].  It is run on
    fuel; [None] is a loop that is still running when the fuel is spent. *)
Fixpoint setLinearTransform_k (fuel : nat) (world_map pixel_map : list Z)
    (xform : Matrix) (ncol j k : nat) (tmp : Matrix) : option (Outcome Matrix) :=
  match fuel with
  | 0 => None
  | S fuel' =>
      if j <? ncol then
        match (whichrow ← at_nat world_map j;
               whichcol ← at_nat pixel_map k;
               if (0 <=? whichrow)%Z && (0 <=? whichcol)%Z
               then x ← matrix_at xform whichrow whichcol;
                    matrix_set tmp (Z.of_nat j) (Z.of_nat k) x
               else Done tmp) with
        | Done tmp' =>
            setLinearTransform_k fuel' world_map pixel_map xform ncol j (S k) tmp'
        | Throw e => Some (Throw e)
        end
      else Some (Done tmp)
  end.

Fixpoint setLinearTransform_j (fuel : nat) (world_map pixel_map : list Z)
    (xform : Matrix) (ncol : nat) (js : list nat) (tmp : Matrix)
  : option (Outcome Matrix) :=
  match js with
  | [] => Some (Done tmp)
  | j :: js' =>
      match setLinearTransform_k fuel world_map pixel_map xform ncol j 0 tmp with
      | Some (Done tmp') =>
          setLinearTransform_j fuel world_map pixel_map xform ncol js' tmp'
      | other => other
      end
  end.

Fixpoint setLinearTransform_i (fuel : nat) (xform : Matrix) (is_ : list nat)
    (st : bool * System C) : option (Outcome (bool * System C)) :=
  match is_ with
  | [] => Some (Done st)
  | i :: is' =>
      let '(ok, cs) := st in
      match at_nat (coordinates_p cs) i, at_nat (world_maps_p cs) i,
            at_nat (pixel_maps_p cs) i with
      | Done c, Done world_map, Done pixel_map =>
          let tmp := Coordinate.linearTransform c in
          match setLinearTransform_j fuel world_map pixel_map xform
                  (ncolumn tmp) (seq 0 (nrow tmp)) tmp with
          | Some (Done tmp') =>
              let '(b, c') := Coordinate.setLinearTransform c tmp' in
              setLinearTransform_i fuel xform is' (b && ok, with_coordinate cs i c')
          | Some (Throw e) => Some (Throw e)
          | None => None
          end
      | _, _, _ => Some (Throw OutOfBounds)
      end
  end.

Definition setLinearTransform (fuel : nat) (cs : System C) (xform : Matrix)
  : option (Outcome (bool * System C)) :=
  setLinearTransform_i fuel xform (seq 0 (nCoordinates cs)) (true, cs).

(** *** subImage, CoordinateSystem.cc 295-322 *)

Definition subImage_body (originShift pixinc : list Z)
    (st : list Double * list Double) (i : nat)
  : Outcome (list Double * list Double) :=
  let '(crpix, cdelt) := st in
  inc ← at_nat pixinc i;
  _ ← AlwaysAssert (1 <=? inc)%Z;
  shift ← at_nat originShift i;
  p ← at_nat crpix i;
  crpix ← set_nat crpix i (PrimFloat.sub p (Double_of_Int shift));
  p ← at_nat crpix i;
  crpix ← set_nat crpix i (PrimFloat.div p (Double_of_Int inc));
  d ← at_nat cdelt i;
  cdelt ← set_nat cdelt i (PrimFloat.mul d (Double_of_Int inc));
  Done (crpix, cdelt).

Definition subImage (cs : System C) (originShift pixinc : list Z)
  : Outcome (System C) :=
  _ ← AlwaysAssert ((length originShift =? nPixelAxes cs)
                    && (length pixinc =? nPixelAxes cs));
  _ ← AlwaysAssert (length originShift =? length pixinc);
  let n := nPixelAxes cs in
  let coords := cs in
  crpix ← referencePixel coords;
  cdelt ← increment coords;
  '(crpix, cdelt) ← foldM (subImage_body originShift pixinc) (seq 0 n) (crpix, cdelt);
  '(_, coords) ← setReferencePixel coords crpix;
  '(_, coords) ← setIncrement coords cdelt;
  Done coords.

(** *** near, CoordinateSystem.cc 865-994 *)

(** [coordinate(which)]: the assertion lets [which == nCoordinates()]
    through; the dereference is then outside the block. *)
Definition coordinate (cs : System C) (which : nat) : Outcome C :=
  _ ← AlwaysAssert (which <=? nCoordinates cs);
  at_nat (coordinates_p cs) which.

Definition worldAxes (cs : System C) (whichCoord : nat) : Outcome (list Z) :=
  _ ← AlwaysAssert (whichCoord <? nCoordinates cs);
  c ← coordinate cs whichCoord;
  foldM (fun retval i =>
           '(coord, axis) ← findWorldAxis cs i;
           if (coord =? Z.of_nat whichCoord)%Z
           then set_Z retval axis (Z.of_nat i) else Done retval)
        (seq 0 (nWorldAxes cs))
        (replicate (Coordinate.nWorldAxes c) (-1)%Z).

Definition pixelAxes (cs : System C) (whichCoord : nat) : Outcome (list Z) :=
  _ ← AlwaysAssert (whichCoord <? nCoordinates cs);
  c ← coordinate cs whichCoord;
  foldM (fun retval i =>
           '(coord, axis) ← findPixelAxis cs i;
           if (coord =? Z.of_nat whichCoord)%Z
           then set_Z retval axis (Z.of_nat i) else Done retval)
        (seq 0 (nPixelAxes cs))
        (replicate (Coordinate.nPixelAxes c) (-1)%Z).

(** An [Int] passed where a [uInt] is expected. *)
Definition uInt_of_Int (i : Z) : nat := Z.to_nat (i mod 2 ^ 32).

(** The body of the loop of [near] for coordinate [i]: [Some b] when the
    body executes [return b], [None] when it falls through to the next
    coordinate. *)
Definition near_body (cs other : System C) (excludePixelAxes : list Z)
    (tol : Double) (i : nat) : Outcome (option bool) :=
  c ← coordinate cs i;
  c' ← coordinate other i;
  if negb (bool_decide (Coordinate.type c = Coordinate.type c')) then Done (Some false)
  else
    pa ← pixelAxes cs i;
    pa' ← pixelAxes other i;
    if negb (length pa =? length pa') then Done (Some false)
    else if negb (bool_decide (pa = pa')) then Done (Some false)
    else
      wa ← worldAxes cs i;
      wa' ← worldAxes other i;
      if negb (length wa =? length wa') then Done (Some false)
      else if negb (bool_decide (wa = wa')) then Done (Some false)
      else
        let allGone := forallb (fun w => negb (0 <=? w)%Z) wa in
        if allGone then Done None
        else
          excludeAxes ←
            foldM (fun excludeAxes e =>
                     '(coord, axisInCoord) ← findPixelAxis cs (uInt_of_Int e);
                     Done (if (coord =? Z.of_nat i)%Z
                           then excludeAxes ++ [axisInCoord] else excludeAxes))
                  excludePixelAxes [];
          same ←
            foldM (fun (same : bool) w =>
                     if same && (0 <=? w)%Z then
                       '(coord1, axisInCoord1) ← findWorldAxis cs (uInt_of_Int w);
                       '(coord2, axisInCoord2) ← findWorldAxis other (uInt_of_Int w);
                       Done ((coord1 =? coord2)%Z && (axisInCoord1 =? axisInCoord2)%Z)
                     else Done same)
                  wa true;
          if negb same then Done (Some false)
          else Done (Some (Coordinate.near c c' excludeAxes tol)).

Fixpoint near_loop (cs other : System C) (excludePixelAxes : list Z)
    (tol : Double) (is_ : list nat) : Outcome bool :=
  match is_ with
  | [] => Done true
  | i :: is' =>
      r ← near_body cs other excludePixelAxes tol i;
      match r with
      | Some b => Done b
      | None => near_loop cs other excludePixelAxes tol is'
      end
  end.

(** [near(pOther, excludePixelAxes, tol)] with [pOther] a
    [CoordinateSystem] (so that the two [type()]s agree). *)
Definition near (cs other : System C) (excludePixelAxes : list Z) (tol : Double)
  : Outcome bool :=
  if negb (nCoordinates cs =? nCoordinates other) then Done false
  else if negb (nPixelAxes cs =? nPixelAxes other) then Done false
  else if negb (nWorldAxes cs =? nWorldAxes other) then Done false
  else near_loop cs other excludePixelAxes tol (seq 0 (nCoordinates cs)).

(** *** save, CoordinateSystem.cc 1019-1058 *)

Definition basename (t : Coordinate.Type_) : string :=
  match t with
  | Coordinate.LINEAR => "linear"
  | Coordinate.DIRECTION => "direction"
  | Coordinate.SPECTRAL => "spectral"
  | Coordinate.STOKES => "stokes"
  | Coordinate.TABULAR => "tabular"
  | Coordinate.COORDSYS => "coordsys"
  end.

(** [onum << i]: the decimal digits of [i]. *)
Definition num (i : nat) : string := pretty i.

Definition save_body (cs : System C) (subrec : gmap string RecordField) (i : nat)
  : Outcome (gmap string RecordField) :=
  c ← at_nat (coordinates_p cs) i;
  let subrec := (Coordinate.save c subrec (basename (Coordinate.type c) +:+ num i)).2 in
  world_map ← at_nat (world_maps_p cs) i;
  let subrec := <["worldmap" +:+ num i := FieldInt world_map]> subrec in
  world_repl ← at_nat (world_replacement_values_p cs) i;
  let subrec := <["worldreplace" +:+ num i := FieldDouble world_repl]> subrec in
  pixel_map ← at_nat (pixel_maps_p cs) i;
  let subrec := <["pixelmap" +:+ num i := FieldInt pixel_map]> subrec in
  pixel_repl ← at_nat (pixel_replacement_values_p cs) i;
  Done (<["pixelreplace" +:+ num i := FieldDouble pixel_repl]> subrec).

(** The flag and the container it leaves. *)
Definition save (cs : System C) (container : gmap string RecordField)
    (fieldName : string) : Outcome (bool * gmap string RecordField) :=
  if bool_decide (is_Some (container !! fieldName)) then Done (false, container)
  else
    subrec ← foldM (save_body cs) (seq 0 (nCoordinates cs)) ∅;
    Done (true, <[fieldName := FieldRecord subrec]> container).

(** *** toFITSHeader, CoordinateSystem.cc 1149-1475: the axes it finds and
    the call of [SpectralCoordinate::toFITS] *)

(** [findCoordinate(type, afterCoord)], CoordinateSystem.cc 403-422. *)
Fixpoint findCoordinate_from (types : list Coordinate.Type_)
    (type : Coordinate.Type_) (i : Z) : Z :=
  match types with
  | [] => (-1)%Z
  | t :: types' =>
      if bool_decide (t = type) then i
      else findCoordinate_from types' type (i + 1)%Z
  end.

Definition findCoordinate (cs : System C) (type : Coordinate.Type_)
    (afterCoord : Z) : Z :=
  let afterCoord := if (afterCoord <? -1)%Z then (-1)%Z else afterCoord in
  findCoordinate_from
    (drop (Z.to_nat (afterCoord + 1)) (map Coordinate.type (coordinates_p cs)))
    type (afterCoord + 1)%Z.

Record SpecialAxes : Type := mkSpecialAxes {
  longAxis : Z;
  latAxis : Z;
  specAxis : Z;
  stokesAxis : Z
}.

(** Lines 1196-1222. *)
Definition special_axes (cs : System C) : Outcome SpecialAxes :=
  let skyCoord := findCoordinate cs Coordinate.DIRECTION (-1) in
  let specCoord := findCoordinate cs Coordinate.SPECTRAL (-1) in
  let stokesCoord := findCoordinate cs Coordinate.STOKES (-1) in
  foldM (fun ax i =>
           '(c, a) ← findWorldAxis cs i;
           Done (if (c =? skyCoord)%Z then
                   if (a =? 0)%Z
                   then mkSpecialAxes (Z.of_nat i) (latAxis ax) (specAxis ax) (stokesAxis ax)
                   else if (a =? 1)%Z
                        then mkSpecialAxes (longAxis ax) (Z.of_nat i) (specAxis ax) (stokesAxis ax)
                        else ax
                 else if (c =? specCoord)%Z
                      then mkSpecialAxes (longAxis ax) (latAxis ax) (Z.of_nat i) (stokesAxis ax)
                      else if (c =? stokesCoord)%Z
                           then mkSpecialAxes (longAxis ax) (latAxis ax) (specAxis ax) (Z.of_nat i)
                           else ax))
        (seq 0 (nWorldAxes cs)) (mkSpecialAxes (-1) (-1) (-1) (-1)).

(** Whether a run of [toFITSHeader] that reaches its last statement calls
    [spec.toFITS(header, specAxis, ...)], and with which axis: the guard of
    lines 1468-1472 on the [specAxis] of lines 1208-1222.  [defined] tells
    which keywords the header already holds (lines 1177-1186 return
    [False] on any of the five). *)
Definition toFITSHeader_spectral (cs : System C) (defined : string -> bool)
    (prefix : string) : Outcome (option Z) :=
  if defined (prefix +:+ "rval") || defined (prefix +:+ "rpix")
     || defined (prefix +:+ "delt") || defined (prefix +:+ "type")
     || defined (prefix +:+ "unit")
  then Done None
  else
    ax ← special_axes cs;
    Done (if (specAxis ax >? 1)%Z then Some (specAxis ax) else None).

(** *** pixelAxisToWorldAxis, CoordinateSystem.cc 468-476 *)

(** [worldAxes(coordinate)] takes a [uInt]: the [Int] it is given is not
    negative there. *)
Definition pixelAxisToWorldAxis (cs : System C) (pixelAxis : nat) : Outcome Z :=
  '(coordinate, axisInCoordinate) ← findPixelAxis cs pixelAxis;
  if (0 <=? axisInCoordinate)%Z && (0 <=? coordinate)%Z
  then axes ← worldAxes cs (Z.to_nat coordinate); at_Z axes axisInCoordinate
  else Done (-1)%Z.

(** *** restore, CoordinateSystem.cc 1060-1141 *)

(** The static [restore] functions of the concrete classes
    ([LinearCoordinate::restore], ..., and the recursive call for a nested
    system, which is a coordinate like the others) are outside the two
    files: [restore_coordinate t rec name] is [None] for a null pointer. *)
Variable restore_coordinate :
  Coordinate.Type_ -> gmap string RecordField -> string -> option C.

(** The order of the [if ... else if] chain. *)
Definition saved_types : list Coordinate.Type_ :=
  [Coordinate.LINEAR; Coordinate.DIRECTION; Coordinate.SPECTRAL;
   Coordinate.STOKES; Coordinate.TABULAR; Coordinate.COORDSYS].

Definition restore_find (subrec : gmap string RecordField) (num : string)
  : option Coordinate.Type_ :=
  List.find (fun t => bool_decide (is_Some (subrec !! (basename t +:+ num))))
            saved_types.

(** The [while(1)] loop that collects the coordinates, run on fuel. *)
Fixpoint restore_loop (fuel : nat) (subrec : gmap string RecordField) (nc : nat)
    (coords : list C) : option (Outcome (list C)) :=
  match fuel with
  | 0 => None
  | S fuel' =>
      match restore_find subrec (num nc) with
      | Some t =>
          match restore_coordinate t subrec (basename t +:+ num nc) with
          | Some c => restore_loop fuel' subrec (S nc) (coords ++ [c])
          | None => Some (Throw AipsError)
          end
      | None => Some (Done coords)
      end
  end.

(** [subrec.get(name, vector)]: the vector the field holds; the record
    throws when the field is missing or holds something else. *)
Definition get_Int (rec : gmap string RecordField) (name : string)
  : Outcome (list Z) :=
  match rec !! name with
  | Some (FieldInt v) => Done v
  | _ => Throw AipsError
  end.

Definition get_Double (rec : gmap string RecordField) (name : string)
  : Outcome (list Double) :=
  match rec !! name with
  | Some (FieldDouble v) => Done v
  | _ => Throw AipsError
  end.

(** The body of the second loop, for coordinate [i] of [retval].  The two
    temporaries are allocated again and not written: [junk i] is what
    their storage holds. *)
Definition restore_body (subrec : gmap string RecordField)
    (junk : nat -> Uninitialised) (retval : System C)
    (i : nat) : Outcome (System C) :=
  c ← at_nat (coordinates_p retval) i;
  world_tmps ← set_nat (world_tmps_p retval) i
                  (fresh_vector (world_tmp_junk (junk i)) (Coordinate.nWorldAxes c));
  pixel_tmps ← set_nat (pixel_tmps_p retval) i
                  (fresh_vector (pixel_tmp_junk (junk i)) (Coordinate.nPixelAxes c));
  dummy ← get_Int subrec ("worldmap" +:+ num i);
  world_maps ← set_nat (world_maps_p retval) i dummy;
  v ← get_Double subrec ("worldreplace" +:+ num i);
  world_repl ← set_nat (world_replacement_values_p retval) i v;
  dummy ← get_Int subrec ("pixelmap" +:+ num i);
  pixel_maps ← set_nat (pixel_maps_p retval) i dummy;
  v ← get_Double subrec ("pixelreplace" +:+ num i);
  pixel_repl ← set_nat (pixel_replacement_values_p retval) i v;
  Done (mkSystem (coordinates_p retval) world_maps world_tmps world_repl
                 pixel_maps pixel_tmps pixel_repl).

(** [Done None] is the null pointer [restore] returns when the container
    has no such field.  [added i] is what the storage [addCoordinate]
    allocates for coordinate [i] holds, [again i] what the storage of the
    temporaries the second loop allocates holds. *)
Definition restore (fuel : nat) (container : gmap string RecordField)
    (fieldName : string) (added again : nat -> Uninitialised)
  : option (Outcome (option (System C))) :=
  match container !! fieldName with
  | None => Some (Done None)
  | Some (FieldRecord subrec) =>
      match restore_loop fuel subrec 0 [] with
      | Some (Done coords) =>
          Some (retval ← foldM (restore_body subrec again) (seq 0 (length coords))
                               (add_from added 0 coords empty);
                Done (Some retval))
      | Some (Throw e) => Some (Throw e)
      | None => None
      end
  | Some _ => Some (Throw AipsError)
  end.

(** *** toFITSHeader and fromFITSHeader: the parts on integers and strings *)

(** [String::upcase]. *)
Definition upcase_ascii (c : Ascii.ascii) : Ascii.ascii :=
  let n := Ascii.nat_of_ascii c in
  if (97 <=? n) && (n <=? 122) then Ascii.ascii_of_nat (n - 32) else c.

Fixpoint upcase (s : string) : string :=
  match s with
  | EmptyString => EmptyString
  | String c s' => String (upcase_ascii c) (upcase s')
  end.

(** [while (s.length() < 8) s += " "], run on fuel. *)
Fixpoint pad_loop (fuel : nat) (s : string) : option string :=
  match fuel with
  | 0 => None
  | S fuel' =>
      if String.length s <? 8 then pad_loop fuel' (s +:+ " ") else Some s
  end.

(** What CoordinateSystem.cc 1313-1319 makes of the name of an axis that
    is none of the special ones, and 1326-1332 of every unit: upper case,
    cut to eight characters, filled to eight with spaces. *)
Definition fits_string (fuel : nat) (s : string) : option string :=
  let s := upcase s in
  let s := if 8 <? String.length s then String.substring 0 8 s else s in
  pad_loop fuel s.

(** The Stokes axis of [toFITSHeader], CoordinateSystem.cc 1361-1388:
    [crval], [crpix] and [cdelt] of the axis from the Stokes values.
    [Stokes::FITSValue] is outside the two files. *)
Definition stokes_keywords (FITSValue : Z -> Z) (stokes : list Z)
  : Outcome (Z * Z * Z) :=
  '(inc, inorder) ←
    (if 1 <? length stokes then
       s1 ← at_nat stokes 1;
       s0 ← at_nat stokes 0;
       let inc := (FITSValue s1 - FITSValue s0)%Z in
       inorder ← foldM (fun (inorder : bool) i =>
                          si ← at_nat stokes i;
                          sp ← at_nat stokes (i - 1);
                          Done (if negb (FITSValue si - FITSValue sp =? inc)%Z
                                then false else inorder))
                       (seq 2 (length stokes - 2)) true;
       Done (inc, inorder)
     else Done (1%Z, true));
  s0 ← at_nat stokes 0;
  if (inorder : bool)
  then Done (FITSValue s0, 1%Z, inc)
  else Done ((FITSValue s0 + 200)%Z, 1%Z, 1%Z).

(** The transpose order of [fromFITSHeader], CoordinateSystem.cc
    1870-1902.  [order] starts as what [Vector<Int> order(n)] holds, which
    the constructor does not initialise. *)
Definition fits_order_body (longAxis latAxis stokesAxis specAxis nspecial : Z)
    (st : list Z * Z) (i : nat) : Outcome (list Z * Z) :=
  let '(order, linused) := st in
  if (Z.of_nat i =? longAxis)%Z then
    order ← set_nat order i 0%Z; Done (order, linused)
  else if (Z.of_nat i =? latAxis)%Z then
    order ← set_nat order i 1%Z; Done (order, linused)
  else if (Z.of_nat i =? stokesAxis)%Z then
    order ← set_nat order i (if (0 <=? longAxis)%Z then 2%Z else 0%Z);
    Done (order, linused)
  else if (Z.of_nat i =? specAxis)%Z then
    if (0 <=? longAxis)%Z && (0 <=? stokesAxis)%Z then
      order ← set_nat order i 3%Z; Done (order, linused)
    else if (0 <=? longAxis)%Z then
      order ← set_nat order i 2%Z; Done (order, linused)
    else if (0 <=? stokesAxis)%Z then
      order ← set_nat order i 0%Z; Done (order, linused)
    else Done (order, linused)
  else
    order ← set_nat order i (nspecial + linused)%Z;
    Done (order, (linused + 1)%Z).

Definition count_axis (axis : Z) : Z := if (0 <=? axis)%Z then 1%Z else 0%Z.

Definition fits_order (n : nat) (longAxis latAxis stokesAxis specAxis : Z)
    (order : list Z) : Outcome (list Z) :=
  let nspecial := (count_axis longAxis + count_axis latAxis
                   + count_axis stokesAxis + count_axis specAxis)%Z in
  '(order, _) ← foldM (fits_order_body longAxis latAxis stokesAxis specAxis nspecial)
                      (seq 0 n) (order, 0%Z);
  Done order.

(** *** Definitions the proofs use *)

(** The system with its coordinates replaced. *)
Definition with_coordinates (cs : System C) (coords : list C) : System C :=
  mkSystem coords
    (world_maps_p cs) (world_tmps_p cs) (world_replacement_values_p cs)
    (pixel_maps_p cs) (pixel_tmps_p cs) (pixel_replacement_values_p cs).

(** The fields [save] writes for one coordinate. *)
Inductive FieldKind : Type :=
| KCoordinate (t : Coordinate.Type_)
| KWorldMap | KWorldReplace | KPixelMap | KPixelReplace.

Definition field_prefix (k : FieldKind) : string :=
  match k with
  | KCoordinate t => basename t
  | KWorldMap => "worldmap"
  | KWorldReplace => "worldreplace"
  | KPixelMap => "pixelmap"
  | KPixelReplace => "pixelreplace"
  end.

Definition field_name (k : FieldKind) (i : nat) : string := field_prefix k +:+ num i.

(** What [save] needs of the coordinates' own [save]: given a record that
    has no field of that name, it defines a sub-record under the name and
    returns [True]. *)
Definition save_law : Prop :=
  forall (c : C) (rec : gmap string RecordField) (name : string),
    rec !! name = None ->
    exists r, Coordinate.save c rec name = (true, <[name := FieldRecord r]> rec).

(** The loop of [subImage] after [k] rounds: what it has made of the
    reference pixel [rp] and of the increment [cd]. *)
Definition shifted (originShift pixinc : list Z) (i : nat) (p : Double) : Double :=
  PrimFloat.div (PrimFloat.sub p (Double_of_Int (default 0%Z (originShift !! i))))
                (Double_of_Int (default 0%Z (pixinc !! i))).

Definition scaled (pixinc : list Z) (i : nat) (d : Double) : Double :=
  PrimFloat.mul d (Double_of_Int (default 0%Z (pixinc !! i))).

Definition subImage_invariant (originShift pixinc : list Z) (rp cd : list Double)
    (k : nat) (st : list Double * list Double) : Prop :=
  length st.1 = length rp /\ length st.2 = length cd /\
  (forall i, st.1 !! i
             = if i <? k then shifted originShift pixinc i <$> rp !! i else rp !! i) /\
  (forall i, st.2 !! i
             = if i <? k then scaled pixinc i <$> cd !! i else cd !! i).

(** The systems the public operations build from the empty one. *)
Inductive reachable : System C -> Prop :=
| reach_empty : reachable empty
| reach_addCoordinate cs coord junk :
    reachable cs -> reachable (addCoordinate cs coord junk)
| reach_removeWorldAxis cs axis replacement cs' :
    reachable cs -> removeWorldAxis cs axis replacement = Done cs' ->
    reachable cs'
| reach_removePixelAxis cs axis replacement cs' :
    reachable cs -> removePixelAxis cs axis replacement = Done cs' ->
    reachable cs'
| reach_transpose cs newWorldOrder newPixelOrder cs' :
    reachable cs -> transpose cs newWorldOrder newPixelOrder = Done cs' ->
    reachable cs'
| reach_replaceCoordinate cs newCoordinate which cs' :
    reachable cs -> replaceCoordinate cs newCoordinate which = Done cs' ->
    reachable cs'
| reach_restoreOriginal cs junk :
    reachable cs -> reachable (restoreOriginal cs junk).

(** The shape of the private data: one block per coordinate, each as long
    as the coordinate has axes; and the axis-mapping invariant. *)
Definition sized (f : C -> nat) {A : Type} (blocks : list (list A))
    (coords : list C) : Prop :=
  Forall2 (fun block c => length block = f c) blocks coords.

Record well_formed (cs : System C) : Prop := mkWellFormed {
  wf_world_maps : sized Coordinate.nWorldAxes (world_maps_p cs) (coordinates_p cs);
  wf_world_tmps : sized Coordinate.nWorldAxes (world_tmps_p cs) (coordinates_p cs);
  wf_world_repl :
    sized Coordinate.nWorldAxes (world_replacement_values_p cs) (coordinates_p cs);
  wf_pixel_maps : sized Coordinate.nPixelAxes (pixel_maps_p cs) (coordinates_p cs);
  wf_pixel_tmps : sized Coordinate.nPixelAxes (pixel_tmps_p cs) (coordinates_p cs);
  wf_pixel_repl :
    sized Coordinate.nPixelAxes (pixel_replacement_values_p cs) (coordinates_p cs);
  wf_world_axes : axes_ok (world_maps_p cs);
  wf_pixel_axes : axes_ok (pixel_maps_p cs)
}.

(** The entry of a family of maps (or of replacement values) for axis
    [axis] of coordinate [coord]. *)
Definition entry {A : Type} (blocks : list (list A)) (coord axis : nat) : option A :=
  blocks !! coord ≫= fun block => block !! axis.

(** [vec'] is [vec] rearranged by [order]: its entry [i] is entry
    [order(i)] of [vec]. *)
Definition permuted {A : Type} (order : list Z) (vec vec' : list A) : Prop :=
  length vec' = length order /\
  forall i o, order !! i = Some o -> vec' !! i = vec !! Z.to_nat o.

(** What [worldAxes] and [pixelAxes] report for a map entry: the axis
    number, or [-1] for a removed axis. *)
Definition exposed_or_gone (x : Z) : Z := if (0 <=? x)%Z then x else (-1)%Z.

(** The vector a coordinate is handed by a loop that goes through its map:
    entry [j] comes from the caller's vector [src] where the map entry is
    not negative and from [own] elsewhere.  [own] is the coordinate's
    present vector in the setters and the replacement values in the
    conversions. *)
Definition scatter {A : Type} (map_ : list Z) (src own : list A) : list A :=
  zip_with (fun which x => if (0 <=? which)%Z
                           then default x (src !! Z.to_nat which) else x)
           map_ own.

(** The conversion [toWorld] asks of coordinate [i]: the coordinate's own
    [toWorld] on its world temporary and on its part of [pixel], removed
    pixel axes taking their replacement values.  [toPixel_of] is its
    mirror image. *)
Definition toWorld_of (cs : System C) (pixel : list Double) (i : nat)
  : option Coordinate.Conversion :=
  c ← coordinates_p cs !! i;
  pixel_map ← pixel_maps_p cs !! i;
  pixel_repl ← pixel_replacement_values_p cs !! i;
  world_tmp ← world_tmps_p cs !! i;
  Some (Coordinate.toWorld c world_tmp (scatter pixel_map pixel pixel_repl)).

Definition toPixel_of (cs : System C) (world : list Double) (i : nat)
  : option Coordinate.Conversion :=
  c ← coordinates_p cs !! i;
  world_map ← world_maps_p cs !! i;
  world_repl ← world_replacement_values_p cs !! i;
  pixel_tmp ← pixel_tmps_p cs !! i;
  Some (Coordinate.toPixel c pixel_tmp (scatter world_map world world_repl)).

(** Whether the conversion asked of coordinate [i] succeeds. *)
Definition world_ok (cs : System C) (pixel : list Double) (i : nat) : bool :=
  match toWorld_of cs pixel i with
  | Some r => Coordinate.conv_ok r
  | None => true
  end.

Definition pixel_ok (cs : System C) (world : list Double) (i : nat) : bool :=
  match toPixel_of cs world i with
  | Some r => Coordinate.conv_ok r
  | None => true
  end.

(** [restore] against [save]: [r] is a sub-record the [save] of [c] wrote
    under [name], and what [restore] needs of the coordinates' own
    [restore]: it gives back each coordinate of the system from the
    sub-record the coordinate's [save] wrote. *)
Definition saved_as (c : C) (name : string) (r : gmap string RecordField) : Prop :=
  exists rec, rec !! name = None /\
              Coordinate.save c rec name = (true, <[name := FieldRecord r]> rec).

Definition restore_law (cs : System C) : Prop :=
  forall (c : C) (name : string) (r rec' : gmap string RecordField),
    In c (coordinates_p cs) ->
    saved_as c name r -> rec' !! name = Some (FieldRecord r) ->
    restore_coordinate (Coordinate.type c) rec' name = Some c.

(** The names of the fields [save] writes for coordinate [j]. *)
Definition coordinate_fields (c : C) (j : nat) : list string :=
  [field_name (KCoordinate (Coordinate.type c)) j; field_name KWorldMap j;
   field_name KWorldReplace j; field_name KPixelMap j; field_name KPixelReplace j].

(** The sub-record holds what [save] writes for coordinate [j]. *)
Definition stored (cs : System C) (subrec : gmap string RecordField)
    (j : nat) (c : C) : Prop :=
  exists r wm wr pm pr,
    world_maps_p cs !! j = Some wm /\
    world_replacement_values_p cs !! j = Some wr /\
    pixel_maps_p cs !! j = Some pm /\
    pixel_replacement_values_p cs !! j = Some pr /\
    saved_as c (field_name (KCoordinate (Coordinate.type c)) j) r /\
    subrec !! field_name (KCoordinate (Coordinate.type c)) j = Some (FieldRecord r) /\
    subrec !! field_name KWorldMap j = Some (FieldInt wm) /\
    subrec !! field_name KWorldReplace j = Some (FieldDouble wr) /\
    subrec !! field_name KPixelMap j = Some (FieldInt pm) /\
    subrec !! field_name KPixelReplace j = Some (FieldDouble pr).

(** The loop of [save] after [k] rounds. *)
Definition saved_fields (cs : System C) (k : nat)
    (subrec : gmap string RecordField) : Prop :=
  (forall key, is_Some (subrec !! key) ->
     exists j c, j < k /\ coordinates_p cs !! j = Some c /\
                 In key (coordinate_fields c j)) /\
  (forall j c, j < k -> coordinates_p cs !! j = Some c -> stored cs subrec j c).

(** The system [restore] builds from what [save] wrote of [cs]: [cs] with
    fresh temporaries. *)
Definition fresh_tmps (junk : nat -> Uninitialised) (cs : System C)
  : System C :=
  mkSystem (coordinates_p cs)
    (world_maps_p cs)
    (imap (fun i c => fresh_vector (world_tmp_junk (junk i))
                                   (Coordinate.nWorldAxes c))
          (coordinates_p cs))
    (world_replacement_values_p cs)
    (pixel_maps_p cs)
    (imap (fun i c => fresh_vector (pixel_tmp_junk (junk i))
                                   (Coordinate.nPixelAxes c))
          (coordinates_p cs))
    (pixel_replacement_values_p cs).

(** [n] spaces. *)
Fixpoint spaces (n : nat) : string :=
  match n with
  | 0 => EmptyString
  | S n' => " " +:+ spaces n'
  end.

(** The test of the Stokes loop of [toFITSHeader] at place [i]: the step
    from the value before is [inc]. *)
Definition step_ok (FITSValue : Z -> Z) (stokes : list Z) (inc : Z) (i : nat)
  : bool :=
  match stokes !! i, stokes !! (i - 1) with
  | Some si, Some sp => (FITSValue si - FITSValue sp =? inc)%Z
  | _, _ => true
  end.

(** A matrix of [nr] rows and [nc] columns. *)
Definition shaped (nr nc : nat) (m : Matrix) : Prop :=
  nrow m = nr /\ ncolumn m = nc /\ length (mcols m) = nc /\
  Forall (fun col => length col = nr) (mcols m).

(** What [linearTransform] writes for world axis [i] and pixel axis [j]. *)
Definition coupling (cs : System C) (i j : nat) : Outcome Double :=
  '(worldCoord, worldAxis) ← findWorldAxis cs i;
  '(pixelCoord, pixelAxis) ← findPixelAxis cs j;
  if (worldCoord =? pixelCoord)%Z
  then c ← at_Z (coordinates_p cs) worldCoord;
       matrix_at (Coordinate.linearTransform c) worldAxis pixelAxis
  else Done 0%float.

(** The places [fromFITSHeader] gives: [special_axis] holds of the header
    axes that are one of the four special ones, [linear_before i] counts
    the other axes before axis [i], [assigned] is what the loop of
    [fits_order] leaves at place [i] of an order that started as
    [order0]. *)
Definition special_axis (longAxis latAxis stokesAxis specAxis : Z) (i : nat)
  : bool :=
  (Z.of_nat i =? longAxis)%Z || (Z.of_nat i =? latAxis)%Z
  || (Z.of_nat i =? stokesAxis)%Z || (Z.of_nat i =? specAxis)%Z.

Definition linear_before (longAxis latAxis stokesAxis specAxis : Z) (i : nat)
  : nat :=
  length (List.filter
            (fun j => negb (special_axis longAxis latAxis stokesAxis specAxis j))
            (seq 0 i)).

Definition nspecial (longAxis latAxis stokesAxis specAxis : Z) : Z :=
  (count_axis longAxis + count_axis latAxis
   + count_axis stokesAxis + count_axis specAxis)%Z.

Definition assigned (longAxis latAxis stokesAxis specAxis : Z)
    (order0 : list Z) (i : nat) : Z :=
  if (Z.of_nat i =? longAxis)%Z then 0%Z
  else if (Z.of_nat i =? latAxis)%Z then 1%Z
  else if (Z.of_nat i =? stokesAxis)%Z then
    (if (0 <=? longAxis)%Z then 2%Z else 0%Z)
  else if (Z.of_nat i =? specAxis)%Z then
    (if (0 <=? longAxis)%Z && (0 <=? stokesAxis)%Z then 3%Z
     else if (0 <=? longAxis)%Z then 2%Z
     else if (0 <=? stokesAxis)%Z then 0%Z
     else default 0%Z (order0 !! i))
  else (nspecial longAxis latAxis stokesAxis specAxis
        + Z.of_nat (linear_before longAxis latAxis stokesAxis specAxis i))%Z.

(** The axes [fromFITSHeader] has found when it reaches the loop
    (CoordinateSystem.cc 1587-1621): each is -1 or the number of a header
    axis, no header axis is two of them, and longitude and latitude come
    together. *)
Record placeable (longAxis latAxis stokesAxis specAxis : Z) (n : nat)
  : Prop := {
  long_range : (longAxis < Z.of_nat n)%Z;
  lat_range : (latAxis < Z.of_nat n)%Z;
  stokes_range : (stokesAxis < Z.of_nat n)%Z;
  spec_range : (specAxis < Z.of_nat n)%Z;
  long_lat : (0 <= longAxis -> longAxis <> latAxis)%Z;
  long_stokes : (0 <= longAxis -> longAxis <> stokesAxis)%Z;
  long_spec : (0 <= longAxis -> longAxis <> specAxis)%Z;
  lat_stokes : (0 <= latAxis -> latAxis <> stokesAxis)%Z;
  lat_spec : (0 <= latAxis -> latAxis <> specAxis)%Z;
  stokes_spec : (0 <= stokesAxis -> stokesAxis <> specAxis)%Z;
  direction_pair : (0 <= longAxis <-> 0 <= latAxis)%Z
}.

(** One rearrangement of the axes: a removal or a transposition. *)
Definition rearranged (cs cs' : System C) : Prop :=
  (exists axis replacement, removeWorldAxis cs axis replacement = Done cs') \/
  (exists axis replacement, removePixelAxis cs axis replacement = Done cs') \/
  (exists newWorldOrder newPixelOrder,
      transpose cs newWorldOrder newPixelOrder = Done cs').

End Composite.

End CoordinateSystem.

(** ** A concrete coordinate for the examples

    The concrete coordinate classes are outside the two files.  [Mock.Coord]
    stands in for them in the examples: an uncoupled coordinate, one pixel
    axis per world axis, with [world = crval + cdelt * (pixel - crpix)] on
    every axis.  Like a Stokes or a tabular axis it has a first pixel:
    a conversion fails, leaving its output vector as it was, when a pixel
    coordinate is negative.  Its setters store what they are given. *)

Module Mock.

Record Coord : Type := mkCoord {
  kind : Coordinate.Type_;
  names : list string;
  units : list string;
  crpix : list Double;
  crval : list Double;
  cdelt : list Double;
  pc : Matrix
}.

Definition negative (x : Double) : bool := PrimFloat.ltb x 0%float.

Definition world_of (p r v d : Double) : Double :=
  PrimFloat.add v (PrimFloat.mul d (PrimFloat.sub p r)).

Definition pixel_of (w r v d : Double) : Double :=
  PrimFloat.add r (PrimFloat.div (PrimFloat.sub w v) d).

Fixpoint zip_with4 (f : Double -> Double -> Double -> Double -> Double)
    (a b c d : list Double) : list Double :=
  match a, b, c, d with
  | x :: a', y :: b', z :: c', t :: d' => f x y z t :: zip_with4 f a' b' c' d'
  | _, _, _, _ => []
  end.

Definition toWorld (c : Coord) (world pixel : list Double) : Coordinate.Conversion :=
  if existsb negative pixel
  then Coordinate.mkConversion false world "pixel out of range"
  else Coordinate.mkConversion true
         (zip_with4 world_of pixel (crpix c) (crval c) (cdelt c)) "".

Definition toPixel (c : Coord) (pixel world : list Double) : Coordinate.Conversion :=
  let p := zip_with4 pixel_of world (crpix c) (crval c) (cdelt c) in
  if existsb negative p
  then Coordinate.mkConversion false pixel "world out of range"
  else Coordinate.mkConversion true p "".

Definition set_names (c : Coord) (v : list string) : bool * Coord :=
  if length v =? length (crval c)
  then (true, mkCoord (kind c) v (units c) (crpix c) (crval c) (cdelt c) (pc c))
  else (false, c).

Definition set_crpix (c : Coord) (v : list Double) : bool * Coord :=
  if length v =? length (crpix c)
  then (true, mkCoord (kind c) (names c) (units c) v (crval c) (cdelt c) (pc c))
  else (false, c).

Definition set_crval (c : Coord) (v : list Double) : bool * Coord :=
  if length v =? length (crval c)
  then (true, mkCoord (kind c) (names c) (units c) (crpix c) v (cdelt c) (pc c))
  else (false, c).

Definition set_cdelt (c : Coord) (v : list Double) : bool * Coord :=
  if length v =? length (crval c)
  then (true, mkCoord (kind c) (names c) (units c) (crpix c) (crval c) v (pc c))
  else (false, c).

Definition set_pc (c : Coord) (m : Matrix) : bool * Coord :=
  if (nrow m =? length (crval c)) && (ncolumn m =? length (crpix c))
  then (true, mkCoord (kind c) (names c) (units c) (crpix c) (crval c) (cdelt c) m)
  else (false, c).

Definition all_near (tol : Double) (a b : list Double) : bool :=
  forallb (fun xy => Math.near_tol xy.1 xy.2 tol) (zip a b).

(** The axis descriptors agree within [tol].  The exclusion list is not
    consulted: the examples pass an empty one. *)
Definition near (c c' : Coord) (exclude : list Z) (tol : Double) : bool :=
  bool_decide (kind c = kind c')
  && (length (crval c) =? length (crval c'))
  && all_near tol (crval c) (crval c')
  && all_near tol (cdelt c) (cdelt c')
  && all_near tol (crpix c) (crpix c').

Definition save (c : Coord) (container : gmap string RecordField) (name : string)
  : bool * gmap string RecordField :=
  if bool_decide (is_Some (container !! name)) then (false, container)
  else (true,
        <[name := FieldRecord
                    (<["crval" := FieldDouble (crval c)]>
                       (<["crpix" := FieldDouble (crpix c)]>
                          (<["cdelt" := FieldDouble (cdelt c)]> ∅)))]> container).

(** The coordinate class's own [restore], which is given the kind: the
    record of [save] holds neither names, units nor the transform, so what
    is restored has the names, units and transform of [uniform] with name
    x and unit km. *)
Definition restore (k : Coordinate.Type_) (container : gmap string RecordField)
    (name : string) : option Coord :=
  match container !! name with
  | Some (FieldRecord r) =>
      match r !! "crval", r !! "crpix", r !! "cdelt" with
      | Some (FieldDouble v), Some (FieldDouble p), Some (FieldDouble d) =>
          let n := length v in
          Some (mkCoord k (replicate n "x") (replicate n "km") p v d
                        (mkMatrix n n
                           (map (fun j => map (fun i => if i =? j then 1%float
                                                        else 0%float) (seq 0 n))
                                (seq 0 n))))
      | _, _, _ => None
      end
  | _ => None
  end.

#[global] Instance virtuals : Coordinate.Virtuals Coord := {|
  Coordinate.type := kind;
  Coordinate.nPixelAxes c := length (crpix c);
  Coordinate.nWorldAxes c := length (crval c);
  Coordinate.toWorld := toWorld;
  Coordinate.toPixel := toPixel;
  Coordinate.worldAxisNames := names;
  Coordinate.worldAxisUnits := units;
  Coordinate.referencePixel := crpix;
  Coordinate.referenceValue := crval;
  Coordinate.increment := cdelt;
  Coordinate.linearTransform := pc;
  Coordinate.setWorldAxisNames := set_names;
  Coordinate.setReferencePixel := set_crpix;
  Coordinate.setReferenceValue := set_crval;
  Coordinate.setIncrement := set_cdelt;
  Coordinate.setLinearTransform := set_pc;
  Coordinate.near := near;
  Coordinate.save := save
|}.

(** [n] axes with reference pixel [p], reference value [v], increment [d]
    on each, and the identity as linear transform. *)
Definition identity_matrix (n : nat) : Matrix :=
  mkMatrix n n
    (map (fun j => map (fun i => if i =? j then 1%float else 0%float) (seq 0 n))
         (seq 0 n)).

Definition uniform (k : Coordinate.Type_) (n : nat) (name unit : string)
    (p v d : Double) : Coord :=
  mkCoord k (replicate n name) (replicate n unit)
          (replicate n p) (replicate n v) (replicate n d) (identity_matrix n).

(** A small unit table: metres, kilometres, seconds, hertz. *)
Definition unit_value (s : string) : option (list Z * Double) :=
  if String.eqb s "m" then Some ([1; 0]%Z, 1%float)
  else if String.eqb s "km" then Some ([1; 0]%Z, 1000%float)
  else if String.eqb s "s" then Some ([0; 1]%Z, 1%float)
  else if String.eqb s "Hz" then Some ([0; -1]%Z, 1%float)
  else None.

(** The invariant of a [Coord]: as many increments as reference values. *)
Definition valid (c : Coord) : Prop := length (cdelt c) = length (crval c).

End Mock.

(** ** The systems of the examples *)

Module Examples.
Import CoordinateSystem.

(** Storage that happens to hold zeros. *)
Definition zeros : Uninitialised :=
  mkUninitialised (fun _ => 0%float) (fun _ => 0%float)
                  (fun _ => 0%float) (fun _ => 0%float).

(** Storage that happens to hold sevens. *)
Definition sevens : Uninitialised :=
  mkUninitialised (fun _ => 7%float) (fun _ => 7%float)
                  (fun _ => 7%float) (fun _ => 7%float).

Definition stokes1 : Mock.Coord :=
  Mock.uniform Coordinate.STOKES 1 "Stokes" "" 0%float 0%float 1%float.
Definition linear1 : Mock.Coord :=
  Mock.uniform Coordinate.LINEAR 1 "x" "km" 0%float 0%float 1%float.
Definition linear1' : Mock.Coord :=
  Mock.uniform Coordinate.LINEAR 1 "x" "km" 0%float 100%float 1%float.
Definition linear2 : Mock.Coord :=
  Mock.uniform Coordinate.LINEAR 2 "x" "km" 256%float 0%float 1%float.
Definition spectral1 : Mock.Coord :=
  Mock.uniform Coordinate.SPECTRAL 1 "Frequency" "Hz" 0%float 0%float 1%float.

Definition stokes_linear : System Mock.Coord :=
  addCoordinate (addCoordinate empty stokes1 zeros) linear1 zeros.

Definition stokes_linear' : System Mock.Coord :=
  addCoordinate (addCoordinate empty stokes1 zeros) linear1' zeros.

Definition linear_only : System Mock.Coord := addCoordinate empty linear1 zeros.

Definition spectral_first : System Mock.Coord :=
  addCoordinate (addCoordinate (addCoordinate empty spectral1 zeros) linear1 zeros)
                stokes1 zeros.
Definition spectral_second : System Mock.Coord :=
  addCoordinate (addCoordinate (addCoordinate empty linear1 zeros) spectral1 zeros)
                stokes1 zeros.
Definition spectral_third : System Mock.Coord :=
  addCoordinate (addCoordinate (addCoordinate empty linear1 zeros) stokes1 zeros)
                spectral1 zeros.

Definition near_columns : Matrix :=
  mkMatrix 1 2 [[1%float]; [0x1.0000000000001p+0%float]].
Definition failing_columns_twice : Matrix :=
  mkMatrix 1 2 [[(-1)%float]; [(-1)%float]].

Definition three : System Mock.Coord := addCoordinate stokes_linear linear2 zeros.

Definition or_empty (o : Outcome (System Mock.Coord)) : System Mock.Coord :=
  match o with Done cs => cs | Throw _ => empty end.

Definition transposed : System Mock.Coord :=
  or_empty (transpose three [2; 0; 3; 1]%Z [3; 2; 1; 0]%Z).
Definition world_removed : System Mock.Coord :=
  or_empty (removeWorldAxis transposed 1 0.5%float).
Definition built_system : System Mock.Coord :=
  or_empty (removePixelAxis world_removed 0 17%float).

Definition two_axes : System Mock.Coord := addCoordinate empty linear2 zeros.

Definition world_axis_gone : System Mock.Coord :=
  or_empty (removeWorldAxis linear_only 0 0%float).

(** Two world axes and one pixel axis. *)
Definition pixel_axis_gone : System Mock.Coord :=
  or_empty (removePixelAxis two_axes 1 0%float).

Definition linear_pair : System Mock.Coord := addCoordinate linear_only linear2 zeros.
Definition linear_pair_removed : System Mock.Coord :=
  or_empty (removeWorldAxis linear_pair 1 0.5%float).

End Examples.

(** * Properties *)

(** ** Loops and accesses that can throw *)

Lemma foldM_app {A S : Type} (f : S -> A -> Outcome S) (l1 l2 : list A) (s : S) :
  foldM f (l1 ++ l2) s = foldM f l1 s ≫= foldM f l2.
Proof.
  revert s. induction l1 as [|a l1 IH]; intros s; [reflexivity|].
  simpl. destruct (f s a) as [s'|e]; simpl; [apply IH|reflexivity].
Qed.

(** A loop over [0, ..., n-1] whose body keeps an invariant runs to its end. *)
Lemma foldM_seq_invariant {S : Type} (f : S -> nat -> Outcome S)
    (P : nat -> S -> Prop) (n : nat) (s0 : S) :
  P 0 s0 ->
  (forall k s, k < n -> P k s -> exists s', f s k = Done s' /\ P (Datatypes.S k) s') ->
  exists s', foldM f (seq 0 n) s0 = Done s' /\ P n s'.
Proof.
  intros H0 Hstep. induction n as [|n IH].
  - exists s0. split; [reflexivity|assumption].
  - destruct IH as (s & Hs & HP); [intros; apply Hstep; auto; lia|].
    destruct (Hstep n s) as (s' & Hs' & HP'); [lia|assumption|].
    exists s'. split; [|assumption].
    rewrite seq_S, foldM_app, Hs. simpl. now rewrite Hs'.
Qed.

Lemma at_nat_Done {A : Type} (v : list A) (i : nat) (x : A) :
  v !! i = Some x -> at_nat v i = Done x.
Proof. unfold at_nat. now intros ->. Qed.

Lemma at_Z_Done {A : Type} (v : list A) (i : nat) (x : A) :
  v !! i = Some x -> at_Z v (Z.of_nat i) = Done x.
Proof.
  intros H. unfold at_Z. destruct (Z.ltb_spec (Z.of_nat i) 0); [lia|].
  rewrite Nat2Z.id. now apply at_nat_Done.
Qed.

Lemma set_nat_Done {A : Type} (v : list A) (i : nat) (x : A) :
  i < length v -> set_nat v i x = Done (<[i := x]> v).
Proof. intros H. unfold set_nat. now rewrite decide_True. Qed.

Lemma set_Z_Done {A : Type} (v : list A) (i : nat) (x : A) :
  i < length v -> set_Z v (Z.of_nat i) x = Done (<[i := x]> v).
Proof.
  intros H. unfold set_Z. destruct (Z.ltb_spec (Z.of_nat i) 0); [lia|].
  rewrite Nat2Z.id. now apply set_nat_Done.
Qed.

Lemma at_Z_nonneg {A : Type} (v : list A) (w : Z) :
  (0 <= w)%Z -> at_Z v w = at_nat v (Z.to_nat w).
Proof. intros H. unfold at_Z. destruct (Z.ltb_spec w 0); [lia|reflexivity]. Qed.

(** ** The Coordinate base class *)

Module CoordinateTheory.
Import Coordinate.

Section Many.
Variable conv : list Double -> list Double -> Conversion.
Variables nIn nOut : nat.

Hypothesis Hout : out_parameter conv.

Lemma many_loop_snoc (cols : list (list Double)) (x : list Double) (f0 : list Z) :
  many_loop conv nIn nOut (cols ++ [x]) f0
  = many_step conv (many_loop conv nIn nOut cols f0) x.
Proof. unfold many_loop. now rewrite fold_left_app. Qed.

Lemma previous_column_app (cols : list (list Double)) (x : list Double) (t : nat) :
  t <= length cols ->
  previous_column nIn (cols ++ [x]) t = previous_column nIn cols t.
Proof.
  intros Ht. destruct t as [|t]; [reflexivity|]. simpl.
  now rewrite lookup_app_l by lia.
Qed.

Lemma previous_column_last (cols : list (list Double)) (x : list Double) :
  previous_column nIn (cols ++ [x]) (length (cols ++ [x])) = x.
Proof.
  rewrite length_app. simpl. replace (length cols + 1) with (S (length cols)) by lia.
  simpl. now rewrite list_lookup_middle.
Qed.

Lemma converted_app (cols : list (list Double)) (x : list Double) (t : nat) :
  t < length cols -> converted nIn (cols ++ [x]) t = converted nIn cols t.
Proof.
  intros Ht. unfold converted. rewrite lookup_app_l by lia.
  now rewrite previous_column_app by lia.
Qed.

Lemma conversion_fails_app (cols : list (list Double)) (x : list Double) (t : nat) :
  t < length cols ->
  conversion_fails conv nIn (cols ++ [x]) t = conversion_fails conv nIn cols t.
Proof.
  intros Ht. unfold conversion_fails. rewrite lookup_app_l by lia.
  now rewrite converted_app.
Qed.

Lemma failing_columns_snoc (cols : list (list Double)) (x : list Double) :
  failing_columns conv nIn (cols ++ [x])
  = failing_columns conv nIn cols
    ++ (if conversion_fails conv nIn (cols ++ [x]) (length cols)
        then [Z.of_nat (length cols)] else []).
Proof.
  unfold failing_columns. rewrite length_app. simpl.
  rewrite seq_app, List.filter_app, map_app. f_equal.
  - f_equal. apply List.filter_ext_in. intros t Ht. apply in_seq in Ht.
    apply conversion_fails_app. lia.
  - simpl. destruct (conversion_fails conv nIn (cols ++ [x]) (length cols)); reflexivity.
Qed.

Lemma record_failure_spec (st : ManyState) (l : nat) (msg : string) :
  nError st <= length (failures st) ->
  let '(fs, n, _) := record_failure st l msg in
  n = S (nError st) /\ n <= length fs /\
  take n fs = take (nError st) (failures st) ++ [Z.of_nat l].
Proof.
  intros Hroom. unfold record_failure.
  set (n := S (nError st)).
  set (f1 := if decide (length (failures st) < n)
             then resize (2 * n) 0%Z (failures st) else failures st).
  assert (H1 : n <= length f1 /\ take (nError st) f1 = take (nError st) (failures st)).
  { unfold f1. destruct (decide (length (failures st) < n)).
    - split; [rewrite length_resize; lia|].
      rewrite resize_ge by lia. rewrite take_app_le by lia. reflexivity.
    - split; [lia|reflexivity]. }
  destruct H1 as [Hlen Htake].
  split; [reflexivity|]. split; [now rewrite length_insert|].
  replace (n - 1) with (nError st) by (unfold n; lia).
  unfold n. rewrite (take_S_r _ _ (Z.of_nat l)).
  - rewrite take_insert_ge by lia. now rewrite Htake.
  - apply list_lookup_insert_eq. unfold n in Hlen. lia.
Qed.

Lemma many_step_invariant (cols : list (list Double)) (x : list Double) (st : ManyState) :
  loop_invariant conv nIn cols st ->
  loop_invariant conv nIn (cols ++ [x]) (many_step conv st x).
Proof.
  intros [Hlen Hlast Hroom Hfail Hconv Hcopy Htmp].
  assert (Hsame : converted nIn (cols ++ [x]) (length cols)
                  = negb (same_column (length (out st)) x (lastIn st))).
  { unfold converted. rewrite list_lookup_middle by reflexivity.
    rewrite previous_column_app by lia. now rewrite Hlen, Hlast. }
  assert (Hold : forall t col, (cols ++ [x]) !! t = Some col -> t < length cols ->
                   cols !! t = Some col).
  { intros t col H Ht. now rewrite lookup_app_l in H by lia. }
  assert (Hnew : forall t col, (cols ++ [x]) !! t = Some col -> ~ t < length cols ->
                   t = length cols /\ col = x).
  { intros t col H Ht. pose proof (lookup_lt_Some _ _ _ H) as Hl.
    rewrite length_app in Hl. simpl in Hl. assert (t = length cols) by lia. subst t.
    rewrite list_lookup_middle in H by reflexivity. split; congruence. }
  unfold many_step.
  destruct (same_column (length (out st)) x (lastIn st)) eqn:Esame.
  - (* the column is copied *)
    constructor; simpl.
    + rewrite !length_app. simpl. lia.
    + now rewrite previous_column_last.
    + exact Hroom.
    + rewrite failing_columns_snoc. unfold conversion_fails.
      rewrite list_lookup_middle by reflexivity. rewrite Hsame. simpl.
      now rewrite app_nil_r.
    + intros t col w Hl Hc. destruct (decide (t < length cols)) as [Ht|Ht].
      * rewrite converted_app in Hc by assumption.
        rewrite lookup_app_l by lia. eauto.
      * destruct (Hnew _ _ Hl Ht) as [-> ->]. rewrite Hsame in Hc. discriminate.
    + intros t col Hl Hc. destruct (decide (t < length cols)) as [Ht|Ht].
      * rewrite converted_app in Hc by assumption.
        destruct (Hcopy t col (Hold _ _ Hl Ht) Hc) as (v & Hv & Hu).
        exists v. split; [now rewrite lookup_app_l by lia|].
        intros u Ht0. rewrite lookup_app_l by lia. now apply Hu.
      * destruct (Hnew _ _ Hl Ht) as [-> ->].
        exists (outTmp st). split.
        -- rewrite <- Hlen. now rewrite list_lookup_middle.
        -- intros u Ht0 Hu. rewrite lookup_app_l in Hu by lia.
           apply Htmp. rewrite last_lookup.
           replace (Init.Nat.pred (length (out st))) with (length cols - 1) by lia.
           exact Hu.
    + intros v Hv. rewrite last_snoc in Hv. congruence.
  - (* the column is converted *)
    destruct (conv_ok (conv (outTmp st) x)) eqn:Eok; cbn [negb].
    + constructor; simpl.
      * rewrite !length_app. simpl. lia.
      * now rewrite previous_column_last.
      * exact Hroom.
      * rewrite failing_columns_snoc. unfold conversion_fails.
        rewrite list_lookup_middle by reflexivity. rewrite Hsame. simpl.
        destruct (Hout [] (outTmp st) x) as [-> _]. rewrite Eok. simpl.
        now rewrite app_nil_r.
      * intros t col w Hl Hc. destruct (decide (t < length cols)) as [Ht|Ht].
        -- rewrite converted_app in Hc by assumption.
           rewrite lookup_app_l by lia. eauto.
        -- destruct (Hnew _ _ Hl Ht) as [-> ->].
           rewrite <- Hlen. rewrite list_lookup_middle by reflexivity.
           destruct (Hout w (outTmp st) x) as [Hf Ho]. rewrite Hf, Eok.
           rewrite Ho by congruence. reflexivity.
      * intros t col Hl Hc. destruct (decide (t < length cols)) as [Ht|Ht].
        -- rewrite converted_app in Hc by assumption.
           destruct (Hcopy t col (Hold _ _ Hl Ht) Hc) as (v & Hv & Hu).
           exists v. split; [now rewrite lookup_app_l by lia|].
           intros u Ht0. rewrite lookup_app_l by lia. now apply Hu.
        -- destruct (Hnew _ _ Hl Ht) as [-> ->]. rewrite Hsame in Hc. discriminate.
      * intros v Hv. rewrite last_snoc in Hv. congruence.
    + pose proof (record_failure_spec st (length (out st)) (conv_err (conv (outTmp st) x)) Hroom) as Hrec.
      destruct (record_failure st (length (out st)) (conv_err (conv (outTmp st) x)))
        as [[fs n] msg].
      destruct Hrec as (Hn & Hroom' & Htake).
      constructor; simpl.
      * rewrite !length_app. simpl. lia.
      * now rewrite previous_column_last.
      * exact Hroom'.
      * rewrite failing_columns_snoc. unfold conversion_fails.
        rewrite list_lookup_middle by reflexivity. rewrite Hsame. simpl.
        destruct (Hout [] (outTmp st) x) as [-> _]. rewrite Eok. simpl.
        rewrite Htake, Hfail, Hlen. reflexivity.
      * intros t col w Hl Hc. destruct (decide (t < length cols)) as [Ht|Ht].
        -- rewrite converted_app in Hc by assumption.
           rewrite lookup_app_l by lia. eauto.
        -- destruct (Hnew _ _ Hl Ht) as [-> ->].
           rewrite <- Hlen. rewrite list_lookup_middle by reflexivity.
           destruct (Hout w (outTmp st) x) as [Hf Ho]. rewrite Hf, Eok. reflexivity.
      * intros t col Hl Hc. destruct (decide (t < length cols)) as [Ht|Ht].
        -- rewrite converted_app in Hc by assumption.
           destruct (Hcopy t col (Hold _ _ Hl Ht) Hc) as (v & Hv & Hu).
           exists v. split; [now rewrite lookup_app_l by lia|].
           intros u Ht0. rewrite lookup_app_l by lia. now apply Hu.
        -- destruct (Hnew _ _ Hl Ht) as [-> ->]. rewrite Hsame in Hc. discriminate.
      * intros v Hv. rewrite last_snoc in Hv. congruence.
Qed.

Lemma many_loop_invariant (cols : list (list Double)) (f0 : list Z) :
  loop_invariant conv nIn cols (many_loop conv nIn nOut cols f0).
Proof.
  induction cols as [|x cols IH] using rev_ind.
  - constructor; simpl; try reflexivity; try lia.
    + intros t col w Hl. rewrite lookup_nil in Hl. discriminate.
    + intros t col Hl. rewrite lookup_nil in Hl. discriminate.
    + intros v Hv. discriminate.
  - rewrite many_loop_snoc. now apply many_step_invariant.
Qed.

End Many.

Lemma In_failing_columns (conv : list Double -> list Double -> Conversion)
    (nIn : nat) (cols : list (list Double)) (t : nat) :
  In (Z.of_nat t) (failing_columns conv nIn cols)
  <-> conversion_fails conv nIn cols t = true.
Proof.
  unfold failing_columns. rewrite in_map_iff. split.
  - intros (t' & Ht & Hin). apply Nat2Z.inj in Ht. subst t'.
    apply List.filter_In in Hin. tauto.
  - intros Hf. exists t. split; [reflexivity|]. apply List.filter_In.
    split; [|assumption]. apply in_seq. split; [lia|]. simpl.
    unfold conversion_fails in Hf.
    destruct (cols !! t) eqn:E; [|discriminate]. eapply lookup_lt_Some; eauto.
Qed.

Lemma many_loop_bulk_spec (conv : list Double -> list Double -> Conversion)
    (nIn nOut : nat) (cols : list (list Double)) (f0 : list Z) :
  out_parameter conv ->
  bulk_spec conv nIn cols (many_result (many_loop conv nIn nOut cols f0)).
Proof.
  intros Hout.
  destruct (many_loop_invariant conv nIn nOut Hout cols f0)
    as [Hlen _ Hroom Hfail Hconv Hcopy _].
  unfold bulk_spec, reported, many_result. simpl. rewrite Hfail.
  split; [exact Hlen|]. split.
  - intros t col w Hl Hc. split; [now apply Hconv|].
    rewrite In_failing_columns. unfold conversion_fails. rewrite Hl, Hc. simpl.
    destruct (Hout [] w col) as [-> _].
    destruct (conv_ok (conv w col)); simpl; split; congruence.
  - intros t col v Hl Hc Ht Hv.
    destruct (Hcopy t col Hl Hc) as (v' & Hv' & Hu).
    rewrite (Hu v Ht Hv) in Hv'. split; [exact Hv'|].
    rewrite In_failing_columns. unfold conversion_fails. rewrite Hl, Hc. simpl.
    discriminate.
Qed.

Section BulkConversions.
Context {C : Type} {V : Virtuals C}.


End BulkConversions.

Section Units.
Context {C : Type} {V : Virtuals C}.
Variable unit_value : string -> option (list Z * Double).

Local Abbreviation compatible := (Coordinate.compatible unit_value).
Local Abbreviation unit_ratio := (Coordinate.unit_ratio unit_value).

Lemma compatible_dec (old new : string) : {compatible old new} + {~ compatible old new}.
Proof.
  unfold Coordinate.compatible.
  destruct (unit_value old) as [b|] eqn:Eo; [|right; intros (b & a & H & _); discriminate].
  destruct (unit_value new) as [a|] eqn:En;
    [|right; intros (b' & a' & _ & H & _); discriminate].
  destruct (decide (b.1 = a.1)) as [e|ne].
  - left. eauto.
  - right. intros (b' & a' & Hb & Ha & He). congruence.
Qed.

Lemma scale_loop_compatible (units oldUnits : list string) :
  Forall2 compatible oldUnits units ->
  forall i factor error,
    i + length units <= length factor ->
    scale_loop unit_value units oldUnits i factor error
    = (true, error,
       take i factor ++ zip_with unit_ratio oldUnits units
         ++ drop (i + length units) factor).
Proof.
  induction 1 as [|o u olds news Hc HF IH]; intros i factor error Hlen.
  - simpl. rewrite Nat.add_0_r. now rewrite take_drop.
  - simpl in *. destruct Hc as (b & a & Hb & Ha & He).
    unfold Coordinate.unit_ratio. rewrite Hb, Ha.
    rewrite decide_True by assumption.
    rewrite IH by (rewrite length_insert; lia).
    f_equal. rewrite (take_S_r _ _ (PrimFloat.div b.2 a.2))
      by (apply list_lookup_insert_eq; lia).
    rewrite take_insert_ge by lia.
    rewrite drop_insert_lt by lia.
    rewrite <- app_assoc. simpl.
    replace (S (i + length news)) with (i + S (length news)) by lia. reflexivity.
Qed.

Lemma scale_loop_incompatible (units oldUnits : list string) :
  length units = length oldUnits ->
  ~ Forall2 compatible oldUnits units ->
  forall i factor error,
    exists msg factor',
      scale_loop unit_value units oldUnits i factor error = (false, msg, factor') /\
      In msg unit_errors.
Proof.
  revert oldUnits. induction units as [|u units IH]; intros [|o olds] Hlen Hn i factor error;
    try discriminate.
  - exfalso. apply Hn. constructor.
  - simpl. destruct (unit_value o) as [b|] eqn:Eb;
      [|eexists; eexists; split; [reflexivity|right; left; reflexivity]].
    destruct (unit_value u) as [a|] eqn:Ea;
      [|eexists; eexists; split; [reflexivity|right; left; reflexivity]].
    destruct (decide (b.1 = a.1)) as [e|ne];
      [|eexists; eexists; split; [reflexivity|left; reflexivity]].
    apply IH; [simpl in Hlen; lia|].
    intros HF. apply Hn. constructor; auto. exists b, a. auto.
Qed.

Lemma find_scale_factor_compatible (units oldUnits : list string) (error : string) :
  Forall2 compatible oldUnits units ->
  find_scale_factor unit_value error units oldUnits
  = (true, error, zip_with unit_ratio oldUnits units).
Proof.
  intros HF. unfold find_scale_factor.
  pose proof (Forall2_length _ _ _ HF) as Hlen.
  rewrite Hlen, Nat.eqb_refl. simpl.
  rewrite scale_loop_compatible by (auto; rewrite length_replicate; simpl; lia).
  simpl. rewrite drop_ge by (rewrite length_replicate; lia).
  now rewrite app_nil_r.
Qed.

Variable valid : C -> Prop.
Hypothesis Hlaw : lawful valid.

(** Claim C7, with the units left to the derived class.  For every
    coordinate [c] of a lawful class and every unit vector [u] with one
    entry per world axis, [Coordinate::setWorldAxisUnits(u)]
    - returns [True] and changes nothing when [u] is the current units;
    - otherwise, when every pair of an old and a new unit parses and has
      the same dimension, returns [True] with the increment and the
      reference value multiplied, axis by axis, by the old scale over the
      new scale; the units vector is not touched (storing it is the job
      of the derived class);
    - otherwise, when some unit is unknown or some pair differs in
      dimension, returns [False] with one of the two messages of
      [find_scale_factor] and leaves the coordinate as it was. *)
Theorem setWorldAxisUnits_spec (c : C) (u : list string) :
  valid c ->
  length u = nWorldAxes c ->
  length (worldAxisUnits c) = nWorldAxes c ->
  let r := setWorldAxisUnits unit_value c u in
  (u = worldAxisUnits c -> r = (true, c, None)) /\
  (u <> worldAxisUnits c -> Forall2 compatible (worldAxisUnits c) u ->
   let f := zip_with unit_ratio (worldAxisUnits c) u in
   r.1.1 = true /\ r.2 = None /\
   increment r.1.2 = vmul (increment c) f /\
   referenceValue r.1.2 = vmul (referenceValue c) f /\
   worldAxisUnits r.1.2 = worldAxisUnits c) /\
  (u <> worldAxisUnits c -> ~ Forall2 compatible (worldAxisUnits c) u ->
   r.1.1 = false /\ r.1.2 = c /\
   exists msg, r.2 = Some msg /\ In msg unit_errors).
Proof.
  intros Hv Hlen Hold r. unfold r, setWorldAxisUnits.
  rewrite Hlen, Nat.eqb_refl. simpl.
  split; [|split].
  - intros ->. now rewrite decide_True.
  - intros Hne HF.
    set (f := zip_with unit_ratio (worldAxisUnits c) u).
    rewrite decide_False by congruence.
    rewrite find_scale_factor_compatible by assumption.
    fold f.
    destruct (law_lengths valid Hlaw c Hv) as (_ & Lv & Li).
    assert (Lf : length f = nWorldAxes c).
    { unfold f. rewrite length_zip_with. lia. }
    assert (L1 : length (vmul (increment c) f) = nWorldAxes c).
    { unfold vmul. rewrite length_zip_with. lia. }
    destruct (law_setIncrement valid Hlaw c _ Hv L1) as (Ok1 & V1 & S1 & P1 & R1 & I1).
    destruct (setIncrement c (vmul (increment c) f)) as [ok1 c1] eqn:E1.
    simpl in *. subst ok1.
    destruct S1 as (_ & _ & Sw & _ & Su & _).
    assert (L2 : length (vmul (referenceValue c1) f) = nWorldAxes c1).
    { unfold vmul. rewrite length_zip_with. rewrite R1. lia. }
    destruct (law_setReferenceValue valid Hlaw c1 _ V1 L2) as (Ok2 & V2 & S2 & P2 & R2 & I2).
    destruct (setReferenceValue c1 (vmul (referenceValue c1) f)) as [ok2 c2] eqn:E2.
    simpl in *. subst ok2.
    destruct S2 as (_ & _ & _ & _ & Su2 & _).
    repeat split; try congruence.
  - intros Hne Hn. rewrite decide_False by congruence.
    unfold find_scale_factor. rewrite Hlen, Hold, Nat.eqb_refl. simpl.
    destruct (scale_loop_incompatible u (worldAxisUnits c)) with
      (i := 0) (factor := replicate (nWorldAxes c) 0%float) (error := "")
      as (msg & factor' & -> & Hmsg); [lia|assumption|].
    simpl. repeat split. eauto.
Qed.

End Units.

End CoordinateTheory.

(** ** The CoordinateSystem composite *)

Module CoordinateSystemTheory.
Import CoordinateSystem.

Lemma exposed_app (a b : list (list Z)) :
  exposed (a ++ b) = exposed a ++ exposed b.
Proof. unfold exposed. now rewrite concat_app, List.filter_app. Qed.

Lemma exposed_cons (blk : list Z) (maps : list (list Z)) :
  exposed (blk :: maps) = List.filter nonneg blk ++ exposed maps.
Proof. unfold exposed. simpl. now rewrite List.filter_app. Qed.

Lemma filter_map_sign (f : Z -> Z) (l : list Z) :
  (forall x, In x l -> nonneg (f x) = nonneg x) ->
  List.filter nonneg (map f l) = map f (List.filter nonneg l).
Proof.
  induction l as [|x l IH]; intros Hs; [reflexivity|].
  simpl. rewrite (Hs x) by now left.
  destruct (nonneg x); simpl; rewrite IH; auto; intros; apply Hs; now right.
Qed.

Lemma exposed_map_map (f : Z -> Z) (maps : list (list Z)) :
  (forall x, In x (concat maps) -> nonneg (f x) = nonneg x) ->
  exposed (map (map f) maps) = map f (exposed maps).
Proof.
  intros Hs. unfold exposed. rewrite <- concat_map.
  now apply filter_map_sign.
Qed.

Lemma In_exposed (maps : list (list Z)) (x : Z) :
  In x (exposed maps) <-> In x (concat maps) /\ (0 <= x)%Z.
Proof.
  unfold exposed, nonneg. rewrite List.filter_In. rewrite Z.leb_le. tauto.
Qed.

(** find_in_block returns the first position *)
Lemma find_in_block_None (blk : list Z) (v : Z) (j0 : nat) :
  ~ In v blk -> find_in_block blk v j0 = None.
Proof.
  revert j0. induction blk as [|x blk IH]; intros j0 Hn; [reflexivity|].
  simpl. destruct (Z.eqb_spec x v) as [->|Hne].
  - exfalso. apply Hn. now left.
  - apply IH. intros Hin. apply Hn. now right.
Qed.

Lemma find_in_block_Some (blk : list Z) (v : Z) (j0 : nat) :
  In v blk ->
  exists b1 b2, blk = b1 ++ v :: b2 /\ ~ In v b1 /\
                find_in_block blk v j0 = Some (j0 + length b1).
Proof.
  revert j0. induction blk as [|x blk IH]; intros j0 Hin; [destruct Hin|].
  simpl. destruct (Z.eqb_spec x v) as [->|Hne].
  - exists [], blk. repeat split; auto; f_equal; simpl; lia.
  - destruct Hin as [->|Hin]; [congruence|].
    destruct (IH (S j0) Hin) as (b1 & b2 & -> & Hn & Hf).
    exists (x :: b1), b2. repeat split.
    + intros [->|H]; [congruence|auto].
    + rewrite Hf. f_equal. simpl. lia.
Qed.

Lemma find_axis_Some (maps : list (list Z)) (v : Z) (i0 : nat) :
  In v (concat maps) ->
  exists pre b1 b2 post,
    maps = pre ++ (b1 ++ v :: b2) :: post /\
    ~ In v (concat pre) /\ ~ In v b1 /\
    find_axis maps v i0 = (Z.of_nat (i0 + length pre), Z.of_nat (length b1)).
Proof.
  revert i0. induction maps as [|blk maps IH]; intros i0 Hin; [destruct Hin|].
  simpl in Hin. simpl.
  destruct (in_dec Z.eq_dec v blk) as [Hb|Hb].
  - destruct (find_in_block_Some blk v 0 Hb) as (b1 & b2 & -> & Hn & Hf).
    rewrite Hf. exists [], b1, b2, maps. repeat split; auto;
    simpl; repeat f_equal; lia.
  - rewrite (find_in_block_None blk v 0 Hb).
    apply in_app_or in Hin. destruct Hin as [Hin|Hin]; [contradiction|].
    destruct (IH (S i0) Hin) as (pre & b1 & b2 & post & -> & Hp & Hn & Hf).
    exists (blk :: pre), b1, b2, post. repeat split; auto.
    + simpl. intros H. apply in_app_or in H. tauto.
    + rewrite Hf. simpl. repeat f_equal; lia.
Qed.

Lemma set2_middle {A : Type} (pre post : list (list A)) (b1 b2 : list A) (y x : A) :
  set2 (pre ++ (b1 ++ y :: b2) :: post)
       (Z.of_nat (length pre)) (Z.of_nat (length b1)) x
  = Done (pre ++ (b1 ++ x :: b2) :: post).
Proof.
  unfold set2, at_Z, set_Z, at_nat, set_nat.
  destruct (Z.ltb_spec (Z.of_nat (length pre)) 0); [lia|].
  destruct (Z.ltb_spec (Z.of_nat (length b1)) 0); [lia|].
  rewrite !Nat2Z.id.
  rewrite list_lookup_middle by reflexivity. simpl.
  rewrite decide_True by (rewrite length_app; simpl; lia). simpl.
  rewrite decide_True by (rewrite length_app; simpl; lia).
  f_equal. rewrite insert_app_r_alt by lia.
  replace (length pre - length pre) with 0 by lia. simpl.
  do 2 f_equal.
  rewrite insert_app_r_alt by lia.
  replace (length b1 - length b1) with 0 by lia. reflexivity.
Qed.


Lemma filter_nonneg_of_nat (l : list nat) (f : nat -> nat) :
  List.filter nonneg (map (fun i => Z.of_nat (f i)) l)
  = map (fun i => Z.of_nat (f i)) l.
Proof.
  induction l as [|x l IH]; [reflexivity|]. simpl.
  unfold nonneg at 1. destruct (Z.leb_spec 0 (Z.of_nat (f x))); [|lia].
  now rewrite IH.
Qed.

Lemma map_of_nat_seq (n k : nat) :
  map Z.of_nat (seq n k) = map (fun i => Z.of_nat (n + i)) (seq 0 k).
Proof.
  rewrite <- (map_map (fun i => n + i) Z.of_nat). f_equal.
  revert n. induction k as [|k IH]; intros n; [reflexivity|].
  cbn [seq map]. f_equal; [lia|]. rewrite IH.
  rewrite <- (seq_shift k 0), map_map. apply map_ext. intros; lia.
Qed.

Lemma Zseq_app (n k : nat) :
  Zseq (n + k) = Zseq n ++ map (fun i => Z.of_nat (n + i)) (seq 0 k).
Proof.
  unfold Zseq. rewrite seq_app, map_app. f_equal. simpl.
  apply map_of_nat_seq.
Qed.

Lemma In_Zseq (n : nat) (x : Z) : In x (Zseq n) <-> (0 <= x < Z.of_nat n)%Z.
Proof.
  unfold Zseq. rewrite in_map_iff. split.
  - intros (i & <- & Hi). apply in_seq in Hi. lia.
  - intros H. exists (Z.to_nat x). split; [lia|]. apply in_seq. lia.
Qed.

Lemma axes_ok_add (maps : list (list Z)) (k : nat) :
  axes_ok maps ->
  axes_ok (maps ++ [map (fun i => Z.of_nat (length (exposed maps) + i)) (seq 0 k)]).
Proof.
  unfold axes_ok. intros H.
  rewrite exposed_app. rewrite (exposed_cons _ []). simpl. rewrite app_nil_r.
  rewrite (filter_nonneg_of_nat (seq 0 k) (fun i => length (exposed maps) + i)).
  rewrite length_app, length_map, length_seq.
  rewrite Zseq_app. now apply Permutation_app_tail.
Qed.

Lemma axes_ok_range (maps : list (list Z)) (x : Z) :
  axes_ok maps ->
  In x (exposed maps) <-> (0 <= x < Z.of_nat (length (exposed maps)))%Z.
Proof.
  intros H. rewrite <- In_Zseq. split; intros Hin.
  - eapply Permutation_in; eauto.
  - eapply Permutation_in; [symmetry|]; eauto.
Qed.

Lemma NoDup_Zseq (n : nat) : List.NoDup (Zseq n).
Proof.
  unfold Zseq. apply Finite.Injective_map_NoDup.
  - intros a b. apply Nat2Z.inj.
  - apply List.seq_NoDup.
Qed.

Lemma axes_ok_NoDup (maps : list (list Z)) :
  axes_ok maps -> List.NoDup (exposed maps).
Proof.
  intros H. eapply Permutation_NoDup; [symmetry; exact H|]. apply NoDup_Zseq.
Qed.


Lemma shift_down_eq (axis : Z) (maps : list (list Z)) :
  shift_down axis maps = map (map (dec_above axis)) maps.
Proof. reflexivity. Qed.

Lemma Zseq_split (n a : nat) :
  a < n ->
  Permutation (Zseq n)
    (Z.of_nat a :: Zseq a ++ map Z.of_nat (seq (S a) (n - S a))).
Proof.
  intros Ha. unfold Zseq.
  replace n with (a + S (n - S a)) at 1 by lia.
  rewrite seq_app, map_app. simpl.
  symmetry. apply Permutation_middle.
Qed.

Lemma map_dec_Zseq (a m : nat) :
  map (dec_above (Z.of_nat a)) (Zseq a ++ map Z.of_nat (seq (S a) m))
  = Zseq (a + m).
Proof.
  rewrite map_app. unfold Zseq at 2. rewrite seq_app, map_app. f_equal.
  - unfold Zseq. rewrite map_map. apply map_ext_in. intros i Hi.
    apply in_seq in Hi. unfold dec_above.
    destruct (Z.gtb_spec (Z.of_nat i) (Z.of_nat a)); lia.
  - simpl. rewrite <- seq_shift. rewrite !map_map. apply map_ext_in.
    intros i Hi. apply in_seq in Hi. unfold dec_above.
    destruct (Z.gtb_spec (Z.of_nat (S i)) (Z.of_nat a)); lia.
Qed.

Lemma axes_ok_remove (pre post : list (list Z)) (b1 b2 : list Z) (axis : nat) :
  axes_ok (pre ++ (b1 ++ Z.of_nat axis :: b2) :: post) ->
  axes_ok (shift_down (Z.of_nat axis) (pre ++ (b1 ++ (-1)%Z :: b2) :: post)).
Proof.
  intros H.
  set (R := exposed (pre ++ (b1 ++ (-1)%Z :: b2) :: post)).
  assert (HE : exposed (pre ++ (b1 ++ Z.of_nat axis :: b2) :: post)
               = exposed pre ++ List.filter nonneg b1 ++ Z.of_nat axis
                   :: List.filter nonneg b2 ++ exposed post).
  { rewrite exposed_app, exposed_cons, List.filter_app. simpl.
    unfold nonneg at 2. destruct (Z.leb_spec 0 (Z.of_nat axis)); [|lia].
    now rewrite <- !app_assoc. }
  assert (HR : R = exposed pre ++ List.filter nonneg b1
                   ++ List.filter nonneg b2 ++ exposed post).
  { unfold R. rewrite exposed_app, exposed_cons, List.filter_app. simpl.
    now rewrite <- !app_assoc. }
  assert (HP : Permutation (exposed (pre ++ (b1 ++ Z.of_nat axis :: b2) :: post))
                 (Z.of_nat axis :: R)).
  { rewrite HE, HR. rewrite app_assoc. rewrite (app_assoc (exposed pre) _ (_ ++ _)).
    symmetry. apply Permutation_middle. }
  pose proof (Permutation_length HP) as HL. simpl in HL.
  assert (Hax : axis < S (length R)).
  { rewrite <- HL. apply Nat2Z.inj_lt. apply (axes_ok_range _ _ H).
    eapply Permutation_in; [symmetry; exact HP|]. now left. }
  unfold axes_ok in H. rewrite HL in H.
  assert (HR2 : Permutation R
            (Zseq axis ++ map Z.of_nat (seq (S axis) (S (length R) - S axis)))).
  { apply (Permutation_cons_inv (a := Z.of_nat axis)).
    rewrite <- HP. rewrite H. now apply Zseq_split. }
  unfold axes_ok. rewrite shift_down_eq.
  rewrite exposed_map_map.
  - fold R. rewrite length_map.
    rewrite (Permutation_map (dec_above (Z.of_nat axis)) HR2).
    rewrite map_dec_Zseq. replace (axis + (S (length R) - S axis)) with (length R) by lia.
    reflexivity.
  - intros x _. unfold dec_above, nonneg.
    destruct (Z.gtb_spec x (Z.of_nat axis));
      destruct (Z.leb_spec 0 (x - 1)); destruct (Z.leb_spec 0 x); auto; lia.
Qed.

(** ** transpose *)


Lemma find_in_block_shift (blk : list Z) (v : Z) (j0 : nat) :
  find_in_block blk v j0 = (fun j => j0 + j) <$> find_in_block blk v 0.
Proof.
  revert j0. induction blk as [|x blk IH]; intros j0; [reflexivity|].
  simpl. destruct (Z.eqb_spec x v).
  - simpl. f_equal. lia.
  - rewrite (IH (S j0)), (IH 1). destruct (find_in_block blk v 0); simpl; f_equal; lia.
Qed.

Lemma index_of_cons (x v : Z) (l : list Z) :
  index_of v (x :: l) = if (x =? v)%Z then 0 else S (index_of v l).
Proof.
  unfold index_of. simpl. destruct (Z.eqb_spec x v); [reflexivity|].
  rewrite find_in_block_shift. destruct (find_in_block l v 0); reflexivity.
Qed.

Lemma index_of_notin (v : Z) (l : list Z) : ~ In v l -> index_of v l = length l.
Proof. intros H. unfold index_of. now rewrite find_in_block_None. Qed.

Lemma index_of_le (v : Z) (l : list Z) : index_of v l <= length l.
Proof.
  induction l as [|x l IH]; [reflexivity|]. rewrite index_of_cons. simpl.
  destruct (x =? v)%Z; lia.
Qed.

Lemma index_of_middle (v : Z) (pre sfx : list Z) :
  ~ In v pre -> index_of v (pre ++ v :: sfx) = length pre.
Proof.
  induction pre as [|x pre IH]; intros Hn; simpl.
  - rewrite index_of_cons. now rewrite Z.eqb_refl.
  - rewrite index_of_cons. destruct (Z.eqb_spec x v) as [->|Hne].
    + exfalso. apply Hn. now left.
    + f_equal. apply IH. intros H. apply Hn. now right.
Qed.

Lemma index_of_lookup (v : Z) (l : list Z) :
  index_of v l < length l -> l !! index_of v l = Some v.
Proof.
  induction l as [|x l IH]; simpl; [lia|]. rewrite index_of_cons.
  destruct (Z.eqb_spec x v) as [->|Hne]; [reflexivity|].
  intros H. simpl. apply IH. lia.
Qed.

Lemma index_of_In (v : Z) (l : list Z) : In v l -> index_of v l < length l.
Proof.
  induction l as [|x l IH]; simpl; [tauto|]. rewrite index_of_cons.
  destruct (Z.eqb_spec x v) as [->|Hne]; [lia|].
  intros [H|H]; [congruence|]. apply IH in H. lia.
Qed.

Lemma map_map_ext_in (f g : Z -> Z) (maps : list (list Z)) :
  (forall x, In x (concat maps) -> f x = g x) ->
  map (map f) maps = map (map g) maps.
Proof.
  intros H. apply map_ext_in. intros blk Hb. apply map_ext_in. intros x Hx.
  apply H. apply in_concat. eauto.
Qed.

Lemma relabel_0 (order : list Z) (maps : list (list Z)) :
  map (map (relabel order 0)) maps = maps.
Proof.
  rewrite <- (map_id maps) at 2. apply map_ext. intros blk.
  rewrite <- (map_id blk) at 2. apply map_ext. intros x. reflexivity.
Qed.

(** In a map whose exposed entries are distinct, an exposed axis found at
    one place occurs nowhere else. *)
Lemma exposed_unique (pre post : list (list Z)) (b1 b2 : list Z) (o : Z) :
  (0 <= o)%Z ->
  List.NoDup (exposed (pre ++ (b1 ++ o :: b2) :: post)) ->
  ~ In o b2 /\ ~ In o (concat post).
Proof.
  intros Ho Hnd.
  rewrite exposed_app, exposed_cons, List.filter_app in Hnd. simpl in Hnd.
  unfold nonneg at 2 in Hnd. destruct (Z.leb_spec 0 o); [|lia].
  apply NoDup_app_remove_l in Hnd. rewrite <- app_assoc in Hnd.
  apply NoDup_app_remove_l in Hnd. simpl in Hnd.
  apply NoDup_cons_iff in Hnd. destruct Hnd as [Hn _].
  split; intros Hin; apply Hn; apply in_or_app.
  - left. apply List.filter_In. split; auto. now apply Z.leb_le.
  - right. apply In_exposed. auto.
Qed.

Lemma move_axes_relabel (old : list (list Z)) (n : nat) (order : list Z) :
  List.NoDup (exposed old) ->
  List.NoDup order ->
  (forall o, In o order -> In o (exposed old) /\ (o < Z.of_nat n)%Z) ->
  forall sfx pre, order = pre ++ sfx ->
    move_axes old n sfx (length pre) (map (map (relabel order (length pre))) old)
    = Done (map (map (relabel order (length order))) old).
Proof.
  intros Hnd Hord Hin. induction sfx as [|o sfx IH]; intros pre Heq.
  - simpl. rewrite app_nil_r in Heq. now subst.
  - assert (Ho : In o order) by (subst; apply in_or_app; right; now left).
    destruct (Hin o Ho) as [Hoe Hon].
    apply In_exposed in Hoe. destruct Hoe as [Hoc Ho0].
    cbn [move_axes]. destruct (Z.ltb_spec o (Z.of_nat n)); [|lia]. simpl.
    destruct (find_axis_Some old o 0 Hoc) as (P & b1 & b2 & Q & Hold & HP & Hb1 & Hf).
    rewrite Hf. simpl.
    destruct (exposed_unique P Q b1 b2 o Ho0) as [Hb2 HQ]; [now rewrite <- Hold|].
    assert (Hpre : ~ In o pre).
    { subst order. apply NoDup_remove_2 in Hord. intros H'. apply Hord.
      apply in_or_app. now left. }
    set (g := relabel order (length pre)).
    set (g' := relabel order (length (pre ++ [o]))).
    assert (Hstep : set2 (map (map g) old) (Z.of_nat (length P)) (Z.of_nat (length b1))
                      (Z.of_nat (length pre))
                    = Done (map (map g') old)).
    { rewrite Hold at 1. rewrite map_app. cbn [map]. rewrite map_app. cbn [map].
      rewrite <- (length_map (map g) P) at 1.
      rewrite <- (length_map g b1) at 1.
      rewrite set2_middle. f_equal.
      rewrite Hold. rewrite map_app. cbn [map]. rewrite map_app. cbn [map].
      assert (Hgo : g' o = Z.of_nat (length pre)).
      { assert (Hidx : index_of o order = length pre).
        { rewrite Heq. now apply index_of_middle. }
        unfold g', relabel. rewrite Hidx.
        rewrite length_app. simpl.
        destruct (Nat.ltb_spec (length pre) (length pre + 1)); [reflexivity|lia]. }
      assert (Hother : forall u, u <> o -> g u = g' u).
      { intros u Hu. unfold g, g', relabel. rewrite length_app. simpl.
        destruct (Nat.ltb_spec (index_of u order) (length pre));
          destruct (Nat.ltb_spec (index_of u order) (length pre + 1)); try reflexivity; try lia.
        exfalso. assert (Hi : index_of u order = length pre) by lia.
        assert (Hl : index_of u order < length order).
        { rewrite Hi, Heq, length_app. simpl. lia. }
        apply index_of_lookup in Hl. rewrite Hi, Heq in Hl.
        rewrite list_lookup_middle in Hl by reflexivity. congruence. }
      rewrite Hgo.
      rewrite (map_map_ext_in g g' P) by (intros; apply Hother; congruence).
      rewrite (map_map_ext_in g g' Q) by (intros; apply Hother; congruence).
      rewrite (map_ext_in g g' b1) by (intros; apply Hother; congruence).
      rewrite (map_ext_in g g' b2) by (intros; apply Hother; congruence).
      reflexivity. }
    replace (0 + length P) with (length P) in * by lia.
    rewrite Hstep. simpl.
    replace (S (length pre)) with (length (pre ++ [o])) by (rewrite length_app; simpl; lia).
    apply IH. rewrite <- app_assoc. exact Heq.
Qed.

Lemma verify_order_sound (order : list Z) (n : nat) :
  forall found, length found = n ->
    verify_order order n found = true ->
    List.NoDup order /\
    forall o, In o order ->
      (0 <= o < Z.of_nat n)%Z /\ found !! Z.to_nat o = Some false.
Proof.
  induction order as [|w order IH]; intros found Hlen Hv.
  - split; [constructor|]. intros o [].
  - cbn [verify_order] in Hv.
    destruct (Z.leb_spec 0 w); [|discriminate].
    destruct (Z.ltb_spec w (Z.of_nat n)); [|discriminate].
    simpl in Hv.
    destruct (found !!! Z.to_nat w) eqn:Hf; [discriminate|]. simpl in Hv.
    assert (Hw : found !! Z.to_nat w = Some false).
    { rewrite <- Hf. apply list_lookup_lookup_total_lt. lia. }
    destruct (IH (<[Z.to_nat w := true]> found)) as [Hnd Hall]; auto.
    { now rewrite length_insert. }
    split.
    + constructor; auto. intros Hin. destruct (Hall w Hin) as [_ Hl].
      rewrite list_lookup_insert_eq in Hl by lia. discriminate.
    + intros o [<-|Hin]; [split; [lia|assumption]|].
      destruct (Hall o Hin) as [Hr Hl]. split; auto.
      destruct (decide (Z.to_nat w = Z.to_nat o)) as [e|ne].
      * rewrite e, list_lookup_insert_eq in Hl by lia. discriminate.
      * now rewrite list_lookup_insert_ne in Hl.
Qed.

Lemma verify_order_complete (order : list Z) (n : nat) :
  forall found, length found = n ->
    List.NoDup order ->
    (forall o, In o order ->
      (0 <= o < Z.of_nat n)%Z /\ found !! Z.to_nat o = Some false) ->
    verify_order order n found = true.
Proof.
  induction order as [|w order IH]; intros found Hlen Hnd Hall; [reflexivity|].
  cbn [verify_order]. destruct (Hall w (or_introl eq_refl)) as [Hr Hl].
  destruct (Z.leb_spec 0 w); [|lia].
  destruct (Z.ltb_spec w (Z.of_nat n)); [|lia]. simpl.
  rewrite (list_lookup_total_correct _ _ _ Hl). simpl.
  apply NoDup_cons_iff in Hnd. destruct Hnd as [Hnw Hnd].
  apply IH; auto.
  - now rewrite length_insert.
  - intros o Hin. destruct (Hall o (or_intror Hin)) as [Hr' Hl']. split; auto.
    rewrite list_lookup_insert_ne; auto.
    intros e. apply Hnw. assert (w = o) by lia. now subst.
Qed.

Lemma lookup_replicate_false (n i : nat) :
  i < n -> replicate n false !! i = Some false.
Proof. intros H. now apply lookup_replicate_2. Qed.

(** The orders [transpose] accepts are the permutations of the exposed
    axis numbers. *)
Lemma verify_order_iff (order : list Z) (n : nat) :
  length order = n ->
  verify_order order n (replicate n false) = true <-> Permutation order (Zseq n).
Proof.
  intros Hlen. split.
  - intros Hv. apply verify_order_sound in Hv; [|apply length_replicate].
    destruct Hv as [Hnd Hall].
    apply NoDup_Permutation_bis; auto.
    + unfold Zseq. rewrite length_map, length_seq. lia.
    + intros o Ho. apply In_Zseq. now apply Hall.
  - intros HP. apply verify_order_complete.
    + apply length_replicate.
    + eapply Permutation_NoDup; [symmetry; exact HP|]. apply NoDup_Zseq.
    + intros o Ho. assert (Hr : (0 <= o < Z.of_nat n)%Z).
      { apply In_Zseq. eapply Permutation_in; eauto. }
      split; auto. apply lookup_replicate_false. lia.
Qed.

Lemma relabel_order (order : list Z) :
  List.NoDup order ->
  map (relabel order (length order)) order = Zseq (length order).
Proof.
  intros Hnd.
  enough (H : forall sfx pre, order = pre ++ sfx ->
            map (relabel order (length order)) sfx
            = map Z.of_nat (seq (length pre) (length sfx))).
  { apply (H order []). reflexivity. }
  induction sfx as [|o sfx IH]; intros pre Heq; [reflexivity|].
  cbn [map length seq]. f_equal.
  - assert (Hidx : index_of o order = length pre).
    { rewrite Heq. apply index_of_middle. subst order.
      apply NoDup_remove_2 in Hnd. intros H. apply Hnd. apply in_or_app. now left. }
    unfold relabel. rewrite Hidx.
    destruct (Nat.ltb_spec (length pre) (length order)); [reflexivity|].
    rewrite Heq, length_app in *. simpl in *. lia.
  - replace (S (length pre)) with (length (pre ++ [o])) by (rewrite length_app; simpl; lia).
    apply IH. now rewrite <- app_assoc.
Qed.

Lemma relabel_sign (order : list Z) (x : Z) :
  (forall o, In o order -> (0 <= o)%Z) ->
  nonneg (relabel order (length order) x) = nonneg x.
Proof.
  intros Hpos. unfold relabel, nonneg.
  destruct (Nat.ltb_spec (index_of x order) (length order)); [|reflexivity].
  pose proof (index_of_lookup _ _ H) as Hl.
  assert (In x order) by (apply list_elem_of_In; eapply list_elem_of_lookup_2; eauto).
  destruct (Z.leb_spec 0 (Z.of_nat (index_of x order))); [|lia].
  destruct (Z.leb_spec 0 x); auto. specialize (Hpos x H0). lia.
Qed.

Lemma transpose_maps (old : list (list Z)) (order : list Z) :
  axes_ok old ->
  Permutation order (Zseq (length (exposed old))) ->
  let new := map (map (relabel order (length order))) old in
  move_axes old (length (exposed old)) order 0 old = Done new /\
  exposed new = map (relabel order (length order)) (exposed old) /\
  axes_ok new.
Proof.
  intros Hok HP new.
  assert (Hnd : List.NoDup order).
  { eapply Permutation_NoDup; [symmetry; exact HP|]. apply NoDup_Zseq. }
  assert (Hr : forall o, In o order -> (0 <= o < Z.of_nat (length (exposed old)))%Z).
  { intros o Ho. apply In_Zseq. eapply Permutation_in; eauto. }
  assert (Hexp : exposed new = map (relabel order (length order)) (exposed old)).
  { unfold new. apply exposed_map_map. intros x _. apply relabel_sign.
    intros o Ho. apply Hr in Ho. lia. }
  split; [|split; [exact Hexp|]].
  - pose proof (move_axes_relabel old (length (exposed old)) order
                  (axes_ok_NoDup _ Hok) Hnd) as Hm.
    rewrite <- (relabel_0 order old) at 3.
    apply (Hm) with (pre := []) (sfx := order); [|reflexivity].
    intros o Ho. split; [|apply Hr in Ho; lia].
    apply (axes_ok_range old o Hok). now apply Hr.
  - unfold axes_ok. rewrite Hexp, length_map.
    rewrite (Permutation_map (relabel order (length order)) Hok).
    rewrite <- (Permutation_map (relabel order (length order)) HP).
    rewrite relabel_order by assumption.
    apply Permutation_length in HP. rewrite HP. unfold Zseq.
    now rewrite length_map, length_seq.
Qed.


Lemma index_of_unique (l : list Z) (i : nat) (v : Z) :
  List.NoDup l -> l !! i = Some v -> index_of v l = i.
Proof.
  intros Hnd Hl. apply list_elem_of_split_length in Hl.
  destruct Hl as (l1 & l2 & -> & ->).
  apply index_of_middle. apply NoDup_remove_2 in Hnd.
  intros H. apply Hnd. apply in_or_app. now left.
Qed.

Lemma relabel_inverse (order inverse : list Z) (n : nat) (x : Z) :
  Permutation order (Zseq n) -> Permutation inverse (Zseq n) ->
  inverse_order order inverse ->
  (x < 0 \/ In x order)%Z ->
  relabel inverse (length inverse) (relabel order (length order) x) = x.
Proof.
  intros HP HP' [Hlen Hinv] Hx.
  assert (Hnd' : List.NoDup inverse).
  { eapply Permutation_NoDup; [symmetry; exact HP'|]. apply NoDup_Zseq. }
  assert (Hneg : forall l y, Permutation l (Zseq n) -> (y < 0)%Z ->
                   relabel l (length l) y = y).
  { intros l y Hl Hy. unfold relabel.
    destruct (Nat.ltb_spec (index_of y l) (length l)); [|reflexivity].
    apply index_of_lookup in H.
    assert (In y l) by (apply list_elem_of_In; eapply list_elem_of_lookup_2; eauto).
    assert (In y (Zseq n)) by (eapply Permutation_in; eauto).
    apply In_Zseq in H1. lia. }
  destruct Hx as [Hx|Hx].
  - rewrite (Hneg order x HP Hx). now apply Hneg.
  - pose proof (index_of_In _ _ Hx) as Hi.
    pose proof (index_of_lookup _ _ Hi) as Hl.
    unfold relabel at 2.
    destruct (Nat.ltb_spec (index_of x order) (length order)); [|lia].
    apply Hinv in Hl.
    pose proof (index_of_unique _ _ _ Hnd' Hl) as Hu.
    unfold relabel. rewrite Hu.
    assert (Hx0 : (0 <= x < Z.of_nat n)%Z).
    { apply In_Zseq. eapply Permutation_in; [exact HP|exact Hx]. }
    assert (Hn : length inverse = n).
    { apply Permutation_length in HP'. rewrite HP'. unfold Zseq.
      now rewrite length_map, length_seq. }
    destruct (Nat.ltb_spec (Z.to_nat x) (length inverse)); lia.
Qed.

Lemma transpose_maps_inverse (old : list (list Z)) (order inverse : list Z) :
  axes_ok old ->
  Permutation order (Zseq (length (exposed old))) ->
  Permutation inverse (Zseq (length (exposed old))) ->
  inverse_order order inverse ->
  map (map (relabel inverse (length inverse)))
      (map (map (relabel order (length order))) old) = old.
Proof.
  intros Hok HP HP' Hinv.
  rewrite map_map. rewrite <- (map_id old) at 2.
  apply map_ext_in. intros blk Hb. rewrite map_map.
  rewrite <- (map_id blk) at 2. apply map_ext_in. intros x Hx.
  eapply relabel_inverse; eauto.
  destruct (Z.lt_ge_cases x 0) as [Hn|Hp]; [now left|right].
  assert (In x (exposed old)).
  { apply In_exposed. split; auto. apply in_concat. eauto. }
  eapply Permutation_in; [symmetry; exact HP|].
  eapply Permutation_in; [exact Hok|]. assumption.
Qed.

Lemma bind_Done {A B : Type} (m : Outcome A) (f : A -> Outcome B) (b : B) :
  (m ≫= f) = Done b -> exists a, m = Done a /\ f a = Done b.
Proof. destruct m as [a|e]; simpl; [eauto|discriminate]. Qed.

Lemma AlwaysAssert_Done (b : bool) (u : unit) : AlwaysAssert b = Done u -> b = true.
Proof. destruct b; [reflexivity|discriminate]. Qed.

Tactic Notation "inv_bind" hyp(H) "as" ident(a) ident(E) :=
  let H' := fresh in
  apply bind_Done in H; destruct H as (a & E & H'); rename H' into H;
  try (apply AlwaysAssert_Done in E).

Section Shapes.
Context {C : Type}.
Variable f : C -> nat.

Lemma sized_app {A : Type} (blocks : list (list A)) (coords : list C)
    (block : list A) (c : C) :
  sized f blocks coords -> length block = f c ->
  sized f (blocks ++ [block]) (coords ++ [c]).
Proof. intros H Hb. apply Forall2_app; [exact H|]. repeat constructor. exact Hb. Qed.

Lemma sized_map_map {A : Type} (g : A -> A) (blocks : list (list A)) (coords : list C) :
  sized f blocks coords -> sized f (map (map g) blocks) coords.
Proof.
  induction 1; simpl; constructor; auto. now rewrite length_map.
Qed.

Lemma sized_same_lengths {A B : Type} (b1 : list (list A)) (b2 : list (list B))
    (coords : list C) :
  Forall2 (fun x y => length x = length y) b2 b1 ->
  sized f b1 coords -> sized f b2 coords.
Proof.
  intros H12 H. revert b2 H12. induction H; intros b2 H12; inversion H12; subst.
  - constructor.
  - constructor; [congruence|]. now apply IHForall2.
Qed.

Lemma set2_lengths {A : Type} (maps maps' : list (list A)) (coord axis : Z) (x : A) :
  set2 maps coord axis x = Done maps' ->
  Forall2 (fun a b => length a = length b) maps' maps.
Proof.
  unfold set2, at_Z, set_Z, at_nat, set_nat. intros H.
  destruct (coord <? 0)%Z; [discriminate|].
  destruct (maps !! Z.to_nat coord) as [blk|] eqn:Hb; [|discriminate].
  simpl in H. destruct (axis <? 0)%Z; [discriminate|].
  destruct (decide (Z.to_nat axis < length blk)); [|discriminate]. simpl in H.
  destruct (decide (Z.to_nat coord < length maps)); [|discriminate].
  injection H as <-.
  apply Forall2_same_length_lookup. split; [apply length_insert|].
  intros i a b Ha Hb'.
  destruct (decide (Z.to_nat coord = i)) as [<-|ne].
  - rewrite list_lookup_insert_eq in Ha by assumption.
    injection Ha as <-. rewrite length_insert. congruence.
  - rewrite list_lookup_insert_ne in Ha by assumption. congruence.
Qed.

Lemma sized_set2 {A : Type} (maps maps' : list (list A)) (coords : list C)
    (coord axis : Z) (x : A) :
  set2 maps coord axis x = Done maps' ->
  sized f maps coords -> sized f maps' coords.
Proof.
  intros H. apply sized_same_lengths. eapply set2_lengths; eauto.
Qed.

Lemma sized_replace {A : Type} (blocks : list (list A)) (coords : list C)
    (which : nat) (old new : C) :
  coords !! which = Some old -> f new = f old ->
  sized f blocks coords -> sized f blocks (<[which := new]> coords).
Proof.
  intros Hl Hf H. unfold sized in *.
  apply Forall2_same_length_lookup. apply Forall2_same_length_lookup in H.
  destruct H as [Hlen H]. split; [now rewrite length_insert|].
  intros i a b Ha Hb.
  destruct (decide (which = i)) as [<-|ne].
  - rewrite list_lookup_insert_eq in Hb by (eapply lookup_lt_Some; eauto).
    injection Hb as <-. rewrite Hf. eauto.
  - rewrite list_lookup_insert_ne in Hb by assumption. eauto.
Qed.

End Shapes.

Section Invariant.
Context {C : Type} {V : Coordinate.Virtuals C}.

Lemma well_formed_empty : well_formed (empty (C := C)).
Proof.
  constructor; try constructor.
Qed.

Lemma well_formed_addCoordinate (cs : System C) (coord : C)
    (junk : Uninitialised) :
  well_formed cs -> well_formed (addCoordinate cs coord junk).
Proof.
  intros Hwf; destruct Hwf.
  constructor; simpl;
    try (apply sized_app; [assumption|]; unfold fresh_vector;
         rewrite ?length_map, ?length_seq; reflexivity).
  - now apply axes_ok_add.
  - now apply axes_ok_add.
Qed.

Lemma remove_maps (maps maps' : list (list Z)) (axis : nat) :
  axes_ok maps ->
  axis < length (exposed maps) ->
  (let '(coord, caxis) := find_axis maps (Z.of_nat axis) 0 in
   set2 maps coord caxis (-1)%Z) = Done maps' ->
  axes_ok (shift_down (Z.of_nat axis) maps').
Proof.
  intros Hok Hax H.
  assert (Hin : In (Z.of_nat axis) (concat maps)).
  { apply In_exposed. apply (axes_ok_range maps _ Hok). lia. }
  destruct (find_axis_Some maps _ 0 Hin) as (P & b1 & b2 & Q & Hm & _ & _ & Hf).
  rewrite Hf in H. simpl in H. rewrite Hm in H. rewrite set2_middle in H.
  injection H as <-. apply axes_ok_remove. now rewrite <- Hm.
Qed.

Lemma well_formed_removeWorldAxis (cs cs' : System C) (axis : nat) (v : Double) :
  well_formed cs -> removeWorldAxis cs axis v = Done cs' -> well_formed cs'.
Proof.
  intros Hwf H; destruct Hwf. unfold removeWorldAxis in H.
  inv_bind H as u1 E1. inv_bind H as ca Ef. destruct ca as [coord caxis].
  unfold findWorldAxis, find_exposed in Ef. inv_bind Ef as u2 E2. injection Ef as Hfind.
  apply Nat.ltb_lt in E2.
  inv_bind H as repl Er. inv_bind H as maps Em. injection H as <-.
  constructor; simpl; auto.
  - apply sized_map_map. eapply sized_set2; eauto.
  - eapply sized_set2; eauto.
  - apply (remove_maps (world_maps_p cs) maps axis); auto.
    rewrite Hfind. exact Em.
Qed.

Lemma well_formed_removePixelAxis (cs cs' : System C) (axis : nat) (v : Double) :
  well_formed cs -> removePixelAxis cs axis v = Done cs' -> well_formed cs'.
Proof.
  intros Hwf H; destruct Hwf. unfold removePixelAxis in H.
  inv_bind H as u1 E1. inv_bind H as ca Ef. destruct ca as [coord caxis].
  unfold findPixelAxis, find_exposed in Ef. inv_bind Ef as u2 E2. injection Ef as Hfind.
  apply Nat.ltb_lt in E2.
  inv_bind H as repl Er. inv_bind H as maps Em. injection H as <-.
  constructor; simpl; auto.
  - apply sized_map_map. eapply sized_set2; eauto.
  - eapply sized_set2; eauto.
  - apply (remove_maps (pixel_maps_p cs) maps axis); auto.
    rewrite Hfind. exact Em.
Qed.

(** The checking loop against the check read to the end of the order: the
    loop fails the assertion where the check fails, and otherwise reads
    outside the order when the block has more entries than the order. *)
Lemma verify_loop_eq (k : nat) (order : list Z) (n : nat) (found : list bool) :
  verify_loop k order n found
  = if verify_order (take k order) n found
    then (if k <=? length order then Done tt else Throw OutOfBounds)
    else Throw AipsError.
Proof.
  revert order found. induction k as [|k IH]; intros order found.
  - now rewrite take_0.
  - destruct order as [|which order]; [reflexivity|]. simpl.
    destruct ((0 <=? which)%Z && (which <? Z.of_nat n)%Z
              && negb (found !!! Z.to_nat which)); [apply IH|reflexivity].
Qed.

Lemma verify_loop_Done (k : nat) (order : list Z) (n : nat) (found : list bool)
    (u : unit) :
  verify_loop k order n found = Done u ->
  k <= length order /\ verify_order (take k order) n found = true.
Proof.
  rewrite verify_loop_eq.
  destruct (verify_order (take k order) n found); [|discriminate].
  destruct (Nat.leb_spec k (length order)); [auto|discriminate].
Qed.

(** The check reads the flags of the axes below [n] only. *)
Lemma verify_order_longer (order : list Z) (n : nat) (found more : list bool) :
  n <= length found ->
  verify_order order n (found ++ more) = verify_order order n found.
Proof.
  revert found. induction order as [|which order IH]; intros found Hn; [reflexivity|].
  simpl. destruct (Z.leb_spec 0 which); [|reflexivity].
  destruct (Z.ltb_spec which (Z.of_nat n)); [|reflexivity]. simpl.
  rewrite lookup_total_app_l by lia.
  destruct (found !!! Z.to_nat which); [reflexivity|]. simpl.
  rewrite insert_app_l by lia. apply IH. now rewrite length_insert.
Qed.

Lemma verify_order_max (order : list Z) (n m : nat) :
  verify_order order n (replicate (Nat.max m n) false)
  = verify_order order n (replicate n false).
Proof.
  replace (Nat.max m n) with (n + (Nat.max m n - n)) by lia.
  rewrite replicate_add. apply verify_order_longer. now rewrite length_replicate.
Qed.

(** The two checks of [transpose] on orders of the right lengths. *)
Lemma transpose_checks (wo po : list Z) :
  let nw := length wo in
  let np := length po in
  (verify_loop (length (replicate nw false)) wo nw (replicate nw false)
   = if verify_order wo nw (replicate nw false) then Done tt else Throw AipsError) /\
  (verify_loop (length (replicate (Nat.max nw np) false)) po np
               (replicate (Nat.max nw np) false)
   = if verify_order po np (replicate np false)
     then (if nw <=? np then Done tt else Throw OutOfBounds)
     else Throw AipsError).
Proof.
  intros nw np. rewrite !verify_loop_eq, !length_replicate. split.
  - rewrite take_ge by (unfold nw; lia). unfold nw. now rewrite Nat.leb_refl.
  - rewrite take_ge by (unfold np; lia). rewrite verify_order_max.
    destruct (verify_order po np _); [|reflexivity].
    fold np. destruct (Nat.leb_spec (Nat.max nw np) np), (Nat.leb_spec nw np);
      try reflexivity; lia.
Qed.

(** What [transpose] does to the maps of a well-formed system. *)
Lemma transpose_Done (cs cs' : System C) (wo po : list Z) :
  axes_ok (world_maps_p cs) -> axes_ok (pixel_maps_p cs) ->
  transpose cs wo po = Done cs' ->
  Permutation wo (Zseq (nWorldAxes cs)) /\
  Permutation po (Zseq (nPixelAxes cs)) /\
  cs' = mkSystem (coordinates_p cs)
          (map (map (relabel wo (length wo))) (world_maps_p cs))
          (world_tmps_p cs) (world_replacement_values_p cs)
          (map (map (relabel po (length po))) (pixel_maps_p cs))
          (pixel_tmps_p cs) (pixel_replacement_values_p cs).
Proof.
  intros Hw Hp H. unfold transpose in H.
  inv_bind H as u1 E. inv_bind H as u2 E0. inv_bind H as u3 E1. inv_bind H as u4 E2.
  apply Nat.eqb_eq in E, E0.
  destruct (transpose_checks wo po) as [Cw Cp]. rewrite Cw in E1. rewrite Cp in E2.
  destruct (verify_order wo _ _) eqn:Vw; [|discriminate].
  destruct (verify_order po _ _) eqn:Vp; [|discriminate].
  clear E1 E2 Cw Cp. rename Vw into E1. rename Vp into E2.
  apply verify_order_iff in E1; [|reflexivity].
  apply verify_order_iff in E2; [|reflexivity].
  rewrite E in E1. rewrite E0 in E2.
  destruct (transpose_maps _ _ Hw E1) as (Hmw & _ & _).
  destruct (transpose_maps _ _ Hp E2) as (Hmp & _ & _).
  unfold nWorldAxes, nPixelAxes in H. rewrite Hmw, Hmp in H. simpl in H.
  injection H as <-. auto.
Qed.

(** [transpose] returns only on a system with at least as many pixel axes
    as world axes. *)
Lemma transpose_Done_axes (cs cs' : System C) (wo po : list Z) :
  transpose cs wo po = Done cs' -> nWorldAxes cs <= nPixelAxes cs.
Proof.
  intros H. unfold transpose in H.
  inv_bind H as u1 E. inv_bind H as u2 E0. inv_bind H as u3 E1. inv_bind H as u4 E2.
  apply Nat.eqb_eq in E, E0.
  destruct (transpose_checks wo po) as [_ Cp]. rewrite Cp in E2.
  destruct (verify_order po _ _); [|discriminate].
  destruct (Nat.leb_spec (length wo) (length po)); [lia|discriminate].
Qed.

(** On a system with fewer pixel axes than world axes [transpose] throws,
    whatever the orders: with two permutations, from the read outside the
    pixel order. *)
Lemma transpose_throws (cs : System C) (wo po : list Z) :
  nPixelAxes cs < nWorldAxes cs ->
  (exists e, transpose cs wo po = Throw e) /\
  (Permutation wo (Zseq (nWorldAxes cs)) -> Permutation po (Zseq (nPixelAxes cs)) ->
   transpose cs wo po = Throw OutOfBounds).
Proof.
  intros Hlt. split.
  - destruct (transpose cs wo po) as [cs'|e] eqn:E; [|eauto].
    apply transpose_Done_axes in E. lia.
  - intros HPw HPp. unfold transpose.
    assert (Lw : length wo = nWorldAxes cs).
    { apply Permutation_length in HPw. rewrite HPw. unfold Zseq.
      now rewrite length_map, length_seq. }
    assert (Lp : length po = nPixelAxes cs).
    { apply Permutation_length in HPp. rewrite HPp. unfold Zseq.
      now rewrite length_map, length_seq. }
    destruct (transpose_checks wo po) as [Cw Cp].
    rewrite Lw, Lp, !Nat.eqb_refl. simpl.
    rewrite Lw in Cw. rewrite Lw, Lp in Cp. rewrite Cw, Cp.
    rewrite (proj2 (verify_order_iff wo (nWorldAxes cs) Lw) HPw).
    rewrite (proj2 (verify_order_iff po (nPixelAxes cs) Lp) HPp). simpl.
    destruct (Nat.leb_spec (nWorldAxes cs) (nPixelAxes cs)); [lia|reflexivity].
Qed.

(** [transpose] accepts every pair of permutations on a system with at
    least as many pixel axes as world axes. *)
Lemma transpose_total (cs : System C) (wo po : list Z) :
  axes_ok (world_maps_p cs) -> axes_ok (pixel_maps_p cs) ->
  nWorldAxes cs <= nPixelAxes cs ->
  Permutation wo (Zseq (nWorldAxes cs)) ->
  Permutation po (Zseq (nPixelAxes cs)) ->
  transpose cs wo po
  = Done (mkSystem (coordinates_p cs)
            (map (map (relabel wo (length wo))) (world_maps_p cs))
            (world_tmps_p cs) (world_replacement_values_p cs)
            (map (map (relabel po (length po))) (pixel_maps_p cs))
            (pixel_tmps_p cs) (pixel_replacement_values_p cs)).
Proof.
  intros Hw Hp Hle HPw HPp. unfold transpose.
  assert (Lw : length wo = nWorldAxes cs).
  { apply Permutation_length in HPw. rewrite HPw. unfold Zseq.
    now rewrite length_map, length_seq. }
  assert (Lp : length po = nPixelAxes cs).
  { apply Permutation_length in HPp. rewrite HPp. unfold Zseq.
    now rewrite length_map, length_seq. }
  destruct (transpose_checks wo po) as [Cw Cp].
  rewrite Lw, Lp, !Nat.eqb_refl. simpl.
  rewrite Lw in Cw. rewrite Lw, Lp in Cp. rewrite Cw, Cp.
  rewrite (proj2 (verify_order_iff wo (nWorldAxes cs) Lw) HPw).
  rewrite (proj2 (verify_order_iff po (nPixelAxes cs) Lp) HPp). simpl.
  destruct (Nat.leb_spec (nWorldAxes cs) (nPixelAxes cs)); [|lia]. simpl.
  destruct (transpose_maps _ _ Hw HPw) as (Hmw & _ & _).
  destruct (transpose_maps _ _ Hp HPp) as (Hmp & _ & _).
  unfold nWorldAxes, nPixelAxes. rewrite Hmw, Hmp. simpl.
  now rewrite Lw, Lp.
Qed.

Lemma well_formed_transpose (cs cs' : System C) (wo po : list Z) :
  well_formed cs -> transpose cs wo po = Done cs' -> well_formed cs'.
Proof.
  intros Hwf H; destruct Hwf.
  destruct (transpose_Done _ _ _ _ wf_world_axes0 wf_pixel_axes0 H) as (HPw & HPp & ->).
  constructor; simpl; auto.
  - now apply sized_map_map.
  - now apply sized_map_map.
  - now apply transpose_maps.
  - now apply transpose_maps.
Qed.

Lemma well_formed_replaceCoordinate (cs cs' : System C) (c : C) (which : nat) :
  well_formed cs -> replaceCoordinate cs c which = Done cs' -> well_formed cs'.
Proof.
  intros Hwf H; destruct Hwf. unfold replaceCoordinate in H. inv_bind H as u1 E.
  destruct (coordinates_p cs !! which) as [old|] eqn:Hold; [|discriminate].
  apply andb_true_iff in E. destruct E as [Ep Ew].
  apply Nat.eqb_eq in Ep, Ew. injection H as <-.
  constructor; simpl; auto; eapply sized_replace; eauto.
Qed.

Lemma well_formed_add_from (junk : nat -> Uninitialised) (l : list C) :
  forall i cs, well_formed cs -> well_formed (add_from junk i l cs).
Proof.
  induction l as [|c l IH]; intros i cs H0; simpl; auto.
  apply IH. now apply well_formed_addCoordinate.
Qed.

Lemma well_formed_restoreOriginal (cs : System C) (junk : nat -> Uninitialised) :
  well_formed (restoreOriginal cs junk).
Proof. apply well_formed_add_from, well_formed_empty. Qed.

Lemma reachable_well_formed (cs : System C) : reachable cs -> well_formed cs.
Proof.
  induction 1.
  - apply well_formed_empty.
  - now apply well_formed_addCoordinate.
  - eapply well_formed_removeWorldAxis; eauto.
  - eapply well_formed_removePixelAxis; eauto.
  - eapply well_formed_transpose; eauto.
  - eapply well_formed_replaceCoordinate; eauto.
  - apply well_formed_restoreOriginal.
Qed.

(** Claim C3.  In every system built from the empty one by [addCoordinate],
    [removeWorldAxis], [removePixelAxis], [transpose], [replaceCoordinate]
    and [restoreOriginal], the non-negative entries of the world maps are
    pairwise distinct and are exactly the numbers [0, ..., nWorldAxes-1],
    and the non-negative entries of the pixel maps are pairwise distinct
    and are exactly [0, ..., nPixelAxes-1]. *)
Theorem axis_mapping_invariant (cs : System C) :
  reachable cs ->
  (List.NoDup (exposed (world_maps_p cs)) /\
   forall k, In k (exposed (world_maps_p cs)) <-> (0 <= k < Z.of_nat (nWorldAxes cs))%Z) /\
  (List.NoDup (exposed (pixel_maps_p cs)) /\
   forall k, In k (exposed (pixel_maps_p cs)) <-> (0 <= k < Z.of_nat (nPixelAxes cs))%Z).
Proof.
  intros H. apply reachable_well_formed in H. destruct H.
  split; (split; [now apply axes_ok_NoDup | intros k; now apply axes_ok_range]).
Qed.

End Invariant.

Lemma foldM_ext {A S : Type} (f g : S -> A -> Outcome S) (l : list A) (s : S) :
  (forall s a, In a l -> f s a = g s a) -> foldM f l s = foldM g l s.
Proof.
  revert s. induction l as [|a l IH]; intros s H; [reflexivity|].
  simpl. rewrite (H s a) by now left.
  destruct (g s a); simpl; [|reflexivity]. apply IH. intros; apply H; now right.
Qed.

Lemma mapM_Outcome_ext {A B : Type} (f g : A -> Outcome B) (l : list A) :
  (forall a, In a l -> f a = g a) -> mapM_Outcome f l = mapM_Outcome g l.
Proof.
  induction l as [|a l IH]; intros H; [reflexivity|].
  simpl. rewrite (H a) by now left. rewrite IH by (intros; apply H; now right).
  reflexivity.
Qed.

Lemma mapM_Outcome_seq {B : Type} (f : nat -> Outcome B) (v : list B) :
  forall k, (forall i x, v !! i = Some x -> f (k + i) = Done x) ->
    mapM_Outcome f (seq k (length v)) = Done v.
Proof.
  induction v as [|x v IH]; intros k H; [reflexivity|].
  cbn [length seq mapM_Outcome].
  rewrite <- (Nat.add_0_r k) at 1. rewrite (H 0 x eq_refl). simpl.
  rewrite IH; [reflexivity|].
  intros i y Hy. replace (S k + i) with (k + S i) by lia. now apply H.
Qed.

Lemma mapM_Outcome_total {B : Type} (f : nat -> Outcome B) (n : nat) :
  (forall i, i < n -> exists x, f i = Done x) ->
  exists v, mapM_Outcome f (seq 0 n) = Done v /\ length v = n.
Proof.
  intros H.
  enough (G : forall m k, k + m <= n ->
            exists v, mapM_Outcome f (seq k m) = Done v /\ length v = m).
  { apply (G n 0). lia. }
  induction m as [|m IH]; intros k Hk.
  - exists []. split; reflexivity.
  - destruct (H k) as [x Hx]; [lia|].
    destruct (IH (S k)) as (v & Hv & Hl); [lia|].
    exists (x :: v). simpl. rewrite Hx. simpl. rewrite Hv. simpl.
    split; [reflexivity|]. now rewrite Hl.
Qed.

(** On maps that satisfy the invariant, every exposed axis is found, at a
    place that holds its number. *)
Lemma find_exposed_spec (maps : list (list Z)) (i : nat) :
  axes_ok maps -> i < length (exposed maps) ->
  exists coord axis block,
    find_exposed maps i = Done (Z.of_nat coord, Z.of_nat axis) /\
    maps !! coord = Some block /\ block !! axis = Some (Z.of_nat i).
Proof.
  intros Hok Hi. unfold find_exposed.
  destruct (Nat.ltb_spec i (length (exposed maps))); [|lia]. simpl.
  assert (Hin : In (Z.of_nat i) (concat maps)).
  { apply In_exposed. apply (axes_ok_range maps _ Hok). lia. }
  destruct (find_axis_Some maps _ 0 Hin) as (P & b1 & b2 & Q & Hm & _ & _ & Hf).
  exists (length P), (length b1), (b1 ++ Z.of_nat i :: b2).
  rewrite Hf. split; [reflexivity|]. split.
  - rewrite Hm. now apply list_lookup_middle.
  - now apply list_lookup_middle.
Qed.

Lemma sized_lookup {C A : Type} (f : C -> nat) (blocks : list (list A))
    (coords : list C) (i : nat) (block : list A) :
  sized f blocks coords -> blocks !! i = Some block ->
  exists c, coords !! i = Some c /\ length block = f c.
Proof.
  intros H Hb. unfold sized in H.
  destruct (Forall2_lookup_l _ _ _ _ _ H Hb) as (c & Hc & Hl). eauto.
Qed.

Lemma axes_ok_bound (maps : list (list Z)) (coord axis : nat) (block : list Z) (w : Z) :
  axes_ok maps -> maps !! coord = Some block -> block !! axis = Some w ->
  (0 <= w)%Z -> Z.to_nat w < length (exposed maps).
Proof.
  intros Hok Hb Hw H0.
  assert (In w (exposed maps)).
  { apply In_exposed. split; [|assumption]. apply in_concat.
    exists block. split; apply list_elem_of_In; eapply list_elem_of_lookup_2; eauto. }
  apply (axes_ok_range maps w Hok) in H. lia.
Qed.

Section Derived.
Context {C : Type} {V : Coordinate.Virtuals C}.

(** A derived vector of a well-formed system has one entry per exposed
    axis. *)
Lemma derived_Done {A : Type} (size : C -> nat) (get : C -> list A)
    (maps : list (list Z)) (coords : list C) :
  axes_ok maps -> sized size maps coords ->
  (forall c, In c coords -> length (get c) = size c) ->
  exists v, derived maps coords get = Done v /\ length v = length (exposed maps).
Proof.
  intros Hok Hs Hg. unfold derived. apply mapM_Outcome_total.
  intros i Hi.
  destruct (find_exposed_spec maps i Hok Hi) as (coord & axis & block & Hf & Hb & Ha).
  destruct (sized_lookup _ _ _ _ _ Hs Hb) as (c & Hc & Hl).
  assert (Hx : is_Some (get c !! axis)).
  { apply lookup_lt_is_Some_2. rewrite Hg.
    - rewrite <- Hl. eapply lookup_lt_Some; eauto.
    - apply list_elem_of_In. eapply list_elem_of_lookup_2; eauto. }
  destruct Hx as [x Hx]. exists x.
  rewrite Hf. simpl. rewrite (at_Z_Done _ _ _ Hc). simpl. now apply at_Z_Done.
Qed.

(** Two lists of coordinates that agree on a getter give the same derived
    vector. *)
Lemma derived_ext {A : Type} (get : C -> list A) (maps : list (list Z))
    (coords coords' : list C) :
  Forall2 (fun c c' => get c' = get c) coords coords' ->
  derived maps coords' get = derived maps coords get.
Proof.
  intros HF. unfold derived. apply mapM_Outcome_ext. intros i _.
  destruct (find_exposed maps i) as [[coord axis]|e]; simpl; [|reflexivity].
  unfold at_Z. destruct (coord <? 0)%Z; [reflexivity|]. unfold at_nat.
  destruct (coords !! Z.to_nat coord) as [c|] eqn:Ec.
  - destruct (Forall2_lookup_l _ _ _ _ _ HF Ec) as (c' & -> & Hg). simpl.
    now rewrite Hg.
  - apply lookup_ge_None in Ec. rewrite (lookup_ge_None_2 coords') by
      (rewrite <- (Forall2_length _ _ _ HF); exact Ec). reflexivity.
Qed.

End Derived.

Lemma overwrite_spec {A : Type} (m : list Z) (v tmp : list A) :
  length m = length tmp ->
  (forall j w, m !! j = Some w -> (0 <= w)%Z -> Z.to_nat w < length v) ->
  exists tmp', overwrite m v tmp = Done tmp' /\ length tmp' = length tmp /\
    forall j w, m !! j = Some w ->
      tmp' !! j = if (0 <=? w)%Z then v !! Z.to_nat w else tmp !! j.
Proof.
  intros Hlen Hrange. unfold overwrite.
  destruct (foldM_seq_invariant
    (fun tmp0 j => which ← at_nat m j;
                   if (0 <=? which)%Z then x ← at_Z v which; set_nat tmp0 j x
                   else Done tmp0)
    (fun k t => length t = length tmp /\
                forall j w, m !! j = Some w ->
                  t !! j = if (j <? k) && (0 <=? w)%Z then v !! Z.to_nat w else tmp !! j)
    (length tmp) tmp) as (t & Ht & Hl & Hall).
  - split; [reflexivity|]. intros j w _. reflexivity.
  - intros k t Hk [Hl Hall].
    destruct (lookup_lt_is_Some_2 m k) as [w Hw]; [lia|].
    rewrite (at_nat_Done _ _ _ Hw). simpl.
    destruct (Z.leb_spec 0 w) as [H0|H0].
    + pose proof (Hrange k w Hw H0) as Hr.
      destruct (lookup_lt_is_Some_2 v (Z.to_nat w) Hr) as [x Hx].
      rewrite at_Z_nonneg by lia. rewrite (at_nat_Done _ _ _ Hx). simpl.
      rewrite set_nat_Done by lia. eexists. split; [reflexivity|].
      split; [now rewrite length_insert|].
      intros j w' Hw'. destruct (decide (j = k)) as [->|Hne].
      * rewrite list_lookup_insert_eq by lia.
        assert (w' = w) by congruence. subst w'.
        destruct (Nat.ltb_spec k (S k)); [|lia].
        destruct (Z.leb_spec 0 w); [|lia]. simpl. now rewrite Hx.
      * rewrite list_lookup_insert_ne by congruence. rewrite (Hall j w' Hw').
        destruct (Nat.ltb_spec j k); destruct (Nat.ltb_spec j (S k)); try lia; reflexivity.
    + eexists. split; [reflexivity|]. split; [assumption|].
      intros j w' Hw'. rewrite (Hall j w' Hw').
      destruct (decide (j = k)) as [->|Hne].
      * assert (w' = w) by congruence. subst w'.
        destruct (Z.leb_spec 0 w); [lia|]. now rewrite !andb_false_r.
      * destruct (Nat.ltb_spec j k); destruct (Nat.ltb_spec j (S k)); try lia; reflexivity.
  - exists t. split; [exact Ht|]. split; [exact Hl|].
    intros j w Hw. rewrite (Hall j w Hw).
    pose proof (lookup_lt_Some _ _ _ Hw) as Hj.
    destruct (Nat.ltb_spec j (length tmp)); [|lia]. reflexivity.
Qed.

Section Setters.
Context {C : Type} {V : Coordinate.Virtuals C}.

Lemma with_coordinates_self (cs : System C) :
  with_coordinates cs (coordinates_p cs) = cs.
Proof. now destruct cs. Qed.

(** One of the vector setters on a well-formed system whose coordinates'
    setter stores what it is given: every coordinate's setter is called
    and succeeds, and the derived vector becomes the one that was set. *)
Lemma set_each_spec {A : Type} (mp : System C -> list (list Z)) (size : C -> nat)
    (get : C -> list A) (set : C -> list A -> bool * C)
    (valid : C -> Prop) (R : C -> C -> Prop) (cs : System C) (v : list A) :
  (forall cs' coords, mp (with_coordinates cs' coords) = mp cs') ->
  axes_ok (mp cs) -> sized size (mp cs) (coordinates_p cs) ->
  Forall valid (coordinates_p cs) ->
  (forall c, valid c -> length (get c) = size c) ->
  (forall c t, valid c -> length t = size c ->
     (set c t).1 = true /\ valid (set c t).2 /\ R c (set c t).2 /\ get (set c t).2 = t) ->
  length v = length (exposed (mp cs)) ->
  exists coords',
    set_each mp get set cs v = Done (true, with_coordinates cs coords') /\
    Forall2 (fun c c' => valid c' /\ R c c') (coordinates_p cs) coords' /\
    derived (mp cs) coords' get = Done v.
Proof.
  intros Hmp Hok Hs Hvalid Hget Hset Hv. unfold set_each.
  set (body := fun (st : bool * System C) (i : nat) =>
           let '(ok, cs0) := st in
           c ← at_nat (coordinates_p cs0) i;
           map_ ← at_nat (mp cs0) i;
           tmp ← overwrite map_ v (get c);
           let '(b, c') := set c tmp in
           Done (b && ok, with_coordinate cs0 i c')).
  set (P := fun (k : nat) (st : bool * System C) =>
    st.1 = true /\
    exists coords', st.2 = with_coordinates cs coords' /\
      length coords' = nCoordinates cs /\
      (forall i, k <= i -> coords' !! i = coordinates_p cs !! i) /\
      (forall i c m, i < k -> coordinates_p cs !! i = Some c -> mp cs !! i = Some m ->
         exists c', coords' !! i = Some c' /\ valid c' /\ R c c' /\
           forall j w, m !! j = Some w -> (0 <= w)%Z -> get c' !! j = v !! Z.to_nat w)).
  destruct (foldM_seq_invariant body P (nCoordinates cs) (true, cs))
    as ([ok cs'] & Hrun & Hok' & coords' & Hcs' & Hlen & _ & Hall).
  - split; [reflexivity|]. exists (coordinates_p cs). simpl.
    split; [now rewrite with_coordinates_self|]. split; [reflexivity|].
    split; [reflexivity|]. intros; lia.
  - intros k [ok cs0] Hk (Hok0 & coords0 & Hcs0 & Hlen0 & Hrest & Hdone).
    simpl in Hok0, Hcs0. subst ok cs0. unfold body.
    unfold nCoordinates in Hk.
    destruct (lookup_lt_is_Some_2 (coordinates_p cs) k Hk) as [c Hc].
    assert (Hc0 : coordinates_p (with_coordinates cs coords0) !! k = Some c).
    { simpl. rewrite Hrest by lia. exact Hc. }
    rewrite (at_nat_Done _ _ _ Hc0). simpl. rewrite Hmp.
    pose proof (Forall2_length _ _ _ Hs) as Hsl.
    destruct (lookup_lt_is_Some_2 (mp cs) k) as [m Hm]; [lia|].
    rewrite (at_nat_Done _ _ _ Hm). simpl.
    destruct (sized_lookup _ _ _ _ _ Hs Hm) as (c1 & Hc1 & Hml).
    assert (c1 = c) by congruence. subst c1.
    assert (Hvc : valid c).
    { rewrite Forall_forall in Hvalid. apply Hvalid.
      eapply list_elem_of_lookup_2; eauto. }
    destruct (overwrite_spec m v (get c)) as (tmp & Htmp & Htl & Htv).
    { rewrite Hget by assumption. exact Hml. }
    { intros j w Hw H0. rewrite Hv. eapply axes_ok_bound; eauto. }
    rewrite Htmp. simpl.
    destruct (Hset c tmp Hvc) as (Hb & Hv' & HR & Hg).
    { rewrite Htl. now apply Hget. }
    destruct (set c tmp) as [b c'] eqn:Eset. simpl in Hb, Hv', HR, Hg. subst b.
    eexists. split; [reflexivity|]. split; [reflexivity|].
    exists (<[k := c']> coords0). simpl. split; [reflexivity|].
    split; [now rewrite length_insert|]. split.
    + intros i Hi. rewrite list_lookup_insert_ne by lia. apply Hrest. lia.
    + intros i ci mi Hi Hci Hmi. destruct (decide (i = k)) as [->|Hne].
      * assert (ci = c) by congruence. assert (mi = m) by congruence. subst ci mi.
        exists c'. split; [apply list_lookup_insert_eq; unfold nCoordinates in Hlen0; lia|].
        split; [assumption|]. split; [assumption|].
        intros j w Hw H0. rewrite Hg. rewrite (Htv j w Hw).
        destruct (Z.leb_spec 0 w); [reflexivity|lia].
      * rewrite list_lookup_insert_ne by congruence. apply Hdone; auto. lia.
  - simpl in Hok', Hcs'. subst ok cs'. exists coords'.
    split; [exact Hrun|]. split.
    + apply Forall2_same_length_lookup. split; [symmetry; exact Hlen|].
      intros i c c' Hc Hc'.
      pose proof (Forall2_length _ _ _ Hs) as Hsl.
      destruct (lookup_lt_is_Some_2 (mp cs) i) as [m Hm];
        [rewrite Hsl; eapply lookup_lt_Some; eauto|].
      destruct (Hall i c m) as (c2 & Hc2 & Hv2 & HR2 & _); auto.
      { eapply lookup_lt_Some; eauto. }
      assert (c2 = c') by congruence. subst c2. auto.
    + unfold derived. rewrite <- Hv. apply mapM_Outcome_seq.
      intros i x Hx. simpl.
      assert (Hi : i < length (exposed (mp cs))).
      { rewrite <- Hv. eapply lookup_lt_Some; eauto. }
      destruct (find_exposed_spec (mp cs) i Hok Hi) as (coord & axis & block & Hf & Hb & Ha).
      destruct (sized_lookup _ _ _ _ _ Hs Hb) as (c & Hc & Hl).
      destruct (Hall coord c block) as (c' & Hc' & _ & _ & Hg); auto.
      { eapply lookup_lt_Some; eauto. }
      rewrite Hf. simpl. rewrite (at_Z_Done _ _ _ Hc'). simpl.
      apply at_Z_Done. rewrite (Hg axis (Z.of_nat i) Ha) by lia.
      now rewrite Nat2Z.id.
Qed.

End Setters.

(** ** The loop of subImage *)

Lemma subImage_body_step (originShift pixinc : list Z) (rp cd : list Double)
    (k : nat) (st : list Double * list Double) (inc : Z) :
  k < length originShift -> k < length rp -> k < length cd ->
  pixinc !! k = Some inc -> (1 <= inc)%Z ->
  subImage_invariant originShift pixinc rp cd k st ->
  exists st', subImage_body originShift pixinc st k = Done st' /\
              subImage_invariant originShift pixinc rp cd (S k) st'.
Proof.
  intros Hs Hrp Hcd Hinc H1 (L1 & L2 & I1 & I2). destruct st as [crpix cdelt].
  simpl in *. unfold subImage_body.
  rewrite (at_nat_Done _ _ _ Hinc). simpl.
  destruct (Z.leb_spec 1 inc); [|lia]. simpl.
  destruct (lookup_lt_is_Some_2 originShift k Hs) as [s Hsk].
  rewrite (at_nat_Done _ _ _ Hsk). simpl.
  destruct (lookup_lt_is_Some_2 rp k Hrp) as [p Hp].
  destruct (lookup_lt_is_Some_2 cd k Hcd) as [d Hd].
  assert (Hck : crpix !! k = Some p).
  { rewrite I1. destruct (Nat.ltb_spec k k); [lia|assumption]. }
  assert (Hdk : cdelt !! k = Some d).
  { rewrite I2. destruct (Nat.ltb_spec k k); [lia|assumption]. }
  rewrite (at_nat_Done _ _ _ Hck). simpl.
  rewrite set_nat_Done by lia. simpl.
  rewrite (at_nat_Done (<[k := PrimFloat.sub p (Double_of_Int s)]> crpix) k
             (PrimFloat.sub p (Double_of_Int s)))
    by (apply list_lookup_insert_eq; lia). simpl.
  rewrite set_nat_Done by (rewrite length_insert; lia). simpl.
  rewrite (at_nat_Done _ _ _ Hdk). simpl.
  rewrite set_nat_Done by lia. simpl.
  eexists. split; [reflexivity|]. unfold subImage_invariant. simpl.
  rewrite !length_insert. repeat split; auto.
  - intros i. destruct (decide (i = k)) as [->|Hne].
    + rewrite list_lookup_insert_eq by (rewrite length_insert; lia).
      destruct (Nat.ltb_spec k (S k)); [|lia].
      rewrite Hp. simpl. unfold shifted. now rewrite Hsk, Hinc.
    + rewrite !list_lookup_insert_ne by congruence. rewrite I1.
      destruct (Nat.ltb_spec i k); destruct (Nat.ltb_spec i (S k)); try lia; reflexivity.
  - intros i. destruct (decide (i = k)) as [->|Hne].
    + rewrite list_lookup_insert_eq by lia.
      destruct (Nat.ltb_spec k (S k)); [|lia].
      rewrite Hd. simpl. unfold scaled. now rewrite Hinc.
    + rewrite !list_lookup_insert_ne by congruence. rewrite I2.
      destruct (Nat.ltb_spec i k); destruct (Nat.ltb_spec i (S k)); try lia; reflexivity.
Qed.

Lemma subImage_loop (originShift pixinc : list Z) (rp cd : list Double) (k : nat) :
  k <= length originShift -> k <= length pixinc -> k <= length rp -> k <= length cd ->
  (forall j inc, j < k -> pixinc !! j = Some inc -> (1 <= inc)%Z) ->
  exists st, foldM (subImage_body originShift pixinc) (seq 0 k) (rp, cd) = Done st /\
             subImage_invariant originShift pixinc rp cd k st.
Proof.
  intros Hs Hi Hrp Hcd Hall.
  apply (foldM_seq_invariant (subImage_body originShift pixinc)
           (subImage_invariant originShift pixinc rp cd) k (rp, cd)).
  - repeat split; intros i; reflexivity.
  - intros j st Hj Hinv.
    destruct (lookup_lt_is_Some_2 pixinc j) as [inc Hinc]; [lia|].
    apply (subImage_body_step _ _ _ _ _ _ inc); auto; try lia.
    eapply Hall; eauto.
Qed.

Lemma first_small (pixinc : list Z) :
  Exists (fun k => (k < 1)%Z) pixinc ->
  exists i inc, pixinc !! i = Some inc /\ (inc < 1)%Z /\
    forall j inc', j < i -> pixinc !! j = Some inc' -> (1 <= inc')%Z.
Proof.
  induction pixinc as [|x l IH]; intros H; [inversion H|].
  destruct (Z.lt_ge_cases x 1) as [Hx|Hx].
  - exists 0, x. repeat split; auto. intros; lia.
  - inversion H as [? ? Hh|? ? Ht]; subst; [lia|].
    destruct (IH Ht) as (i & inc & Hi & Hinc & Hall).
    exists (S i), inc. repeat split; auto.
    intros [|j] inc' Hj Hl; simpl in Hl.
    + injection Hl as <-. lia.
    + eapply Hall; eauto. lia.
Qed.

Lemma subImage_loop_throws (originShift pixinc : list Z) (rp cd : list Double) (n : nat) :
  n <= length originShift -> n = length pixinc -> n <= length rp -> n <= length cd ->
  Exists (fun k => (k < 1)%Z) pixinc ->
  foldM (subImage_body originShift pixinc) (seq 0 n) (rp, cd) = Throw AipsError.
Proof.
  intros Hs Hi Hrp Hcd Hex.
  destruct (first_small pixinc Hex) as (i & inc & Hl & Hinc & Hall).
  pose proof (lookup_lt_Some _ _ _ Hl) as Hlt.
  replace n with (i + S (n - S i)) by lia.
  rewrite seq_app, foldM_app.
  destruct (subImage_loop originShift pixinc rp cd i) as ([crpix cdelt] & -> & _);
    try lia; auto.
  simpl. rewrite (at_nat_Done _ _ _ Hl). simpl.
  destruct (Z.leb_spec 1 inc); [lia|]. reflexivity.
Qed.

Section SubImage.
Context {C : Type} {V : Coordinate.Virtuals C}.

Lemma bind_at_Z_ext {A B : Type} (g : C -> A) (k : A -> Outcome B)
    (coords coords' : list C) (z : Z) :
  Forall2 (fun c c' => g c' = g c) coords coords' ->
  (c ← at_Z coords' z; k (g c)) = (c ← at_Z coords z; k (g c)).
Proof.
  intros HF. unfold at_Z. destruct (z <? 0)%Z; [reflexivity|]. unfold at_nat.
  destruct (coords !! Z.to_nat z) as [c|] eqn:Ec.
  - destruct (Forall2_lookup_l _ _ _ _ _ HF Ec) as (c' & -> & Hg). simpl.
    now rewrite Hg.
  - apply lookup_ge_None in Ec. rewrite (lookup_ge_None_2 coords') by
      (rewrite <- (Forall2_length _ _ _ HF); exact Ec). reflexivity.
Qed.

Lemma linearTransform_ext (cs : System C) (coords' : list C) :
  Forall2 (fun c c' => Coordinate.linearTransform c' = Coordinate.linearTransform c)
          (coordinates_p cs) coords' ->
  linearTransform (with_coordinates cs coords') = linearTransform cs.
Proof.
  intros HF. unfold linearTransform. apply foldM_ext. intros m i _.
  apply foldM_ext. intros m' j _.
  change (findWorldAxis (with_coordinates cs coords') i) with (findWorldAxis cs i).
  change (findPixelAxis (with_coordinates cs coords') j) with (findPixelAxis cs j).
  destruct (findWorldAxis cs i) as [[wc wa]|]; simpl; [|reflexivity].
  destruct (findPixelAxis cs j) as [[pc pa]|]; simpl; [|reflexivity].
  destruct ((wc =? pc)%Z && (0 <=? wc)%Z && (0 <=? wa)%Z && (0 <=? pa)%Z); [|reflexivity].
  apply (bind_at_Z_ext Coordinate.linearTransform
           (fun lt => x ← matrix_at lt wa pa; matrix_set m' (Z.of_nat i) (Z.of_nat j) x)).
  exact HF.
Qed.

Lemma sized_Forall2 {A : Type} (f : C -> nat) (blocks : list (list A))
    (coords coords' : list C) :
  sized f blocks coords -> Forall2 (fun c c' => f c' = f c) coords coords' ->
  sized f blocks coords'.
Proof.
  intros Hs HF. unfold sized in *.
  eapply Forall2_trans; [|exact Hs|exact HF].
  simpl. intros b c c' Hb Hc. congruence.
Qed.

Variable valid : C -> Prop.
Hypothesis Hlaw : Coordinate.lawful valid.

(** Claim C6, for systems with at least as many world axes as pixel axes.
    For a well-formed system [cs] of lawful coordinates with
    [nPixelAxes cs <= nWorldAxes cs], and [originShift] and [pixinc] with
    one entry per pixel axis:
    - when every [pixinc(i)] is at least 1, [subImage] returns a system
      whose reference pixel on pixel axis [i] is
      [(crpix(i) - originShift(i)) / pixinc(i)], whose increment on world
      axis [i] is [cdelt(i) * pixinc(i)] for [i] below the number of pixel
      axes and [cdelt(i)] above, and whose reference value, linear
      transform, axis names, axis units and maps are those of [cs];
    - when some [pixinc(i)] is below 1, the assertion of the loop throws
      [AipsError]. *)
Theorem subImage_spec (cs : System C) (originShift pixinc : list Z) :
  well_formed cs -> Forall valid (coordinates_p cs) ->
  nPixelAxes cs <= nWorldAxes cs ->
  length originShift = nPixelAxes cs -> length pixinc = nPixelAxes cs ->
  (Forall (fun k => (1 <= k)%Z) pixinc ->
   exists cs' crpix cdelt crpix' cdelt',
     referencePixel cs = Done crpix /\ increment cs = Done cdelt /\
     subImage cs originShift pixinc = Done cs' /\
     referencePixel cs' = Done crpix' /\ increment cs' = Done cdelt' /\
     length crpix' = nPixelAxes cs /\ length cdelt' = nWorldAxes cs /\
     (forall i p s k,
        crpix !! i = Some p -> originShift !! i = Some s -> pixinc !! i = Some k ->
        crpix' !! i
        = Some (PrimFloat.div (PrimFloat.sub p (Double_of_Int s)) (Double_of_Int k))) /\
     (forall i d k,
        cdelt !! i = Some d -> pixinc !! i = Some k ->
        cdelt' !! i = Some (PrimFloat.mul d (Double_of_Int k))) /\
     (forall i, nPixelAxes cs <= i -> cdelt' !! i = cdelt !! i) /\
     referenceValue cs' = referenceValue cs /\
     linearTransform cs' = linearTransform cs /\
     worldAxisNames cs' = worldAxisNames cs /\
     worldAxisUnits cs' = worldAxisUnits cs /\
     world_maps_p cs' = world_maps_p cs /\ pixel_maps_p cs' = pixel_maps_p cs) /\
  (Exists (fun k => (k < 1)%Z) pixinc ->
   subImage cs originShift pixinc = Throw AipsError).
Proof.
  intros Hwf Hvalid Hpw Hls Hli.
  destruct Hwf as [Wm _ _ Pm _ _ Wok Pok].
  assert (Hlen : forall c, valid c ->
            length (Coordinate.referencePixel c) = Coordinate.nPixelAxes c /\
            length (Coordinate.increment c) = Coordinate.nWorldAxes c).
  { intros c Hc. destruct (Coordinate.law_lengths valid Hlaw c Hc) as (? & ? & ?). auto. }
  assert (Hvin : forall c, In c (coordinates_p cs) -> valid c).
  { intros c Hc. rewrite Forall_forall in Hvalid. apply Hvalid. now apply list_elem_of_In. }
  destruct (derived_Done Coordinate.nPixelAxes Coordinate.referencePixel
              (pixel_maps_p cs) (coordinates_p cs) Pok Pm) as (crpix & Hcrpix & Lcrpix).
  { intros c Hc. now apply Hlen, Hvin. }
  destruct (derived_Done Coordinate.nWorldAxes Coordinate.increment
              (world_maps_p cs) (coordinates_p cs) Wok Wm) as (cdelt & Hcdelt & Lcdelt).
  { intros c Hc. now apply Hlen, Hvin. }
  fold (nPixelAxes cs) in Lcrpix. fold (nWorldAxes cs) in Lcdelt.
  assert (Hpre : subImage cs originShift pixinc
                 = '(crpix, cdelt) ← foldM (subImage_body originShift pixinc)
                                        (seq 0 (nPixelAxes cs)) (crpix, cdelt);
                   '(_, coords) ← setReferencePixel cs crpix;
                   '(_, coords) ← setIncrement coords cdelt;
                   Done coords).
  { unfold subImage. rewrite Hls, Hli, !Nat.eqb_refl. simpl.
    unfold referencePixel, increment, pixel_derived, world_derived.
    rewrite Hcrpix. simpl. rewrite Hcdelt. reflexivity. }
  split.
  - intros Hall.
    destruct (subImage_loop originShift pixinc crpix cdelt (nPixelAxes cs))
      as ([crpix' cdelt'] & Hloop & L1 & L2 & I1 & I2); try lia.
    { intros j inc _ Hj. rewrite Forall_forall in Hall. apply Hall.
      eapply list_elem_of_lookup_2; eauto. }
    simpl in L1, L2, I1, I2.
    (* setReferencePixel *)
    destruct (set_each_spec pixel_maps_p Coordinate.nPixelAxes
                Coordinate.referencePixel Coordinate.setReferencePixel valid
                (fun c c' => Coordinate.same_shape c c' /\
                   Coordinate.referenceValue c' = Coordinate.referenceValue c /\
                   Coordinate.increment c' = Coordinate.increment c)
                cs crpix') as (coords1 & Hset1 & HF1 & Hd1); auto.
    { intros c Hc. now apply Hlen. }
    { intros c t Hc Ht.
      destruct (Coordinate.law_setReferencePixel valid Hlaw c t Hc Ht)
        as (H1 & H2 & H3 & H4 & H5 & H6).
      exact (conj H1 (conj H2 (conj (conj H3 (conj H5 H6)) H4))). }
    { fold (nPixelAxes cs). lia. }
    (* setIncrement *)
    set (cs1 := with_coordinates cs coords1) in *.
    assert (Hv1 : Forall valid coords1).
    { eapply Forall2_Forall_r; [exact HF1|]. apply Forall_forall. intros; tauto. }
    assert (Hs1 : sized Coordinate.nWorldAxes (world_maps_p cs1) (coordinates_p cs1)).
    { simpl. eapply sized_Forall2; [exact Wm|].
      eapply Forall2_impl; [exact HF1|]. simpl. intros c c' (_ & S & _).
      destruct S as (_ & _ & S & _). exact S. }
    destruct (set_each_spec world_maps_p Coordinate.nWorldAxes
                Coordinate.increment Coordinate.setIncrement valid
                (fun c c' => Coordinate.same_shape c c' /\
                   Coordinate.referencePixel c' = Coordinate.referencePixel c /\
                   Coordinate.referenceValue c' = Coordinate.referenceValue c)
                cs1 cdelt') as (coords2 & Hset2 & HF2 & Hd2); auto.
    { intros c Hc. now apply Hlen. }
    { intros c t Hc Ht.
      destruct (Coordinate.law_setIncrement valid Hlaw c t Hc Ht)
        as (H1 & H2 & H3 & H4 & H5 & H6).
      exact (conj H1 (conj H2 (conj (conj H3 (conj H4 H5)) H6))). }
    { simpl. fold (nWorldAxes cs). lia. }
    simpl in HF2, Hd2.
    change (with_coordinates cs1 coords2) with (with_coordinates cs coords2) in Hset2.
    exists (with_coordinates cs coords2), crpix, cdelt, crpix', cdelt'.
    split; [exact Hcrpix|]. split; [exact Hcdelt|].
    split.
    { rewrite Hpre, Hloop. simpl. unfold setReferencePixel, setIncrement.
      rewrite Hset1. simpl. fold cs1. rewrite Hset2. reflexivity. }
    assert (G : forall (A : Type) (g : C -> A),
              (forall c c', Coordinate.same_shape c c' -> g c' = g c) ->
              Forall2 (fun c c' => g c' = g c) (coordinates_p cs) coords2).
    { intros A g Hg. eapply Forall2_trans; [|exact HF1|exact HF2].
      simpl. intros a b c (_ & Sa & _) (_ & Sb & _). rewrite (Hg _ _ Sb). now apply Hg. }
    split.
    { unfold referencePixel, pixel_derived. simpl. rewrite <- Hd1.
      apply derived_ext. eapply Forall2_impl; [exact HF2|]. simpl. tauto. }
    split; [exact Hd2|]. split; [lia|]. split; [lia|].
    split.
    { intros i p s k Hp Hs Hk. rewrite I1.
      pose proof (lookup_lt_Some _ _ _ Hk) as Hik.
      destruct (Nat.ltb_spec i (nPixelAxes cs)); [|lia].
      rewrite Hp. simpl. unfold shifted. now rewrite Hs, Hk. }
    split.
    { intros i d k Hd Hk. rewrite I2.
      pose proof (lookup_lt_Some _ _ _ Hk) as Hik.
      destruct (Nat.ltb_spec i (nPixelAxes cs)); [|lia].
      rewrite Hd. simpl. unfold scaled. now rewrite Hk. }
    split.
    { intros i Hi. rewrite I2. destruct (Nat.ltb_spec i (nPixelAxes cs)); [lia|reflexivity]. }
    split.
    { unfold referenceValue, world_derived. simpl. apply derived_ext.
      eapply Forall2_trans; [|exact HF1|exact HF2].
      simpl. intros a b c (_ & _ & Ra & _) (_ & _ & _ & Rb). congruence. }
    split.
    { apply linearTransform_ext. apply (G _ Coordinate.linearTransform).
      intros c c' S. apply S. }
    split.
    { unfold worldAxisNames, world_derived. simpl. apply derived_ext.
      apply (G _ Coordinate.worldAxisNames). intros c c' S. apply S. }
    split.
    { unfold worldAxisUnits, world_derived. simpl. apply derived_ext.
      apply (G _ Coordinate.worldAxisUnits). intros c c' S. apply S. }
    split; reflexivity.
  - intros Hex. rewrite Hpre.
    rewrite subImage_loop_throws; auto; lia.
Qed.

End SubImage.

Section SetLinearTransform.
Context {C : Type} {V : Coordinate.Virtuals C}.

(** The inner loop of [setLinearTransform] entered with [j < ncol] has no
    normal exit. *)
Lemma setLinearTransform_k_no_exit (fuel : nat) (wm pm : list Z) (xform : Matrix)
    (ncol j k : nat) (tmp tmp' : Matrix) :
  j < ncol ->
  setLinearTransform_k fuel wm pm xform ncol j k tmp <> Some (Done tmp').
Proof.
  intros Hj. revert k tmp. induction fuel as [|fuel IH]; intros k tmp; [discriminate|].
  simpl. destruct (Nat.ltb_spec j ncol); [|lia].
  destruct (_ ≫= _); [apply IH|discriminate].
Qed.

End SetLinearTransform.


Lemma map_lookup_seq {A : Type} (d : A) (l : list A) :
  map (fun j => default d (l !! j)) (seq 0 (length l)) = l.
Proof.
  induction l as [|x l IH]; [reflexivity|].
  cbn [length seq map]. f_equal. rewrite <- seq_shift, map_map. exact IH.
Qed.

Lemma Zseq_length (n : nat) : length (Zseq n) = n.
Proof. unfold Zseq. now rewrite length_map, length_seq. Qed.

Lemma Permutation_Zseq_length (l : list Z) (n : nat) :
  Permutation l (Zseq n) -> length l = n.
Proof. intros H. apply Permutation_length in H. now rewrite Zseq_length in H. Qed.

Lemma inverse_order_map (order inverse : list Z) :
  inverse_order order inverse ->
  map (fun o => default 0%Z (inverse !! Z.to_nat o)) order = Zseq (length order).
Proof.
  intros [_ Hinv].
  enough (H : forall sfx pre, order = pre ++ sfx ->
            map (fun o => default 0%Z (inverse !! Z.to_nat o)) sfx
            = map Z.of_nat (seq (length pre) (length sfx))).
  { apply (H order []). reflexivity. }
  induction sfx as [|o sfx IH]; intros pre Heq; [reflexivity|].
  cbn [map length seq]. f_equal.
  - rewrite (Hinv (length pre) o); [reflexivity|].
    rewrite Heq. now apply list_lookup_middle.
  - replace (S (length pre)) with (length (pre ++ [o])) by (rewrite length_app; simpl; lia).
    apply IH. now rewrite <- app_assoc.
Qed.

(** The inverse of a permutation of the axis numbers is one. *)
Lemma inverse_order_Permutation (order inverse : list Z) (n : nat) :
  Permutation order (Zseq n) -> inverse_order order inverse ->
  Permutation inverse (Zseq n).
Proof.
  intros HP Hinv.
  pose proof (Permutation_Zseq_length _ _ HP) as Hn.
  pose proof (inverse_order_map _ _ Hinv) as Hm.
  destruct Hinv as [Hlen _].
  pose proof (Permutation_map (fun o => default 0%Z (inverse !! Z.to_nat o)) HP) as H.
  rewrite Hm in H. unfold Zseq in H at 2. rewrite map_map in H.
  rewrite (map_ext _ (fun j => default 0%Z (inverse !! j))) in H
    by (intros; now rewrite Nat2Z.id).
  rewrite <- Hn, <- Hlen in H. rewrite map_lookup_seq in H.
  rewrite Hlen, Hn in H. now symmetry.
Qed.

Section Transpose.
Context {C : Type} {V : Coordinate.Virtuals C}.

(** The second of the two transpositions, by the inverse orders, on a
    system with at least as many pixel axes as world axes: both return,
    and the second gives back the system. *)
Lemma transpose_inverse_Done (cs : System C) (sigma sigma' pi pi' : list Z) :
  well_formed cs ->
  nWorldAxes cs <= nPixelAxes cs ->
  Permutation sigma (Zseq (nWorldAxes cs)) ->
  Permutation pi (Zseq (nPixelAxes cs)) ->
  inverse_order sigma sigma' ->
  inverse_order pi pi' ->
  exists cs1,
    transpose cs sigma pi = Done cs1 /\
    transpose cs1 sigma' pi' = Done cs.
Proof.
  intros Hwf Hle Hs Hp Hsi Hpi.
  pose proof (wf_world_axes cs Hwf) as Hw.
  pose proof (wf_pixel_axes cs Hwf) as Hx.
  pose proof (inverse_order_Permutation _ _ _ Hs Hsi) as Hs'.
  pose proof (inverse_order_Permutation _ _ _ Hp Hpi) as Hp'.
  destruct (transpose_maps _ _ Hw Hs) as (_ & Hew & Hokw).
  destruct (transpose_maps _ _ Hx Hp) as (_ & Hep & Hokp).
  eexists. split; [now apply transpose_total|].
  rewrite transpose_total; simpl; auto.
  - rewrite (transpose_maps_inverse _ _ _ Hw Hs Hs' Hsi).
    rewrite (transpose_maps_inverse _ _ _ Hx Hp Hp' Hpi).
    now destruct cs.
  - unfold nWorldAxes, nPixelAxes in *. simpl. now rewrite Hew, Hep, !length_map.
  - unfold nWorldAxes in *. simpl. now rewrite Hew, length_map.
  - unfold nPixelAxes in *. simpl. now rewrite Hep, length_map.
Qed.

(** Claim C8.  For every well-formed system, every permutation [sigma] of
    its world axes and [pi] of its pixel axes, with inverses [sigma'] and
    [pi']: after [transpose(sigma, pi)] followed by
    [transpose(sigma', pi')] the reference value, the reference pixel, the
    increment, the linear transform, the world axis names and the world
    axis units are what they were before the two calls.  On a system with
    at least as many pixel axes as world axes both calls return; on a
    system with fewer pixel axes than world axes both throw, from the read
    outside the pixel order, and leave the system as it was. *)
Theorem transpose_inverse_restores (cs : System C) (sigma sigma' pi pi' : list Z) :
  well_formed cs ->
  Permutation sigma (Zseq (nWorldAxes cs)) ->
  Permutation pi (Zseq (nPixelAxes cs)) ->
  inverse_order sigma sigma' ->
  inverse_order pi pi' ->
  let cs1 := after cs (transpose cs sigma pi) in
  let cs2 := after cs1 (transpose cs1 sigma' pi') in
  (referenceValue cs2 = referenceValue cs /\
   referencePixel cs2 = referencePixel cs /\
   increment cs2 = increment cs /\
   linearTransform cs2 = linearTransform cs /\
   worldAxisNames cs2 = worldAxisNames cs /\
   worldAxisUnits cs2 = worldAxisUnits cs) /\
  (nWorldAxes cs <= nPixelAxes cs ->
   transpose cs sigma pi = Done cs1 /\ transpose cs1 sigma' pi' = Done cs2) /\
  (nPixelAxes cs < nWorldAxes cs ->
   transpose cs sigma pi = Throw OutOfBounds /\
   transpose cs1 sigma' pi' = Throw OutOfBounds).
Proof.
  intros Hwf Hs Hp Hsi Hpi cs1 cs2.
  destruct (Nat.le_gt_cases (nWorldAxes cs) (nPixelAxes cs)) as [Hle|Hlt].
  - destruct (transpose_inverse_Done cs sigma sigma' pi pi' Hwf Hle Hs Hp Hsi Hpi)
      as (x & E1 & E2).
    assert (H1 : cs1 = x) by (unfold cs1; now rewrite E1).
    assert (H2 : cs2 = cs) by (unfold cs2; rewrite H1, E2; reflexivity).
    rewrite H2, H1. repeat split; auto; lia.
  - pose proof (inverse_order_Permutation _ _ _ Hs Hsi) as Hs'.
    pose proof (inverse_order_Permutation _ _ _ Hp Hpi) as Hp'.
    destruct (transpose_throws cs sigma pi Hlt) as [_ E1].
    destruct (transpose_throws cs sigma' pi' Hlt) as [_ E2].
    specialize (E1 Hs Hp). specialize (E2 Hs' Hp').
    assert (H1 : cs1 = cs) by (unfold cs1; now rewrite E1).
    assert (H2 : cs2 = cs) by (unfold cs2; rewrite H1, E2; reflexivity).
    rewrite H2, H1. repeat split; auto; lia.
Qed.

End Transpose.

Lemma field_name_inj (k k' : FieldKind) (i i' : nat) :
  field_name k i = field_name k' i' -> field_prefix k = field_prefix k' /\ i = i'.
Proof.
  unfold field_name, num. intros H.
  destruct k as [[]| | | |], k' as [[]| | | |]; cbv beta iota delta [String.append field_prefix basename] in H;
    try congruence;
    (split; [reflexivity|]; apply (inj pretty); congruence).
Qed.

Lemma field_name_ne (k k' : FieldKind) (i i' : nat) :
  i <> i' -> field_name k i <> field_name k' i'.
Proof. intros Hne H. apply field_name_inj in H. tauto. Qed.

Lemma field_kind_ne (k k' : FieldKind) (i : nat) :
  field_prefix k <> field_prefix k' -> field_name k i <> field_name k' i.
Proof. intros Hne H. apply field_name_inj in H. tauto. Qed.


Section Save.
Context {C : Type} {V : Coordinate.Virtuals C}.

Lemma In_coordinate_fields (c : C) (j : nat) (key : string) :
  In key (coordinate_fields c j) ->
  exists kind, key = field_name kind j /\
    (forall t, kind = KCoordinate t -> t = Coordinate.type c).
Proof.
  unfold coordinate_fields. simpl.
  intros [<-|[<-|[<-|[<-|[<-|[]]]]]]; eexists; (split; [reflexivity|]);
    intros t H; try discriminate. now injection H as <-.
Qed.

(** What one round of the loop of [save] does. *)
Lemma save_body_fields (cs : System C) (k : nat) (subrec : gmap string RecordField) :
  save_law -> well_formed cs -> k < nCoordinates cs ->
  saved_fields cs k subrec ->
  exists subrec', save_body cs subrec k = Done subrec' /\ saved_fields cs (S k) subrec'.
Proof.
  intros Hlaw Hwf Hk [Hkeys Hold].
  destruct Hwf as [W1 _ W3 W4 _ W6 _ _].
  apply Forall2_length in W1, W3, W4, W6. unfold nCoordinates in Hk.
  destruct (lookup_lt_is_Some_2 (coordinates_p cs) k Hk) as [c Hc].
  destruct (lookup_lt_is_Some_2 (world_maps_p cs) k) as [wm Hwm]; [lia|].
  destruct (lookup_lt_is_Some_2 (world_replacement_values_p cs) k) as [wr Hwr]; [lia|].
  destruct (lookup_lt_is_Some_2 (pixel_maps_p cs) k) as [pm Hpm]; [lia|].
  destruct (lookup_lt_is_Some_2 (pixel_replacement_values_p cs) k) as [pr Hpr]; [lia|].
  assert (Hfresh : forall kind, subrec !! field_name kind k = None).
  { intros kind. destruct (subrec !! field_name kind k) eqn:E; [|reflexivity].
    destruct (Hkeys _ (mk_is_Some _ _ E)) as (j & c' & Hj & _ & Hin).
    apply In_coordinate_fields in Hin. destruct Hin as (kind' & Heq & _).
    apply field_name_inj in Heq. lia. }
  pose proof (Hfresh (KCoordinate (Coordinate.type c))) as Hfree.
  destruct (Hlaw c subrec _ Hfree) as [r Hr].
  unfold save_body.
  rewrite (at_nat_Done _ _ _ Hc). simpl.
  change (basename (Coordinate.type c) +:+ num k)
    with (field_name (KCoordinate (Coordinate.type c)) k).
  rewrite Hr. simpl.
  rewrite (at_nat_Done _ _ _ Hwm). simpl.
  rewrite (at_nat_Done _ _ _ Hwr). simpl.
  rewrite (at_nat_Done _ _ _ Hpm). simpl.
  rewrite (at_nat_Done _ _ _ Hpr). simpl.
  eexists. split; [reflexivity|].
  change ("pixelreplace" +:+ num k) with (field_name KPixelReplace k).
  change ("pixelmap" +:+ num k) with (field_name KPixelMap k).
  change ("worldreplace" +:+ num k) with (field_name KWorldReplace k).
  change ("worldmap" +:+ num k) with (field_name KWorldMap k).
  assert (Hkind : forall kind kind', field_prefix kind <> field_prefix kind' ->
            field_name kind k <> field_name kind' k).
  { intros kind kind' Hne. now apply field_kind_ne. }
  assert (D1 : forall kind, kind <> KCoordinate (Coordinate.type c) ->
            (forall t, kind <> KCoordinate t) ->
            field_prefix kind <> field_prefix (KCoordinate (Coordinate.type c))).
  { intros kind _ Hk'. destruct kind; [exfalso; eapply Hk'; reflexivity|..];
      destruct (Coordinate.type c); discriminate. }
  assert (N1 : field_name KPixelReplace k <> field_name (KCoordinate (Coordinate.type c)) k)
    by (apply Hkind; destruct (Coordinate.type c); discriminate).
  assert (N2 : field_name KPixelMap k <> field_name (KCoordinate (Coordinate.type c)) k)
    by (apply Hkind; destruct (Coordinate.type c); discriminate).
  assert (N3 : field_name KWorldReplace k <> field_name (KCoordinate (Coordinate.type c)) k)
    by (apply Hkind; destruct (Coordinate.type c); discriminate).
  assert (N4 : field_name KWorldMap k <> field_name (KCoordinate (Coordinate.type c)) k)
    by (apply Hkind; destruct (Coordinate.type c); discriminate).
  assert (N5 : field_name KPixelReplace k <> field_name KPixelMap k)
    by (apply Hkind; discriminate).
  assert (N6 : field_name KPixelReplace k <> field_name KWorldReplace k)
    by (apply Hkind; discriminate).
  assert (N7 : field_name KPixelReplace k <> field_name KWorldMap k)
    by (apply Hkind; discriminate).
  assert (N8 : field_name KPixelMap k <> field_name KWorldReplace k)
    by (apply Hkind; discriminate).
  assert (N9 : field_name KPixelMap k <> field_name KWorldMap k)
    by (apply Hkind; discriminate).
  assert (N10 : field_name KWorldReplace k <> field_name KWorldMap k)
    by (apply Hkind; discriminate).
  split.
  - intros key Hkey.
    repeat (rewrite lookup_insert in Hkey;
            destruct (decide (_ = key)) as [<-|_];
            [exists k, c; split; [lia|]; split; [exact Hc|];
             unfold coordinate_fields; simpl; tauto|]).
    destruct (Hkeys key Hkey) as (j & c' & Hj & Hc' & Hin).
    exists j, c'. split; [lia|]. auto.
  - intros j c' Hj Hc'. destruct (decide (j = k)) as [->|Hne].
    + assert (c' = c) by congruence. subst c'.
      exists r, wm, wr, pm, pr. repeat (split; [assumption|]).
      split; [exists subrec; auto|].
      repeat split; simplify_map_eq; reflexivity.
    + destruct (Hold j c' ltac:(lia) Hc')
        as (r' & wm' & wr' & pm' & pr' & ? & ? & ? & ? & ? & L1 & L2 & L3 & L4 & L5).
      exists r', wm', wr', pm', pr'. repeat (split; [assumption|]).
      repeat split;
        repeat (rewrite lookup_insert_ne by (apply field_name_ne; congruence));
        assumption.
Qed.

Lemma save_fields (cs : System C) :
  save_law -> well_formed cs ->
  exists subrec, foldM (save_body cs) (seq 0 (nCoordinates cs)) ∅ = Done subrec /\
                 saved_fields cs (nCoordinates cs) subrec.
Proof.
  intros Hlaw Hwf.
  apply (foldM_seq_invariant (save_body cs) (saved_fields cs)).
  - split.
    + intros key Hkey. rewrite lookup_empty in Hkey. destruct Hkey; discriminate.
    + intros; lia.
  - intros k s Hk Hinv. now apply save_body_fields.
Qed.

(** Claim C10.  For every well-formed system and every container record:
    when the container already has a field named [fieldName], [save]
    returns [False] and the container is unchanged; otherwise it returns
    [True] and the container gets exactly one new field, [fieldName], a
    sub-record that holds for every coordinate [k] the record the
    coordinate's own [save] wrote (under its type name followed by [k])
    and the fields [worldmap<k>], [worldreplace<k>], [pixelmap<k>] and
    [pixelreplace<k>] with the coordinate's maps and replacement values,
    and that holds no other field. *)
Theorem save_spec (cs : System C) (container : gmap string RecordField)
    (fieldName : string) :
  save_law -> well_formed cs ->
  (is_Some (container !! fieldName) ->
   save cs container fieldName = Done (false, container)) /\
  (container !! fieldName = None ->
   exists subrec,
     save cs container fieldName
     = Done (true, <[fieldName := FieldRecord subrec]> container) /\
     (forall k c, coordinates_p cs !! k = Some c -> stored cs subrec k c) /\
     (forall key, is_Some (subrec !! key) ->
        exists k c, coordinates_p cs !! k = Some c /\
                    In key (coordinate_fields c k))).
Proof.
  intros Hlaw Hwf. unfold save. split.
  - intros H. now rewrite bool_decide_eq_true_2.
  - intros H. rewrite bool_decide_eq_false_2 by (rewrite H; apply is_Some_None).
    destruct (save_fields cs Hlaw Hwf) as (subrec & Hs & Hkeys & Hall).
    exists subrec. rewrite Hs. simpl. split; [reflexivity|]. split.
    + intros k c Hc. apply Hall; [|exact Hc].
      apply lookup_lt_Some in Hc. exact Hc.
    + intros key Hkey. destruct (Hkeys key Hkey) as (j & c & _ & Hc & Hin).
      exists j, c. auto.
Qed.

End Save.

End CoordinateSystemTheory.

(** ** More of the composite: axes, descriptors, conversions, records *)

Module CompositeLaws.
Import CoordinateSystem CoordinateSystemTheory.

Lemma find_axis_at (maps : list (list Z)) (coord axis : nat) (block : list Z) (v : Z) :
  List.NoDup (exposed maps) -> (0 <= v)%Z ->
  maps !! coord = Some block -> block !! axis = Some v ->
  find_axis maps v 0 = (Z.of_nat coord, Z.of_nat axis).
Proof.
  intros Hnd Hv Hb Ha.
  assert (Hin : In v (concat maps)).
  { apply in_concat. exists block. split.
    - apply list_elem_of_In. eapply list_elem_of_lookup_2; eauto.
    - apply list_elem_of_In. eapply list_elem_of_lookup_2; eauto. }
  destruct (find_axis_Some maps v 0 Hin) as (pre & b1 & b2 & post & -> & Hp & Hn & Hf).
  destruct (exposed_unique pre post b1 b2 v Hv Hnd) as [Hb2 Hpost].
  rewrite Hf. simpl.
  assert (In_lookup : forall (l : list Z) i x, l !! i = Some x -> In x l).
  { intros l i x H. apply list_elem_of_In. eapply list_elem_of_lookup_2; eauto. }
  destruct (lt_eq_lt_dec coord (length pre)) as [[Hlt|Heq]|Hgt].
  - rewrite lookup_app_l in Hb by assumption. exfalso. apply Hp.
    apply in_concat. exists block. split; [|eauto].
    apply list_elem_of_In. eapply list_elem_of_lookup_2; eauto.
  - subst coord. rewrite list_lookup_middle in Hb by reflexivity.
    injection Hb as <-.
    destruct (lt_eq_lt_dec axis (length b1)) as [[Hlt|Heq]|Hgt].
    + rewrite lookup_app_l in Ha by assumption. exfalso. eauto.
    + now subst.
    + rewrite lookup_app_r in Ha by lia.
      destruct (axis - length b1) as [|k] eqn:E; [lia|]. simpl in Ha.
      exfalso. eauto.
  - rewrite lookup_app_r in Hb by lia.
    destruct (coord - length pre) as [|k] eqn:E; [lia|]. simpl in Hb.
    exfalso. apply Hpost. apply in_concat. exists block. split; [|eauto].
    apply list_elem_of_In. eapply list_elem_of_lookup_2; eauto.
Qed.

Lemma find_exposed_at (maps : list (list Z)) (coord axis i : nat) (block : list Z) :
  axes_ok maps ->
  maps !! coord = Some block -> block !! axis = Some (Z.of_nat i) ->
  find_exposed maps i = Done (Z.of_nat coord, Z.of_nat axis).
Proof.
  intros Hok Hb Ha. unfold find_exposed.
  pose proof (axes_ok_bound maps coord axis block _ Hok Hb Ha ltac:(lia)) as Hlt.
  rewrite Nat2Z.id in Hlt.
  destruct (Nat.ltb_spec i (length (exposed maps))); [|lia]. simpl.
  f_equal. eapply find_axis_at; eauto; [now apply axes_ok_NoDup|lia].
Qed.

Lemma find_exposed_out (maps : list (list Z)) (i : nat) :
  length (exposed maps) <= i -> find_exposed maps i = Throw AipsError.
Proof.
  intros H. unfold find_exposed.
  destruct (Nat.ltb_spec i (length (exposed maps))); [lia|reflexivity].
Qed.

(** Adding a block of fresh axis numbers. *)
Lemma find_exposed_add (maps : list (list Z)) (k : nat) :
  axes_ok maps ->
  let maps' := maps ++ [map (fun i => Z.of_nat (length (exposed maps) + i)) (seq 0 k)] in
  length (exposed maps') = length (exposed maps) + k /\
  (forall j, j < k ->
     find_exposed maps' (length (exposed maps) + j)
     = Done (Z.of_nat (length maps), Z.of_nat j)) /\
  (forall i, i < length (exposed maps) -> find_exposed maps' i = find_exposed maps i).
Proof.
  intros Hok maps'.
  pose proof (axes_ok_add maps k Hok) as Hok'. fold maps' in Hok'.
  split; [|split].
  - unfold maps'. rewrite exposed_app, (exposed_cons _ []). simpl. rewrite app_nil_r.
    rewrite (filter_nonneg_of_nat (seq 0 k) (fun i => length (exposed maps) + i)).
    now rewrite length_app, length_map, length_seq.
  - intros j Hj. eapply find_exposed_at; eauto.
    + unfold maps'. now rewrite list_lookup_middle.
    + rewrite list_lookup_fmap, lookup_seq_lt by assumption. reflexivity.
  - intros i Hi.
    destruct (find_exposed_spec maps i Hok Hi) as (coord & axis & block & -> & Hb & Ha).
    eapply find_exposed_at; eauto.
    unfold maps'. rewrite lookup_app_l; [assumption|].
    eapply lookup_lt_Some; eauto.
Qed.

Section AddCoordinate.
Context {C : Type} {V : Coordinate.Virtuals C}.

(** Property X1. On a well-formed system [addCoordinate] appends the coordinate
    as the last one and numbers its axes after the exposed ones: the axis counts
    grow by the coordinate's, new world (pixel) axis [n + j] is axis [j] of the
    new coordinate, and every old axis is found where it was. *)
Theorem addCoordinate_axes (cs : System C) (coord : C) (junk : Uninitialised) :
  well_formed cs ->
  let cs' := addCoordinate cs coord junk in
  nCoordinates cs' = S (nCoordinates cs) /\
  coordinate cs' (nCoordinates cs) = Done coord /\
  nWorldAxes cs' = nWorldAxes cs + Coordinate.nWorldAxes coord /\
  nPixelAxes cs' = nPixelAxes cs + Coordinate.nPixelAxes coord /\
  (forall j, j < Coordinate.nWorldAxes coord ->
     findWorldAxis cs' (nWorldAxes cs + j)
     = Done (Z.of_nat (nCoordinates cs), Z.of_nat j)) /\
  (forall j, j < Coordinate.nPixelAxes coord ->
     findPixelAxis cs' (nPixelAxes cs + j)
     = Done (Z.of_nat (nCoordinates cs), Z.of_nat j)) /\
  (forall i, i < nWorldAxes cs -> findWorldAxis cs' i = findWorldAxis cs i) /\
  (forall i, i < nPixelAxes cs -> findPixelAxis cs' i = findPixelAxis cs i).
Proof.
  intros Hwf cs'.
  destruct Hwf as [Wm _ _ Pm _ _ Wok Pok].
  pose proof (Forall2_length _ _ _ Wm) as Lw.
  pose proof (Forall2_length _ _ _ Pm) as Lp.
  destruct (find_exposed_add _ (Coordinate.nWorldAxes coord) Wok) as (Nw & Fw & Ow).
  destruct (find_exposed_add _ (Coordinate.nPixelAxes coord) Pok) as (Np & Fp & Op).
  unfold nCoordinates, nWorldAxes, nPixelAxes, findWorldAxis, findPixelAxis, coordinate.
  subst cs'. simpl.
  rewrite length_app. simpl.
  repeat split.
  - lia.
  - unfold nCoordinates. simpl. rewrite length_app. simpl.
    destruct (Nat.leb_spec (length (coordinates_p cs)) (length (coordinates_p cs) + 1)); [|lia].
    simpl. unfold at_nat. now rewrite list_lookup_middle.
  - exact Nw.
  - exact Np.
  - intros j Hj. rewrite <- Lw. now apply Fw.
  - intros j Hj. rewrite <- Lp. now apply Fp.
  - exact Ow.
  - exact Op.
Qed.
End AddCoordinate.

Lemma entry_Some {A : Type} (blocks : list (list A)) (coord axis : nat) (x : A) :
  entry blocks coord axis = Some x <->
  exists block, blocks !! coord = Some block /\ block !! axis = Some x.
Proof.
  unfold entry. destruct (blocks !! coord) as [b|]; simpl.
  - split; [intros H; eauto|]. intros (b' & [= <-] & H). exact H.
  - split; [discriminate|]. intros (b' & H & _). discriminate.
Qed.

Lemma entry_map_map {A B : Type} (f : A -> B) (blocks : list (list A)) (coord axis : nat) :
  entry (map (map f) blocks) coord axis = f <$> entry blocks coord axis.
Proof.
  unfold entry. rewrite list_lookup_fmap.
  destruct (blocks !! coord) as [b|]; simpl; [|reflexivity].
  apply list_lookup_fmap.
Qed.

Lemma entry_insert {A : Type} (blocks : list (list A)) (coord axis : nat)
    (block : list A) (x : A) (c a : nat) :
  blocks !! coord = Some block -> axis < length block ->
  entry (<[coord := <[axis := x]> block]> blocks) c a
  = if decide (c = coord /\ a = axis) then Some x else entry blocks c a.
Proof.
  intros Hb Ha. unfold entry.
  destruct (decide (c = coord)) as [->|Hc].
  - rewrite list_lookup_insert_eq by (eapply lookup_lt_Some; eauto). simpl. rewrite Hb. simpl.
    destruct (decide (a = axis)) as [->|Hne].
    + rewrite decide_True by auto. now apply list_lookup_insert_eq.
    + rewrite decide_False by tauto. now apply list_lookup_insert_ne.
  - rewrite decide_False by tauto. now rewrite list_lookup_insert_ne by auto.
Qed.

Lemma set2_Done {A : Type} (blocks : list (list A)) (coord axis : nat)
    (block : list A) (x : A) :
  blocks !! coord = Some block -> axis < length block ->
  set2 blocks (Z.of_nat coord) (Z.of_nat axis) x
  = Done (<[coord := <[axis := x]> block]> blocks).
Proof.
  intros Hb Ha. unfold set2.
  rewrite (at_Z_Done _ _ _ Hb). simpl.
  rewrite set_Z_Done by assumption. simpl.
  apply set_Z_Done. eapply lookup_lt_Some; eauto.
Qed.

Lemma find_exposed_entry (maps : list (list Z)) (coord axis i : nat) :
  axes_ok maps -> entry maps coord axis = Some (Z.of_nat i) ->
  find_exposed maps i = Done (Z.of_nat coord, Z.of_nat axis).
Proof.
  intros Hok H. apply entry_Some in H. destruct H as (b & Hb & Ha).
  eapply find_exposed_at; eauto.
Qed.

Lemma find_exposed_entry_spec (maps : list (list Z)) (i : nat) :
  axes_ok maps -> i < length (exposed maps) ->
  exists coord axis,
    find_exposed maps i = Done (Z.of_nat coord, Z.of_nat axis) /\
    entry maps coord axis = Some (Z.of_nat i).
Proof.
  intros Hok Hi.
  destruct (find_exposed_spec maps i Hok Hi) as (c & a & b & Hf & Hb & Ha).
  exists c, a. split; [assumption|]. apply entry_Some. eauto.
Qed.

Lemma nonneg_dec_above (axis : nat) (x : Z) :
  nonneg (dec_above (Z.of_nat axis) x) = nonneg x.
Proof.
  unfold nonneg, dec_above. destruct (Z.gtb_spec x (Z.of_nat axis)).
  - destruct (Z.leb_spec 0 (x - 1)), (Z.leb_spec 0 x); auto; lia.
  - reflexivity.
Qed.

Lemma exposed_middle_length (P Q : list (list Z)) (b1 b2 : list Z) (x y : Z) :
  (0 <= x)%Z -> (y < 0)%Z ->
  S (length (exposed (P ++ (b1 ++ y :: b2) :: Q)))
  = length (exposed (P ++ (b1 ++ x :: b2) :: Q)).
Proof.
  intros Hx Hy.
  rewrite !exposed_app, !exposed_cons, !length_app, !List.filter_app. simpl.
  assert (Ey : nonneg y = false) by (unfold nonneg; apply Z.leb_gt; lia).
  assert (Ex : nonneg x = true) by (unfold nonneg; apply Z.leb_le; lia).
  rewrite Ey, Ex. rewrite !length_app. simpl. lia.
Qed.

Lemma exposed_insert_length (maps : list (list Z)) (coord axis : nat)
    (block : list Z) (x y : Z) :
  maps !! coord = Some block -> block !! axis = Some x ->
  (0 <= x)%Z -> (y < 0)%Z ->
  S (length (exposed (<[coord := <[axis := y]> block]> maps))) = length (exposed maps).
Proof.
  intros Hb Ha Hx Hy.
  pose proof (lookup_lt_Some _ _ _ Hb) as Lc.
  pose proof (lookup_lt_Some _ _ _ Ha) as La.
  rewrite !insert_take_drop by assumption.
  rewrite (exposed_middle_length _ _ _ _ x y Hx Hy).
  now rewrite (take_drop_middle block axis x Ha), (take_drop_middle maps coord block Hb).
Qed.

Lemma remove_axis_maps (maps : list (list Z)) (axis : nat) :
  axes_ok maps -> axis < length (exposed maps) ->
  exists coord caxis block,
    find_exposed maps axis = Done (Z.of_nat coord, Z.of_nat caxis) /\
    maps !! coord = Some block /\ block !! caxis = Some (Z.of_nat axis) /\
    let maps1 := <[coord := <[caxis := (-1)%Z]> block]> maps in
    let maps' := shift_down (Z.of_nat axis) maps1 in
    set2 maps (Z.of_nat coord) (Z.of_nat caxis) (-1)%Z = Done maps1 /\
    axes_ok maps' /\
    S (length (exposed maps')) = length (exposed maps) /\
    entry maps' coord caxis = Some (-1)%Z /\
    (forall i, i < axis -> find_exposed maps' i = find_exposed maps i) /\
    (forall i, axis <= i -> S i < length (exposed maps) ->
       find_exposed maps' i = find_exposed maps (S i)).
Proof.
  intros Hok Hax.
  destruct (find_exposed_spec maps axis Hok Hax) as (coord & caxis & block & Hf & Hb & Ha).
  exists coord, caxis, block. repeat (split; [assumption|]).
  intros maps1 maps'.
  pose proof (lookup_lt_Some _ _ _ Ha) as La.
  assert (Hset : set2 maps (Z.of_nat coord) (Z.of_nat caxis) (-1)%Z = Done maps1)
    by now apply set2_Done.
  assert (Hok' : axes_ok maps').
  { apply (remove_maps maps maps1 axis Hok Hax).
    unfold find_exposed in Hf.
    destruct (Nat.ltb_spec axis (length (exposed maps))); [|lia]. simpl in Hf.
    injection Hf as ->. exact Hset. }
  assert (Hentry : forall c a, entry maps' c a
            = dec_above (Z.of_nat axis) <$>
              (if decide (c = coord /\ a = caxis) then Some (-1)%Z else entry maps c a)).
  { intros c a. unfold maps', shift_down. rewrite entry_map_map. f_equal.
    now apply entry_insert. }
  split; [assumption|]. split; [assumption|]. split; [|split; [|split]].
  - unfold maps', shift_down.
    rewrite exposed_map_map by (intros; apply nonneg_dec_above).
    rewrite length_map. eapply exposed_insert_length; eauto; lia.
  - rewrite Hentry, decide_True by auto. simpl. unfold dec_above.
    destruct (Z.gtb_spec (-1) (Z.of_nat axis)); [lia|reflexivity].
  - intros i Hi.
    destruct (find_exposed_entry_spec maps i Hok ltac:(lia)) as (c & a & -> & He).
    apply find_exposed_entry; [assumption|].
    rewrite Hentry. rewrite decide_False.
    + rewrite He. simpl. unfold dec_above.
      destruct (Z.gtb_spec (Z.of_nat i) (Z.of_nat axis)); [lia|reflexivity].
    + intros [-> ->]. apply entry_Some in He. destruct He as (b & Hb' & Ha').
      rewrite Hb in Hb'. injection Hb' as <-. rewrite Ha in Ha'. injection Ha'. lia.
  - intros i Hi Hn.
    destruct (find_exposed_entry_spec maps (S i) Hok Hn) as (c & a & -> & He).
    apply find_exposed_entry; [assumption|].
    rewrite Hentry. rewrite decide_False.
    + rewrite He. simpl. unfold dec_above.
      destruct (Z.gtb_spec (Z.of_nat (S i)) (Z.of_nat axis)); [f_equal; lia|lia].
    + intros [-> ->]. apply entry_Some in He. destruct He as (b & Hb' & Ha').
      rewrite Hb in Hb'. injection Hb' as <-. rewrite Ha in Ha'. injection Ha'. lia.
Qed.

Lemma mapM_Outcome_Done {A B : Type} (f : A -> Outcome B) (l : list A) (v : list B) :
  mapM_Outcome f l = Done v ->
  length v = length l /\
  forall i a, l !! i = Some a -> exists x, f a = Done x /\ v !! i = Some x.
Proof.
  revert v. induction l as [|a l IH]; intros v H.
  - injection H as <-. split; [reflexivity|]. intros i a H; discriminate.
  - simpl in H. inv_bind H as b Eb. inv_bind H as bs Ebs. injection H as <-.
    destruct (IH bs Ebs) as [Hlen Hall]. split; [simpl; lia|].
    intros [|i] a' Hi; simpl in *.
    + injection Hi as <-. eauto.
    + now apply Hall.
Qed.

Section Removal.
Context {C : Type} {V : Coordinate.Virtuals C}.

(** A derived vector read through maps whose axes are those of other maps
    with axis [axis] left out. *)
Lemma derived_delete {A : Type} (get : C -> list A) (maps maps' : list (list Z))
    (coords : list C) (axis : nat) (vec : list A) :
  S (length (exposed maps')) = length (exposed maps) ->
  axis < length (exposed maps) ->
  (forall i, i < axis -> find_exposed maps' i = find_exposed maps i) ->
  (forall i, axis <= i -> S i < length (exposed maps) ->
     find_exposed maps' i = find_exposed maps (S i)) ->
  derived maps coords get = Done vec ->
  derived maps' coords get = Done (delete axis vec).
Proof.
  intros Hn Hax Hlo Hhi H. unfold derived in *.
  apply mapM_Outcome_Done in H. destruct H as [Hlen Hall].
  rewrite length_seq in Hlen.
  assert (Hl : length (delete axis vec) = length (exposed maps')).
  { rewrite length_delete by (apply lookup_lt_is_Some; lia). lia. }
  rewrite <- Hl. apply mapM_Outcome_seq. intros i x Hi. simpl.
  pose proof (lookup_lt_Some _ _ _ Hi) as Li. rewrite Hl in Li.
  destruct (Nat.lt_ge_cases i axis) as [Hlt|Hge].
  - rewrite list_lookup_delete_lt in Hi by assumption.
    rewrite Hlo by assumption.
    destruct (Hall i i) as (y & Hy & Hv); [apply lookup_seq_lt; lia|].
    rewrite Hv in Hi. injection Hi as <-. exact Hy.
  - rewrite list_lookup_delete_ge in Hi by assumption.
    rewrite Hhi by lia.
    destruct (Hall (S i) (S i)) as (y & Hy & Hv); [apply lookup_seq_lt; lia|].
    rewrite Hv in Hi. injection Hi as <-. exact Hy.
Qed.

Lemma sized_block {A B : Type} (f : C -> nat) (b1 : list (list A)) (b2 : list (list B))
    (coords : list C) (i : nat) (block : list A) :
  sized f b1 coords -> sized f b2 coords -> b1 !! i = Some block ->
  exists block', b2 !! i = Some block' /\ length block' = length block.
Proof.
  intros H1 H2 Hb.
  destruct (Forall2_lookup_l _ _ _ _ _ H1 Hb) as (c & Hc & L1).
  destruct (Forall2_lookup_r _ _ _ _ _ H2 Hc) as (b' & Hb' & L2).
  exists b'. split; [assumption|]. simpl in *. congruence.
Qed.

(** Property X3. On a well-formed system with [n] world axes, [removeWorldAxis
    cs axis v] with [axis < n] leaves [n - 1] world axes: the axis's map entry
    becomes -1 and its replacement value [v], the axes below keep their number,
    those above move down by one, and the pixel axes and the coordinates stay;
    with [n <= axis] it throws [AipsError]. *)
Theorem removeWorldAxis_spec (cs : System C) (axis : nat) (v : Double) :
  well_formed cs ->
  (axis < nWorldAxes cs ->
   exists cs' coord caxis,
     findWorldAxis cs axis = Done (Z.of_nat coord, Z.of_nat caxis) /\
     removeWorldAxis cs axis v = Done cs' /\
     S (nWorldAxes cs') = nWorldAxes cs /\
     nPixelAxes cs' = nPixelAxes cs /\
     coordinates_p cs' = coordinates_p cs /\
     entry (world_maps_p cs') coord caxis = Some (-1)%Z /\
     entry (world_replacement_values_p cs') coord caxis = Some v /\
     (forall i, i < axis -> findWorldAxis cs' i = findWorldAxis cs i) /\
     (forall i, axis <= i -> S i < nWorldAxes cs ->
        findWorldAxis cs' i = findWorldAxis cs (S i)) /\
     (forall i, findPixelAxis cs' i = findPixelAxis cs i)) /\
  (nWorldAxes cs <= axis -> removeWorldAxis cs axis v = Throw AipsError).
Proof.
  intros Hwf. split.
  - intros Hax. destruct Hwf as [Wm _ Wr _ _ _ Wok _].
    unfold nWorldAxes in Hax.
    destruct (remove_axis_maps _ axis Wok Hax)
      as (coord & caxis & block & Hf & Hb & Ha & Hset & Hok' & Hn & He & Hlo & Hhi).
    destruct (sized_block _ _ (world_replacement_values_p cs) _ _ _ Wm Wr Hb)
      as (rb & Hrb & Lrb).
    pose proof (lookup_lt_Some _ _ _ Ha) as La.
    eexists _, coord, caxis. split; [exact Hf|].
    unfold removeWorldAxis, findWorldAxis, nWorldAxes.
    destruct (Nat.leb_spec axis (length (exposed (world_maps_p cs)))); [|lia].
    simpl. rewrite Hf. simpl.
    rewrite (set2_Done _ _ _ rb v Hrb) by lia. simpl.
    rewrite Hset. simpl. split; [reflexivity|]. simpl.
    repeat split; auto.
    rewrite entry_insert by (auto; lia). now rewrite decide_True.
  - intros Hax. unfold removeWorldAxis, findWorldAxis.
    destruct (Nat.leb_spec axis (nWorldAxes cs)); [|reflexivity]. simpl.
    now rewrite find_exposed_out.
Qed.

(** Property X4. On a well-formed system with [n] pixel axes, [removePixelAxis
    cs axis v] with [axis < n] leaves [n - 1] pixel axes: the axis's map entry
    becomes -1 and its replacement value [v], the axes below keep their number,
    those above move down by one, and the world axes and the coordinates stay;
    with [n <= axis] it throws [AipsError]. *)
Theorem removePixelAxis_spec (cs : System C) (axis : nat) (v : Double) :
  well_formed cs ->
  (axis < nPixelAxes cs ->
   exists cs' coord caxis,
     findPixelAxis cs axis = Done (Z.of_nat coord, Z.of_nat caxis) /\
     removePixelAxis cs axis v = Done cs' /\
     S (nPixelAxes cs') = nPixelAxes cs /\
     nWorldAxes cs' = nWorldAxes cs /\
     coordinates_p cs' = coordinates_p cs /\
     entry (pixel_maps_p cs') coord caxis = Some (-1)%Z /\
     entry (pixel_replacement_values_p cs') coord caxis = Some v /\
     (forall i, i < axis -> findPixelAxis cs' i = findPixelAxis cs i) /\
     (forall i, axis <= i -> S i < nPixelAxes cs ->
        findPixelAxis cs' i = findPixelAxis cs (S i)) /\
     (forall i, findWorldAxis cs' i = findWorldAxis cs i)) /\
  (nPixelAxes cs <= axis -> removePixelAxis cs axis v = Throw AipsError).
Proof.
  intros Hwf. split.
  - intros Hax. destruct Hwf as [_ _ _ Pm _ Pr _ Pok].
    unfold nPixelAxes in Hax.
    destruct (remove_axis_maps _ axis Pok Hax)
      as (coord & caxis & block & Hf & Hb & Ha & Hset & Hok' & Hn & He & Hlo & Hhi).
    destruct (sized_block _ _ (pixel_replacement_values_p cs) _ _ _ Pm Pr Hb)
      as (rb & Hrb & Lrb).
    pose proof (lookup_lt_Some _ _ _ Ha) as La.
    eexists _, coord, caxis. split; [exact Hf|].
    unfold removePixelAxis, findPixelAxis, nPixelAxes.
    destruct (Nat.leb_spec axis (length (exposed (pixel_maps_p cs)))); [|lia].
    simpl. rewrite Hf. simpl.
    rewrite (set2_Done _ _ _ rb v Hrb) by lia. simpl.
    rewrite Hset. simpl. split; [reflexivity|]. simpl.
    repeat split; auto.
    rewrite entry_insert by (auto; lia). now rewrite decide_True.
  - intros Hax. unfold removePixelAxis, findPixelAxis.
    destruct (Nat.leb_spec axis (nPixelAxes cs)); [|reflexivity]. simpl.
    now rewrite find_exposed_out.
Qed.

(** What a removal leaves of the maps, for proofs about the descriptors. *)
Lemma removeWorldAxis_maps (cs cs' : System C) (axis : nat) (v : Double) :
  well_formed cs -> removeWorldAxis cs axis v = Done cs' ->
  axis < nWorldAxes cs /\
  coordinates_p cs' = coordinates_p cs /\ pixel_maps_p cs' = pixel_maps_p cs /\
  S (nWorldAxes cs') = nWorldAxes cs /\
  (forall i, i < axis -> findWorldAxis cs' i = findWorldAxis cs i) /\
  (forall i, axis <= i -> S i < nWorldAxes cs ->
     findWorldAxis cs' i = findWorldAxis cs (S i)).
Proof.
  intros Hwf H.
  destruct (Nat.lt_ge_cases axis (nWorldAxes cs)) as [Hax|Hax].
  - destruct Hwf as [Wm _ Wr _ _ _ Wok _]. unfold nWorldAxes in Hax.
    destruct (remove_axis_maps _ axis Wok Hax)
      as (coord & caxis & block & Hf & Hb & Ha & Hset & Hok' & Hn & He & Hlo & Hhi).
    destruct (sized_block _ _ (world_replacement_values_p cs) _ _ _ Wm Wr Hb)
      as (rb & Hrb & Lrb).
    pose proof (lookup_lt_Some _ _ _ Ha) as La.
    unfold removeWorldAxis, findWorldAxis, nWorldAxes in H.
    destruct (Nat.leb_spec axis (length (exposed (world_maps_p cs)))); [|lia].
    simpl in H. rewrite Hf in H. simpl in H.
    rewrite (set2_Done _ _ _ rb v Hrb) in H by lia. simpl in H.
    rewrite Hset in H. simpl in H. injection H as <-.
    unfold nWorldAxes, findWorldAxis. simpl. repeat split; auto.
  - exfalso. unfold removeWorldAxis, findWorldAxis in H.
    destruct (Nat.leb_spec axis (nWorldAxes cs)); [|discriminate]. simpl in H.
    now rewrite find_exposed_out in H.
Qed.

Lemma removePixelAxis_maps (cs cs' : System C) (axis : nat) (v : Double) :
  well_formed cs -> removePixelAxis cs axis v = Done cs' ->
  axis < nPixelAxes cs /\
  coordinates_p cs' = coordinates_p cs /\ world_maps_p cs' = world_maps_p cs /\
  S (nPixelAxes cs') = nPixelAxes cs /\
  (forall i, i < axis -> findPixelAxis cs' i = findPixelAxis cs i) /\
  (forall i, axis <= i -> S i < nPixelAxes cs ->
     findPixelAxis cs' i = findPixelAxis cs (S i)).
Proof.
  intros Hwf H.
  destruct (Nat.lt_ge_cases axis (nPixelAxes cs)) as [Hax|Hax].
  - destruct Hwf as [_ _ _ Pm _ Pr _ Pok]. unfold nPixelAxes in Hax.
    destruct (remove_axis_maps _ axis Pok Hax)
      as (coord & caxis & block & Hf & Hb & Ha & Hset & Hok' & Hn & He & Hlo & Hhi).
    destruct (sized_block _ _ (pixel_replacement_values_p cs) _ _ _ Pm Pr Hb)
      as (rb & Hrb & Lrb).
    pose proof (lookup_lt_Some _ _ _ Ha) as La.
    unfold removePixelAxis, findPixelAxis, nPixelAxes in H.
    destruct (Nat.leb_spec axis (length (exposed (pixel_maps_p cs)))); [|lia].
    simpl in H. rewrite Hf in H. simpl in H.
    rewrite (set2_Done _ _ _ rb v Hrb) in H by lia. simpl in H.
    rewrite Hset in H. simpl in H. injection H as <-.
    unfold nPixelAxes, findPixelAxis. simpl. repeat split; auto.
  - exfalso. unfold removePixelAxis, findPixelAxis in H.
    destruct (Nat.leb_spec axis (nPixelAxes cs)); [|discriminate]. simpl in H.
    now rewrite find_exposed_out in H.
Qed.

(** Property X5. After [removeWorldAxis cs axis v] the names, units, reference
    values and increments are the old vectors with entry [axis] deleted and the
    reference pixels are the old ones; after [removePixelAxis cs axis v] the
    reference pixels lose entry [axis] and the four world vectors are the old
    ones. *)
Theorem removed_axis_leaves_descriptors (cs cs' : System C) (axis : nat) (v : Double) :
  well_formed cs ->
  (removeWorldAxis cs axis v = Done cs' ->
   (forall names, worldAxisNames cs = Done names ->
      worldAxisNames cs' = Done (delete axis names)) /\
   (forall units, worldAxisUnits cs = Done units ->
      worldAxisUnits cs' = Done (delete axis units)) /\
   (forall refval, referenceValue cs = Done refval ->
      referenceValue cs' = Done (delete axis refval)) /\
   (forall inc, increment cs = Done inc -> increment cs' = Done (delete axis inc)) /\
   referencePixel cs' = referencePixel cs) /\
  (removePixelAxis cs axis v = Done cs' ->
   (forall refpix, referencePixel cs = Done refpix ->
      referencePixel cs' = Done (delete axis refpix)) /\
   worldAxisNames cs' = worldAxisNames cs /\
   worldAxisUnits cs' = worldAxisUnits cs /\
   referenceValue cs' = referenceValue cs /\
   increment cs' = increment cs).
Proof.
  intros Hwf. split; intros H.
  - destruct (removeWorldAxis_maps _ _ _ _ Hwf H) as (Hax & Ec & Ep & Hn & Hlo & Hhi).
    assert (Hd : forall (A : Type) (get : C -> list A) vec,
               world_derived get cs = Done vec ->
               world_derived get cs' = Done (delete axis vec)).
    { intros A get vec Hv. unfold world_derived in *. rewrite Ec.
      eapply derived_delete; eauto. }
    repeat split; try (intros; now apply Hd).
    unfold referencePixel, pixel_derived. now rewrite Ec, Ep.
  - destruct (removePixelAxis_maps _ _ _ _ Hwf H) as (Hax & Ec & Ew & Hn & Hlo & Hhi).
    repeat split;
      try (unfold worldAxisNames, worldAxisUnits, referenceValue, increment, world_derived;
           now rewrite Ec, Ew).
    intros vec Hv. unfold referencePixel, pixel_derived in *. rewrite Ec.
    eapply derived_delete; eauto.
Qed.

End Removal.

(** The axes of transposed maps: new axis [i] is old axis [order(i)]. *)
Lemma transpose_maps_find (maps : list (list Z)) (order : list Z) :
  axes_ok maps ->
  Permutation order (Zseq (length (exposed maps))) ->
  let maps' := map (map (relabel order (length order))) maps in
  axes_ok maps' /\
  length (exposed maps') = length (exposed maps) /\
  forall i o, order !! i = Some o ->
    (0 <= o)%Z /\ Z.to_nat o < length (exposed maps) /\
    find_exposed maps' i = find_exposed maps (Z.to_nat o).
Proof.
  intros Hok HP maps'.
  destruct (transpose_maps maps order Hok HP) as (_ & Hexp & Hok'). fold maps' in Hexp, Hok'.
  split; [assumption|]. split; [now rewrite Hexp, length_map|].
  intros i o Hi.
  assert (Hin : In o order).
  { apply list_elem_of_In. eapply list_elem_of_lookup_2; eauto. }
  assert (Ho : (0 <= o < Z.of_nat (length (exposed maps)))%Z).
  { apply In_Zseq. eapply Permutation_in; eauto. }
  split; [lia|]. split; [lia|].
  destruct (find_exposed_entry_spec maps (Z.to_nat o) Hok ltac:(lia)) as (c & a & -> & He).
  apply find_exposed_entry; [assumption|].
  unfold maps'. rewrite entry_map_map, He. simpl. f_equal.
  rewrite Z2Nat.id by lia.
  assert (Hnd : List.NoDup order).
  { eapply Permutation_NoDup; [symmetry; exact HP|apply NoDup_Zseq]. }
  unfold relabel. rewrite (index_of_unique order i o Hnd Hi).
  pose proof (lookup_lt_Some _ _ _ Hi).
  destruct (Nat.ltb_spec i (length order)); [reflexivity|lia].
Qed.

Section Transposition.
Context {C : Type} {V : Coordinate.Virtuals C}.

Lemma derived_permute {A : Type} (get : C -> list A) (maps maps' : list (list Z))
    (coords : list C) (order : list Z) (vec : list A) :
  length (exposed maps') = length order ->
  (forall i o, order !! i = Some o ->
     Z.to_nat o < length (exposed maps) /\
     find_exposed maps' i = find_exposed maps (Z.to_nat o)) ->
  derived maps coords get = Done vec ->
  exists vec', derived maps' coords get = Done vec' /\
    length vec' = length order /\
    forall i o, order !! i = Some o -> vec' !! i = vec !! Z.to_nat o.
Proof.
  intros Hn Hfind H. unfold derived in *.
  apply mapM_Outcome_Done in H. destruct H as [Hlen Hall]. rewrite length_seq in Hlen.
  assert (Hstep : forall i o, order !! i = Some o ->
            exists x, vec !! Z.to_nat o = Some x /\
              ('(coord, coordAxis) ← find_exposed maps' i;
               c ← at_Z coords coord; at_Z (get c) coordAxis) = Done x).
  { intros i o Hi. destruct (Hfind i o Hi) as [Ho ->].
    destruct (Hall (Z.to_nat o) (Z.to_nat o)) as (x & Hx & Hv);
      [now apply lookup_seq_lt|]. eauto. }
  rewrite Hn.
  destruct (mapM_Outcome_total
              (fun i => '(coord, coordAxis) ← find_exposed maps' i;
                        c ← at_Z coords coord; at_Z (get c) coordAxis)
              (length order)) as (vec' & Hv' & Hl').
  { intros i Hi. destruct (lookup_lt_is_Some_2 order i Hi) as [o Ho].
    destruct (Hstep i o Ho) as (x & _ & Hx). eauto. }
  exists vec'. split; [assumption|]. split; [assumption|].
  intros i o Hi. pose proof (lookup_lt_Some _ _ _ Hi) as Li.
  apply mapM_Outcome_Done in Hv'. destruct Hv' as [_ Hall'].
  destruct (Hall' i i) as (x' & Hx' & Hvi); [now apply lookup_seq_lt|].
  destruct (Hstep i o Hi) as (x & Hvx & Hx).
  rewrite Hx in Hx'. injection Hx' as <-. congruence.
Qed.

(** An order that is not a permutation of the axes is refused. *)
Lemma transpose_rejects (cs : System C) (wo po : list Z) :
  ~ (Permutation wo (Zseq (nWorldAxes cs)) /\ Permutation po (Zseq (nPixelAxes cs))) ->
  transpose cs wo po = Throw AipsError.
Proof.
  intros Hn. unfold transpose.
  destruct (Nat.eqb_spec (length wo) (nWorldAxes cs)) as [Lw|]; [|reflexivity]. simpl.
  destruct (Nat.eqb_spec (length po) (nPixelAxes cs)) as [Lp|]; [|reflexivity]. simpl.
  destruct (transpose_checks wo po) as [Cw Cp]. rewrite Cw.
  destruct (verify_order wo _ _) eqn:E1; [|reflexivity]. simpl. rewrite Cp.
  destruct (verify_order po _ _) eqn:E2; [|reflexivity].
  exfalso. apply Hn. split.
  - rewrite <- Lw. now apply verify_order_iff.
  - rewrite <- Lp. now apply verify_order_iff.
Qed.

(** Property X6. On a well-formed system with at least as many pixel axes as
    world axes [transpose] succeeds when both orders are permutations of the
    axis numbers: the coordinates and the axis counts stay and new axis [i] is
    old axis [order(i)]. On a system with fewer pixel axes than world axes it
    throws whatever the orders, since the block of flags keeps its [nw] entries
    and the second check reads outside the pixel order: [OutOfBounds] when both
    orders are permutations. When one of the orders is not a permutation it
    throws [AipsError]. *)
Theorem transpose_spec (cs : System C) (wo po : list Z) :
  well_formed cs ->
  (nWorldAxes cs <= nPixelAxes cs ->
   Permutation wo (Zseq (nWorldAxes cs)) -> Permutation po (Zseq (nPixelAxes cs)) ->
   exists cs',
     transpose cs wo po = Done cs' /\
     coordinates_p cs' = coordinates_p cs /\
     nWorldAxes cs' = nWorldAxes cs /\ nPixelAxes cs' = nPixelAxes cs /\
     (forall i o, wo !! i = Some o ->
        findWorldAxis cs' i = findWorldAxis cs (Z.to_nat o)) /\
     (forall i o, po !! i = Some o ->
        findPixelAxis cs' i = findPixelAxis cs (Z.to_nat o))) /\
  (nPixelAxes cs < nWorldAxes cs ->
   (exists e, transpose cs wo po = Throw e) /\
   (Permutation wo (Zseq (nWorldAxes cs)) -> Permutation po (Zseq (nPixelAxes cs)) ->
    transpose cs wo po = Throw OutOfBounds)) /\
  (~ (Permutation wo (Zseq (nWorldAxes cs)) /\ Permutation po (Zseq (nPixelAxes cs))) ->
   transpose cs wo po = Throw AipsError).
Proof.
  intros Hwf. pose proof (wf_world_axes cs Hwf) as Wok.
  pose proof (wf_pixel_axes cs Hwf) as Pok. split; [|split].
  - intros Hle Hw Hp. eexists. split; [apply transpose_total; assumption|].
    destruct (transpose_maps_find _ _ Wok Hw) as (_ & Nw & Fw).
    destruct (transpose_maps_find _ _ Pok Hp) as (_ & Np & Fp).
    unfold nWorldAxes, nPixelAxes, findWorldAxis, findPixelAxis. simpl.
    repeat split; auto.
    + intros i o Hi. now apply Fw.
    + intros i o Hi. now apply Fp.
  - apply transpose_throws.
  - apply transpose_rejects.
Qed.

(** Property X7. After a [transpose] that succeeds, entry [i] of the names,
    units, reference values and increments is entry [newWorldOrder(i)] of the
    old vector, and entry [i] of the reference pixels is entry
    [newPixelOrder(i)] of the old one. *)
Theorem transpose_permutes_descriptors (cs cs' : System C) (wo po : list Z) :
  well_formed cs -> transpose cs wo po = Done cs' ->
  (forall names, worldAxisNames cs = Done names ->
     exists names', worldAxisNames cs' = Done names' /\ permuted wo names names') /\
  (forall units, worldAxisUnits cs = Done units ->
     exists units', worldAxisUnits cs' = Done units' /\ permuted wo units units') /\
  (forall refval, referenceValue cs = Done refval ->
     exists refval', referenceValue cs' = Done refval' /\ permuted wo refval refval') /\
  (forall inc, increment cs = Done inc ->
     exists inc', increment cs' = Done inc' /\ permuted wo inc inc') /\
  (forall refpix, referencePixel cs = Done refpix ->
     exists refpix', referencePixel cs' = Done refpix' /\ permuted po refpix refpix').
Proof.
  intros Hwf H. pose proof (wf_world_axes cs Hwf) as Wok.
  pose proof (wf_pixel_axes cs Hwf) as Pok.
  destruct (transpose_Done cs cs' wo po Wok Pok H) as (Hw & Hp & ->).
  destruct (transpose_maps_find _ _ Wok Hw) as (_ & Nw & Fw).
  destruct (transpose_maps_find _ _ Pok Hp) as (_ & Np & Fp).
  pose proof (Permutation_Zseq_length _ _ Hw) as Lw.
  pose proof (Permutation_Zseq_length _ _ Hp) as Lp.
  unfold nWorldAxes in Lw. unfold nPixelAxes in Lp.
  assert (Hd : forall (A : Type) (get : C -> list A) vec,
             world_derived get cs = Done vec ->
             exists vec', world_derived get
               (mkSystem (coordinates_p cs)
                  (map (map (relabel wo (length wo))) (world_maps_p cs))
                  (world_tmps_p cs) (world_replacement_values_p cs)
                  (map (map (relabel po (length po))) (pixel_maps_p cs))
                  (pixel_tmps_p cs) (pixel_replacement_values_p cs)) = Done vec' /\
               permuted wo vec vec').
  { intros A get vec Hv. unfold world_derived in *. simpl.
    eapply derived_permute; eauto; [lia|]. intros i o Hi.
    destruct (Fw i o Hi) as (_ & ? & ?). auto. }
  repeat split; try (intros; now apply Hd).
  intros vec Hv. unfold referencePixel, pixel_derived in *. simpl.
  eapply derived_permute; eauto; [lia|]. intros i o Hi.
  destruct (Fp i o Hi) as (_ & ? & ?). auto.
Qed.

End Transposition.

Lemma findCoordinate_from_spec (types : list Coordinate.Type_) (type : Coordinate.Type_)
    (i0 : Z) :
  (0 <= i0)%Z ->
  (findCoordinate_from types type i0 = (-1)%Z /\ ~ In type types) \/
  (exists k, findCoordinate_from types type i0 = (i0 + Z.of_nat k)%Z /\
             types !! k = Some type /\
             forall j, j < k -> types !! j <> Some type).
Proof.
  revert i0. induction types as [|t types IH]; intros i0 Hi0; simpl.
  - left. auto.
  - destruct (bool_decide_reflect (t = type)) as [->|Hne].
    + right. exists 0. repeat split; [lia|]. intros j Hj; lia.
    + destruct (IH (i0 + 1)%Z ltac:(lia)) as [[-> Hn]|(k & -> & Hk & Hlt)].
      * left. split; [reflexivity|]. intros [H|H]; auto.
      * right. exists (S k). repeat split; [lia|assumption|].
        intros [|j] Hj; simpl; [congruence|]. apply Hlt. lia.
Qed.

Section More.
Context {C : Type} {V : Coordinate.Virtuals C}.


Lemma coordinates_add_from (junk : nat -> Uninitialised) (l : list C) :
  forall i cs, coordinates_p (add_from junk i l cs) = coordinates_p cs ++ l.
Proof.
  induction l as [|c l IH]; intros i cs; simpl.
  - now rewrite app_nil_r.
  - rewrite IH. simpl. now rewrite <- app_assoc.
Qed.

Lemma exposed_add_from (junk : nat -> Uninitialised) (l : list C) :
  forall i cs,
    nWorldAxes (add_from junk i l cs)
    = nWorldAxes cs + list_sum (map Coordinate.nWorldAxes l) /\
    nPixelAxes (add_from junk i l cs)
    = nPixelAxes cs + list_sum (map Coordinate.nPixelAxes l).
Proof.
  induction l as [|c l IH]; intros i cs; simpl.
  - lia.
  - destruct (IH (S i) (addCoordinate cs c (junk i))) as [-> ->].
    unfold nWorldAxes, nPixelAxes. simpl.
    rewrite !exposed_app, !(exposed_cons _ []). simpl. rewrite !app_nil_r.
    rewrite (filter_nonneg_of_nat _ (fun i => length (exposed (world_maps_p cs)) + i)).
    rewrite (filter_nonneg_of_nat _ (fun i => length (exposed (pixel_maps_p cs)) + i)).
    rewrite !length_app, !length_map, !length_seq. lia.
Qed.

(** The vectors [addCoordinate] allocates hold what the storage held. *)
Lemma vectors_add_from (junk : nat -> Uninitialised) (l : list C) :
  forall i cs,
    world_tmps_p (add_from junk i l cs)
    = world_tmps_p cs
      ++ imap (fun j c => fresh_vector (world_tmp_junk (junk (i + j)))
                                       (Coordinate.nWorldAxes c)) l /\
    world_replacement_values_p (add_from junk i l cs)
    = world_replacement_values_p cs
      ++ imap (fun j c => fresh_vector (world_replacement_junk (junk (i + j)))
                                       (Coordinate.nWorldAxes c)) l /\
    pixel_tmps_p (add_from junk i l cs)
    = pixel_tmps_p cs
      ++ imap (fun j c => fresh_vector (pixel_tmp_junk (junk (i + j)))
                                       (Coordinate.nPixelAxes c)) l /\
    pixel_replacement_values_p (add_from junk i l cs)
    = pixel_replacement_values_p cs
      ++ imap (fun j c => fresh_vector (pixel_replacement_junk (junk (i + j)))
                                       (Coordinate.nPixelAxes c)) l.
Proof.
  induction l as [|c l IH]; intros i cs; simpl.
  - now rewrite !app_nil_r.
  - destruct (IH (S i) (addCoordinate cs c (junk i))) as (-> & -> & -> & ->).
    simpl. rewrite <- !app_assoc. simpl. rewrite Nat.add_0_r.
    repeat split; do 2 f_equal; apply imap_ext; intros j x _; simpl;
      now replace (i + S j) with (S (i + j)) by lia.
Qed.

(** The coordinates and the maps of the systems [addCoordinate] builds do
    not depend on what the storage held. *)
Lemma maps_add_from (junk junk' : nat -> Uninitialised) (l : list C) :
  forall i i' cs cs',
    coordinates_p cs = coordinates_p cs' ->
    world_maps_p cs = world_maps_p cs' -> pixel_maps_p cs = pixel_maps_p cs' ->
    coordinates_p (add_from junk i l cs) = coordinates_p (add_from junk' i' l cs') /\
    world_maps_p (add_from junk i l cs) = world_maps_p (add_from junk' i' l cs') /\
    pixel_maps_p (add_from junk i l cs) = pixel_maps_p (add_from junk' i' l cs').
Proof.
  induction l as [|c l IH]; intros i i' cs cs' Hc Hw Hp; simpl; [auto|].
  apply IH; simpl; unfold nWorldAxes, nPixelAxes; now rewrite ?Hc, ?Hw, ?Hp.
Qed.

(** Property X9. [restoreOriginal] keeps the coordinates and exposes every axis:
    the axis counts are the sums over the coordinates and the maps do not depend
    on what the fresh storage holds. The temporaries and the replacement values
    are allocated anew: they hold what the storage of this call held, not what
    they were. Restoring again gives what restoring once on the storage of the
    second call gives. *)
Theorem restoreOriginal_rebuilds (cs : System C) (junk junk' : nat -> Uninitialised) :
  let cs' := restoreOriginal cs junk in
  coordinates_p cs' = coordinates_p cs /\
  nWorldAxes cs' = list_sum (map Coordinate.nWorldAxes (coordinates_p cs)) /\
  nPixelAxes cs' = list_sum (map Coordinate.nPixelAxes (coordinates_p cs)) /\
  world_replacement_values_p cs'
  = imap (fun i c => fresh_vector (world_replacement_junk (junk i))
                                  (Coordinate.nWorldAxes c)) (coordinates_p cs) /\
  pixel_replacement_values_p cs'
  = imap (fun i c => fresh_vector (pixel_replacement_junk (junk i))
                                  (Coordinate.nPixelAxes c)) (coordinates_p cs) /\
  world_tmps_p cs'
  = imap (fun i c => fresh_vector (world_tmp_junk (junk i))
                                  (Coordinate.nWorldAxes c)) (coordinates_p cs) /\
  pixel_tmps_p cs'
  = imap (fun i c => fresh_vector (pixel_tmp_junk (junk i))
                                  (Coordinate.nPixelAxes c)) (coordinates_p cs) /\
  world_maps_p cs' = world_maps_p (restoreOriginal cs junk') /\
  pixel_maps_p cs' = pixel_maps_p (restoreOriginal cs junk') /\
  restoreOriginal cs' junk' = restoreOriginal cs junk'.
Proof.
  intros cs'. unfold cs', restoreOriginal.
  destruct (vectors_add_from junk (coordinates_p cs) 0 empty) as (Ht & Hr & Hpt & Hpr).
  destruct (maps_add_from junk junk' (coordinates_p cs) 0 0 empty empty
              eq_refl eq_refl eq_refl) as (_ & Hwm & Hpm).
  split; [now rewrite coordinates_add_from|].
  split; [now destruct (exposed_add_from junk (coordinates_p cs) 0 empty) as [-> _]|].
  split; [now destruct (exposed_add_from junk (coordinates_p cs) 0 empty) as [_ ->]|].
  split; [exact Hr|]. split; [exact Hpr|]. split; [exact Ht|]. split; [exact Hpt|].
  split; [exact Hwm|]. split; [exact Hpm|].
  now rewrite coordinates_add_from.
Qed.

Lemma rearranged_coordinates (cs cs' : System C) :
  rearranged cs cs' -> coordinates_p cs' = coordinates_p cs.
Proof.
  intros [(axis & v & H)|[(axis & v & H)|(wo & po & H)]].
  - unfold removeWorldAxis in H. inv_bind H as u E. inv_bind H as ca E1.
    destruct ca as [c a]. inv_bind H as r E2. inv_bind H as m E3. now injection H as <-.
  - unfold removePixelAxis in H. inv_bind H as u E. inv_bind H as ca E1.
    destruct ca as [c a]. inv_bind H as r E2. inv_bind H as m E3. now injection H as <-.
  - unfold transpose in H. inv_bind H as u1 E1. inv_bind H as u2 E2.
    inv_bind H as u3 E3. inv_bind H as u4 E4. inv_bind H as m1 E5. inv_bind H as m2 E6.
    now injection H as <-.
Qed.

(** Property X10. Whatever axes were removed or transposed since a system was
    built by [addCoordinate] alone, [restoreOriginal] gives the system
    [addCoordinate] builds of the same coordinates on the storage of this call:
    its coordinates and its maps are those of the system as it was built, its
    temporaries and replacement values are allocated anew. *)
Theorem restoreOriginal_undoes (l : list C) (junk junk' : nat -> Uninitialised)
    (cs : System C) :
  rtc rearranged (add_from junk 0 l empty) cs ->
  let built := add_from junk 0 l empty in
  let cs' := restoreOriginal cs junk' in
  cs' = add_from junk' 0 l empty /\
  coordinates_p cs' = coordinates_p built /\
  world_maps_p cs' = world_maps_p built /\
  pixel_maps_p cs' = pixel_maps_p built.
Proof.
  intros H built cs'.
  assert (E : coordinates_p cs = l).
  { transitivity (coordinates_p built).
    - clear cs'. induction H as [|x y z Hxy _ IH]; [reflexivity|].
      rewrite IH. now apply rearranged_coordinates.
    - unfold built. now rewrite coordinates_add_from. }
  assert (Hcs' : cs' = add_from junk' 0 l empty)
    by (unfold cs', restoreOriginal; now rewrite E).
  split; [exact Hcs'|]. rewrite Hcs'.
  apply (maps_add_from junk' junk l 0 0 empty empty); reflexivity.
Qed.

End More.

Lemma axes_loop (maps : list (list Z)) (which : nat) (block : list Z) :
  axes_ok maps -> maps !! which = Some block ->
  foldM (fun retval i =>
           '(coord, axis) ← find_exposed maps i;
           if (coord =? Z.of_nat which)%Z
           then set_Z retval axis (Z.of_nat i) else Done retval)
        (seq 0 (length (exposed maps)))
        (replicate (length block) (-1)%Z)
  = Done (map exposed_or_gone block).
Proof.
  intros Hok Hb.
  set (body := fun (retval : list Z) (i : nat) =>
           '(coord, axis) ← find_exposed maps i;
           if (coord =? Z.of_nat which)%Z
           then set_Z retval axis (Z.of_nat i) else Done retval).
  set (P := fun (k : nat) (retval : list Z) =>
         length retval = length block /\
         forall a x, block !! a = Some x ->
           retval !! a = Some (if (0 <=? x)%Z && (x <? Z.of_nat k)%Z then x else (-1)%Z)).
  destruct (foldM_seq_invariant body P (length (exposed maps))
              (replicate (length block) (-1)%Z)) as (s & Hs & Hlen & Hall).
  - split; [apply length_replicate|]. intros a x Ha.
    rewrite lookup_replicate_2 by (eapply lookup_lt_Some; eauto).
    destruct (Z.leb_spec 0 x), (Z.ltb_spec x (Z.of_nat 0)); simpl; auto; lia.
  - intros k s Hk [Hlen Hall]. unfold body.
    destruct (find_exposed_entry_spec maps k Hok Hk) as (c & a & -> & He). simpl.
    apply entry_Some in He. destruct He as (b & Hcb & Hak).
    assert (Huniq : forall a' , block !! a' = Some (Z.of_nat k) -> c = which /\ a' = a).
    { intros a' Ha'.
      pose proof (find_exposed_at maps which a' k block Hok Hb Ha') as H1.
      pose proof (find_exposed_at maps c a k b Hok Hcb Hak) as H2.
      rewrite H1 in H2. injection H2. lia. }
    destruct (Z.eqb_spec (Z.of_nat c) (Z.of_nat which)) as [Ec|Ec].
    + apply Nat2Z.inj in Ec. subst c. rewrite Hb in Hcb. injection Hcb as <-.
      pose proof (lookup_lt_Some _ _ _ Hak) as La.
      rewrite set_Z_Done by lia. eexists. split; [reflexivity|].
      split; [now rewrite length_insert|].
      intros a' x Ha'. destruct (decide (a' = a)) as [->|Hne].
      * rewrite list_lookup_insert_eq by lia. rewrite Hak in Ha'. injection Ha' as <-.
        destruct (Z.leb_spec 0 (Z.of_nat k)), (Z.ltb_spec (Z.of_nat k) (Z.of_nat (S k)));
          simpl; auto; lia.
      * rewrite list_lookup_insert_ne by auto. rewrite (Hall a' x Ha').
        assert (x <> Z.of_nat k).
        { intros ->. destruct (Huniq a' Ha'). congruence. }
        f_equal.
        destruct (Z.leb_spec 0 x), (Z.ltb_spec x (Z.of_nat k)),
                 (Z.ltb_spec x (Z.of_nat (S k))); simpl; auto; lia.
    + exists s. split; [reflexivity|]. split; [assumption|].
      intros a' x Ha'. rewrite (Hall a' x Ha').
      assert (x <> Z.of_nat k).
      { intros ->. destruct (Huniq a' Ha'). congruence. }
      f_equal.
      destruct (Z.leb_spec 0 x), (Z.ltb_spec x (Z.of_nat k)),
               (Z.ltb_spec x (Z.of_nat (S k))); simpl; auto; lia.
  - fold body. rewrite Hs. f_equal. apply list_eq. intros a.
    rewrite list_lookup_fmap.
    destruct (block !! a) as [x|] eqn:Ha; simpl.
    + rewrite (Hall a x Ha). f_equal. unfold exposed_or_gone.
      destruct (Z.leb_spec 0 x); simpl; [|reflexivity].
      pose proof (axes_ok_bound maps which a block x Hok Hb Ha ltac:(lia)).
      destruct (Z.ltb_spec x (Z.of_nat (length (exposed maps)))); [reflexivity|lia].
    + apply lookup_ge_None. rewrite Hlen. now apply lookup_ge_None.
Qed.

Section Axes.
Context {C : Type} {V : Coordinate.Virtuals C}.

Lemma worldAxes_Done (cs : System C) (which : nat) (block : list Z) :
  well_formed cs -> world_maps_p cs !! which = Some block ->
  worldAxes cs which = Done (map exposed_or_gone block).
Proof.
  intros Hwf Hb. destruct Hwf as [Wm _ _ Pm _ _ Wok Pok].
  destruct (sized_lookup _ _ _ _ _ Wm Hb) as (c & Hc & Hl).
  pose proof (lookup_lt_Some _ _ _ Hc) as Lc.
  unfold worldAxes, coordinate, nCoordinates.
  destruct (Nat.ltb_spec which (length (coordinates_p cs))); [|lia]. simpl.
  destruct (Nat.leb_spec which (length (coordinates_p cs))); [|lia]. simpl.
  rewrite (at_nat_Done _ _ _ Hc). simpl. rewrite <- Hl.
  now apply axes_loop.
Qed.

Lemma pixelAxes_Done (cs : System C) (which : nat) (block : list Z) :
  well_formed cs -> pixel_maps_p cs !! which = Some block ->
  pixelAxes cs which = Done (map exposed_or_gone block).
Proof.
  intros Hwf Hb. destruct Hwf as [Wm _ _ Pm _ _ Wok Pok].
  destruct (sized_lookup _ _ _ _ _ Pm Hb) as (c & Hc & Hl).
  pose proof (lookup_lt_Some _ _ _ Hc) as Lc.
  unfold pixelAxes, coordinate, nCoordinates.
  destruct (Nat.ltb_spec which (length (coordinates_p cs))); [|lia]. simpl.
  destruct (Nat.leb_spec which (length (coordinates_p cs))); [|lia]. simpl.
  rewrite (at_nat_Done _ _ _ Hc). simpl. rewrite <- Hl.
  now apply axes_loop.
Qed.

(** Property X11. On a well-formed system [worldAxes cs which] and [pixelAxes cs
    which] are the private maps of the coordinate with every removed axis
    reported as -1; for a coordinate the system does not have they throw
    [AipsError]. *)
Theorem worldAxes_pixelAxes_spec (cs : System C) (which : nat) :
  well_formed cs ->
  (forall block, world_maps_p cs !! which = Some block ->
     worldAxes cs which = Done (map exposed_or_gone block)) /\
  (forall block, pixel_maps_p cs !! which = Some block ->
     pixelAxes cs which = Done (map exposed_or_gone block)) /\
  (nCoordinates cs <= which ->
   worldAxes cs which = Throw AipsError /\ pixelAxes cs which = Throw AipsError).
Proof.
  intros Hwf. split; [|split].
  - intros block Hb. now apply worldAxes_Done.
  - intros block Hb. now apply pixelAxes_Done.
  - intros Hn. unfold worldAxes, pixelAxes.
    destruct (Nat.ltb_spec which (nCoordinates cs)); [lia|]. auto.
Qed.

(** Property X12. On a well-formed system [pixelAxisToWorldAxis cs p] with [p]
    an exposed pixel axis, axis [a] of coordinate [c], is the world map entry of
    axis [a] of [c] (-1 when that world axis is removed) and an access out of
    bounds when [c] has no world axis [a]; with [p] no pixel axis it throws
    [AipsError]. *)
Theorem pixelAxisToWorldAxis_spec (cs : System C) (pixelAxis : nat) :
  well_formed cs ->
  (pixelAxis < nPixelAxes cs ->
   exists coord axis,
     findPixelAxis cs pixelAxis = Done (Z.of_nat coord, Z.of_nat axis) /\
     (forall w, entry (world_maps_p cs) coord axis = Some w ->
        pixelAxisToWorldAxis cs pixelAxis = Done (exposed_or_gone w)) /\
     (entry (world_maps_p cs) coord axis = None ->
        pixelAxisToWorldAxis cs pixelAxis = Throw OutOfBounds)) /\
  (nPixelAxes cs <= pixelAxis -> pixelAxisToWorldAxis cs pixelAxis = Throw AipsError).
Proof.
  intros Hwf. split.
  - intros Hp. pose proof Hwf as [Wm _ _ Pm _ _ Wok Pok].
    destruct (find_exposed_spec _ pixelAxis Pok Hp) as (coord & axis & pb & Hf & Hpb & Ha).
    exists coord, axis. split; [exact Hf|].
    destruct (sized_lookup _ _ _ _ _ Pm Hpb) as (c & Hc & _).
    destruct (Forall2_lookup_r _ _ _ _ _ Wm Hc) as (wb & Hwb & _).
    assert (Hrun : pixelAxisToWorldAxis cs pixelAxis
                   = at_Z (map exposed_or_gone wb) (Z.of_nat axis)).
    { unfold pixelAxisToWorldAxis, findPixelAxis. rewrite Hf. simpl.
      destruct (Z.leb_spec 0 (Z.of_nat axis)); [|lia].
      destruct (Z.leb_spec 0 (Z.of_nat coord)); [|lia]. simpl.
      rewrite Nat2Z.id. now rewrite (worldAxes_Done cs coord wb Hwf Hwb). }
    rewrite Hrun. unfold entry. rewrite Hwb. simpl. split.
    + intros w Hw. apply at_Z_Done. now rewrite list_lookup_fmap, Hw.
    + intros Hn. unfold at_Z, at_nat.
      destruct (Z.ltb_spec (Z.of_nat axis) 0); [lia|]. rewrite Nat2Z.id.
      now rewrite list_lookup_fmap, Hn.
  - intros Hn. unfold pixelAxisToWorldAxis, findPixelAxis.
    now rewrite find_exposed_out.
Qed.

End Axes.

Section SetterRoundTrip.
Context {C : Type} {V : Coordinate.Virtuals C}.
Variable valid : C -> Prop.
Hypothesis Hlaw : Coordinate.lawful valid.

(** Property X13. On a well-formed system of lawful coordinates,
    [setReferencePixel], [setReferenceValue] and [setIncrement] with a vector of
    one entry per exposed axis return [True], the getter then returns that
    vector, and the other two of the three vectors stay. *)
Theorem setters_round_trip (cs : System C) :
  well_formed cs -> Forall valid (coordinates_p cs) ->
  (forall v, length v = nPixelAxes cs ->
     exists cs', setReferencePixel cs v = Done (true, cs') /\
       referencePixel cs' = Done v /\
       referenceValue cs' = referenceValue cs /\ increment cs' = increment cs) /\
  (forall v, length v = nWorldAxes cs ->
     exists cs', setReferenceValue cs v = Done (true, cs') /\
       referenceValue cs' = Done v /\
       referencePixel cs' = referencePixel cs /\ increment cs' = increment cs) /\
  (forall v, length v = nWorldAxes cs ->
     exists cs', setIncrement cs v = Done (true, cs') /\
       increment cs' = Done v /\
       referencePixel cs' = referencePixel cs /\ referenceValue cs' = referenceValue cs).
Proof.
  intros Hwf Hvalid. destruct Hwf as [Wm _ _ Pm _ _ Wok Pok].
  assert (Hlen : forall c, valid c ->
            length (Coordinate.referencePixel c) = Coordinate.nPixelAxes c /\
            length (Coordinate.referenceValue c) = Coordinate.nWorldAxes c /\
            length (Coordinate.increment c) = Coordinate.nWorldAxes c).
  { intros c Hc. apply (Coordinate.law_lengths valid Hlaw c Hc). }
  split; [|split]; intros v Hv.
  - destruct (set_each_spec pixel_maps_p Coordinate.nPixelAxes
                Coordinate.referencePixel Coordinate.setReferencePixel valid
                (fun c c' => Coordinate.referenceValue c' = Coordinate.referenceValue c /\
                             Coordinate.increment c' = Coordinate.increment c)
                cs v) as (coords' & Hrun & HF & Hget); auto.
    { intros c Hc. now apply Hlen. }
    { intros c t Hc Ht.
      destruct (Coordinate.law_setReferencePixel valid Hlaw c t Hc Ht)
        as (? & ? & ? & ? & ? & ?). auto. }
    exists (with_coordinates cs coords'). split; [exact Hrun|]. split; [exact Hget|].
    split.
    + unfold referenceValue, world_derived. simpl. apply derived_ext.
      eapply Forall2_impl; [exact HF|]. simpl. intros c c' (_ & ? & _). assumption.
    + unfold increment, world_derived. simpl. apply derived_ext.
      eapply Forall2_impl; [exact HF|]. simpl. intros c c' (_ & _ & ?). assumption.
  - destruct (set_each_spec world_maps_p Coordinate.nWorldAxes
                Coordinate.referenceValue Coordinate.setReferenceValue valid
                (fun c c' => Coordinate.referencePixel c' = Coordinate.referencePixel c /\
                             Coordinate.increment c' = Coordinate.increment c)
                cs v) as (coords' & Hrun & HF & Hget); auto.
    { intros c Hc. now apply Hlen. }
    { intros c t Hc Ht.
      destruct (Coordinate.law_setReferenceValue valid Hlaw c t Hc Ht)
        as (? & ? & ? & ? & ? & ?). auto. }
    exists (with_coordinates cs coords'). split; [exact Hrun|]. split; [exact Hget|].
    split.
    + unfold referencePixel, pixel_derived. simpl. apply derived_ext.
      eapply Forall2_impl; [exact HF|]. simpl. intros c c' (_ & ? & _). assumption.
    + unfold increment, world_derived. simpl. apply derived_ext.
      eapply Forall2_impl; [exact HF|]. simpl. intros c c' (_ & _ & ?). assumption.
  - destruct (set_each_spec world_maps_p Coordinate.nWorldAxes
                Coordinate.increment Coordinate.setIncrement valid
                (fun c c' => Coordinate.referencePixel c' = Coordinate.referencePixel c /\
                             Coordinate.referenceValue c' = Coordinate.referenceValue c)
                cs v) as (coords' & Hrun & HF & Hget); auto.
    { intros c Hc. now apply Hlen. }
    { intros c t Hc Ht.
      destruct (Coordinate.law_setIncrement valid Hlaw c t Hc Ht)
        as (? & ? & ? & ? & ? & ?). auto. }
    exists (with_coordinates cs coords'). split; [exact Hrun|]. split; [exact Hget|].
    split.
    + unfold referencePixel, pixel_derived. simpl. apply derived_ext.
      eapply Forall2_impl; [exact HF|]. simpl. intros c c' (_ & ? & _). assumption.
    + unfold referenceValue, world_derived. simpl. apply derived_ext.
      eapply Forall2_impl; [exact HF|]. simpl. intros c c' (_ & _ & ?). assumption.
Qed.
End SetterRoundTrip.

Lemma overwrite_scatter {A : Type} (m : list Z) (v tmp : list A) :
  length m = length tmp ->
  (forall j w, m !! j = Some w -> (0 <= w)%Z -> Z.to_nat w < length v) ->
  overwrite m v tmp = Done (scatter m v tmp).
Proof.
  intros Hlen Hrange.
  destruct (overwrite_spec m v tmp Hlen Hrange) as (tmp' & -> & Hl & Hall).
  f_equal. apply list_eq. intros j. unfold scatter. rewrite lookup_zip_with.
  destruct (m !! j) as [w|] eqn:Hw; simpl.
  - rewrite (Hall j w Hw).
    destruct (lookup_lt_is_Some_2 tmp j) as [t Ht].
    { rewrite <- Hlen. eapply lookup_lt_Some; eauto. }
    rewrite Ht. simpl. destruct (Z.leb_spec 0 w) as [H0|H0]; [|reflexivity].
    destruct (lookup_lt_is_Some_2 v (Z.to_nat w)) as [x Hx]; [eauto|].
    now rewrite Hx.
  - apply lookup_ge_None. rewrite Hl, <- Hlen. now apply lookup_ge_None.
Qed.

Section SetterLoops.
Context {C : Type} {V : Coordinate.Virtuals C}.

Lemma set_each_all {A : Type} (mp : System C -> list (list Z))
    (get : C -> list A) (set : C -> list A -> bool * C) (cs : System C) (v : list A) :
  (forall cs' coords, mp (with_coordinates cs' coords) = mp cs') ->
  axes_ok (mp cs) ->
  Forall2 (fun m c => length m = length (get c)) (mp cs) (coordinates_p cs) ->
  length v = length (exposed (mp cs)) ->
  let results := zip_with (fun c m => set c (scatter m v (get c)))
                          (coordinates_p cs) (mp cs) in
  set_each mp get set cs v
  = Done (forallb fst results, with_coordinates cs (map snd results)).
Proof.
  intros Hmp Hok Hs Hv results. unfold set_each.
  set (body := fun (st : bool * System C) (i : nat) =>
           let '(ok, cs0) := st in
           c ← at_nat (coordinates_p cs0) i;
           map_ ← at_nat (mp cs0) i;
           tmp ← overwrite map_ v (get c);
           let '(b, c') := set c tmp in
           Done (b && ok, with_coordinate cs0 i c')).
  pose proof (Forall2_length _ _ _ Hs) as Hsl.
  assert (Hrl : length results = nCoordinates cs).
  { unfold results. rewrite length_zip_with. unfold nCoordinates. lia. }
  set (P := fun (k : nat) (st : bool * System C) =>
    st.1 = forallb fst (take k results) /\
    st.2 = with_coordinates cs (map snd (take k results) ++ drop k (coordinates_p cs))).
  destruct (foldM_seq_invariant body P (nCoordinates cs) (true, cs))
    as ([ok cs'] & Hrun & Hok' & Hcs').
  - split; [reflexivity|]. simpl. now rewrite drop_0, with_coordinates_self.
  - intros k [ok cs0] Hk [Hok0 Hcs0]. simpl in Hok0, Hcs0. subst ok cs0.
    unfold body. unfold nCoordinates in Hk.
    destruct (lookup_lt_is_Some_2 (coordinates_p cs) k Hk) as [c Hc].
    destruct (lookup_lt_is_Some_2 (mp cs) k) as [m Hm]; [lia|].
    assert (Ltk : length (map snd (take k results)) = k).
    { rewrite length_map, length_take. unfold nCoordinates in Hrl. lia. }
    assert (Hc0 : coordinates_p
                    (with_coordinates cs
                       (map snd (take k results) ++ drop k (coordinates_p cs))) !! k
                  = Some c).
    { simpl. rewrite lookup_app_r by lia. rewrite Ltk, Nat.sub_diag.
      rewrite lookup_drop. now rewrite Nat.add_0_r. }
    rewrite (at_nat_Done _ _ _ Hc0). simpl. rewrite Hmp.
    rewrite (at_nat_Done _ _ _ Hm). simpl.
    rewrite overwrite_scatter.
    2:{ eapply (Forall2_lookup_lr _ _ _ _ _ _ Hs); eauto. }
    2:{ intros j w Hw H0. rewrite Hv. eapply axes_ok_bound; eauto. }
    simpl.
    assert (Hr : results !! k = Some (set c (scatter m v (get c)))).
    { unfold results. rewrite lookup_zip_with, Hc. simpl. now rewrite Hm. }
    destruct (set c (scatter m v (get c))) as [b c'] eqn:Eset.
    eexists. split; [reflexivity|]. split; simpl.
    + rewrite (take_S_r _ _ _ Hr). rewrite forallb_app. simpl.
      rewrite andb_true_r. apply andb_comm.
    + unfold with_coordinate, with_coordinates. simpl. f_equal.
      rewrite (take_S_r _ _ _ Hr), map_app. simpl.
      rewrite insert_app_r_alt by lia. rewrite Ltk, Nat.sub_diag.
      rewrite (drop_S _ _ _ Hc). simpl. now rewrite <- app_assoc.
  - simpl in Hok', Hcs'. fold body. rewrite Hrun, Hok', Hcs'.
    rewrite take_ge by lia. rewrite drop_ge by (unfold nCoordinates; lia).
    now rewrite app_nil_r.
Qed.

(** Property X14. [setWorldAxisNames], [setReferencePixel], [setIncrement] and
    [setReferenceValue] call the setter of every coordinate, also after one has
    failed, each with the coordinate's own vector overwritten on its exposed
    axes by the caller's values; they return the conjunction of the flags and
    keep what each setter left. *)
Theorem setters_attempt_every_coordinate (cs : System C) :
  well_formed cs ->
  (forall names,
     Forall (fun c => length (Coordinate.worldAxisNames c) = Coordinate.nWorldAxes c)
            (coordinates_p cs) ->
     length names = nWorldAxes cs ->
     let results := zip_with (fun c m => Coordinate.setWorldAxisNames c
                                (scatter m names (Coordinate.worldAxisNames c)))
                             (coordinates_p cs) (world_maps_p cs) in
     setWorldAxisNames cs names
     = Done (forallb fst results, with_coordinates cs (map snd results))) /\
  (forall refPix,
     Forall (fun c => length (Coordinate.referencePixel c) = Coordinate.nPixelAxes c)
            (coordinates_p cs) ->
     length refPix = nPixelAxes cs ->
     let results := zip_with (fun c m => Coordinate.setReferencePixel c
                                (scatter m refPix (Coordinate.referencePixel c)))
                             (coordinates_p cs) (pixel_maps_p cs) in
     setReferencePixel cs refPix
     = Done (forallb fst results, with_coordinates cs (map snd results))) /\
  (forall inc,
     Forall (fun c => length (Coordinate.increment c) = Coordinate.nWorldAxes c)
            (coordinates_p cs) ->
     length inc = nWorldAxes cs ->
     let results := zip_with (fun c m => Coordinate.setIncrement c
                                (scatter m inc (Coordinate.increment c)))
                             (coordinates_p cs) (world_maps_p cs) in
     setIncrement cs inc
     = Done (forallb fst results, with_coordinates cs (map snd results))) /\
  (forall refval,
     Forall (fun c => length (Coordinate.referenceValue c) = Coordinate.nWorldAxes c)
            (coordinates_p cs) ->
     length refval = nWorldAxes cs ->
     let results := zip_with (fun c m => Coordinate.setReferenceValue c
                                (scatter m refval (Coordinate.referenceValue c)))
                             (coordinates_p cs) (world_maps_p cs) in
     setReferenceValue cs refval
     = Done (forallb fst results, with_coordinates cs (map snd results))).
Proof.
  intros Hwf. destruct Hwf as [Wm _ _ Pm _ _ Wok Pok].
  assert (Hsz : forall (A : Type) (f : C -> nat) (get : C -> list A) (maps : list (list Z)),
            sized f maps (coordinates_p cs) ->
            Forall (fun c => length (get c) = f c) (coordinates_p cs) ->
            Forall2 (fun m c => length m = length (get c)) maps (coordinates_p cs)).
  { intros A f get maps Hs HF. unfold sized in Hs.
    apply Forall2_same_length_lookup. split; [eapply Forall2_length; eauto|].
    intros i m c Hm Hc.
    pose proof (Forall2_lookup_lr _ _ _ _ _ _ Hs Hm Hc) as H1. simpl in H1.
    rewrite Forall_lookup in HF. rewrite (HF i c Hc). exact H1. }
  repeat split; intros v HF Hv; apply set_each_all; eauto.
Qed.

End SetterLoops.

Lemma entry_unique (maps : list (list Z)) (i j i' j' : nat) (w : Z) :
  axes_ok maps -> (0 <= w)%Z ->
  entry maps i j = Some w -> entry maps i' j' = Some w -> i = i' /\ j = j'.
Proof.
  intros Hok Hw H1 H2.
  rewrite <- (Z2Nat.id w Hw) in H1, H2.
  pose proof (find_exposed_entry maps i j _ Hok H1) as F1.
  pose proof (find_exposed_entry maps i' j' _ Hok H2) as F2.
  rewrite F1 in F2. injection F2. lia.
Qed.

Lemma fill_tmp_scatter (map_ : list Z) (replacement src tmp : list Double) :
  length replacement = length map_ -> length tmp = length map_ ->
  (forall j w, map_ !! j = Some w -> (0 <= w)%Z -> Z.to_nat w < length src) ->
  fill_tmp map_ replacement src tmp = Done (scatter map_ src replacement).
Proof.
  intros Hr Ht Hrange. unfold fill_tmp.
  set (body := fun (tmp : list Double) (j : nat) =>
           where_ ← at_nat map_ j;
           if (0 <=? where_)%Z
           then x ← at_Z src where_; set_nat tmp j x
           else x ← at_nat replacement j; set_nat tmp j x).
  destruct (foldM_seq_invariant body
    (fun k t => length t = length map_ /\
                forall j, j < k -> t !! j = scatter map_ src replacement !! j)
    (length map_) tmp) as (t & Hrun & Hl & Hall).
  - split; [assumption|]. intros; lia.
  - intros k t Hk [Hl Hall]. unfold body.
    destruct (lookup_lt_is_Some_2 map_ k Hk) as [w Hw].
    destruct (lookup_lt_is_Some_2 replacement k) as [r Hrk]; [lia|].
    rewrite (at_nat_Done _ _ _ Hw). simpl.
    assert (Hs : scatter map_ src replacement !! k
                 = Some (if (0 <=? w)%Z then default r (src !! Z.to_nat w) else r)).
    { unfold scatter. rewrite lookup_zip_with, Hw. simpl. now rewrite Hrk. }
    destruct (Z.leb_spec 0 w) as [H0|H0].
    + destruct (lookup_lt_is_Some_2 src (Z.to_nat w)) as [x Hx]; [eauto|].
      rewrite at_Z_nonneg by lia. rewrite (at_nat_Done _ _ _ Hx). simpl.
      rewrite set_nat_Done by lia. eexists. split; [reflexivity|].
      split; [now rewrite length_insert|]. intros j Hj.
      destruct (decide (j = k)) as [->|Hne].
      * rewrite list_lookup_insert_eq by lia. rewrite Hs, Hx. reflexivity.
      * rewrite list_lookup_insert_ne by auto. apply Hall. lia.
    + rewrite (at_nat_Done _ _ _ Hrk). simpl.
      rewrite set_nat_Done by lia. eexists. split; [reflexivity|].
      split; [now rewrite length_insert|]. intros j Hj.
      destruct (decide (j = k)) as [->|Hne].
      * rewrite list_lookup_insert_eq by lia. now rewrite Hs.
      * rewrite list_lookup_insert_ne by auto. apply Hall. lia.
  - fold body. rewrite Hrun. f_equal. apply list_eq. intros j.
    destruct (Nat.lt_ge_cases j (length map_)) as [Hj|Hj]; [now apply Hall|].
    rewrite !(proj2 (lookup_ge_None _ _)); auto; [|lia].
    unfold scatter. rewrite length_zip_with. lia.
Qed.

Lemma length_scatter {A : Type} (map_ : list Z) (src own : list A) :
  length own = length map_ -> length (scatter map_ src own) = length map_.
Proof. intros H. unfold scatter. rewrite length_zip_with. lia. Qed.

Lemma copy_out_spec (map_ : list Z) (tmp dst : list Double) :
  length map_ <= length tmp ->
  (forall j w, map_ !! j = Some w -> (0 <= w)%Z -> Z.to_nat w < length dst) ->
  (forall j j' w, map_ !! j = Some w -> map_ !! j' = Some w -> (0 <= w)%Z -> j = j') ->
  exists dst', copy_out map_ tmp dst = Done dst' /\
    length dst' = length dst /\
    (forall j w, map_ !! j = Some w -> (0 <= w)%Z -> dst' !! Z.to_nat w = tmp !! j) /\
    (forall p, (forall j w, map_ !! j = Some w -> (0 <= w)%Z -> Z.to_nat w <> p) ->
               dst' !! p = dst !! p).
Proof.
  intros Htmp Hrange Hinj. unfold copy_out.
  set (body := fun (dst : list Double) (j : nat) =>
           where_ ← at_nat map_ j;
           if (0 <=? where_)%Z
           then x ← at_nat tmp j; set_Z dst where_ x
           else Done dst).
  destruct (foldM_seq_invariant body
    (fun k d => length d = length dst /\
       (forall j w, j < k -> map_ !! j = Some w -> (0 <= w)%Z ->
                    d !! Z.to_nat w = tmp !! j) /\
       (forall p, (forall j w, j < k -> map_ !! j = Some w -> (0 <= w)%Z ->
                               Z.to_nat w <> p) -> d !! p = dst !! p))
    (length map_) dst) as (d & Hrun & Hl & Hw & Ho).
  - split; [reflexivity|]. split; [intros; lia|reflexivity].
  - intros k d Hk (Hl & Hw & Ho). unfold body.
    destruct (lookup_lt_is_Some_2 map_ k Hk) as [w Hwk].
    rewrite (at_nat_Done _ _ _ Hwk). simpl.
    destruct (Z.leb_spec 0 w) as [H0|H0].
    + destruct (lookup_lt_is_Some_2 tmp k) as [x Hx]; [lia|].
      rewrite (at_nat_Done _ _ _ Hx). simpl.
      pose proof (Hrange k w Hwk H0) as Hb.
      replace (set_Z d w x) with (set_Z d (Z.of_nat (Z.to_nat w)) x)
        by (now rewrite Z2Nat.id).
      rewrite set_Z_Done by lia.
      eexists. split; [reflexivity|]. split; [now rewrite length_insert|]. split.
      * intros j w' Hj Hw' H0'. destruct (decide (j = k)) as [->|Hne].
        -- assert (w' = w) by congruence. subst w'.
           rewrite list_lookup_insert_eq by lia. now rewrite Hx.
        -- rewrite list_lookup_insert_ne.
           ++ apply Hw; auto. lia.
           ++ intros E. apply Hne. assert (w' = w) by lia. subst w'.
              symmetry. eapply Hinj; eauto.
      * intros p Hp. rewrite list_lookup_insert_ne by (apply (Hp k w); auto).
        apply Ho. intros j w' Hj. apply Hp. lia.
    + exists d. split; [reflexivity|]. split; [assumption|]. split.
      * intros j w' Hj Hw' H0'. destruct (decide (j = k)) as [->|Hne].
        -- assert (w' = w) by congruence. lia.
        -- apply Hw; auto. lia.
      * intros p Hp. apply Ho. intros j w' Hj Hw' H0'.
        destruct (decide (j = k)) as [->|Hne]; [assert (w' = w) by congruence; lia|].
        apply (Hp j w'); auto.
  - exists d. fold body. split; [exact Hrun|]. split; [exact Hl|]. split.
    + intros j w Hj H0. apply Hw; auto. eapply lookup_lt_Some; eauto.
    + intros p Hp. apply Ho. intros j w _. apply Hp.
Qed.

Section Conversions.
Context {C : Type} {V : Coordinate.Virtuals C}.

Lemma sized_insert {A : Type} (f : C -> nat) (blocks : list (list A)) (coords : list C)
    (i : nat) (c : C) (block : list A) :
  sized f blocks coords -> coords !! i = Some c -> length block = f c ->
  sized f (<[i := block]> blocks) coords.
Proof.
  intros Hs Hc Hl. unfold sized in *.
  apply Forall2_same_length_lookup. split.
  - rewrite length_insert. eapply Forall2_length; eauto.
  - intros j b c' Hb Hc'. destruct (decide (j = i)) as [->|Hne].
    + rewrite list_lookup_insert_eq in Hb.
      * injection Hb as <-. congruence.
      * rewrite (Forall2_length _ _ _ Hs). eapply lookup_lt_Some; eauto.
    + rewrite list_lookup_insert_ne in Hb by auto.
      eapply (Forall2_lookup_lr _ _ _ _ _ _ Hs); eauto.
Qed.

Lemma block_injective (maps : list (list Z)) (i : nat) (block : list Z) :
  axes_ok maps -> maps !! i = Some block ->
  forall j j' w, block !! j = Some w -> block !! j' = Some w -> (0 <= w)%Z -> j = j'.
Proof.
  intros Hok Hb j j' w Hj Hj' Hw.
  assert (E1 : entry maps i j = Some w) by (apply entry_Some; eauto).
  assert (E2 : entry maps i j' = Some w) by (apply entry_Some; eauto).
  now destruct (entry_unique maps i j i j' w Hok Hw E1 E2).
Qed.

(** Property X15. On a well-formed system, with vectors of the right lengths and
    coordinates whose conversion gives one output per world axis, [toWorld]
    returns without throwing and changes only the temporaries; its flag is
    [True] exactly when the conversion of every coordinate (on its part of
    [pixel], the replacement values on removed pixel axes) succeeds, and then
    every exposed world axis holds the output of its coordinate. *)
Theorem toWorld_spec (cs : System C) (world pixel : list Double) :
  well_formed cs ->
  (forall c w p, In c (coordinates_p cs) ->
     length w = Coordinate.nWorldAxes c -> length p = Coordinate.nPixelAxes c ->
     length (Coordinate.conv_out (Coordinate.toWorld c w p)) = Coordinate.nWorldAxes c) ->
  length pixel = nPixelAxes cs -> length world = nWorldAxes cs ->
  exists ok world' cs',
    toWorld cs world pixel = Done (ok, world', cs') /\
    well_formed cs' /\
    coordinates_p cs' = coordinates_p cs /\
    world_maps_p cs' = world_maps_p cs /\ pixel_maps_p cs' = pixel_maps_p cs /\
    world_replacement_values_p cs' = world_replacement_values_p cs /\
    pixel_replacement_values_p cs' = pixel_replacement_values_p cs /\
    length world' = length world /\
    (ok = true <->
     forall i r, toWorld_of cs pixel i = Some r -> Coordinate.conv_ok r = true) /\
    (ok = true ->
     forall i j w r, entry (world_maps_p cs) i j = Some w -> (0 <= w)%Z ->
       toWorld_of cs pixel i = Some r ->
       world' !! Z.to_nat w = Coordinate.conv_out r !! j).
Proof.
  intros Hwf Hout Hp Hw. destruct Hwf as [Wm Wt Wr Pm Pt Pr Wok Pok].
  pose proof (Forall2_length _ _ _ Wm) as Lwm.
  pose proof (Forall2_length _ _ _ Wt) as Lwt.
  pose proof (Forall2_length _ _ _ Pm) as Lpm.
  pose proof (Forall2_length _ _ _ Pt) as Lpt.
  pose proof (Forall2_length _ _ _ Pr) as Lpr.
  set (Inv := fun (k : nat) (st : bool * list Double * System C) =>
    let '(ok, w, s) := st in
    coordinates_p s = coordinates_p cs /\
    world_maps_p s = world_maps_p cs /\ pixel_maps_p s = pixel_maps_p cs /\
    world_replacement_values_p s = world_replacement_values_p cs /\
    pixel_replacement_values_p s = pixel_replacement_values_p cs /\
    sized Coordinate.nWorldAxes (world_tmps_p s) (coordinates_p cs) /\
    sized Coordinate.nPixelAxes (pixel_tmps_p s) (coordinates_p cs) /\
    (forall i, k <= i -> world_tmps_p s !! i = world_tmps_p cs !! i) /\
    length w = length world /\
    ok = forallb (world_ok cs pixel) (seq 0 k) /\
    (ok = true -> forall i j x r, i < k -> entry (world_maps_p cs) i j = Some x ->
       (0 <= x)%Z -> toWorld_of cs pixel i = Some r ->
       w !! Z.to_nat x = Coordinate.conv_out r !! j)).
  destruct (foldM_seq_invariant (toWorld_body pixel) Inv (nCoordinates cs) (true, world, cs))
    as ([[ok world'] cs'] & Hrun & HI).
  - simpl. repeat split; auto. intros; lia.
  - intros k [[ok w] s] Hk HI. simpl in HI.
    destruct HI as (Ec & Ewm & Epm & Ewr & Epr & Swt & Spt & Hlater & Lw & Hok & Hval).
    unfold nCoordinates in Hk.
    destruct (lookup_lt_is_Some_2 (coordinates_p cs) k Hk) as [c Hc].
    destruct (lookup_lt_is_Some_2 (pixel_maps_p cs) k) as [pm Hpm]; [lia|].
    destruct (lookup_lt_is_Some_2 (pixel_replacement_values_p cs) k) as [pr Hpr]; [lia|].
    destruct (lookup_lt_is_Some_2 (world_maps_p cs) k) as [wm Hwm]; [lia|].
    destruct (lookup_lt_is_Some_2 (world_tmps_p cs) k) as [wt Hwt]; [lia|].
    destruct (lookup_lt_is_Some_2 (pixel_tmps_p s) k) as [pt Hpt];
      [rewrite (Forall2_length _ _ _ Spt); lia|].
    pose proof (Forall2_lookup_lr _ _ _ _ _ _ Pm Hpm Hc) as Lpmc.
    pose proof (Forall2_lookup_lr _ _ _ _ _ _ Pr Hpr Hc) as Lprc.
    pose proof (Forall2_lookup_lr _ _ _ _ _ _ Wm Hwm Hc) as Lwmc.
    pose proof (Forall2_lookup_lr _ _ _ _ _ _ Wt Hwt Hc) as Lwtc.
    pose proof (Forall2_lookup_lr _ _ _ _ _ _ Spt Hpt Hc) as Lptc.
    simpl in Lpmc, Lprc, Lwmc, Lwtc, Lptc.
    unfold toWorld_body.
    rewrite Ec, Epm, Epr, Ewm.
    rewrite (at_nat_Done _ _ _ Hc). simpl.
    rewrite (at_nat_Done _ _ _ Hpm). simpl.
    rewrite (at_nat_Done _ _ _ Hpr). simpl.
    rewrite (at_nat_Done _ _ _ Hpt). simpl.
    rewrite (at_nat_Done _ _ _ Hwm). simpl.
    rewrite (at_nat_Done (world_tmps_p s) k wt) by (rewrite Hlater by lia; exact Hwt).
    simpl.
    rewrite fill_tmp_scatter; [|lia|lia|].
    2:{ intros j x Hj Hx. rewrite Hp. eapply axes_ok_bound; eauto. }
    simpl.
    assert (Hof : toWorld_of cs pixel k
                  = Some (Coordinate.toWorld c wt (scatter pm pixel pr))).
    { unfold toWorld_of. rewrite Hc. simpl. rewrite Hpm. simpl. rewrite Hpr. simpl.
      now rewrite Hwt. }
    set (r := Coordinate.toWorld c wt (scatter pm pixel pr)) in *.
    set (res := if ok then (Coordinate.conv_ok r, Coordinate.conv_out r) else (false, wt)).
    assert (Lres : length res.2 = Coordinate.nWorldAxes c).
    { unfold res, r. destruct ok; simpl; [|assumption].
      apply Hout; [|assumption|rewrite length_scatter; lia].
      apply list_elem_of_In. eapply list_elem_of_lookup_2; eauto. }
    destruct res as [ok' wt'] eqn:Eres. simpl in Lres.
    destruct (copy_out_spec wm wt' w) as (w' & Hcopy & Lw' & Hwritten & Hother).
    { lia. }
    { intros j x Hj Hx. rewrite Lw, Hw. eapply axes_ok_bound; eauto. }
    { apply (block_injective (world_maps_p cs) k wm Wok Hwm). }
    rewrite Hcopy. simpl. eexists. split; [reflexivity|]. unfold Inv. cbn -[seq forallb].
    split; [exact Ec|]. split; [exact Ewm|]. split; [exact Epm|].
    split; [exact Ewr|]. split; [exact Epr|].
    split; [eapply sized_insert; eauto|].
    split; [eapply sized_insert; eauto; rewrite length_scatter; lia|].
    split; [intros i Hi; rewrite list_lookup_insert_ne by lia; apply Hlater; lia|].
    split; [congruence|].
    split.
    + rewrite seq_S, forallb_app. simpl. rewrite andb_true_r.
      unfold world_ok at 2. rewrite Hof. fold r.
      unfold res in Eres. destruct ok; injection Eres as <- <-.
      * now rewrite <- Hok.
      * now rewrite <- Hok.
    + intros Hok' i j x r' Hi Hx H0 Hr'.
      assert (ok = true /\ Coordinate.conv_ok r = true /\ wt' = Coordinate.conv_out r)
        as (Hoktrue & Hrok & Ewt').
      { unfold res in Eres. destruct ok; injection Eres as <- <-; auto. discriminate. }
      destruct (decide (i = k)) as [->|Hne].
      * rewrite Hof in Hr'. injection Hr' as <-.
        apply entry_Some in Hx. destruct Hx as (b & Hb & Hj).
        assert (b = wm) by congruence. subst b.
        rewrite (Hwritten j x Hj H0). now rewrite Ewt'.
      * rewrite Hother.
        -- apply (Hval Hoktrue i j x r'); auto. lia.
        -- intros j' x' Hj' Hx' E.
           assert (x' = x) by lia. subst x'.
           assert (E2 : entry (world_maps_p cs) k j' = Some x)
             by (apply entry_Some; eauto).
           destruct (entry_unique _ _ _ _ _ _ Wok H0 Hx E2). congruence.
  - simpl in HI.
    destruct HI as (Ec & Ewm & Epm & Ewr & Epr & Swt & Spt & Hlater & Lw & Hok & Hval).
    exists ok, world', cs'. split; [exact Hrun|].
    split.
    { constructor; rewrite ?Ec, ?Ewm, ?Epm, ?Ewr, ?Epr; auto. }
    repeat (split; [assumption|]). split.
    + rewrite Hok. rewrite forallb_forall. split.
      * intros H i r Hr. 
        assert (Hi : i < nCoordinates cs).
        { unfold toWorld_of in Hr. destruct (coordinates_p cs !! i) eqn:E; [|discriminate].
          eapply lookup_lt_Some; eauto. }
        specialize (H i ltac:(apply in_seq; lia)).
        unfold world_ok in H. now rewrite Hr in H.
      * intros H i Hi. unfold world_ok.
        destruct (toWorld_of cs pixel i) as [r|] eqn:E; [|reflexivity]. eauto.
    + intros Hoktrue i j x r Hx H0 Hr. apply (Hval Hoktrue i j x r); auto.
      unfold toWorld_of in Hr. destruct (coordinates_p cs !! i) eqn:E; [|discriminate].
      eapply lookup_lt_Some; eauto.
Qed.

End Conversions.

Section Conversions2.
Context {C : Type} {V : Coordinate.Virtuals C}.

(** Property X16. On a well-formed system, with vectors of the right lengths and
    coordinates whose conversion gives one output per pixel axis, [toPixel]
    returns without throwing and changes only the temporaries; its flag is
    [True] exactly when the conversion of every coordinate (on its part of
    [world], the replacement values on removed world axes) succeeds, and then
    every exposed pixel axis holds the output of its coordinate. *)
Theorem toPixel_spec (cs : System C) (pixel world : list Double) :
  well_formed cs ->
  (forall c w p, In c (coordinates_p cs) ->
     length w = Coordinate.nPixelAxes c -> length p = Coordinate.nWorldAxes c ->
     length (Coordinate.conv_out (Coordinate.toPixel c w p)) = Coordinate.nPixelAxes c) ->
  length world = nWorldAxes cs -> length pixel = nPixelAxes cs ->
  exists ok pixel' cs',
    toPixel cs pixel world = Done (ok, pixel', cs') /\
    well_formed cs' /\
    coordinates_p cs' = coordinates_p cs /\
    pixel_maps_p cs' = pixel_maps_p cs /\ world_maps_p cs' = world_maps_p cs /\
    pixel_replacement_values_p cs' = pixel_replacement_values_p cs /\
    world_replacement_values_p cs' = world_replacement_values_p cs /\
    length pixel' = length pixel /\
    (ok = true <->
     forall i r, toPixel_of cs world i = Some r -> Coordinate.conv_ok r = true) /\
    (ok = true ->
     forall i j w r, entry (pixel_maps_p cs) i j = Some w -> (0 <= w)%Z ->
       toPixel_of cs world i = Some r ->
       pixel' !! Z.to_nat w = Coordinate.conv_out r !! j).
Proof.
  intros Hwf Hout Hw Hp. destruct Hwf as [Wm Wt Wr Pm Pt Pr Wok Pok].
  pose proof (Forall2_length _ _ _ Pm) as Lpm.
  pose proof (Forall2_length _ _ _ Pt) as Lpt.
  pose proof (Forall2_length _ _ _ Wm) as Lwm.
  pose proof (Forall2_length _ _ _ Wt) as Lwt.
  pose proof (Forall2_length _ _ _ Wr) as Lwr.
  set (Inv := fun (k : nat) (st : bool * list Double * System C) =>
    let '(ok, w, s) := st in
    coordinates_p s = coordinates_p cs /\
    pixel_maps_p s = pixel_maps_p cs /\ world_maps_p s = world_maps_p cs /\
    pixel_replacement_values_p s = pixel_replacement_values_p cs /\
    world_replacement_values_p s = world_replacement_values_p cs /\
    sized Coordinate.nPixelAxes (pixel_tmps_p s) (coordinates_p cs) /\
    sized Coordinate.nWorldAxes (world_tmps_p s) (coordinates_p cs) /\
    (forall i, k <= i -> pixel_tmps_p s !! i = pixel_tmps_p cs !! i) /\
    length w = length pixel /\
    ok = forallb (pixel_ok cs world) (seq 0 k) /\
    (ok = true -> forall i j x r, i < k -> entry (pixel_maps_p cs) i j = Some x ->
       (0 <= x)%Z -> toPixel_of cs world i = Some r ->
       w !! Z.to_nat x = Coordinate.conv_out r !! j)).
  destruct (foldM_seq_invariant (toPixel_body world) Inv (nCoordinates cs) (true, pixel, cs))
    as ([[ok pixel'] cs'] & Hrun & HI).
  - simpl. repeat split; auto. intros; lia.
  - intros k [[ok w] s] Hk HI. simpl in HI.
    destruct HI as (Ec & Epm & Ewm & Epr & Ewr & Spt & Swt & Hlater & Lw & Hok & Hval).
    unfold nCoordinates in Hk.
    destruct (lookup_lt_is_Some_2 (coordinates_p cs) k Hk) as [c Hc].
    destruct (lookup_lt_is_Some_2 (world_maps_p cs) k) as [wm Hwm]; [lia|].
    destruct (lookup_lt_is_Some_2 (world_replacement_values_p cs) k) as [wr Hwr]; [lia|].
    destruct (lookup_lt_is_Some_2 (pixel_maps_p cs) k) as [pm Hpm]; [lia|].
    destruct (lookup_lt_is_Some_2 (pixel_tmps_p cs) k) as [pt Hpt]; [lia|].
    destruct (lookup_lt_is_Some_2 (world_tmps_p s) k) as [wt Hwt];
      [rewrite (Forall2_length _ _ _ Swt); lia|].
    pose proof (Forall2_lookup_lr _ _ _ _ _ _ Wm Hwm Hc) as Lwmc.
    pose proof (Forall2_lookup_lr _ _ _ _ _ _ Wr Hwr Hc) as Lwrc.
    pose proof (Forall2_lookup_lr _ _ _ _ _ _ Pm Hpm Hc) as Lpmc.
    pose proof (Forall2_lookup_lr _ _ _ _ _ _ Pt Hpt Hc) as Lptc.
    pose proof (Forall2_lookup_lr _ _ _ _ _ _ Swt Hwt Hc) as Lwtc.
    simpl in Lwmc, Lwrc, Lpmc, Lptc, Lwtc.
    unfold toPixel_body.
    rewrite Ec, Ewm, Ewr, Epm.
    rewrite (at_nat_Done _ _ _ Hc). simpl.
    rewrite (at_nat_Done _ _ _ Hwm). simpl.
    rewrite (at_nat_Done _ _ _ Hwr). simpl.
    rewrite (at_nat_Done _ _ _ Hwt). simpl.
    rewrite (at_nat_Done _ _ _ Hpm). simpl.
    rewrite (at_nat_Done (pixel_tmps_p s) k pt) by (rewrite Hlater by lia; exact Hpt).
    simpl.
    rewrite fill_tmp_scatter; [|lia|lia|].
    2:{ intros j x Hj Hx. rewrite Hw. eapply axes_ok_bound; eauto. }
    simpl.
    assert (Hof : toPixel_of cs world k
                  = Some (Coordinate.toPixel c pt (scatter wm world wr))).
    { unfold toPixel_of. rewrite Hc. simpl. rewrite Hwm. simpl. rewrite Hwr. simpl.
      now rewrite Hpt. }
    set (r := Coordinate.toPixel c pt (scatter wm world wr)) in *.
    set (res := if ok then (Coordinate.conv_ok r, Coordinate.conv_out r) else (false, pt)).
    assert (Lres : length res.2 = Coordinate.nPixelAxes c).
    { unfold res, r. destruct ok; simpl; [|assumption].
      apply Hout; [|assumption|rewrite length_scatter; lia].
      apply list_elem_of_In. eapply list_elem_of_lookup_2; eauto. }
    destruct res as [ok' wt'] eqn:Eres. simpl in Lres.
    destruct (copy_out_spec pm wt' w) as (w' & Hcopy & Lw' & Hwritten & Hother).
    { lia. }
    { intros j x Hj Hx. rewrite Lw, Hp. eapply axes_ok_bound; eauto. }
    { apply (block_injective (pixel_maps_p cs) k pm Pok Hpm). }
    rewrite Hcopy. simpl. eexists. split; [reflexivity|]. unfold Inv. cbn -[seq forallb].
    split; [exact Ec|]. split; [exact Epm|]. split; [exact Ewm|].
    split; [exact Epr|]. split; [exact Ewr|].
    split; [eapply sized_insert; eauto|].
    split; [eapply sized_insert; eauto; rewrite length_scatter; lia|].
    split; [intros i Hi; rewrite list_lookup_insert_ne by lia; apply Hlater; lia|].
    split; [congruence|].
    split.
    + rewrite seq_S, forallb_app. simpl. rewrite andb_true_r.
      unfold pixel_ok at 2. rewrite Hof. fold r.
      unfold res in Eres. destruct ok; injection Eres as <- <-.
      * now rewrite <- Hok.
      * now rewrite <- Hok.
    + intros Hok' i j x r' Hi Hx H0 Hr'.
      assert (ok = true /\ Coordinate.conv_ok r = true /\ wt' = Coordinate.conv_out r)
        as (Hoktrue & Hrok & Ewt').
      { unfold res in Eres. destruct ok; injection Eres as <- <-; auto. discriminate. }
      destruct (decide (i = k)) as [->|Hne].
      * rewrite Hof in Hr'. injection Hr' as <-.
        apply entry_Some in Hx. destruct Hx as (b & Hb & Hj).
        assert (b = pm) by congruence. subst b.
        rewrite (Hwritten j x Hj H0). now rewrite Ewt'.
      * rewrite Hother.
        -- apply (Hval Hoktrue i j x r'); auto. lia.
        -- intros j' x' Hj' Hx' E.
           assert (x' = x) by lia. subst x'.
           assert (E2 : entry (pixel_maps_p cs) k j' = Some x)
             by (apply entry_Some; eauto).
           destruct (entry_unique _ _ _ _ _ _ Pok H0 Hx E2). congruence.
  - simpl in HI.
    destruct HI as (Ec & Epm & Ewm & Epr & Ewr & Spt & Swt & Hlater & Lw & Hok & Hval).
    exists ok, pixel', cs'. split; [exact Hrun|].
    split.
    { constructor; rewrite ?Ec, ?Epm, ?Ewm, ?Epr, ?Ewr; auto. }
    repeat (split; [assumption|]). split.
    + rewrite Hok. rewrite forallb_forall. split.
      * intros H i r Hr. 
        assert (Hi : i < nCoordinates cs).
        { unfold toPixel_of in Hr. destruct (coordinates_p cs !! i) eqn:E; [|discriminate].
          eapply lookup_lt_Some; eauto. }
        specialize (H i ltac:(apply in_seq; lia)).
        unfold pixel_ok in H. now rewrite Hr in H.
      * intros H i Hi. unfold pixel_ok.
        destruct (toPixel_of cs world i) as [r|] eqn:E; [|reflexivity]. eauto.
    + intros Hoktrue i j x r Hx H0 Hr. apply (Hval Hoktrue i j x r); auto.
      unfold toPixel_of in Hr. destruct (coordinates_p cs !! i) eqn:E; [|discriminate].
      eapply lookup_lt_Some; eauto.
Qed.

End Conversions2.

Lemma matrix_at_lookup (m : Matrix) (i j : nat) (col : list Double) (x : Double) :
  mcols m !! j = Some col -> col !! i = Some x ->
  matrix_at m (Z.of_nat i) (Z.of_nat j) = Done x.
Proof.
  intros Hc Hx. unfold matrix_at. rewrite (at_Z_Done _ _ _ Hc). simpl.
  now apply at_Z_Done.
Qed.

Lemma shaped_at (nr nc : nat) (m : Matrix) (i j : nat) :
  shaped nr nc m -> i < nr -> j < nc ->
  exists col x, mcols m !! j = Some col /\ length col = nr /\ col !! i = Some x /\
                matrix_at m (Z.of_nat i) (Z.of_nat j) = Done x.
Proof.
  intros (_ & _ & Hl & Hall) Hi Hj.
  destruct (lookup_lt_is_Some_2 (mcols m) j) as [col Hc]; [lia|].
  pose proof (Forall_lookup_1 _ _ _ _ Hall Hc) as Lc. simpl in Lc.
  destruct (lookup_lt_is_Some_2 col i) as [x Hx]; [lia|].
  exists col, x. repeat split; auto. now apply (matrix_at_lookup m i j col).
Qed.

Lemma shaped_zero (nr nc : nat) : shaped nr nc (zero_matrix nr nc).
Proof.
  unfold shaped, zero_matrix. simpl. repeat split.
  - apply length_replicate.
  - apply Forall_forall. intros col Hin. apply elem_of_replicate in Hin.
    destruct Hin as [-> _]. apply length_replicate.
Qed.

Lemma zero_matrix_at (nr nc i j : nat) :
  i < nr -> j < nc ->
  matrix_at (zero_matrix nr nc) (Z.of_nat i) (Z.of_nat j) = Done 0%float.
Proof.
  intros Hi Hj. apply (matrix_at_lookup _ i j (replicate nr 0%float)).
  - simpl. now apply lookup_replicate_2.
  - now apply lookup_replicate_2.
Qed.

Lemma matrix_set_spec (nr nc : nat) (m : Matrix) (i j : nat) (x : Double) :
  shaped nr nc m -> i < nr -> j < nc ->
  exists m',
    matrix_set m (Z.of_nat i) (Z.of_nat j) x = Done m' /\
    shaped nr nc m' /\
    matrix_at m' (Z.of_nat i) (Z.of_nat j) = Done x /\
    forall i' j', (i' <> i \/ j' <> j) ->
      matrix_at m' (Z.of_nat i') (Z.of_nat j') = matrix_at m (Z.of_nat i') (Z.of_nat j').
Proof.
  intros Hs Hi Hj.
  destruct (shaped_at nr nc m i j Hs Hi Hj) as (col & y & Hc & Lc & Hy & _).
  destruct Hs as (Hr & Hcn & Hl & Hall).
  unfold matrix_set. rewrite (at_Z_Done _ _ _ Hc). simpl.
  rewrite set_Z_Done by lia. simpl. rewrite set_Z_Done by lia. simpl.
  eexists. split; [reflexivity|]. split; [|split].
  - unfold shaped. simpl. rewrite length_insert. repeat split; auto.
    apply Forall_insert; [assumption|]. now rewrite length_insert.
  - apply (matrix_at_lookup _ i j (<[i := x]> col)).
    + simpl. apply list_lookup_insert_eq. lia.
    + apply list_lookup_insert_eq. lia.
  - intros i' j' Hne. unfold matrix_at. simpl.
    unfold at_Z. destruct (Z.of_nat j' <? 0)%Z; [reflexivity|].
    rewrite !Nat2Z.id. unfold at_nat.
    destruct (decide (j' = j)) as [->|Hj'].
    + rewrite list_lookup_insert_eq by lia. rewrite Hc. simpl.
      destruct (Z.of_nat i' <? 0)%Z; [reflexivity|].
      rewrite list_lookup_insert_ne by (destruct Hne; congruence). reflexivity.
    + rewrite list_lookup_insert_ne by auto. reflexivity.
Qed.

Section LinearTransform.
Context {C : Type} {V : Coordinate.Virtuals C}.

(** The entry of two exposed axes can be read. *)
Lemma coupling_Done (cs : System C) (i j : nat) :
  well_formed cs ->
  Forall (fun c => shaped (Coordinate.nWorldAxes c) (Coordinate.nPixelAxes c)
                          (Coordinate.linearTransform c)) (coordinates_p cs) ->
  i < nWorldAxes cs -> j < nPixelAxes cs ->
  exists wc wa pc pa x,
    findWorldAxis cs i = Done (Z.of_nat wc, Z.of_nat wa) /\
    findPixelAxis cs j = Done (Z.of_nat pc, Z.of_nat pa) /\
    coupling cs i j = Done x /\
    (wc = pc ->
     exists c, coordinates_p cs !! wc = Some c /\
       matrix_at (Coordinate.linearTransform c) (Z.of_nat wa) (Z.of_nat pa) = Done x).
Proof.
  intros Hwf Hshape Hi Hj.
  destruct (find_exposed_spec (world_maps_p cs) i (wf_world_axes cs Hwf) Hi)
    as (wc & wa & wb & Hfw & Hwb & Hwa).
  destruct (find_exposed_spec (pixel_maps_p cs) j (wf_pixel_axes cs Hwf) Hj)
    as (pc & pa & pb & Hfp & Hpb & Hpa).
  exists wc, wa, pc, pa.
  unfold coupling, findWorldAxis, findPixelAxis. rewrite Hfw, Hfp. simpl.
  destruct (Z.eqb_spec (Z.of_nat wc) (Z.of_nat pc)) as [E|E].
  - assert (wc = pc) by lia. subst pc.
    destruct (Forall2_lookup_l _ _ _ _ _ (wf_world_maps cs Hwf) Hwb) as (c & Hc & Lw).
    pose proof (Forall2_lookup_lr _ _ _ _ _ _ (wf_pixel_maps cs Hwf) Hpb Hc) as Lp.
    simpl in Lw, Lp.
    pose proof (Forall_lookup_1 _ _ _ _ Hshape Hc) as Hs. simpl in Hs.
    destruct (shaped_at _ _ _ wa pa Hs) as (col & x & _ & _ & _ & Hx).
    { rewrite <- Lw. eapply lookup_lt_Some; eauto. }
    { rewrite <- Lp. eapply lookup_lt_Some; eauto. }
    exists x. rewrite (at_Z_Done _ _ _ Hc). simpl. rewrite Hx.
    repeat split; auto. intros _. exists c. auto.
  - exists 0%float. repeat split; auto. intros ->. lia.
Qed.

(** Property X17. On a well-formed system whose coordinates' transforms have one
    row per world axis and one column per pixel axis, [linearTransform] is a
    matrix of [nWorldAxes] rows and [nPixelAxes] columns whose entry for world
    axis [i] and pixel axis [j] is the entry of their coordinate's transform
    when both belong to one coordinate, and 0 otherwise. *)
Theorem linearTransform_spec (cs : System C) :
  well_formed cs ->
  Forall (fun c => shaped (Coordinate.nWorldAxes c) (Coordinate.nPixelAxes c)
                          (Coordinate.linearTransform c)) (coordinates_p cs) ->
  exists m,
    linearTransform cs = Done m /\
    shaped (nWorldAxes cs) (nPixelAxes cs) m /\
    forall i j wc wa pc pa,
      i < nWorldAxes cs -> j < nPixelAxes cs ->
      findWorldAxis cs i = Done (wc, wa) -> findPixelAxis cs j = Done (pc, pa) ->
      matrix_at m (Z.of_nat i) (Z.of_nat j)
      = if (wc =? pc)%Z
        then c ← at_Z (coordinates_p cs) wc;
             matrix_at (Coordinate.linearTransform c) wa pa
        else Done 0%float.
Proof.
  intros Hwf Hshape.
  set (nr := nWorldAxes cs). set (nc := nPixelAxes cs).
  set (done := fun (k l i j : nat) => (i <? k) || ((i =? k) && (j <? l))).
  set (Inv := fun (k l : nat) (m : Matrix) =>
    shaped nr nc m /\
    forall i j, i < nr -> j < nc ->
      matrix_at m (Z.of_nat i) (Z.of_nat j)
      = if done k l i j then coupling cs i j else Done 0%float).
  assert (Hinner : forall k m, k < nr -> Inv k 0 m ->
    exists m',
      foldM (fun retval j =>
               '(worldCoord, worldAxis) ← findWorldAxis cs k;
               '(pixelCoord, pixelAxis) ← findPixelAxis cs j;
               if (worldCoord =? pixelCoord)%Z && (0 <=? worldCoord)%Z
                  && (0 <=? worldAxis)%Z && (0 <=? pixelAxis)%Z
               then c ← at_Z (coordinates_p cs) worldCoord;
                    x ← matrix_at (Coordinate.linearTransform c) worldAxis pixelAxis;
                    matrix_set retval (Z.of_nat k) (Z.of_nat j) x
               else Done retval)
            (seq 0 nc) m = Done m' /\ Inv k nc m').
  { intros k m Hk H0.
    apply (foldM_seq_invariant _ (fun l m => Inv k l m)); [exact H0|].
    intros l m1 Hl [Hs Hval].
    destruct (coupling_Done cs k l Hwf Hshape Hk Hl)
      as (wc & wa & pc & pa & x & Hfw & Hfp & Hx & Hsame).
    rewrite Hfw, Hfp. simpl.
    assert (Hnew : forall m2,
              shaped nr nc m2 ->
              matrix_at m2 (Z.of_nat k) (Z.of_nat l) = coupling cs k l ->
              (forall i' j', i' <> k \/ j' <> l ->
                 matrix_at m2 (Z.of_nat i') (Z.of_nat j')
                 = matrix_at m1 (Z.of_nat i') (Z.of_nat j')) ->
              Inv k (S l) m2).
    { intros m2 Hs2 Hkl Hoth. split; [exact Hs2|]. intros i j Hi Hj.
      destruct (decide (i = k /\ j = l)) as [[-> ->]|Hne].
      - rewrite Hkl. unfold done. rewrite Nat.eqb_refl.
        destruct (Nat.ltb_spec l (S l)); [|lia]. now rewrite orb_true_r.
      - rewrite Hoth by lia. rewrite Hval by assumption. unfold done.
        destruct (Nat.ltb_spec i k), (Nat.eqb_spec i k), (Nat.ltb_spec j l),
          (Nat.ltb_spec j (S l)); simpl; try reflexivity; lia. }
    destruct (Z.eqb_spec (Z.of_nat wc) (Z.of_nat pc)) as [E|E].
    - assert (wc = pc) by lia. subst pc.
      destruct (Hsame eq_refl) as (c & Hc & Hat).
      destruct (Z.leb_spec 0 (Z.of_nat wc)); [|lia].
      destruct (Z.leb_spec 0 (Z.of_nat wa)); [|lia].
      destruct (Z.leb_spec 0 (Z.of_nat pa)); [|lia]. simpl.
      rewrite (at_Z_Done _ _ _ Hc). simpl. rewrite Hat. simpl.
      destruct (matrix_set_spec nr nc m1 k l x Hs Hk Hl) as (m2 & Hset & Hs2 & Hkl & Hoth).
      exists m2. split; [exact Hset|]. apply Hnew; auto. now rewrite Hx.
    - simpl. exists m1. split; [reflexivity|]. apply Hnew; auto.
      rewrite Hx. rewrite Hval by assumption. unfold done.
      destruct (Nat.ltb_spec k k); [lia|]. rewrite Nat.eqb_refl.
      destruct (Nat.ltb_spec l l); [lia|]. simpl.
      unfold coupling in Hx. rewrite Hfw, Hfp in Hx. simpl in Hx.
      destruct (Z.eqb_spec (Z.of_nat wc) (Z.of_nat pc)); [lia|]. now injection Hx as <-. }
  destruct (foldM_seq_invariant
              (fun retval i =>
                 foldM (fun retval j =>
                   '(worldCoord, worldAxis) ← findWorldAxis cs i;
                   '(pixelCoord, pixelAxis) ← findPixelAxis cs j;
                   if (worldCoord =? pixelCoord)%Z && (0 <=? worldCoord)%Z
                      && (0 <=? worldAxis)%Z && (0 <=? pixelAxis)%Z
                   then c ← at_Z (coordinates_p cs) worldCoord;
                        x ← matrix_at (Coordinate.linearTransform c) worldAxis pixelAxis;
                        matrix_set retval (Z.of_nat i) (Z.of_nat j) x
                   else Done retval)
                 (seq 0 nc) retval)
              (fun k m => Inv k 0 m) nr (zero_matrix nr nc))
    as (m & Hrun & Hs & Hval).
  - split; [apply shaped_zero|]. intros i j Hi Hj.
    rewrite zero_matrix_at by assumption. unfold done.
    destruct (Nat.ltb_spec i 0); [lia|]. destruct (Nat.ltb_spec j 0); [lia|].
    simpl. now rewrite andb_false_r.
  - intros k m Hk HI. destruct (Hinner k m Hk HI) as (m' & Hrun & Hs & Hval).
    exists m'. split; [exact Hrun|]. split; [exact Hs|]. intros i j Hi Hj.
    rewrite Hval by assumption. unfold done.
    destruct (Nat.ltb_spec i k), (Nat.eqb_spec i k), (Nat.ltb_spec i (S k)),
      (Nat.eqb_spec i (S k)), (Nat.ltb_spec j nc), (Nat.ltb_spec j 0);
      simpl; try reflexivity; lia.
  - exists m. split; [exact Hrun|]. split; [exact Hs|].
    intros i j wc wa pc pa Hi Hj Hfw Hfp. rewrite Hval by assumption.
    unfold done. destruct (Nat.ltb_spec i nr); [|lia]. simpl.
    unfold coupling. now rewrite Hfw, Hfp.
Qed.

End LinearTransform.

Section Append.
Context {C : Type} {V : Coordinate.Virtuals C}.

(** A derived vector read through maps that got one more block, for a
    coordinate added at the end. *)
Lemma derived_add {A : Type} (get : C -> list A) (maps : list (list Z))
    (coords : list C) (coord : C) (k : nat) (vec : list A) :
  axes_ok maps -> length maps = length coords -> length (get coord) = k ->
  derived maps coords get = Done vec ->
  derived (maps ++ [map (fun i => Z.of_nat (length (exposed maps) + i)) (seq 0 k)])
          (coords ++ [coord]) get
  = Done (vec ++ get coord).
Proof.
  intros Hok Hlen Hk H.
  destruct (find_exposed_add maps k Hok) as (Hn & Hnew & Hold).
  unfold derived in *.
  apply mapM_Outcome_Done in H. destruct H as [Lv Hall]. rewrite length_seq in Lv.
  rewrite Hn. replace (length (exposed maps) + k) with (length (vec ++ get coord))
    by (rewrite length_app; lia).
  apply mapM_Outcome_seq. intros i x Hi. simpl.
  destruct (Nat.lt_ge_cases i (length vec)) as [Hlt|Hge].
  - rewrite lookup_app_l in Hi by assumption.
    rewrite Hold by lia.
    destruct (Hall i i) as (y & Hy & Hv); [apply lookup_seq_lt; lia|].
    rewrite Hv in Hi. injection Hi as <-.
    destruct (find_exposed maps i) as [[c a]|e] eqn:Hf; [|discriminate]. simpl in *.
    destruct (at_Z coords c) as [cc|e] eqn:Hc; [|discriminate].
    assert (Hc' : at_Z (coords ++ [coord]) c = Done cc).
    { unfold at_Z in *. destruct (c <? 0)%Z; [discriminate|].
      unfold at_nat in *. destruct (coords !! Z.to_nat c) as [c0|] eqn:E; [|discriminate].
      now rewrite (lookup_app_l_Some _ _ _ _ E). }
    now rewrite Hc'.
  - rewrite lookup_app_r in Hi by assumption.
    pose proof (lookup_lt_Some _ _ _ Hi) as Li.
    replace i with (length (exposed maps) + (i - length vec)) at 1 by lia.
    rewrite Hnew by lia. simpl.
    rewrite Hlen. rewrite (at_Z_Done (coords ++ [coord]) (length coords) coord)
      by (apply list_lookup_middle; reflexivity).
    simpl. now apply at_Z_Done.
Qed.

(** Property X2. On a well-formed system [addCoordinate] appends the new
    coordinate's names, units, reference values and increments to the system's
    world vectors and its reference pixels to the system's, when the
    coordinate's vectors have one entry per axis. *)
Theorem addCoordinate_appends_descriptors (cs : System C) (coord : C)
    (junk : Uninitialised) :
  well_formed cs ->
  (forall names, worldAxisNames cs = Done names ->
     length (Coordinate.worldAxisNames coord) = Coordinate.nWorldAxes coord ->
     worldAxisNames (addCoordinate cs coord junk)
     = Done (names ++ Coordinate.worldAxisNames coord)) /\
  (forall units, worldAxisUnits cs = Done units ->
     length (Coordinate.worldAxisUnits coord) = Coordinate.nWorldAxes coord ->
     worldAxisUnits (addCoordinate cs coord junk)
     = Done (units ++ Coordinate.worldAxisUnits coord)) /\
  (forall refval, referenceValue cs = Done refval ->
     length (Coordinate.referenceValue coord) = Coordinate.nWorldAxes coord ->
     referenceValue (addCoordinate cs coord junk)
     = Done (refval ++ Coordinate.referenceValue coord)) /\
  (forall inc, increment cs = Done inc ->
     length (Coordinate.increment coord) = Coordinate.nWorldAxes coord ->
     increment (addCoordinate cs coord junk)
     = Done (inc ++ Coordinate.increment coord)) /\
  (forall refpix, referencePixel cs = Done refpix ->
     length (Coordinate.referencePixel coord) = Coordinate.nPixelAxes coord ->
     referencePixel (addCoordinate cs coord junk)
     = Done (refpix ++ Coordinate.referencePixel coord)).
Proof.
  intros Hwf.
  pose proof (Forall2_length _ _ _ (wf_world_maps cs Hwf)) as Lw.
  pose proof (Forall2_length _ _ _ (wf_pixel_maps cs Hwf)) as Lp.
  repeat split; intros v Hv Hl.
  - apply (derived_add _ _ _ _ _ _ (wf_world_axes cs Hwf) Lw Hl Hv).
  - apply (derived_add _ _ _ _ _ _ (wf_world_axes cs Hwf) Lw Hl Hv).
  - apply (derived_add _ _ _ _ _ _ (wf_world_axes cs Hwf) Lw Hl Hv).
  - apply (derived_add _ _ _ _ _ _ (wf_world_axes cs Hwf) Lw Hl Hv).
  - apply (derived_add _ _ _ _ _ _ (wf_pixel_axes cs Hwf) Lp Hl Hv).
Qed.

End Append.

Lemma basename_inj (t t' : Coordinate.Type_) : basename t = basename t' -> t = t'.
Proof. destruct t, t'; simpl; intros H; try reflexivity; discriminate. Qed.

Lemma find_none {A : Type} (P : A -> bool) (l : list A) :
  (forall y, In y l -> P y = false) -> List.find P l = None.
Proof.
  induction l as [|a l IH]; intros Hall; [reflexivity|].
  simpl. rewrite (Hall a) by now left. apply IH. intros; apply Hall; now right.
Qed.

Section Restore.
Context {C : Type} {V : Coordinate.Virtuals C}.
Variable restore_coordinate :
  Coordinate.Type_ -> gmap string RecordField -> string -> option C.

Lemma restore_find_Some (subrec : gmap string RecordField) (k : nat) (t : Coordinate.Type_) :
  is_Some (subrec !! (basename t +:+ num k)) ->
  (forall t', t' <> t -> subrec !! (basename t' +:+ num k) = None) ->
  restore_find subrec (num k) = Some t.
Proof.
  intros Hs Hn. unfold restore_find, saved_types.
  assert (Ht : bool_decide (is_Some (subrec !! (basename t +:+ num k))) = true)
    by now apply bool_decide_eq_true_2.
  assert (Hf : forall t', t' <> t ->
            bool_decide (is_Some (subrec !! (basename t' +:+ num k))) = false).
  { intros t' Hne. apply bool_decide_eq_false_2. rewrite (Hn t' Hne).
    apply is_Some_None. }
  destruct t; cbn [List.find];
    repeat (first [ rewrite Ht | rewrite Hf by discriminate ]); reflexivity.
Qed.

Lemma restore_find_None (subrec : gmap string RecordField) (k : nat) :
  (forall t, subrec !! (basename t +:+ num k) = None) ->
  restore_find subrec (num k) = None.
Proof.
  intros Hn. unfold restore_find. apply find_none. intros t _.
  apply bool_decide_eq_false_2. rewrite Hn. apply is_Some_None.
Qed.

Lemma lengths_add_from (junk : nat -> Uninitialised) (l : list C) :
  forall i cs,
    let cs' := add_from junk i l cs in
    coordinates_p cs' = coordinates_p cs ++ l /\
    length (world_tmps_p cs') = length (world_tmps_p cs) + length l /\
    length (pixel_tmps_p cs') = length (pixel_tmps_p cs) + length l /\
    length (world_maps_p cs') = length (world_maps_p cs) + length l /\
    length (world_replacement_values_p cs')
    = length (world_replacement_values_p cs) + length l /\
    length (pixel_maps_p cs') = length (pixel_maps_p cs) + length l /\
    length (pixel_replacement_values_p cs')
    = length (pixel_replacement_values_p cs) + length l.
Proof.
  induction l as [|c l IH]; intros i cs; simpl.
  - rewrite !app_nil_r. repeat split; lia.
  - destruct (IH (S i) (addCoordinate cs c (junk i))) as (-> & -> & -> & -> & -> & -> & ->).
    simpl. rewrite !length_app, <- !app_assoc. simpl. repeat split; lia.
Qed.

Lemma insert_take_drop_step {A : Type} (l b : list A) (k : nat) (x : A) :
  length b = length l -> l !! k = Some x ->
  <[k := x]> (take k l ++ drop k b) = take (S k) l ++ drop (S k) b.
Proof.
  intros Hlen Hx. pose proof (lookup_lt_Some _ _ _ Hx) as Hk.
  assert (Lt : length (take k l) = k) by (rewrite length_take; lia).
  rewrite insert_app_r_alt by lia. rewrite Lt, Nat.sub_diag.
  destruct (lookup_lt_is_Some_2 b k) as [y Hy]; [lia|].
  rewrite (drop_S _ _ _ Hy). simpl.
  rewrite (take_S_r _ _ _ Hx). now rewrite <- app_assoc.
Qed.

Lemma restore_loop_saved (cs : System C) (subrec : gmap string RecordField) :
  restore_law restore_coordinate cs ->
  saved_fields cs (nCoordinates cs) subrec ->
  forall fuel k, k <= nCoordinates cs -> nCoordinates cs - k < fuel ->
    restore_loop restore_coordinate fuel subrec k (take k (coordinates_p cs))
    = Some (Done (coordinates_p cs)).
Proof.
  intros Hlaw [Hkeys Hst]. induction fuel as [|fuel IH]; intros k Hk Hf; [lia|].
  simpl. unfold nCoordinates in *.
  destruct (Nat.eq_dec k (length (coordinates_p cs))) as [->|Hne].
  - rewrite restore_find_None.
    + now rewrite take_ge by lia.
    + intros t. destruct (subrec !! (basename t +:+ num _)) eqn:E; [|reflexivity].
      destruct (Hkeys _ (mk_is_Some _ _ E)) as (j & c & Hj & _ & Hin).
      apply In_coordinate_fields in Hin. destruct Hin as (kind & Heq & _).
      change (basename t +:+ num (length (coordinates_p cs)))
        with (field_name (KCoordinate t) (length (coordinates_p cs))) in Heq.
      apply field_name_inj in Heq. lia.
  - destruct (lookup_lt_is_Some_2 (coordinates_p cs) k) as [c Hc]; [lia|].
    destruct (Hst k c ltac:(lia) Hc)
      as (r & wm & wr & pm & pr & _ & _ & _ & _ & Hsaved & Lr & _).
    rewrite (restore_find_Some subrec k (Coordinate.type c)).
    + change (basename (Coordinate.type c) +:+ num k)
        with (field_name (KCoordinate (Coordinate.type c)) k).
      rewrite (Hlaw c _ r subrec (proj1 (list_elem_of_In _ _) (list_elem_of_lookup_2 _ _ _ Hc)) Hsaved Lr).
      rewrite <- (take_S_r _ _ _ Hc). apply IH; lia.
    + change (basename (Coordinate.type c) +:+ num k)
        with (field_name (KCoordinate (Coordinate.type c)) k).
      rewrite Lr. eauto.
    + intros t' Hne'.
      destruct (subrec !! (basename t' +:+ num k)) eqn:E; [|reflexivity]. exfalso.
      destruct (Hkeys _ (mk_is_Some _ _ E)) as (j & c' & Hj & Hc' & Hin).
      apply In_coordinate_fields in Hin. destruct Hin as (kind & Heq & Hty).
      change (basename t' +:+ num k) with (field_name (KCoordinate t') k) in Heq.
      apply field_name_inj in Heq. destruct Heq as [Hp <-].
      assert (c' = c) by congruence. subst c'.
      destruct kind as [t| | | |]; simpl in Hp.
      * apply basename_inj in Hp. subst t'. apply Hne'. now apply Hty.
      * destruct t'; discriminate.
      * destruct t'; discriminate.
      * destruct t'; discriminate.
      * destruct t'; discriminate.
Qed.

Lemma restore_second_loop (cs : System C) (subrec : gmap string RecordField)
    (added again : nat -> Uninitialised) :
  well_formed cs ->
  saved_fields cs (nCoordinates cs) subrec ->
  foldM (restore_body subrec again) (seq 0 (nCoordinates cs))
        (add_from added 0 (coordinates_p cs) empty)
  = Done (fresh_tmps again cs).
Proof.
  intros Hwf [_ Hst].
  destruct Hwf as [W1 _ W3 W4 _ W6 _ _].
  apply Forall2_length in W1, W3, W4, W6.
  set (built := add_from added 0 (coordinates_p cs) empty).
  destruct (lengths_add_from added (coordinates_p cs) 0 empty)
    as (Bc & Bwt & Bpt & Bwm & Bwr & Bpm & Bpr).
  fold built in Bc, Bwt, Bpt, Bwm, Bwr, Bpm, Bpr. simpl in Bc, Bwt, Bpt, Bwm, Bwr, Bpm, Bpr.
  clearbody built.
  set (wt := imap (fun i c => fresh_vector (world_tmp_junk (again i))
                                           (Coordinate.nWorldAxes c))
                  (coordinates_p cs)).
  set (pt := imap (fun i c => fresh_vector (pixel_tmp_junk (again i))
                                           (Coordinate.nPixelAxes c))
                  (coordinates_p cs)).
  assert (Lwt : length wt = length (coordinates_p cs)) by (unfold wt; apply length_imap).
  assert (Lpt : length pt = length (coordinates_p cs)) by (unfold pt; apply length_imap).
  set (P := fun (k : nat) (s : System C) =>
    s = mkSystem (coordinates_p cs)
          (take k (world_maps_p cs) ++ drop k (world_maps_p built))
          (take k wt ++ drop k (world_tmps_p built))
          (take k (world_replacement_values_p cs)
           ++ drop k (world_replacement_values_p built))
          (take k (pixel_maps_p cs) ++ drop k (pixel_maps_p built))
          (take k pt ++ drop k (pixel_tmps_p built))
          (take k (pixel_replacement_values_p cs)
           ++ drop k (pixel_replacement_values_p built))).
  destruct (foldM_seq_invariant (restore_body subrec again) P (nCoordinates cs) built)
    as (s & Hrun & Hs).
  - unfold P. rewrite !drop_0. simpl. rewrite <- Bc. now destruct built.
  - intros k s Hk ->. unfold nCoordinates in Hk.
    destruct (lookup_lt_is_Some_2 (coordinates_p cs) k Hk) as [c Hc].
    destruct (Hst k c Hk Hc)
      as (r & wm & wr & pm & pr & Hwm & Hwr & Hpm & Hpr & _ & _ & L2 & L3 & L4 & L5).
    unfold restore_body. cbn [coordinates_p world_tmps_p pixel_tmps_p world_maps_p
      pixel_maps_p world_replacement_values_p pixel_replacement_values_p].
    rewrite (at_nat_Done _ _ _ Hc). simpl.
    assert (Hlt : forall (A : Type) (l b : list A), length l = length (coordinates_p cs) ->
              length b = 0 + length (coordinates_p cs) ->
              k < length (take k l ++ drop k b)).
    { intros A l b Hl Hb. rewrite length_app, length_take, length_drop. lia. }
    rewrite (set_nat_Done (take k wt ++ drop k (world_tmps_p built)))
      by (apply Hlt; auto). simpl.
    rewrite (set_nat_Done (take k pt ++ drop k (pixel_tmps_p built)))
      by (apply Hlt; auto). simpl.
    unfold get_Int, get_Double.
    change ("pixelreplace" +:+ num k) with (field_name KPixelReplace k).
    change ("pixelmap" +:+ num k) with (field_name KPixelMap k).
    change ("worldreplace" +:+ num k) with (field_name KWorldReplace k).
    change ("worldmap" +:+ num k) with (field_name KWorldMap k).
    rewrite L2, L3, L4, L5. simpl.
    rewrite set_nat_Done by (apply Hlt; auto). simpl.
    rewrite set_nat_Done by (apply Hlt; auto). simpl.
    rewrite set_nat_Done by (apply Hlt; auto). simpl.
    rewrite set_nat_Done by (apply Hlt; auto). simpl.
    eexists. split; [reflexivity|]. unfold P.
    assert (Hwt : wt !! k = Some (fresh_vector (world_tmp_junk (again k))
                                               (Coordinate.nWorldAxes c)))
      by (unfold wt; rewrite list_lookup_imap, Hc; reflexivity).
    assert (Hpt : pt !! k = Some (fresh_vector (pixel_tmp_junk (again k))
                                               (Coordinate.nPixelAxes c)))
      by (unfold pt; rewrite list_lookup_imap, Hc; reflexivity).
    rewrite !insert_take_drop_step by (auto; lia). reflexivity.
  - rewrite Hrun, Hs. unfold fresh_tmps, nCoordinates.
    rewrite !take_ge by lia. rewrite !drop_ge by lia. now rewrite !app_nil_r.
Qed.

(** Property X18. [restore] reads back what [save] wrote: for a well-formed
    system whose coordinates are given back by their class's own restore, a free
    field name and enough fuel for the loop over the coordinates, [save]
    succeeds and [restore] of the record it leaves is the system with its
    temporaries allocated anew. *)
Theorem save_restore_round_trip (cs : System C) (container : gmap string RecordField)
    (fieldName : string) (fuel : nat) (added again : nat -> Uninitialised) :
  save_law -> restore_law restore_coordinate cs -> well_formed cs ->
  container !! fieldName = None -> nCoordinates cs < fuel ->
  exists container',
    save cs container fieldName = Done (true, container') /\
    restore restore_coordinate fuel container' fieldName added again
    = Some (Done (Some (fresh_tmps again cs))).
Proof.
  intros Hsave Hrestore Hwf Hfree Hfuel.
  destruct (save_fields cs Hsave Hwf) as (subrec & Hrun & Hfields).
  exists (<[fieldName := FieldRecord subrec]> container). split.
  - unfold save. rewrite bool_decide_eq_false_2 by (rewrite Hfree; apply is_Some_None).
    now rewrite Hrun.
  - unfold restore. rewrite lookup_insert_eq.
    pose proof (restore_loop_saved cs subrec Hrestore Hfields fuel 0
                  ltac:(lia) ltac:(lia)) as Hloop.
    rewrite take_0 in Hloop. rewrite Hloop.
    change (length (coordinates_p cs)) with (nCoordinates cs).
    now rewrite (restore_second_loop cs subrec added again Hwf Hfields).
Qed.

End Restore.

End CompositeLaws.

(** ** The FITS keywords *)

Module FitsLaws.
Import CoordinateSystem CoordinateSystemTheory CompositeLaws.

Lemma append_cons (c : Ascii.ascii) (s1 s2 : string) :
  String c s1 +:+ s2 = String c (s1 +:+ s2).
Proof. reflexivity. Qed.

Lemma length_append (s1 s2 : string) :
  String.length (s1 +:+ s2) = String.length s1 + String.length s2.
Proof. induction s1 as [|c s1 IH]; simpl; [reflexivity|]. now rewrite IH. Qed.

Lemma length_upcase (s : string) : String.length (upcase s) = String.length s.
Proof. induction s as [|c s IH]; simpl; [reflexivity|]. now rewrite IH. Qed.

Lemma length_substring_0 (n : nat) (s : string) :
  n <= String.length s -> String.length (String.substring 0 n s) = n.
Proof.
  revert s. induction n as [|n IH]; intros s Hn.
  - destruct s; reflexivity.
  - destruct s as [|c s]; simpl in *; [lia|]. rewrite IH; lia.
Qed.

Lemma upcase_substring_0 (n : nat) (s : string) :
  upcase (String.substring 0 n s) = String.substring 0 n (upcase s).
Proof.
  revert s. induction n as [|n IH]; intros s.
  - destruct s; reflexivity.
  - destruct s as [|c s]; simpl; [reflexivity|]. now rewrite IH.
Qed.

Lemma spaces_eq (n : nat) : spaces (S n) = String (Ascii.Ascii false false false false false true false false) (spaces n).
Proof. reflexivity. Qed.

Lemma length_spaces (n : nat) : String.length (spaces n) = n.
Proof.
  induction n as [|n IH]; [reflexivity|]. rewrite spaces_eq. simpl. now rewrite IH.
Qed.

Lemma append_assoc (s1 s2 s3 : string) : (s1 +:+ s2) +:+ s3 = s1 +:+ (s2 +:+ s3).
Proof.
  induction s1 as [|c s1 IH]; [reflexivity|]. rewrite !append_cons. now rewrite IH.
Qed.

Lemma append_empty_r (s : string) : s +:+ "" = s.
Proof.
  induction s as [|c s IH]; [reflexivity|]. rewrite append_cons. now rewrite IH.
Qed.

Lemma spaces_S (n : nat) : " " +:+ spaces n = spaces (S n).
Proof. reflexivity. Qed.

Lemma pad_loop_spaces (fuel : nat) (s : string) :
  8 - String.length s < fuel ->
  pad_loop fuel s = Some (s +:+ spaces (8 - String.length s)).
Proof.
  revert s. induction fuel as [|fuel IH]; intros s Hf; [lia|].
  simpl. destruct (Nat.ltb_spec (String.length s) 8) as [Hlt|Hge].
  - rewrite IH by (rewrite length_append; simpl; lia).
    rewrite length_append, append_assoc. simpl.
    replace (8 - String.length s) with (S (8 - (String.length s + 1))) by lia.
    reflexivity.
  - replace (8 - String.length s) with 0 by lia. simpl. now rewrite append_empty_r.
Qed.

Lemma upcase_ascii_idem (c : Ascii.ascii) : upcase_ascii (upcase_ascii c) = upcase_ascii c.
Proof. destruct c as [[] [] [] [] [] [] [] []]; vm_compute; reflexivity. Qed.

Lemma upcase_idem (s : string) : upcase (upcase s) = upcase s.
Proof.
  induction s as [|c s IH]; simpl; [reflexivity|].
  now rewrite upcase_ascii_idem, IH.
Qed.

Lemma upcase_append (s1 s2 : string) : upcase (s1 +:+ s2) = upcase s1 +:+ upcase s2.
Proof.
  induction s1 as [|c s1 IH]; [reflexivity|].
  rewrite append_cons. simpl. rewrite append_cons. now rewrite IH.
Qed.

Lemma upcase_spaces (n : nat) : upcase (spaces n) = spaces n.
Proof.
  induction n as [|n IH]; [reflexivity|]. rewrite spaces_eq. simpl. now rewrite IH.
Qed.

(** Property X19. The name of an ordinary axis and every unit are written by
    [toFITSHeader] in upper case and in exactly eight characters: a shorter
    string is filled with spaces, a longer one is cut; writing the result again
    changes nothing. *)
Theorem fits_string_spec (fuel : nat) (s : string) :
  8 < fuel ->
  exists r,
    fits_string fuel s = Some r /\
    String.length r = 8 /\
    (String.length s <= 8 -> r = upcase s +:+ spaces (8 - String.length s)) /\
    (8 <= String.length s -> r = upcase (String.substring 0 8 s)) /\
    fits_string fuel r = Some r.
Proof.
  intros Hf.
  assert (Hrun : forall x, fits_string fuel x
            = Some (if 8 <? String.length x then upcase (String.substring 0 8 x)
                    else upcase x +:+ spaces (8 - String.length x))).
  { intros x. unfold fits_string. rewrite length_upcase.
    destruct (Nat.ltb_spec 8 (String.length x)) as [Hlong|Hshort].
    - rewrite pad_loop_spaces
        by (rewrite length_substring_0 by (rewrite length_upcase; lia); lia).
      rewrite length_substring_0 by (rewrite length_upcase; lia).
      simpl. now rewrite append_empty_r, upcase_substring_0.
    - rewrite pad_loop_spaces by (rewrite length_upcase; lia).
      now rewrite length_upcase. }
  eexists. split; [apply Hrun|].
  assert (Hlen : String.length
            (if 8 <? String.length s then upcase (String.substring 0 8 s)
             else upcase s +:+ spaces (8 - String.length s)) = 8).
  { destruct (Nat.ltb_spec 8 (String.length s)).
    - rewrite length_upcase. apply length_substring_0. lia.
    - rewrite length_append, length_upcase, length_spaces. lia. }
  split; [exact Hlen|]. split; [|split].
  - intros Hs. destruct (Nat.ltb_spec 8 (String.length s)); [lia|reflexivity].
  - intros Hs. destruct (Nat.ltb_spec 8 (String.length s)) as [|Hle]; [reflexivity|].
    assert (E : String.length s = 8) by lia. rewrite E. simpl.
    rewrite append_empty_r. f_equal.
    clear -E. symmetry.
    assert (G : forall n x, String.length x = n -> String.substring 0 n x = x).
    { induction n as [|n IH]; intros [|c x] H; simpl in *; try reflexivity; try lia.
      f_equal. apply IH. lia. }
    now apply G.
  - rewrite Hrun, Hlen. simpl.
    rewrite append_empty_r. f_equal.
    destruct (Nat.ltb_spec 8 (String.length s)).
    + apply upcase_idem.
    + now rewrite upcase_append, upcase_idem, upcase_spaces.
Qed.

Section Stokes.
Variable FITSValue : Z -> Z.

Abbreviation step_ok := (step_ok FITSValue).

Lemma stokes_loop (stokes : list Z) (inc : Z) (l : list nat) (b : bool) :
  (forall i, In i l -> 1 <= i < length stokes) ->
  foldM (fun (inorder : bool) i =>
           si ← at_nat stokes i;
           sp ← at_nat stokes (i - 1);
           Done (if negb (FITSValue si - FITSValue sp =? inc)%Z
                 then false else inorder))
        l b
  = Done (b && forallb (step_ok stokes inc) l).
Proof.
  revert b. induction l as [|i l IH]; intros b Hl; simpl.
  - now rewrite andb_true_r.
  - destruct (Hl i ltac:(now left)) as [H1 H2].
    destruct (lookup_lt_is_Some_2 stokes i H2) as [si Hsi].
    destruct (lookup_lt_is_Some_2 stokes (i - 1)) as [sp Hsp]; [lia|].
    rewrite (at_nat_Done _ _ _ Hsi). simpl. rewrite (at_nat_Done _ _ _ Hsp). simpl.
    rewrite IH by (intros; apply Hl; now right).
    unfold CoordinateSystem.step_ok at 2. rewrite Hsi, Hsp. f_equal.
    destruct (FITSValue si - FITSValue sp =? inc)%Z, b; reflexivity.
Qed.

(** Property X20. The Stokes keywords of [toFITSHeader]: with no Stokes value
    the code reads outside the vector; otherwise [crpix] is 1 and either [crval]
    and [cdelt] give the FITS code of every Stokes value as [crval + k * cdelt],
    or the codes are not equally spaced and [crval] is the first code plus 200
    with [cdelt] 1. *)
Theorem stokes_keywords_spec :
  stokes_keywords FITSValue [] = Throw OutOfBounds /\
  forall (s0 : Z) (rest : list Z),
  exists crval cdelt,
    stokes_keywords FITSValue (s0 :: rest) = Done (crval, 1%Z, cdelt) /\
    ((crval = FITSValue s0 /\
      forall k s, (s0 :: rest) !! k = Some s ->
                  FITSValue s = (crval + Z.of_nat k * cdelt)%Z) \/
     (crval = (FITSValue s0 + 200)%Z /\ cdelt = 1%Z /\
      ~ exists inc, forall k s, (s0 :: rest) !! k = Some s ->
                      FITSValue s = (FITSValue s0 + Z.of_nat k * inc)%Z)).
Proof.
  split; [reflexivity|].
  intros s0 rest. unfold stokes_keywords.
  destruct rest as [|s1 rest].
  - simpl. exists (FITSValue s0), 1%Z. split; [reflexivity|]. left.
    split; [reflexivity|]. intros [|k] s H; [|discriminate].
    injection H as <-. lia.
  - set (stokes := s0 :: s1 :: rest).
    set (inc := (FITSValue s1 - FITSValue s0)%Z).
    assert (Hn : (1 <? length stokes) = true) by reflexivity.
    rewrite Hn. cbn [at_nat lookup list_lookup stokes]. simpl mbind.
    fold stokes. fold inc.
    rewrite stokes_loop.
    2:{ intros i Hi. apply in_seq in Hi. simpl in *. lia. }
    simpl mbind.
    change (seq 2 (length rest - 0)) with (seq 2 (length stokes - 2)).
    destruct (forallb (step_ok stokes inc) (seq 2 (length stokes - 2))) eqn:Hall.
    + exists (FITSValue s0), inc. split; [reflexivity|]. left.
      split; [reflexivity|].
      assert (Hstep : forall k s s', stokes !! k = Some s -> stokes !! S k = Some s' ->
                (FITSValue s' - FITSValue s = inc)%Z).
      { intros [|k] s s' Hs Hs'.
        - injection Hs as <-. injection Hs' as <-. reflexivity.
        - rewrite forallb_forall in Hall.
          pose proof (lookup_lt_Some _ _ _ Hs') as Hlt.
          specialize (Hall (S (S k))).
          unfold CoordinateSystem.step_ok in Hall. rewrite Hs' in Hall.
          replace (S (S k) - 1) with (S k) in Hall by lia. rewrite Hs in Hall.
          apply Z.eqb_eq. apply Hall. apply in_seq. lia. }
      induction k as [|k IH]; intros s Hs.
      * injection Hs as <-. lia.
      * destruct (lookup_lt_is_Some_2 stokes k) as [p Hp].
        { apply lookup_lt_Some in Hs. lia. }
        pose proof (Hstep k p s Hp Hs). pose proof (IH p Hp). lia.
    + exists (FITSValue s0 + 200)%Z, 1%Z. split; [reflexivity|]. right.
      split; [reflexivity|]. split; [reflexivity|].
      intros (inc' & Hprog).
      assert (Einc : inc' = inc).
      { pose proof (Hprog 1 s1 eq_refl). unfold inc. lia. }
      subst inc'.
      assert (Htrue : forallb (step_ok stokes inc) (seq 2 (length stokes - 2)) = true).
      { apply forallb_forall. intros i Hi. apply in_seq in Hi.
        unfold CoordinateSystem.step_ok.
        destruct (stokes !! i) as [si|] eqn:Hsi; [|reflexivity].
        destruct (stokes !! (i - 1)) as [sp|] eqn:Hsp; [|reflexivity].
        apply Z.eqb_eq.
        pose proof (Hprog i si Hsi). pose proof (Hprog (i - 1) sp Hsp). nia. }
      congruence.
Qed.
End Stokes.

(** A function that is injective on a list without repetition maps it to
    a list without repetition. *)
Lemma NoDup_map_injective {A B : Type} (f : A -> B) (l : list A) :
  (forall x y, In x l -> In y l -> f x = f y -> x = y) ->
  List.NoDup l -> List.NoDup (map f l).
Proof.
  intros Hinj Hnd. induction Hnd as [|x l Hx Hnd IH]; simpl; constructor.
  - intros Hin. apply in_map_iff in Hin. destruct Hin as (y & Hy & Hin).
    apply Hx. rewrite (Hinj x y) ; auto; [now left|now right].
  - apply IH. intros a b Ha Hb. apply Hinj; now right.
Qed.

Section FitsOrder.
Context {C : Type} {V : Coordinate.Virtuals C}.
Variables (longAxis latAxis stokesAxis specAxis : Z).

Abbreviation special_axis := (special_axis longAxis latAxis stokesAxis specAxis).
Abbreviation linear_before := (linear_before longAxis latAxis stokesAxis specAxis).
Abbreviation nspecial := (nspecial longAxis latAxis stokesAxis specAxis).
Abbreviation assigned := (assigned longAxis latAxis stokesAxis specAxis).
Abbreviation placeable := (placeable longAxis latAxis stokesAxis specAxis).

Lemma linear_before_S (i : nat) :
  linear_before (S i) = linear_before i + (if special_axis i then 0 else 1).
Proof.
  unfold linear_before. rewrite seq_S, List.filter_app, length_app. simpl.
  destruct (special_axis i); reflexivity.
Qed.

Lemma linear_before_mono (i j : nat) : i <= j -> linear_before i <= linear_before j.
Proof.
  induction 1 as [|j _ IH]; [lia|]. rewrite linear_before_S. lia.
Qed.

Lemma linear_before_lt (i j : nat) :
  i < j -> special_axis i = false -> linear_before i < linear_before j.
Proof.
  intros Hij Hi. pose proof (linear_before_mono (S i) j Hij) as Hm.
  rewrite linear_before_S, Hi in Hm. lia.
Qed.

Lemma fits_order_places (n : nat) (order0 : list Z) :
  length order0 = n ->
  exists order,
    fits_order n longAxis latAxis stokesAxis specAxis order0 = Done order /\
    length order = n /\
    forall i, i < n -> order !! i = Some (assigned order0 i).
Proof.
  intros Hlen. unfold fits_order. fold nspecial.
  destruct (foldM_seq_invariant
              (fits_order_body longAxis latAxis stokesAxis specAxis nspecial)
              (fun k st => length (fst st) = n /\
                           snd st = Z.of_nat (linear_before k) /\
                           (forall i, i < k -> fst st !! i = Some (assigned order0 i)) /\
                           (forall i, k <= i -> fst st !! i = order0 !! i))
              n (order0, 0%Z)) as ([order lin] & Hrun & Hl & _ & Hp & _).
  - simpl. repeat split; auto. intros; lia.
  - intros k [order lin] Hk (Hl & Hlin & Hdone & Hrest). simpl in Hl, Hlin, Hdone, Hrest.
    assert (Hkeep : forall v lin',
               v = assigned order0 k -> lin' = Z.of_nat (linear_before (S k)) ->
               length (<[k := v]> order) = n /\
               lin' = Z.of_nat (linear_before (S k)) /\
               (forall i, i < S k -> <[k := v]> order !! i = Some (assigned order0 i)) /\
               (forall i, S k <= i -> <[k := v]> order !! i = order0 !! i)).
    { intros v lin' -> ->. rewrite length_insert. repeat split; auto.
      - intros i Hi. destruct (decide (i = k)) as [->|Hne].
        + apply list_lookup_insert_eq. lia.
        + rewrite list_lookup_insert_ne by auto. apply Hdone. lia.
      - intros i Hi. rewrite list_lookup_insert_ne by lia. apply Hrest. lia. }
    unfold fits_order_body.
    destruct (Z.of_nat k =? longAxis)%Z eqn:E1.
    { rewrite set_nat_Done by lia. simpl. eexists. split; [reflexivity|].
      simpl. apply Hkeep.
      - unfold assigned. now rewrite E1.
      - rewrite linear_before_S. unfold special_axis. rewrite E1. simpl. lia. }
    destruct (Z.of_nat k =? latAxis)%Z eqn:E2.
    { rewrite set_nat_Done by lia. simpl. eexists. split; [reflexivity|].
      simpl. apply Hkeep.
      - unfold assigned. now rewrite E1, E2.
      - rewrite linear_before_S. unfold special_axis. rewrite E1, E2. simpl. lia. }
    destruct (Z.of_nat k =? stokesAxis)%Z eqn:E3.
    { rewrite set_nat_Done by lia. simpl. eexists. split; [reflexivity|].
      simpl. apply Hkeep.
      - unfold assigned. now rewrite E1, E2, E3.
      - rewrite linear_before_S. unfold special_axis. rewrite E1, E2, E3. simpl. lia. }
    destruct (Z.of_nat k =? specAxis)%Z eqn:E4.
    { assert (Hlin' : lin = Z.of_nat (linear_before (S k))).
      { rewrite linear_before_S. unfold special_axis. rewrite E1, E2, E3, E4.
        simpl. lia. }
      destruct ((0 <=? longAxis)%Z && (0 <=? stokesAxis)%Z) eqn:E5.
      { rewrite set_nat_Done by lia. simpl. eexists. split; [reflexivity|].
        simpl. apply Hkeep; [|exact Hlin'].
        unfold assigned. now rewrite E1, E2, E3, E4, E5. }
      destruct (0 <=? longAxis)%Z eqn:E6.
      { rewrite set_nat_Done by lia. simpl. eexists. split; [reflexivity|].
        simpl. apply Hkeep; [|exact Hlin'].
        unfold assigned. rewrite E1, E2, E3, E4, E6. simpl in E5. now rewrite E5. }
      destruct (0 <=? stokesAxis)%Z eqn:E7.
      { rewrite set_nat_Done by lia. simpl. eexists. split; [reflexivity|].
        simpl. apply Hkeep; [|exact Hlin'].
        unfold assigned. now rewrite E1, E2, E3, E4, E6, E7. }
      eexists. split; [reflexivity|]. simpl.
      destruct (lookup_lt_is_Some_2 order k ltac:(lia)) as [x Hx].
      specialize (Hkeep x lin).
      rewrite (list_insert_id order k x Hx) in Hkeep. apply Hkeep; [|exact Hlin'].
      unfold assigned. rewrite E1, E2, E3, E4, E6, E7. simpl.
      rewrite <- (Hrest k (le_n k)), Hx. reflexivity. }
    rewrite set_nat_Done by lia. simpl. eexists. split; [reflexivity|].
    simpl. apply Hkeep.
    + unfold assigned. rewrite E1, E2, E3, E4. subst lin. reflexivity.
    + rewrite linear_before_S. unfold special_axis. rewrite E1, E2, E3, E4.
      simpl. lia.
  - exists order. rewrite Hrun. simpl. auto.
Qed.

Lemma count_index (a : Z) (n : nat) :
  length (List.filter (fun i => (Z.of_nat i =? a)%Z) (seq 0 n))
  = if (0 <=? a)%Z && (a <? Z.of_nat n)%Z then 1 else 0.
Proof.
  induction n as [|n IH].
  - change (Z.of_nat 0) with 0%Z. cbn [seq List.filter length].
    destruct (Z.leb_spec 0 a), (Z.ltb_spec a 0); simpl; try reflexivity; lia.
  - rewrite seq_S, List.filter_app, length_app, IH. simpl.
    destruct (Z.eqb_spec (Z.of_nat n) a), (Z.leb_spec 0 a),
      (Z.ltb_spec a (Z.of_nat n)), (Z.ltb_spec a (Z.of_nat (S n)));
      simpl; lia.
Qed.

Lemma filter_orb_length {A : Type} (p q : A -> bool) (l : list A) :
  (forall x, In x l -> p x = true -> q x = false) ->
  length (List.filter (fun x => p x || q x) l)
  = length (List.filter p l) + length (List.filter q l).
Proof.
  induction l as [|x l IH]; intros Hd; [reflexivity|]. simpl.
  specialize (IH (fun y Hy => Hd y (or_intror Hy))).
  pose proof (Hd x (or_introl eq_refl)) as Hx.
  destruct (p x), (q x); simpl; try lia.
Qed.

Lemma count_special (n : nat) :
  placeable n ->
  Z.of_nat (length (List.filter special_axis (seq 0 n))) = nspecial.
Proof.
  intros [].
  unfold special_axis.
  rewrite !filter_orb_length, !count_index.
  - unfold nspecial, count_axis.
    destruct (Z.leb_spec 0 longAxis), (Z.leb_spec 0 latAxis),
      (Z.leb_spec 0 stokesAxis), (Z.leb_spec 0 specAxis),
      (Z.ltb_spec longAxis (Z.of_nat n)), (Z.ltb_spec latAxis (Z.of_nat n)),
      (Z.ltb_spec stokesAxis (Z.of_nat n)), (Z.ltb_spec specAxis (Z.of_nat n));
      simpl; lia.
  - intros x _ Hx. apply Z.eqb_eq in Hx. apply Z.eqb_neq. lia.
  - intros x _ Hx. apply orb_true_iff in Hx. apply Z.eqb_neq.
    destruct Hx as [Hx|Hx]; apply Z.eqb_eq in Hx; lia.
  - intros x _ Hx. apply orb_true_iff in Hx. apply Z.eqb_neq.
    destruct Hx as [Hx|Hx]; [apply orb_true_iff in Hx; destruct Hx as [Hx|Hx]|];
      apply Z.eqb_eq in Hx; lia.
Qed.

Lemma linear_total (n : nat) :
  placeable n -> (nspecial + Z.of_nat (linear_before n) = Z.of_nat n)%Z.
Proof.
  intros Hp. rewrite <- (count_special n Hp). unfold linear_before.
  pose proof (List.filter_length special_axis (seq 0 n)) as Hl.
  rewrite length_seq in Hl. lia.
Qed.

Lemma special_axis_false (i : nat) :
  special_axis i = false ->
  Z.of_nat i <> longAxis /\ Z.of_nat i <> latAxis /\
  Z.of_nat i <> stokesAxis /\ Z.of_nat i <> specAxis.
Proof.
  unfold special_axis. intros Hs.
  repeat (apply orb_false_iff in Hs; destruct Hs as [Hs ?]).
  repeat split; now apply Z.eqb_neq.
Qed.

Lemma assigned_range (n : nat) (order0 : list Z) (i : nat) :
  placeable n -> (0 <= specAxis -> 0 <= longAxis)%Z -> i < n ->
  (0 <= assigned order0 i < Z.of_nat n)%Z.
Proof.
  intros Hp Hspec Hi. pose proof (linear_total n Hp) as Ht.
  destruct (special_axis i) eqn:Hs.
  - pose proof (linear_before_mono 0 n ltac:(lia)) as Hm.
    destruct Hp. unfold assigned. unfold nspecial, count_axis in Ht.
    unfold special_axis in Hs.
    destruct (Z.eqb_spec (Z.of_nat i) longAxis), (Z.eqb_spec (Z.of_nat i) latAxis),
      (Z.eqb_spec (Z.of_nat i) stokesAxis), (Z.eqb_spec (Z.of_nat i) specAxis),
      (Z.leb_spec 0 longAxis), (Z.leb_spec 0 latAxis),
      (Z.leb_spec 0 stokesAxis), (Z.leb_spec 0 specAxis);
      simpl in *; try discriminate; try lia.
  - pose proof (linear_before_lt i n Hi Hs) as Hlt.
    destruct (special_axis_false i Hs) as (H1 & H2 & H3 & H4).
    unfold assigned.
    destruct (Z.eqb_spec (Z.of_nat i) longAxis); [lia|].
    destruct (Z.eqb_spec (Z.of_nat i) latAxis); [lia|].
    destruct (Z.eqb_spec (Z.of_nat i) stokesAxis); [lia|].
    destruct (Z.eqb_spec (Z.of_nat i) specAxis); [lia|].
    assert (0 <= nspecial)%Z.
    { unfold nspecial, count_axis.
      destruct (0 <=? longAxis)%Z, (0 <=? latAxis)%Z, (0 <=? stokesAxis)%Z,
        (0 <=? specAxis)%Z; lia. }
    lia.
Qed.

Lemma assigned_special_small (n : nat) (order0 : list Z) (i : nat) :
  placeable n -> (0 <= specAxis -> 0 <= longAxis)%Z ->
  special_axis i = true -> (assigned order0 i < nspecial)%Z.
Proof.
  intros [] Hspec Hs. unfold assigned, nspecial, count_axis.
  unfold special_axis in Hs.
  destruct (Z.eqb_spec (Z.of_nat i) longAxis), (Z.eqb_spec (Z.of_nat i) latAxis),
    (Z.eqb_spec (Z.of_nat i) stokesAxis), (Z.eqb_spec (Z.of_nat i) specAxis),
    (Z.leb_spec 0 longAxis), (Z.leb_spec 0 latAxis),
    (Z.leb_spec 0 stokesAxis), (Z.leb_spec 0 specAxis);
    simpl in *; try discriminate; try lia.
Qed.

Lemma assigned_linear (order0 : list Z) (i : nat) :
  special_axis i = false ->
  assigned order0 i = (nspecial + Z.of_nat (linear_before i))%Z.
Proof.
  intros Hs. destruct (special_axis_false i Hs) as (H1 & H2 & H3 & H4).
  unfold assigned.
  destruct (Z.eqb_spec (Z.of_nat i) longAxis); [lia|].
  destruct (Z.eqb_spec (Z.of_nat i) latAxis); [lia|].
  destruct (Z.eqb_spec (Z.of_nat i) stokesAxis); [lia|].
  destruct (Z.eqb_spec (Z.of_nat i) specAxis); [lia|]. reflexivity.
Qed.

Lemma assigned_special_cases (order0 : list Z) (i : nat) :
  special_axis i = true ->
  (Z.of_nat i = longAxis /\ assigned order0 i = 0%Z) \/
  (Z.of_nat i = latAxis /\ assigned order0 i = 1%Z) \/
  (Z.of_nat i = stokesAxis /\
   assigned order0 i = if (0 <=? longAxis)%Z then 2%Z else 0%Z) \/
  (Z.of_nat i = specAxis /\
   assigned order0 i =
     if (0 <=? longAxis)%Z && (0 <=? stokesAxis)%Z then 3%Z
     else if (0 <=? longAxis)%Z then 2%Z
     else if (0 <=? stokesAxis)%Z then 0%Z
     else default 0%Z (order0 !! i)).
Proof.
  unfold special_axis, assigned. intros Hs.
  destruct (Z.eqb_spec (Z.of_nat i) longAxis); [now left|].
  destruct (Z.eqb_spec (Z.of_nat i) latAxis); [now right; left|].
  destruct (Z.eqb_spec (Z.of_nat i) stokesAxis); [now right; right; left|].
  destruct (Z.eqb_spec (Z.of_nat i) specAxis); [now right; right; right|].
  discriminate.
Qed.

Lemma assigned_special_inj (n : nat) (order0 : list Z) (i j : nat) :
  placeable n -> (0 <= specAxis -> 0 <= longAxis)%Z ->
  special_axis i = true -> special_axis j = true ->
  assigned order0 i = assigned order0 j -> i = j.
Proof.
  intros [] Hspec Hi Hj Heq.
  destruct (assigned_special_cases order0 i Hi)
    as [[Ei Vi]|[[Ei Vi]|[[Ei Vi]|[Ei Vi]]]];
  destruct (assigned_special_cases order0 j Hj)
    as [[Ej Vj]|[[Ej Vj]|[[Ej Vj]|[Ej Vj]]]];
  rewrite Vi, Vj in Heq; clear Vi Vj;
  destruct (Z.leb_spec 0 longAxis), (Z.leb_spec 0 stokesAxis);
  simpl in Heq; lia.
Qed.

Lemma assigned_inj (n : nat) (order0 : list Z) (i j : nat) :
  placeable n -> (0 <= specAxis -> 0 <= longAxis)%Z ->
  i < n -> j < n -> assigned order0 i = assigned order0 j -> i = j.
Proof.
  intros Hp Hspec Hi Hj Heq.
  destruct (special_axis i) eqn:Si, (special_axis j) eqn:Sj.
  - eapply assigned_special_inj; eauto.
  - pose proof (assigned_special_small n order0 i Hp Hspec Si).
    rewrite (assigned_linear order0 j Sj) in Heq. lia.
  - pose proof (assigned_special_small n order0 j Hp Hspec Sj).
    rewrite (assigned_linear order0 i Si) in Heq. lia.
  - rewrite (assigned_linear order0 i Si), (assigned_linear order0 j Sj) in Heq.
    destruct (Nat.lt_trichotomy i j) as [Hlt|[->|Hlt]]; [|reflexivity|].
    + pose proof (linear_before_lt i j Hlt Si). lia.
    + pose proof (linear_before_lt j i Hlt Sj). lia.
Qed.

(** Property X21. The transpose order of [fromFITSHeader] when every spectral
    axis comes with a direction: it is a permutation of the axis numbers, with
    longitude at 0, latitude at 1, Stokes next and the spectral axis after it,
    and the other axes after the special ones in their header order. *)
Theorem fits_order_permutation (n : nat) (order0 : list Z) :
  placeable n -> (0 <= specAxis -> 0 <= longAxis)%Z -> length order0 = n ->
  exists order,
    fits_order n longAxis latAxis stokesAxis specAxis order0 = Done order /\
    Permutation order (Zseq n) /\
    ((0 <= longAxis)%Z ->
       order !! Z.to_nat longAxis = Some 0%Z /\
       order !! Z.to_nat latAxis = Some 1%Z) /\
    ((0 <= stokesAxis)%Z ->
       order !! Z.to_nat stokesAxis
       = Some (if (0 <=? longAxis)%Z then 2 else 0)%Z) /\
    ((0 <= specAxis)%Z ->
       order !! Z.to_nat specAxis
       = Some (if (0 <=? stokesAxis)%Z then 3 else 2)%Z) /\
    (forall i j, i < j < n -> special_axis i = false -> special_axis j = false ->
       exists a b, order !! i = Some a /\ order !! j = Some b /\
                   (nspecial <= a < b)%Z).
Proof.
  intros Hp Hspec Hlen.
  destruct (fits_order_places n order0 Hlen) as (order & Hrun & Hl & Hat).
  exists order. split; [exact Hrun|].
  assert (Hmap : order = map (assigned order0) (seq 0 n)).
  { apply list_eq. intros i. destruct (decide (i < n)) as [Hi|Hi].
    - rewrite (Hat i Hi), list_lookup_fmap, lookup_seq_lt by auto. reflexivity.
    - rewrite !lookup_ge_None_2; auto; [rewrite length_map, length_seq|]; lia. }
  split; [|split; [|split; [|split]]].
  - apply NoDup_Permutation_bis.
    + rewrite Hmap. apply NoDup_map_injective; [|apply seq_NoDup].
      intros x y Hx Hy. apply in_seq in Hx, Hy.
      apply (assigned_inj n); auto; lia.
    + unfold Zseq. rewrite length_map, length_seq. lia.
    + rewrite Hmap. intros z Hz. apply in_map_iff in Hz.
      destruct Hz as (i & <- & Hi). apply in_seq in Hi.
      pose proof (assigned_range n order0 i Hp Hspec ltac:(lia)) as Hr.
      unfold Zseq. apply in_map_iff. exists (Z.to_nat (assigned order0 i)).
      split; [lia|]. apply in_seq. lia.
  - intros Hlong. destruct Hp. split.
    + rewrite Hat by lia. unfold CoordinateSystem.assigned.
      rewrite Z2Nat.id by lia. now rewrite Z.eqb_refl.
    + rewrite Hat by lia. unfold CoordinateSystem.assigned.
      rewrite Z2Nat.id by lia. rewrite Z.eqb_refl.
      destruct (Z.eqb_spec latAxis longAxis); [lia|reflexivity].
  - intros Hst. destruct Hp. rewrite Hat by lia. unfold CoordinateSystem.assigned.
    rewrite Z2Nat.id by lia. rewrite Z.eqb_refl.
    destruct (Z.eqb_spec stokesAxis longAxis); [lia|].
    destruct (Z.eqb_spec stokesAxis latAxis); [lia|]. reflexivity.
  - intros Hsp. destruct Hp. rewrite Hat by lia. unfold CoordinateSystem.assigned.
    rewrite Z2Nat.id by lia. rewrite Z.eqb_refl.
    destruct (Z.eqb_spec specAxis longAxis); [lia|].
    destruct (Z.eqb_spec specAxis latAxis); [lia|].
    destruct (Z.eqb_spec specAxis stokesAxis); [lia|].
    destruct (Z.leb_spec 0 longAxis); [|lia].
    destruct (Z.leb_spec 0 stokesAxis); reflexivity.
  - intros i j Hij Si Sj. exists (assigned order0 i), (assigned order0 j).
    rewrite !Hat by lia. repeat split.
    + rewrite (assigned_linear _ _ Si). lia.
    + rewrite (assigned_linear _ _ Si), (assigned_linear _ _ Sj).
      pose proof (linear_before_lt i j ltac:(lia) Si). lia.
Qed.

(** Property X22. A header with a spectral axis and no direction: beside a
    Stokes axis both are given place 0, so that the [transpose] that ends
    [fromFITSHeader] throws [AipsError] on every system; without a Stokes axis
    the place of the spectral axis in the order is never written. *)
Theorem fits_order_spectral_without_direction (n : nat) (order0 : list Z) :
  (longAxis < 0)%Z -> (latAxis < 0)%Z -> (0 <= specAxis < Z.of_nat n)%Z ->
  (stokesAxis < Z.of_nat n)%Z -> stokesAxis <> specAxis ->
  length order0 = n ->
  exists order,
    fits_order n longAxis latAxis stokesAxis specAxis order0 = Done order /\
    ((0 <= stokesAxis)%Z ->
       order !! Z.to_nat stokesAxis = Some 0%Z /\
       order !! Z.to_nat specAxis = Some 0%Z /\
       forall cs : System C, transpose cs order order = Throw AipsError) /\
    ((stokesAxis < 0)%Z ->
       order !! Z.to_nat specAxis = order0 !! Z.to_nat specAxis).
Proof.
  intros Hlong Hlat Hsp Hst Hne Hlen.
  destruct (fits_order_places n order0 Hlen) as (order & Hrun & Hl & Hat).
  exists order. split; [exact Hrun|].
  assert (Hspec : order !! Z.to_nat specAxis
                  = Some (if (0 <=? stokesAxis)%Z then 0%Z
                          else default 0%Z (order0 !! Z.to_nat specAxis))).
  { rewrite Hat by lia. unfold CoordinateSystem.assigned.
    rewrite Z2Nat.id by lia. rewrite Z.eqb_refl.
    destruct (Z.eqb_spec specAxis longAxis); [lia|].
    destruct (Z.eqb_spec specAxis latAxis); [lia|].
    destruct (Z.eqb_spec specAxis stokesAxis); [lia|].
    destruct (Z.leb_spec 0 longAxis); [lia|]. reflexivity. }
  split.
  - intros H0.
    assert (Hstokes : order !! Z.to_nat stokesAxis = Some 0%Z).
    { rewrite Hat by lia. unfold CoordinateSystem.assigned.
      rewrite Z2Nat.id by lia. rewrite Z.eqb_refl.
      destruct (Z.eqb_spec stokesAxis longAxis); [lia|].
      destruct (Z.eqb_spec stokesAxis latAxis); [lia|].
      destruct (Z.leb_spec 0 longAxis); [lia|]. reflexivity. }
    destruct (Z.leb_spec 0 stokesAxis); [|lia].
    split; [exact Hstokes|]. split; [exact Hspec|].
    intros cs. apply transpose_rejects. intros [HP _].
    assert (Hnd : NoDup order).
    { apply NoDup_ListNoDup. apply (Permutation_NoDup (Permutation_sym HP)).
      unfold Zseq. apply NoDup_map_injective; [|apply seq_NoDup].
      intros; lia. }
    pose proof (NoDup_lookup _ _ _ _ Hnd Hstokes Hspec). lia.
  - intros Hneg. rewrite Hspec.
    destruct (Z.leb_spec 0 stokesAxis); [lia|].
    destruct (lookup_lt_is_Some_2 order0 (Z.to_nat specAxis) ltac:(lia)) as [x ->].
    reflexivity.
Qed.

End FitsOrder.

End FitsLaws.

(** ** The examples *)

Module Scenarios.
Import CoordinateSystem Examples CoordinateTheory CoordinateSystemTheory.

(** [Mock.Coord] is a lawful class. *)
Lemma mock_lawful : Coordinate.lawful Mock.valid.
Proof.
  constructor.
  - intros c Hc. simpl. auto.
  - intros c v Hc Hv. simpl in *. unfold Mock.set_crpix.
    rewrite Hv, Nat.eqb_refl. simpl. unfold Coordinate.same_shape. simpl. auto 10.
  - intros c v Hc Hv. simpl in *. unfold Mock.set_cdelt.
    rewrite Hv, Nat.eqb_refl. simpl. unfold Coordinate.same_shape, Mock.valid. simpl. auto 10.
  - intros c v Hc Hv. simpl in *. unfold Mock.set_crval.
    rewrite Hv, Nat.eqb_refl. simpl. unfold Coordinate.same_shape, Mock.valid in *. simpl.
    repeat split; auto. congruence.
Qed.

Lemma mock_out_toWorld (c : Mock.Coord) : Coordinate.out_parameter (Coordinate.toWorld c).
Proof.
  intros w w' p. simpl. unfold Mock.toWorld.
  destruct (existsb Mock.negative p); simpl; split; auto; discriminate.
Qed.

Lemma mock_out_toPixel (c : Mock.Coord) : Coordinate.out_parameter (Coordinate.toPixel c).
Proof.
  intros w w' p. simpl. unfold Mock.toPixel.
  destruct (existsb Mock.negative _); simpl; split; auto; discriminate.
Qed.

Lemma mock_save_law : save_law (C := Mock.Coord).
Proof.
  intros c rec name Hfree. simpl. unfold Mock.save.
  rewrite bool_decide_eq_false_2 by (rewrite Hfree; apply is_Some_None).
  eexists. reflexivity.
Qed.


(** Claim C1 fails on this run.  [stokes_linear] holds a Stokes coordinate
    and a linear one, one axis each.  A first [toWorld] of the pixel
    [(1, 7)] succeeds and gives [(1, 7)].  In a second [toWorld], of the
    pixel [(-1, 5)], the Stokes coordinate fails; the linear coordinate's
    own [toWorld] of its pixel 5 would succeed and give 5, but it is not
    called: its temporary still holds the 7 of the first call, and this 7
    is what is copied to the caller's vector.  [toPixel] does the
    same. *)
Theorem toWorld_skips_after_failure :
  (toWorld stokes_linear [0; 0]%float [1; 7]%float ≫= fun '(ok1, world1, cs1) =>
   toWorld cs1 [0; 0]%float [-1; 5]%float ≫= fun '(ok2, world2, cs2) =>
   Done (ok1, world1, ok2, world2, world_tmps_p cs2))
  = Done (true, [1; 7]%float, false, [1; 7]%float, [[1]; [7]]%float) /\
  Coordinate.toWorld linear1 [7]%float [5]%float
  = Coordinate.mkConversion true [5]%float "" /\
  (toPixel stokes_linear [0; 0]%float [1; 7]%float ≫= fun '(ok1, pixel1, cs1) =>
   toPixel cs1 [0; 0]%float [-1; 5]%float ≫= fun '(ok2, pixel2, cs2) =>
   Done (ok1, pixel1, ok2, pixel2, pixel_tmps_p cs2))
  = Done (true, [1; 7]%float, false, [1; 7]%float, [[1]; [7]]%float) /\
  Coordinate.toPixel linear1 [7]%float [5]%float
  = Coordinate.mkConversion true [5]%float "".
Proof. repeat split; vm_compute; reflexivity. Qed.

(** Claim C4 fails on this run.  On a system of one linear coordinate with
    one world and one pixel axis, [setLinearTransform] of the 1 x 1
    identity never returns a flag, whatever the fuel: the inner loop,
    whose condition tests [j], does not end and walks [k] out of the
    pixel map. *)
Theorem setLinearTransform_never_returns :
  forall (fuel : nat) (r : bool * System Mock.Coord),
    setLinearTransform fuel linear_only (Mock.identity_matrix 1) <> Some (Done r).
Proof.
  intros [|[|fuel]] r; vm_compute; discriminate.
Qed.

(** Claim C5 fails on this run.  [stokes_linear] and [stokes_linear'] have
    the same number of coordinates, of the same types, and the same world
    and pixel maps, with no axis removed.  Their second coordinates are
    not near each other (reference values 0 and 100), and the second
    coordinate has an unremoved world axis; yet [near] returns [True]:
    it returns the verdict of the first coordinate. *)
Theorem near_compares_first_coordinate_only :
  nCoordinates stokes_linear = nCoordinates stokes_linear' /\
  map Coordinate.type (coordinates_p stokes_linear)
  = map Coordinate.type (coordinates_p stokes_linear') /\
  world_maps_p stokes_linear = world_maps_p stokes_linear' /\
  pixel_maps_p stokes_linear = pixel_maps_p stokes_linear' /\
  worldAxes stokes_linear 1 = Done [1%Z] /\
  coordinate stokes_linear 1 = Done linear1 /\
  coordinate stokes_linear' 1 = Done linear1' /\
  Coordinate.near linear1 linear1' [] 0x1p-20%float = false /\
  near stokes_linear stokes_linear' [] 0x1p-20%float = Done true.
Proof. repeat split; vm_compute; reflexivity. Qed.

(** Claim C9 fails on these runs.  With the spectral coordinate added first
    (its axis is world axis 0) or second (world axis 1), a [toFITSHeader]
    that runs to its end does not call the spectral coordinate's
    [toFITS]; with the spectral coordinate added third (world axis 2) it
    does, with axis 2. *)
Theorem toFITSHeader_spectral_guard :
  (specAxis <$> special_axes spectral_first) = Done 0%Z /\
  toFITSHeader_spectral spectral_first (fun _ => false) "c" = Done None /\
  (specAxis <$> special_axes spectral_second) = Done 1%Z /\
  toFITSHeader_spectral spectral_second (fun _ => false) "c" = Done None /\
  (specAxis <$> special_axes spectral_third) = Done 2%Z /\
  toFITSHeader_spectral spectral_third (fun _ => false) "c" = Done (Some 2%Z).
Proof. repeat split; vm_compute; reflexivity. Qed.



(** A system built with three [addCoordinate]s, a [transpose], a
    [removeWorldAxis] and a [removePixelAxis]. *)
Lemma built_reachable : reachable built_system.
Proof.
  apply (reach_removePixelAxis world_removed 0 17%float); [|vm_compute; reflexivity].
  apply (reach_removeWorldAxis transposed 1 0.5%float); [|vm_compute; reflexivity].
  apply (reach_transpose three [2; 0; 3; 1]%Z [3; 2; 1; 0]%Z); [|vm_compute; reflexivity].
  repeat apply reach_addCoordinate. apply reach_empty.
Qed.

(** [axis_mapping_invariant] on that system. *)
Lemma axis_mapping_invariant_witness :
  (List.NoDup (exposed (world_maps_p built_system)) /\
   forall k, In k (exposed (world_maps_p built_system))
             <-> (0 <= k < Z.of_nat (nWorldAxes built_system))%Z) /\
  (List.NoDup (exposed (pixel_maps_p built_system)) /\
   forall k, In k (exposed (pixel_maps_p built_system))
             <-> (0 <= k < Z.of_nat (nPixelAxes built_system))%Z).
Proof. apply (axis_mapping_invariant built_system). apply built_reachable. Defined.

Lemma two_axes_well_formed : well_formed two_axes.
Proof. apply reachable_well_formed. apply reach_addCoordinate, reach_empty. Qed.

(** Claim C6 as stated fails: after [removeWorldAxis(0)] the system of one
    linear coordinate has one pixel axis and no world axis, and
    [subImage] reads [cdelt(0)] outside the (empty) increment vector. *)
Lemma subImage_needs_world_axes :
  reachable world_axis_gone /\
  nPixelAxes world_axis_gone = 1 /\ nWorldAxes world_axis_gone = 0 /\
  subImage world_axis_gone [0%Z] [1%Z] = Throw OutOfBounds.
Proof.
  split; [|repeat split; vm_compute; reflexivity].
  apply (reach_removeWorldAxis linear_only 0 0%float); [|vm_compute; reflexivity].
  apply reach_addCoordinate, reach_empty.
Qed.

(** The example of the documentation: reference pixel (256, 256) and
    increment (1, 1), shifted by (100, 200) and binned by (2, 2), give
    reference pixel (78, 28) and increment (2, 2); an increment of 0
    throws. *)
Lemma subImage_scenario :
  (subImage two_axes [100; 200]%Z [2; 2]%Z ≫= referencePixel)
  = Done [78; 28]%float /\
  (subImage two_axes [100; 200]%Z [2; 2]%Z ≫= increment)
  = Done [2; 2]%float /\
  subImage two_axes [100; 200]%Z [2; 0]%Z = Throw AipsError.
Proof. repeat split; vm_compute; reflexivity. Qed.

(** [subImage_spec] on the example of the documentation, and on an
    increment of 0. *)
Lemma subImage_spec_witness :
  (exists cs' crpix cdelt crpix' cdelt',
     referencePixel two_axes = Done crpix /\ increment two_axes = Done cdelt /\
     subImage two_axes [100; 200]%Z [2; 2]%Z = Done cs' /\
     referencePixel cs' = Done crpix' /\ increment cs' = Done cdelt' /\
     length crpix' = nPixelAxes two_axes /\ length cdelt' = nWorldAxes two_axes /\
     (forall i p s k,
        crpix !! i = Some p -> [100; 200]%Z !! i = Some s -> [2; 2]%Z !! i = Some k ->
        crpix' !! i
        = Some (PrimFloat.div (PrimFloat.sub p (Double_of_Int s)) (Double_of_Int k))) /\
     (forall i d k,
        cdelt !! i = Some d -> [2; 2]%Z !! i = Some k ->
        cdelt' !! i = Some (PrimFloat.mul d (Double_of_Int k))) /\
     (forall i, nPixelAxes two_axes <= i -> cdelt' !! i = cdelt !! i) /\
     referenceValue cs' = referenceValue two_axes /\
     linearTransform cs' = linearTransform two_axes /\
     worldAxisNames cs' = worldAxisNames two_axes /\
     worldAxisUnits cs' = worldAxisUnits two_axes /\
     world_maps_p cs' = world_maps_p two_axes /\
     pixel_maps_p cs' = pixel_maps_p two_axes) /\
  subImage two_axes [100; 200]%Z [2; 0]%Z = Throw AipsError.
Proof.
  split.
  - apply (subImage_spec Mock.valid mock_lawful two_axes [100; 200]%Z [2; 2]%Z).
    + apply two_axes_well_formed.
    + repeat constructor.
    + vm_compute. lia.
    + reflexivity.
    + reflexivity.
    + repeat constructor; lia.
  - apply (subImage_spec Mock.valid mock_lawful two_axes [100; 200]%Z [2; 0]%Z).
    + apply two_axes_well_formed.
    + repeat constructor.
    + vm_compute. lia.
    + reflexivity.
    + reflexivity.
    + apply Exists_cons_tl, Exists_cons_hd. lia.
Defined.

(** Claim C7 as stated fails: a change from km to m succeeds and multiplies
    the increment by 1000, and the units the base-class function leaves
    are still km. *)
Lemma setWorldAxisUnits_leaves_units :
  let r := Coordinate.setWorldAxisUnits Mock.unit_value linear1 ["m"] in
  r.1.1 = true /\
  Coordinate.worldAxisUnits linear1 = ["km"] /\
  Coordinate.worldAxisUnits r.1.2 = ["km"] /\
  Coordinate.increment r.1.2 = [1000%float] /\
  ["km"] <> ["m"].
Proof. repeat split; try (vm_compute; reflexivity). discriminate. Qed.

(** [setWorldAxisUnits_spec] on a change from km to m. *)
Lemma setWorldAxisUnits_spec_witness :
  let c := linear1 in
  let u := ["m"] in
  let r := Coordinate.setWorldAxisUnits Mock.unit_value c u in
  let f := zip_with (Coordinate.unit_ratio Mock.unit_value) (Coordinate.worldAxisUnits c) u in
  r.1.1 = true /\ r.2 = None /\
  Coordinate.increment r.1.2 = Coordinate.vmul (Coordinate.increment c) f /\
  Coordinate.referenceValue r.1.2 = Coordinate.vmul (Coordinate.referenceValue c) f /\
  Coordinate.worldAxisUnits r.1.2 = Coordinate.worldAxisUnits c.
Proof.
  intros c u r f.
  destruct (setWorldAxisUnits_spec Mock.unit_value Mock.valid mock_lawful
              linear1 ["m"] eq_refl eq_refl eq_refl) as (_ & H & _).
  apply H.
  - intros E. vm_compute in E. discriminate.
  - constructor; [|constructor].
    exists ([1; 0]%Z, 1000%float), ([1; 0]%Z, 1%float). repeat split; reflexivity.
Defined.

(** [transpose_inverse_restores] on four axes, the world axes rotated and
    the pixel axes reversed, where both calls return; and on a system of
    two world axes and one pixel axis, where both throw. *)
Lemma transpose_inverse_restores_witness :
  (let cs1 := after three (transpose three [2; 0; 3; 1]%Z [3; 2; 1; 0]%Z) in
   let cs2 := after cs1 (transpose cs1 [1; 3; 0; 2]%Z [3; 2; 1; 0]%Z) in
   (referenceValue cs2 = referenceValue three /\
    referencePixel cs2 = referencePixel three /\
    increment cs2 = increment three /\
    linearTransform cs2 = linearTransform three /\
    worldAxisNames cs2 = worldAxisNames three /\
    worldAxisUnits cs2 = worldAxisUnits three) /\
   transpose three [2; 0; 3; 1]%Z [3; 2; 1; 0]%Z = Done cs1 /\
   transpose cs1 [1; 3; 0; 2]%Z [3; 2; 1; 0]%Z = Done cs2) /\
  (let cs1 := after pixel_axis_gone (transpose pixel_axis_gone [1; 0]%Z [0]%Z) in
   let cs2 := after cs1 (transpose cs1 [1; 0]%Z [0]%Z) in
   (referenceValue cs2 = referenceValue pixel_axis_gone /\
    referencePixel cs2 = referencePixel pixel_axis_gone /\
    increment cs2 = increment pixel_axis_gone /\
    linearTransform cs2 = linearTransform pixel_axis_gone /\
    worldAxisNames cs2 = worldAxisNames pixel_axis_gone /\
    worldAxisUnits cs2 = worldAxisUnits pixel_axis_gone) /\
   transpose pixel_axis_gone [1; 0]%Z [0]%Z = Throw OutOfBounds /\
   transpose cs1 [1; 0]%Z [0]%Z = Throw OutOfBounds).
Proof.
  split.
  - destruct (transpose_inverse_restores three [2; 0; 3; 1]%Z [1; 3; 0; 2]%Z
                [3; 2; 1; 0]%Z [3; 2; 1; 0]%Z) as (Hsame & Hret & _).
    + apply reachable_well_formed. repeat apply reach_addCoordinate. apply reach_empty.
    + apply verify_order_iff; reflexivity.
    + apply verify_order_iff; reflexivity.
    + split; [reflexivity|]. intros [|[|[|[|i]]]] o H; inversion H; reflexivity.
    + split; [reflexivity|]. intros [|[|[|[|i]]]] o H; inversion H; reflexivity.
    + split; [exact Hsame|]. apply Hret. vm_compute. lia.
  - destruct (transpose_inverse_restores pixel_axis_gone [1; 0]%Z [1; 0]%Z
                [0]%Z [0]%Z) as (Hsame & _ & Hthrow).
    + apply reachable_well_formed.
      apply (reach_removePixelAxis two_axes 1 0%float); [|vm_compute; reflexivity].
      apply reach_addCoordinate, reach_empty.
    + apply verify_order_iff; reflexivity.
    + apply verify_order_iff; reflexivity.
    + split; [reflexivity|]. intros [|[|i]] o H; inversion H; reflexivity.
    + split; [reflexivity|]. intros [|i] o H; inversion H; reflexivity.
    + split; [exact Hsame|]. apply Hthrow. vm_compute. lia.
Defined.

(** [save_spec] on a system of three coordinates and an empty container. *)
Lemma save_spec_witness :
  exists subrec,
    save three ∅ "coords" = Done (true, <["coords" := FieldRecord subrec]> ∅) /\
    (forall k c, coordinates_p three !! k = Some c -> stored three subrec k c) /\
    (forall key, is_Some (subrec !! key) ->
       exists k c, coordinates_p three !! k = Some c /\
                   In key (coordinate_fields c k)).
Proof.
  apply (save_spec three ∅ "coords").
  - apply mock_save_law.
  - apply reachable_well_formed. repeat apply reach_addCoordinate. apply reach_empty.
  - apply lookup_empty.
Defined.

End Scenarios.

(** ** The examples of the further properties *)

Module LawScenarios.
Import CoordinateSystem CoordinateSystemTheory CompositeLaws FitsLaws.
Import Examples Scenarios.

Lemma three_well_formed : well_formed three.
Proof. apply reachable_well_formed. repeat apply reach_addCoordinate. apply reach_empty. Qed.

Lemma stokes_linear_well_formed : well_formed stokes_linear.
Proof. apply reachable_well_formed. repeat apply reach_addCoordinate. apply reach_empty. Qed.

Lemma built_well_formed : well_formed built_system.
Proof. apply reachable_well_formed, built_reachable. Qed.

Lemma linear_pair_removed_well_formed : well_formed linear_pair_removed.
Proof.
  apply reachable_well_formed.
  apply (reach_removeWorldAxis linear_pair 1 0.5%float); [|vm_compute; reflexivity].
  repeat apply reach_addCoordinate. apply reach_empty.
Qed.

(** The conversions of the example coordinates give one output per axis. *)
Lemma three_toWorld_lengths (c : Mock.Coord) (w p : list Double) :
  In c (coordinates_p three) ->
  length w = Coordinate.nWorldAxes c -> length p = Coordinate.nPixelAxes c ->
  length (Coordinate.conv_out (Coordinate.toWorld c w p)) = Coordinate.nWorldAxes c.
Proof.
  intros [<-|[<-|[<-|[]]]] Hw Hp; simpl in *; unfold Mock.toWorld;
    destruct (existsb Mock.negative p); simpl; try assumption;
    repeat (destruct p as [|? p]; try discriminate); reflexivity.
Qed.

Lemma three_toPixel_lengths (c : Mock.Coord) (w p : list Double) :
  In c (coordinates_p three) ->
  length w = Coordinate.nPixelAxes c -> length p = Coordinate.nWorldAxes c ->
  length (Coordinate.conv_out (Coordinate.toPixel c w p)) = Coordinate.nPixelAxes c.
Proof.
  intros [<-|[<-|[<-|[]]]] Hw Hp; simpl in *; unfold Mock.toPixel;
    match goal with |- context [existsb Mock.negative ?l] =>
      destruct (existsb Mock.negative l) end; simpl; try assumption;
    repeat (destruct p as [|? p]; try discriminate); reflexivity.
Qed.

(** [Mock.restore] gives back the coordinates of [linear_pair_removed]. *)
Lemma mock_restore_law : restore_law Mock.restore linear_pair_removed.
Proof.
  intros c name r rec' Hin (rec & Hfree & Hsave) Hrec.
  simpl in Hsave. unfold Mock.save in Hsave.
  rewrite bool_decide_eq_false_2 in Hsave by (rewrite Hfree; apply is_Some_None).
  injection Hsave as Hsave.
  apply (f_equal (fun m => m !! name)) in Hsave.
  rewrite !lookup_insert_eq in Hsave. injection Hsave as <-.
  unfold Mock.restore. rewrite Hrec.
  destruct Hin as [<-|[<-|[]]]; reflexivity.
Qed.

(** [addCoordinate_axes]: a two-axis coordinate added to two one-axis ones. *)
Lemma addCoordinate_axes_witness :
  let cs' := addCoordinate stokes_linear linear2 zeros in
  nCoordinates cs' = S (nCoordinates stokes_linear) /\
  coordinate cs' (nCoordinates stokes_linear) = Done linear2 /\
  nWorldAxes cs' = nWorldAxes stokes_linear + Coordinate.nWorldAxes linear2 /\
  nPixelAxes cs' = nPixelAxes stokes_linear + Coordinate.nPixelAxes linear2 /\
  (forall j, j < Coordinate.nWorldAxes linear2 ->
     findWorldAxis cs' (nWorldAxes stokes_linear + j)
     = Done (Z.of_nat (nCoordinates stokes_linear), Z.of_nat j)) /\
  (forall j, j < Coordinate.nPixelAxes linear2 ->
     findPixelAxis cs' (nPixelAxes stokes_linear + j)
     = Done (Z.of_nat (nCoordinates stokes_linear), Z.of_nat j)) /\
  (forall i, i < nWorldAxes stokes_linear ->
     findWorldAxis cs' i = findWorldAxis stokes_linear i) /\
  (forall i, i < nPixelAxes stokes_linear ->
     findPixelAxis cs' i = findPixelAxis stokes_linear i).
Proof.
  apply (addCoordinate_axes stokes_linear linear2 zeros), stokes_linear_well_formed.
Defined.

(** [removeWorldAxis_spec]: world axis 1 of four is removed; axis 4 is
    refused. *)
Lemma removeWorldAxis_spec_witness :
  (exists cs' coord caxis,
     findWorldAxis three 1 = Done (Z.of_nat coord, Z.of_nat caxis) /\
     removeWorldAxis three 1 0.5%float = Done cs' /\
     S (nWorldAxes cs') = nWorldAxes three /\
     nPixelAxes cs' = nPixelAxes three /\
     coordinates_p cs' = coordinates_p three /\
     entry (world_maps_p cs') coord caxis = Some (-1)%Z /\
     entry (world_replacement_values_p cs') coord caxis = Some 0.5%float /\
     (forall i, i < 1 -> findWorldAxis cs' i = findWorldAxis three i) /\
     (forall i, 1 <= i -> S i < nWorldAxes three ->
        findWorldAxis cs' i = findWorldAxis three (S i)) /\
     (forall i, findPixelAxis cs' i = findPixelAxis three i)) /\
  removeWorldAxis three 4 0.5%float = Throw AipsError.
Proof.
  split.
  - apply (removeWorldAxis_spec three 1 0.5%float three_well_formed).
    vm_compute. lia.
  - apply (removeWorldAxis_spec three 4 0.5%float three_well_formed).
    vm_compute. lia.
Defined.

(** [removePixelAxis_spec]: pixel axis 0 of four is removed; axis 4 is
    refused. *)
Lemma removePixelAxis_spec_witness :
  (exists cs' coord caxis,
     findPixelAxis three 0 = Done (Z.of_nat coord, Z.of_nat caxis) /\
     removePixelAxis three 0 17%float = Done cs' /\
     S (nPixelAxes cs') = nPixelAxes three /\
     nWorldAxes cs' = nWorldAxes three /\
     coordinates_p cs' = coordinates_p three /\
     entry (pixel_maps_p cs') coord caxis = Some (-1)%Z /\
     entry (pixel_replacement_values_p cs') coord caxis = Some 17%float /\
     (forall i, i < 0 -> findPixelAxis cs' i = findPixelAxis three i) /\
     (forall i, 0 <= i -> S i < nPixelAxes three ->
        findPixelAxis cs' i = findPixelAxis three (S i)) /\
     (forall i, findWorldAxis cs' i = findWorldAxis three i)) /\
  removePixelAxis three 4 17%float = Throw AipsError.
Proof.
  split.
  - apply (removePixelAxis_spec three 0 17%float three_well_formed).
    vm_compute. lia.
  - apply (removePixelAxis_spec three 4 17%float three_well_formed).
    vm_compute. lia.
Defined.

(** [removed_axis_leaves_descriptors]: the names and the reference values
    once world axis 1 of [transposed] is gone. *)
Lemma removed_axis_leaves_descriptors_witness :
  worldAxisNames world_removed = Done ["x"; "x"; "x"] /\
  referenceValue world_removed = Done [0%float; 0%float; 0%float] /\
  referencePixel world_removed = referencePixel transposed.
Proof.
  destruct (removed_axis_leaves_descriptors transposed world_removed 1 0.5%float)
    as [H _].
  - apply reachable_well_formed.
    apply (reach_transpose three [2; 0; 3; 1]%Z [3; 2; 1; 0]%Z);
      [|vm_compute; reflexivity].
    repeat apply reach_addCoordinate. apply reach_empty.
  - destruct H as (Hn & _ & Hv & _ & Hp); [vm_compute; reflexivity|].
    split; [|split].
    + apply (Hn ["x"; "Stokes"; "x"; "x"]). vm_compute. reflexivity.
    + apply (Hv [0%float; 0%float; 0%float; 0%float]). vm_compute. reflexivity.
    + exact Hp.
Defined.

Lemma pixel_axis_gone_well_formed : well_formed pixel_axis_gone.
Proof.
  apply reachable_well_formed.
  apply (reach_removePixelAxis two_axes 1 0%float); [|vm_compute; reflexivity].
  apply reach_addCoordinate, reach_empty.
Qed.

(** [transpose_spec]: the world axes rotated, the pixel axes reversed; an
    order with a repeated axis is refused; and a system of two world axes
    and one pixel axis, where also the identity is refused. *)
Lemma transpose_spec_witness :
  (exists cs',
     transpose three [2; 0; 3; 1]%Z [3; 2; 1; 0]%Z = Done cs' /\
     coordinates_p cs' = coordinates_p three /\
     nWorldAxes cs' = nWorldAxes three /\ nPixelAxes cs' = nPixelAxes three /\
     (forall i o, [2; 0; 3; 1]%Z !! i = Some o ->
        findWorldAxis cs' i = findWorldAxis three (Z.to_nat o)) /\
     (forall i o, [3; 2; 1; 0]%Z !! i = Some o ->
        findPixelAxis cs' i = findPixelAxis three (Z.to_nat o))) /\
  transpose three [2; 0; 2; 1]%Z [3; 2; 1; 0]%Z = Throw AipsError /\
  transpose pixel_axis_gone [0; 1]%Z [0]%Z = Throw OutOfBounds.
Proof.
  split; [|split].
  - apply (transpose_spec three [2; 0; 3; 1]%Z [3; 2; 1; 0]%Z three_well_formed).
    + vm_compute. lia.
    + apply verify_order_iff; reflexivity.
    + apply verify_order_iff; reflexivity.
  - apply (transpose_spec three [2; 0; 2; 1]%Z [3; 2; 1; 0]%Z three_well_formed).
    intros [Hw _]. apply (verify_order_iff [2; 0; 2; 1]%Z 4 eq_refl) in Hw.
    vm_compute in Hw. discriminate.
  - destruct (transpose_spec pixel_axis_gone [0; 1]%Z [0]%Z
                pixel_axis_gone_well_formed) as (_ & Hthrow & _).
    destruct Hthrow as [_ H]; [vm_compute; lia|].
    apply H; apply verify_order_iff; reflexivity.
Defined.

(** [transpose_permutes_descriptors] on the same transposition. *)
Lemma transpose_permutes_descriptors_witness :
  (forall names, worldAxisNames three = Done names ->
     exists names', worldAxisNames transposed = Done names' /\
                    permuted [2; 0; 3; 1]%Z names names') /\
  (forall units, worldAxisUnits three = Done units ->
     exists units', worldAxisUnits transposed = Done units' /\
                    permuted [2; 0; 3; 1]%Z units units') /\
  (forall refval, referenceValue three = Done refval ->
     exists refval', referenceValue transposed = Done refval' /\
                     permuted [2; 0; 3; 1]%Z refval refval') /\
  (forall inc, increment three = Done inc ->
     exists inc', increment transposed = Done inc' /\
                  permuted [2; 0; 3; 1]%Z inc inc') /\
  (forall refpix, referencePixel three = Done refpix ->
     exists refpix', referencePixel transposed = Done refpix' /\
                     permuted [3; 2; 1; 0]%Z refpix refpix').
Proof.
  apply (transpose_permutes_descriptors three transposed
           [2; 0; 3; 1]%Z [3; 2; 1; 0]%Z three_well_formed).
  vm_compute. reflexivity.
Defined.

(** [restoreOriginal_undoes]: the transposition and the two removals that
    made [built_system] are undone, on storage that holds sevens. *)
Lemma restoreOriginal_undoes_witness :
  let built := add_from (fun _ => zeros) 0 [stokes1; linear1; linear2] empty in
  let cs' := restoreOriginal built_system (fun _ => sevens) in
  cs' = add_from (fun _ => sevens) 0 [stokes1; linear1; linear2] empty /\
  coordinates_p cs' = coordinates_p built /\
  world_maps_p cs' = world_maps_p built /\
  pixel_maps_p cs' = pixel_maps_p built.
Proof.
  apply (restoreOriginal_undoes [stokes1; linear1; linear2]
           (fun _ => zeros) (fun _ => sevens) built_system).
  apply (rtc_l _ _ transposed).
  { right. right. exists [2; 0; 3; 1]%Z, [3; 2; 1; 0]%Z. vm_compute. reflexivity. }
  apply (rtc_l _ _ world_removed).
  { left. exists 1, 0.5%float. vm_compute. reflexivity. }
  apply (rtc_l _ _ built_system).
  { right. left. exists 0, 17%float. vm_compute. reflexivity. }
  apply rtc_refl.
Defined.

(** [worldAxes_pixelAxes_spec] on the third coordinate of [built_system]
    and on a coordinate it does not have. *)
Lemma worldAxes_pixelAxes_spec_witness :
  (forall block, world_maps_p built_system !! 2 = Some block ->
     worldAxes built_system 2 = Done (map exposed_or_gone block)) /\
  (forall block, pixel_maps_p built_system !! 2 = Some block ->
     pixelAxes built_system 2 = Done (map exposed_or_gone block)) /\
  worldAxes built_system 3 = Throw AipsError /\
  pixelAxes built_system 3 = Throw AipsError.
Proof.
  destruct (worldAxes_pixelAxes_spec built_system 2 built_well_formed) as (Hw & Hp & _).
  destruct (worldAxes_pixelAxes_spec built_system 3 built_well_formed) as (_ & _ & Hout).
  split; [exact Hw|]. split; [exact Hp|]. apply Hout. vm_compute. lia.
Defined.

(** [pixelAxisToWorldAxis_spec] on pixel axis 1 of [built_system], and on
    an axis it does not have. *)
Lemma pixelAxisToWorldAxis_spec_witness :
  (exists coord axis,
     findPixelAxis built_system 1 = Done (Z.of_nat coord, Z.of_nat axis) /\
     (forall w, entry (world_maps_p built_system) coord axis = Some w ->
        pixelAxisToWorldAxis built_system 1 = Done (exposed_or_gone w)) /\
     (entry (world_maps_p built_system) coord axis = None ->
        pixelAxisToWorldAxis built_system 1 = Throw OutOfBounds)) /\
  pixelAxisToWorldAxis built_system 3 = Throw AipsError.
Proof.
  split.
  - apply (pixelAxisToWorldAxis_spec built_system 1 built_well_formed).
    vm_compute. lia.
  - apply (pixelAxisToWorldAxis_spec built_system 3 built_well_formed).
    vm_compute. lia.
Defined.

Lemma three_valid : Forall Mock.valid (coordinates_p three).
Proof. repeat constructor. Qed.

(** [setters_round_trip] on the system of three coordinates. *)
Lemma setters_round_trip_witness :
  (forall v, length v = nPixelAxes three ->
     exists cs', setReferencePixel three v = Done (true, cs') /\
       referencePixel cs' = Done v /\
       referenceValue cs' = referenceValue three /\ increment cs' = increment three) /\
  (forall v, length v = nWorldAxes three ->
     exists cs', setReferenceValue three v = Done (true, cs') /\
       referenceValue cs' = Done v /\
       referencePixel cs' = referencePixel three /\ increment cs' = increment three) /\
  (forall v, length v = nWorldAxes three ->
     exists cs', setIncrement three v = Done (true, cs') /\
       increment cs' = Done v /\
       referencePixel cs' = referencePixel three /\
       referenceValue cs' = referenceValue three).
Proof.
  apply (setters_round_trip Mock.valid mock_lawful three three_well_formed three_valid).
Defined.

(** [setters_attempt_every_coordinate]: new increments for [built_system],
    which has lost a world axis. *)
Lemma setters_attempt_every_coordinate_witness :
  let inc := [2%float; 3%float; 4%float] in
  let results := zip_with (fun c m => Coordinate.setIncrement c
                             (scatter m inc (Coordinate.increment c)))
                          (coordinates_p built_system) (world_maps_p built_system) in
  setIncrement built_system inc
  = Done (forallb fst results, with_coordinates built_system (map snd results)).
Proof.
  destruct (setters_attempt_every_coordinate built_system built_well_formed)
    as (_ & _ & H & _).
  apply (H [2%float; 3%float; 4%float]).
  - repeat constructor.
  - reflexivity.
Defined.

(** [toWorld_spec] on the system of three coordinates. *)
Lemma toWorld_spec_witness :
  let world := [0%float; 0%float; 0%float; 0%float] in
  let pixel := [1%float; 7%float; 2%float; 3%float] in
  exists ok world' cs',
    toWorld three world pixel = Done (ok, world', cs') /\
    well_formed cs' /\
    coordinates_p cs' = coordinates_p three /\
    world_maps_p cs' = world_maps_p three /\ pixel_maps_p cs' = pixel_maps_p three /\
    world_replacement_values_p cs' = world_replacement_values_p three /\
    pixel_replacement_values_p cs' = pixel_replacement_values_p three /\
    length world' = length world /\
    (ok = true <->
     forall i r, toWorld_of three pixel i = Some r -> Coordinate.conv_ok r = true) /\
    (ok = true ->
     forall i j w r, entry (world_maps_p three) i j = Some w -> (0 <= w)%Z ->
       toWorld_of three pixel i = Some r ->
       world' !! Z.to_nat w = Coordinate.conv_out r !! j).
Proof.
  apply (toWorld_spec three [0%float; 0%float; 0%float; 0%float]
           [1%float; 7%float; 2%float; 3%float] three_well_formed
           three_toWorld_lengths); reflexivity.
Defined.

(** [toPixel_spec] on the system of three coordinates. *)
Lemma toPixel_spec_witness :
  let pixel := [0%float; 0%float; 0%float; 0%float] in
  let world := [1%float; 7%float; 2%float; 3%float] in
  exists ok pixel' cs',
    toPixel three pixel world = Done (ok, pixel', cs') /\
    well_formed cs' /\
    coordinates_p cs' = coordinates_p three /\
    pixel_maps_p cs' = pixel_maps_p three /\ world_maps_p cs' = world_maps_p three /\
    pixel_replacement_values_p cs' = pixel_replacement_values_p three /\
    world_replacement_values_p cs' = world_replacement_values_p three /\
    length pixel' = length pixel /\
    (ok = true <->
     forall i r, toPixel_of three world i = Some r -> Coordinate.conv_ok r = true) /\
    (ok = true ->
     forall i j w r, entry (pixel_maps_p three) i j = Some w -> (0 <= w)%Z ->
       toPixel_of three world i = Some r ->
       pixel' !! Z.to_nat w = Coordinate.conv_out r !! j).
Proof.
  apply (toPixel_spec three [0%float; 0%float; 0%float; 0%float]
           [1%float; 7%float; 2%float; 3%float] three_well_formed
           three_toPixel_lengths); reflexivity.
Defined.

(** [save_restore_round_trip]: two linear coordinates, one world axis
    removed, saved into an empty record and restored. *)
Lemma save_restore_round_trip_witness :
  exists container',
    save linear_pair_removed ∅ "coords" = Done (true, container') /\
    restore Mock.restore 3 container' "coords" (fun _ => zeros) (fun _ => sevens)
    = Some (Done (Some (fresh_tmps (fun _ => sevens) linear_pair_removed))).
Proof.
  apply (save_restore_round_trip Mock.restore linear_pair_removed ∅ "coords" 3
           (fun _ => zeros) (fun _ => sevens)
           mock_save_law mock_restore_law linear_pair_removed_well_formed).
  - apply lookup_empty.
  - vm_compute. lia.
Defined.

(** [fits_string_spec] on a name of nine characters. *)
Lemma fits_string_spec_witness :
  exists r,
    fits_string 9 "Frequency" = Some r /\
    String.length r = 8 /\
    (String.length "Frequency" <= 8 ->
       r = upcase "Frequency" +:+ spaces (8 - String.length "Frequency")) /\
    (8 <= String.length "Frequency" -> r = upcase (String.substring 0 8 "Frequency")) /\
    fits_string 9 r = Some r.
Proof. apply (fits_string_spec 9 "Frequency"). lia. Defined.

Lemma header_placeable : placeable 1 2 (-1) 3 5.
Proof. constructor; lia. Qed.

(** [fits_order_permutation] on a header of five axes: a linear one,
    longitude, latitude, frequency, another linear one. *)
Lemma fits_order_permutation_witness :
  exists order,
    fits_order 5 1 2 (-1) 3 [0; 0; 0; 0; 0]%Z = Done order /\
    Permutation order (Zseq 5) /\
    ((0 <= 1)%Z ->
       order !! Z.to_nat 1 = Some 0%Z /\ order !! Z.to_nat 2 = Some 1%Z) /\
    ((0 <= -1)%Z ->
       order !! Z.to_nat (-1) = Some (if (0 <=? 1)%Z then 2 else 0)%Z) /\
    ((0 <= 3)%Z ->
       order !! Z.to_nat 3 = Some (if (0 <=? -1)%Z then 3 else 2)%Z) /\
    (forall i j, i < j < 5 ->
       special_axis 1 2 (-1) 3 i = false -> special_axis 1 2 (-1) 3 j = false ->
       exists a b, order !! i = Some a /\ order !! j = Some b /\
                   (nspecial 1 2 (-1) 3 <= a < b)%Z).
Proof.
  apply (fits_order_permutation 1 2 (-1) 3 5 [0; 0; 0; 0; 0]%Z header_placeable).
  - lia.
  - reflexivity.
Defined.

(** [fits_order_spectral_without_direction] on a header of a Stokes and a
    frequency axis. *)
Lemma fits_order_spectral_without_direction_witness :
  exists order,
    fits_order 2 (-1) (-1) 0 1 [7; 7]%Z = Done order /\
    ((0 <= 0)%Z ->
       order !! Z.to_nat 0 = Some 0%Z /\
       order !! Z.to_nat 1 = Some 0%Z /\
       forall cs : System Mock.Coord, transpose cs order order = Throw AipsError) /\
    ((0 < 0)%Z -> order !! Z.to_nat 1 = [7; 7]%Z !! Z.to_nat 1).
Proof.
  apply (fits_order_spectral_without_direction (-1) (-1) 0 1 2 [7; 7]%Z); try lia.
  reflexivity.
Defined.

Lemma three_shaped :
  Forall (fun c => shaped (Coordinate.nWorldAxes c) (Coordinate.nPixelAxes c)
                          (Coordinate.linearTransform c)) (coordinates_p three).
Proof. repeat constructor. Qed.

(** [linearTransform_spec] on the system of three coordinates. *)
Lemma linearTransform_spec_witness :
  exists m,
    linearTransform three = Done m /\
    shaped (nWorldAxes three) (nPixelAxes three) m /\
    forall i j wc wa pc pa,
      i < nWorldAxes three -> j < nPixelAxes three ->
      findWorldAxis three i = Done (wc, wa) -> findPixelAxis three j = Done (pc, pa) ->
      matrix_at m (Z.of_nat i) (Z.of_nat j)
      = if (wc =? pc)%Z
        then c ← at_Z (coordinates_p three) wc;
             matrix_at (Coordinate.linearTransform c) wa pa
        else Done 0%float.
Proof. apply (linearTransform_spec three three_well_formed three_shaped). Defined.

(** [addCoordinate_appends_descriptors]: the names and the reference
    pixels once [linear2] is added to [stokes_linear]. *)
Lemma addCoordinate_appends_descriptors_witness :
  worldAxisNames (addCoordinate stokes_linear linear2 zeros)
  = Done (["Stokes"; "x"] ++ Coordinate.worldAxisNames linear2) /\
  referencePixel (addCoordinate stokes_linear linear2 zeros)
  = Done ([0%float; 0%float] ++ Coordinate.referencePixel linear2).
Proof.
  destruct (addCoordinate_appends_descriptors stokes_linear linear2 zeros
              stokes_linear_well_formed) as (Hn & _ & _ & _ & Hp).
  split.
  - apply (Hn ["Stokes"; "x"]); reflexivity.
  - apply (Hp [0%float; 0%float]); reflexivity.
Defined.

End LawScenarios.
